(** * Alignment engine of [transcribe.py]: a shallow embedding and its properties

    The development follows
    [SCRIPTS/AudioScripts/Transcriber/transcribe.py].  Python integers are
    unbounded and are modelled by [Z].  Python floats are modelled by exact
    rationals [Q]: the constants of the script (0.2, 0.6, 0.8, 1.2, ...) and the
    quotients it forms are taken at their mathematical value, [round] is
    Python's round-half-to-even and [int] truncates toward zero. *)

From Stdlib Require Import Ascii String.
From Stdlib Require Import ZArith QArith Qround Qminmax List Bool Lia Lqa.
Import ListNotations.

Local Open Scope Z_scope.

(** ** Python numerics *)

Module PyNum.

(** [round(x)] on a float: nearest integer, ties to the even neighbour. *)
Definition py_round (q : Q) : Z :=
  let f := Qfloor q in
  match Qcompare (q - inject_Z f) (1 # 2) with
  | Lt => f
  | Gt => f + 1
  | Eq => if Z.even f then f else f + 1
  end.

(** [int(x)] on a float: truncation toward zero. *)
Definition py_int (q : Q) : Z := Z.quot (Qnum q) (Zpos (Qden q)).

Definition Qltb (x y : Q) : bool := negb (Qle_bool y x).

Definition Qmax0 (x : Q) : Q := if Qle_bool 0 x then x else 0%Q.

(** [sum(xs)] on a list of integers. *)
Definition zsum (xs : list Z) : Z := fold_right Z.add 0 xs.

(** [sum(xs)] on a list of floats. *)
Definition qsum (xs : list Q) : Q := fold_right Qplus 0%Q xs.

(** [xs[i] = v]; the script only writes at indices it has just read. *)
Fixpoint set_nth (i : nat) (v : Z) (xs : list Z) : list Z :=
  match xs, i with
  | [], _ => []
  | _ :: t, O => v :: t
  | h :: t, S i' => h :: set_nth i' v t
  end.

(** [xs[-1] += d] on a non-empty list. *)
Fixpoint add_last (d : Z) (xs : list Z) : list Z :=
  match xs with
  | [] => []
  | [x] => [x + d]
  | x :: t => x :: add_last d t
  end.

End PyNum.
Import PyNum.

(** ** [_weighted_durations] *)

Module Durations.

Definition MIN_MATCH_MS : Z := 200.

(** The drift loop
    [while diff != 0 and i < n * 2: idx = i % n; ...; i += 1];
    [k] is the number of iterations still allowed, [2 * n - i]. *)
Fixpoint drift_loop (k i n : nat) (step : Z) (out : list Z) (diff : Z)
  : list Z * Z :=
  match k with
  | O => (out, diff)
  | S k' =>
      if diff =? 0 then (out, diff)
      else
        let idx := (i mod n)%nat in
        let cur := nth idx out 0 in
        if 0 <=? cur + step
        then drift_loop k' (S i) n step (set_nth idx (cur + step) out) (diff - step)
        else drift_loop k' (S i) n step out diff
  end.

Definition fix_drift (total_ms : Z) (out : list Z) : list Z :=
  let n := length out in
  let diff := total_ms - zsum out in
  if diff =? 0 then out
  else
    let step := if 0 <? diff then 1 else -1 in
    fst (drift_loop (n * 2) 0 n step out diff).

Definition clamp_one (out : list Z) : list Z :=
  map (fun x => if x <? 1 then 1 else x) out.

Definition settle_last (total_ms : Z) (out : list Z) : list Z :=
  let total := zsum out in
  if total =? total_ms then out else add_last (total_ms - total) out.

Definition raw_durations (total_ms : Z) (weights : list Z) (min_each : Z)
  : list Q :=
  let n := Z.of_nat (length weights) in
  let min_each_f :=
    if Qltb (inject_Z total_ms) (inject_Z min_each * inject_Z n)
    then (inject_Z total_ms / inject_Z n)%Q
    else inject_Z min_each in
  let weight_sum :=
    if zsum weights =? 0 then 1%Q else inject_Z (zsum weights) in
  let remaining := Qmax0 (inject_Z total_ms - min_each_f * inject_Z n) in
  map (fun w => (min_each_f + remaining * (inject_Z w / weight_sum))%Q) weights.

(** The exact share of a weight [w], before any rounding: [total_ms / n]
    when the floor of [min_each] per entry does not fit, else [min_each]
    plus the part of the remainder that is proportional to [w]. *)
Definition exact_share (total_ms : Z) (weights : list Z) (min_each : Z) (w : Z)
  : Q :=
  let n := Z.of_nat (length weights) in
  if Qltb (inject_Z total_ms) (inject_Z min_each * inject_Z n)
  then (inject_Z total_ms / inject_Z n)%Q
  else (inject_Z min_each
        + (inject_Z total_ms - inject_Z min_each * inject_Z n)
          * (inject_Z w / inject_Z (zsum weights)))%Q.

Definition _weighted_durations (total_ms : Z) (weights : list Z) (min_each : Z)
  : list Z :=
  match weights with
  | [] => []
  | _ =>
      if total_ms <=? 0 then repeat 0 (length weights)
      else
        let raw := raw_durations total_ms weights min_each in
        let out := map py_round raw in
        let out := fix_drift total_ms out in
        settle_last total_ms (clamp_one out)
  end.

End Durations.
Import Durations.


(** ** Python strings

    A [str] is a sequence of Unicode code points.  [isspace] is the set of
    code points for which [str.isspace] holds, which is also the class [\s]
    of the [re] module on [str] patterns. *)

Module PyStr.

Definition pystr := list Z.

Definition isspace (c : Z) : bool :=
  ((9 <=? c) && (c <=? 13)) || ((28 <=? c) && (c <=? 32)) ||
  (c =? 133) || (c =? 160) || (c =? 5760) ||
  ((8192 <=? c) && (c <=? 8202)) || (c =? 8232) || (c =? 8233) ||
  (c =? 8239) || (c =? 8287) || (c =? 12288).

Definition str_eqb (a b : pystr) : bool :=
  if list_eq_dec Z.eq_dec a b then true else false.

(** Truthiness of a string: [if s]. *)
Definition nonempty_list {A} (s : list A) : bool :=
  match s with [] => false | _ => true end.

Definition nonempty (s : pystr) : bool :=
  match s with [] => false | _ => true end.

(** [len(s)] *)
Definition len {A} (xs : list A) : Z := Z.of_nat (length xs).

Fixpoint lstrip (s : pystr) : pystr :=
  match s with
  | c :: t => if isspace c then lstrip t else s
  | [] => []
  end.

Definition rstrip (s : pystr) : pystr := rev (lstrip (rev s)).

Definition strip (s : pystr) : pystr := rstrip (lstrip s).

(** [xs[i:j]] for indices [0 <= i]; the script never slices with a negative
    index. *)
Definition slice {A} (i j : Z) (xs : list A) : list A :=
  firstn (Z.to_nat (j - i)) (skipn (Z.to_nat i) xs).

(** [" ".join(parts)] *)
Fixpoint join_space (parts : list pystr) : pystr :=
  match parts with
  | [] => []
  | [p] => p
  | p :: rest => p ++ 32 :: join_space rest
  end.

(** [s.lower()] on the ASCII letters; word texts and sentence tokens have
    been through [unidecode], which yields ASCII. *)
Definition lower (s : pystr) : pystr :=
  map (fun c => if (65 <=? c) && (c <=? 90) then c + 32 else c) s.

Definition is_compact_char (c : Z) : bool :=
  ((48 <=? c) && (c <=? 57)) || ((97 <=? c) && (c <=? 122)).

(** [_compact_for_match]: [_COMPACT_RE.sub("", s.lower())] with
    [_COMPACT_RE = [^0-9a-z]+]. *)
Definition _compact_for_match (s : pystr) : pystr :=
  filter is_compact_char (lower s).

Definition _compact_token_eq (a b : pystr) : bool :=
  if negb (nonempty a) || negb (nonempty b) then false
  else str_eqb (_compact_for_match a) (_compact_for_match b).

(** String literals of the examples: the code points of an ASCII string. *)
Fixpoint lit (s : String.string) : pystr :=
  match s with
  | String.EmptyString => []
  | String.String c t => Z.of_N (Ascii.N_of_ascii c) :: lit t
  end.

Arguments lit s%_string.

End PyStr.
Import PyStr.

(** ** The incremental aligner *)

Module Aligner.

(** [MAX_EXTRA_TOKENS] *)
Definition MAX_EXTRA_TOKENS : Z := 6.

(** [Word]: times are seconds on the global timeline. *)
Record Word := mkWord { w_text : pystr; w_start : Q; w_end : Q }.

(** [Sentence].  Of the optional [meta] dictionary the aligner and the
    progress writer read the [placeholder] flag only. *)
Record Sentence := mkSentence {
  s_text : pystr;
  s_norm : pystr;
  s_tokens : list pystr;
  s_placeholder : bool
}.

(** An entry of [results]: [(Sentence, start_ms, end_ms, audio_file)]. *)
Definition Result : Type := Sentence * option Z * option Z * option pystr.

Record Aligner := mkAligner {
  sentences : list Sentence;
  min_score : Z;
  max_checks : Z;
  dynamic_factor : Z;
  word_texts : list pystr;
  words : list Word;
  word_srcs : list (option pystr);
  cursor : Z;
  sent_idx : Z;
  last_start_ms : Z;
  last_end_ms : Z;
  stop_idx : option Z;
  forced_src : option pystr;
  results : list Result
}.

(** [IncrementalAligner.__init__] with its default parameters. *)
Definition new_aligner (ss : list Sentence) : Aligner :=
  mkAligner ss 75 4000 20 [] [] [] 0 0 (-1) (-1) None None [].

Definition dummy_word : Word := mkWord [] 0 0.

(** [int(round(t * 1000))] *)
Definition ms_of (t : Q) : Z := py_round (t * 1000).

(** [words[i]] *)
Definition word_at (a : Aligner) (i : Z) : Word :=
  nth (Z.to_nat i) (words a) dummy_word.

(** Truthiness of an optional string: [if src]. *)
Definition truthy (o : option pystr) : bool :=
  match o with Some s => nonempty s | None => false end.

(** [_ptr_for_time]: first word index whose end is at or after [t_ms]. *)
Fixpoint ptr_from (ws : list Word) (k t_ms : Z) : Z :=
  match ws with
  | [] => k
  | w :: rest => if t_ms <=? ms_of (w_end w) then k else ptr_from rest (k + 1) t_ms
  end.

Definition _ptr_for_time (a : Aligner) (t_ms : Z) : Z := ptr_from (words a) 0 t_ms.

(** *** [_dominant_src] *)

(** [d[key] = d.get(key, zero) + v] on a dictionary kept in insertion order. *)
Fixpoint dict_add {V} (add : V -> V -> V) (key : pystr) (v : V)
  (d : list (pystr * V)) : list (pystr * V) :=
  match d with
  | [] => [(key, v)]
  | (k0, v0) :: rest =>
      if str_eqb k0 key then (k0, add v0 v) :: rest
      else (k0, v0) :: dict_add add key v rest
  end.

(** [max(d.items(), key=lambda kv: kv[1])[0]]: the first key that carries the
    greatest value. *)
Fixpoint dict_argmax {V} (gt : V -> V -> bool) (best : pystr * V)
  (d : list (pystr * V)) : pystr :=
  match d with
  | [] => fst best
  | kv :: rest => dict_argmax gt (if gt (snd kv) (snd best) then kv else best) rest
  end.

Definition Qmaxq (x y : Q) : Q := if Qle_bool x y then y else x.
Definition Qminq (x y : Q) : Q := if Qle_bool x y then x else y.

(** The first loop: overlap of every named word with [st_s, en_s]. *)
Fixpoint overlap_loop (zipped : list (Word * option pystr)) (st_s en_s : Q)
  (overlap : list (pystr * Q)) : list (pystr * Q) :=
  match zipped with
  | [] => overlap
  | (w, sname) :: rest =>
      match sname with
      | Some name =>
          if nonempty name then
            let a := Qmaxq (w_start w) st_s in
            let b := Qminq (w_end w) en_s in
            if Qltb a b
            then overlap_loop rest st_s en_s (dict_add Qplus name (b - a)%Q overlap)
            else overlap_loop rest st_s en_s overlap
          else overlap_loop rest st_s en_s overlap
      | None => overlap_loop rest st_s en_s overlap
      end
  end.

(** The second loop: the source of the first word of the range that ends at
    or after the start of the interval. *)
Fixpoint crossing_src (zipped : list (Word * option pystr)) (st_s : Q)
  : option (option pystr) :=
  match zipped with
  | [] => None
  | (w, sname) :: rest =>
      if Qle_bool st_s (w_end w) then Some sname else crossing_src rest st_s
  end.

(** The third loop: number of words per source. *)
Fixpoint freq_loop (srcs : list (option pystr)) (freq : list (pystr * Z))
  : list (pystr * Z) :=
  match srcs with
  | [] => freq
  | Some name :: rest =>
      if nonempty name then freq_loop rest (dict_add Z.add name 1 freq)
      else freq_loop rest freq
  | None :: rest => freq_loop rest freq
  end.

Definition _dominant_src (a : Aligner) (i j : Z) (st_ms en_ms : option Z)
  : option pystr :=
  match st_ms, en_ms with
  | Some st_ms, Some en_ms =>
      let st_s := (inject_Z st_ms / 1000)%Q in
      let en_s := (inject_Z en_ms / 1000)%Q in
      let zipped := combine (slice i j (words a)) (slice i j (word_srcs a)) in
      match overlap_loop zipped st_s en_s [] with
      | kv :: rest => Some (dict_argmax (fun x y => Qltb y x) kv rest)
      | [] =>
          match crossing_src zipped st_s with
          | Some src => src
          | None =>
              match freq_loop (slice i j (word_srcs a)) [] with
              | kv :: rest => Some (dict_argmax (fun x y => y <? x) kv rest)
              | [] => None
              end
          end
      end
  | _, _ => None
  end.

(** The specification's words for the attribution: the intersection of a
    word with the interval, [max(0, min(word.end, end) - max(word.start,
    start))], summed over the words of one source. *)
Definition overlap_with (w : Word) (st_s en_s : Q) : Q :=
  Qmax0 (Qminq (w_end w) en_s - Qmaxq (w_start w) st_s).

Definition named (src : option pystr) (name : pystr) : bool :=
  match src with Some n => str_eqb n name | None => false end.

Definition overlap_total (zipped : list (Word * option pystr)) (st_s en_s : Q)
  (name : pystr) : Q :=
  qsum (map (fun p => if named (snd p) name then overlap_with (fst p) st_s en_s
                      else 0%Q) zipped).

(** The number of words of a source in a range. *)
Definition word_count (srcs : list (option pystr)) (name : pystr) : Z :=
  zsum (map (fun src => if named src name then 1 else 0) srcs).

(** [d.get(key, zero)] *)
Fixpoint dict_get {V} (zero : V) (d : list (pystr * V)) (key : pystr) : V :=
  match d with
  | [] => zero
  | (k0, v0) :: rest => if str_eqb k0 key then v0 else dict_get zero rest key
  end.

(** *** [_try_match_sentence_core] *)

Section Matcher.

(** [_best_score]: the best of the four [rapidfuzz] ratios, a function of
    the two strings. *)
Variable _best_score : pystr -> pystr -> Z.

Variable a : Aligner.
Variable s : Sentence.
Variable aggressive : bool.

Definition L : Z := Z.max 1 (len (s_tokens s)).

Definition base_lens : list Z :=
  [L; Z.max 1 (py_int (inject_Z L * (8 # 10)));
      Z.max 1 (py_int (inject_Z L * (12 # 10)))].

Definition expansions : list Q :=
  if aggressive
  then [6 # 10; 8 # 10; 1; 13 # 10; 16 # 10; 2; 25 # 10]%Q
  else [1; 13 # 10; 16 # 10; 2]%Q.

Definition max_extra : Z :=
  Z.max MAX_EXTRA_TOKENS
        (py_int (inject_Z L * (if aggressive then 6 # 10 else 2 # 10))).

Definition max_len : Z := L + max_extra.

Definition dyn_limit : Z :=
  let d := Z.max (max_checks a)
                 (dynamic_factor a * Z.max 0 (len (words a) - cursor a)) in
  if aggressive then Z.max d 200000 else d.

Definition score_threshold : Z := if aggressive then 62 else min_score a.

Definition s_compact : pystr := _compact_for_match (s_norm s).

Definition last_tok : pystr := last (s_tokens s) [].

Definition require_tail : bool :=
  (8 <=? len (s_tokens s)) && (3 <=? len (_compact_for_match last_tok)).

(** [range(lo, lo + n)] *)
Fixpoint zrange (lo : Z) (n : nat) : list Z :=
  match n with O => [] | S n' => lo :: zrange (lo + 1) n' end.

Definition text_at (idx : Z) : pystr := nth (Z.to_nat idx) (word_texts a) [].

Definition tail_positions : list Z :=
  filter (fun idx => _compact_token_eq (text_at idx) last_tok)
         (zrange (cursor a) (Z.to_nat (len (word_texts a) - cursor a))).

(** The score of one window, with the retry on the compact forms. *)
Definition window_score (win_tokens : list pystr) : Z :=
  let win := join_space win_tokens in
  let score := _best_score (s_norm s) win in
  if (score <? score_threshold) && nonempty s_compact then
    let win_compact := _compact_for_match win in
    if nonempty win_compact
    then Z.max score (_best_score s_compact win_compact)
    else score
  else score.

(** [_end_idx_from_matches]: joining 2 or 3 sentence tokens to meet one ASR
    token, then 2 or 3 ASR tokens to meet one sentence token. *)
Definition merge_sentence_side (sent_comp : list pystr) (w0 : pystr) : option nat :=
  let try j :=
    (Nat.leb j (length sent_comp)) &&
    (let merged := concat (firstn j sent_comp) in nonempty merged && str_eqb merged w0) in
  if try 2%nat then Some 2%nat else if try 3%nat then Some 3%nat else None.

Definition merge_window_side (win_comp : list pystr) (s0 : pystr) : option nat :=
  let try j :=
    (Nat.leb j (length win_comp)) &&
    (let merged := concat (firstn j win_comp) in nonempty merged && str_eqb merged s0) in
  if try 2%nat then Some 2%nat else if try 3%nat then Some 3%nat else None.

(** The [while sent_i < len(sent_comp) and w_i < len(win_comp)] loop on the
    tokens not consumed yet; [w_i] is the position of the head of
    [win_comp] in the window.  Every iteration consumes an ASR token, so
    [fuel] above the window length is never exhausted. *)
Fixpoint end_idx_loop (fuel : nat) (sent_comp win_comp : list pystr) (w_i : Z)
  (last_match : option Z) : option Z :=
  match fuel with
  | O => last_match
  | S fuel' =>
      match sent_comp, win_comp with
      | s0 :: srest, w0 :: wrest =>
          if nonempty s0 && str_eqb s0 w0
          then end_idx_loop fuel' srest wrest (w_i + 1) (Some w_i)
          else
            match merge_sentence_side sent_comp w0 with
            | Some j =>
                end_idx_loop fuel' (skipn j sent_comp) wrest (w_i + 1) (Some w_i)
            | None =>
                match merge_window_side win_comp s0 with
                | Some j =>
                    end_idx_loop fuel' srest (skipn j win_comp)
                                 (w_i + Z.of_nat j) (Some (w_i + Z.of_nat j - 1))
                | None => end_idx_loop fuel' sent_comp wrest (w_i + 1) last_match
                end
            end
      | _, _ => last_match
      end
  end.

Definition _end_idx_from_matches (win_tokens : list pystr)
  (start_idx fallback_end_idx : Z) : Z :=
  match s_tokens s with
  | [] => fallback_end_idx
  | _ =>
      let sent_comp := map _compact_for_match (s_tokens s) in
      let win_comp := map _compact_for_match win_tokens in
      match end_idx_loop (S (length win_comp)) sent_comp win_comp 0 None with
      | None => fallback_end_idx
      | Some last_match => start_idx + last_match + 1
      end
  end.

(** The hit of the matcher: [(st, en, src_win, end_idx)]. *)
Definition Hit : Type := Z * Z * option pystr * Z.

(** The timing commit shared by the two scans, for the accepted window
    [words[i:i+k]]. *)
Definition commit_window (i k : Z) : Hit :=
  let win_tokens := slice i (i + k) (word_texts a) in
  let end_idx := _end_idx_from_matches win_tokens i (i + k) in
  let st0 := ms_of (w_start (word_at a i)) in
  let en0 := ms_of (w_end (word_at a (end_idx - 1))) in
  let st := Z.max st0 (last_end_ms a + 1) in
  let en := Z.max en0 st in
  let en := if en - st <? MIN_MATCH_MS then st + MIN_MATCH_MS else en in
  (st, en, None, end_idx).

(** The candidate window sizes of one expansion. *)
Fixpoint collect_cand (k0s : list Z) (exp : Q) (cand : list Z) : list Z :=
  match k0s with
  | [] => cand
  | k0 :: rest =>
      let k := Z.max 1 (py_int (inject_Z k0 * exp)) in
      if negb (existsb (Z.eqb k) cand) && (k <=? len (words a) - cursor a)
      then collect_cand rest exp (cand ++ [k])
      else collect_cand rest exp cand
  end.

Definition cand_of (exp : Q) : list Z :=
  filter (fun k => k <=? max_len) (collect_cand base_lens exp []).

(** The state of the scan: the number of windows scored so far and, for the
    record, the windows themselves as [(i, k)]. *)
Record Scan := mkScan { checks : Z; scored : list (Z * Z) }.

Definition score_at (sc : Scan) (i k : Z) : Z * Scan :=
  (window_score (slice i (i + k) (word_texts a)),
   mkScan (checks sc + 1) (scored sc ++ [(i, k)])).

(** The inner [for k in cand] of the tail-anchored scan; the third
    component says whether the loop left by [break]. *)
Fixpoint tail_cands (cand : list Z) (end_idx : Z) (best : option (Z * Z * Z))
  (sc : Scan) : option (Z * Z * Z) * Scan :=
  match cand with
  | [] => (best, sc)
  | k :: rest =>
      let i := end_idx - (k - 1) in
      if (i <? cursor a) || (len (words a) <? i + k)
      then tail_cands rest end_idx best sc
      else if dyn_limit <? checks sc then (best, sc)
      else
        let '(score, sc') := score_at sc i k in
        let best' :=
          match best with
          | None => Some (score, i, k)
          | Some (b, _, _) => if b <? score then Some (score, i, k) else best
          end in
        tail_cands rest end_idx best' sc'
  end.

(** [for end_idx in tail_positions] *)
Fixpoint tail_scan (positions cand : list Z) (sc : Scan) : option Hit * Scan :=
  match positions with
  | [] => (None, sc)
  | end_idx :: rest =>
      let '(best, sc') := tail_cands cand end_idx None sc in
      if dyn_limit <? checks sc' then (None, sc')
      else
        match best with
        | Some (b, i, k) =>
            if score_threshold <=? b then (Some (commit_window i k), sc')
            else tail_scan rest cand sc'
        | None => tail_scan rest cand sc'
        end
  end.

(** [while i + k <= len(self.words)] of the sliding scan. *)
Fixpoint slide (fuel : nat) (k i step : Z) (sc : Scan) : option Hit * Scan :=
  match fuel with
  | O => (None, sc)
  | S fuel' =>
      if len (words a) <? i + k then (None, sc)
      else if dyn_limit <? checks sc then (None, sc)
      else
        let '(score, sc') := score_at sc i k in
        if score_threshold <=? score then (Some (commit_window i k), sc')
        else slide fuel' k (i + step) step sc'
  end.

(** [for k in cand] of the sliding scan. *)
Fixpoint slide_all (cand : list Z) (sc : Scan) : option Hit * Scan :=
  match cand with
  | [] => (None, sc)
  | k :: rest =>
      let step := Z.max 1 (k / (if aggressive then 10 else 6)) in
      match slide (S (length (words a))) k (cursor a) step sc with
      | (Some h, sc') => (Some h, sc')
      | (None, sc') => slide_all rest sc'
      end
  end.

(** [for exp in expansions] *)
Fixpoint exp_loop (exps : list Q) (sc : Scan) : option Hit * Scan :=
  match exps with
  | [] => (None, sc)
  | exp :: rest =>
      match collect_cand base_lens exp [] with
      | [] => exp_loop rest sc
      | _ =>
          let cand := cand_of exp in
          match cand with
          | [] => exp_loop rest sc
          | _ =>
              let tail :=
                if require_tail && nonempty_list tail_positions
                then
                  match tail_scan tail_positions cand sc with
                  | (Some h, sc') => (Some (Some h), sc')
                  | (None, sc') =>
                      if dyn_limit <? checks sc' then (Some None, sc')
                      else (None, sc')
                  end
                else (None, sc) in
              match tail with
              | (Some r, sc') => (r, sc')
              | (None, sc') =>
                  match slide_all cand sc' with
                  | (Some h, sc'') => (Some h, sc'')
                  | (None, sc'') => exp_loop rest sc''
                  end
              end
          end
      end
  end.

Definition _try_match_sentence_core_scan : option Hit * Scan :=
  exp_loop expansions (mkScan 0 []).

Definition _try_match_sentence_core : option Hit :=
  fst _try_match_sentence_core_scan.

(** The windows [(i, k)] the matcher has scored when it returns. *)
Definition scored_windows : list (Z * Z) :=
  scored (snd _try_match_sentence_core_scan).

(** [_try_match_sentence]; [None] stands for the [False] return, which
    leaves the aligner as it was. *)
Definition _try_match_sentence : option Aligner :=
  match _try_match_sentence_core with
  | None => None
  | Some (st, en, src_win, end_idx) =>
      let src_win := if truthy (forced_src a) then forced_src a else src_win in
      Some (mkAligner (sentences a) (min_score a) (max_checks a) (dynamic_factor a)
              (word_texts a) (words a) (word_srcs a)
              (Z.min (len (words a)) (Z.max (cursor a) end_idx))
              (sent_idx a + 1) st en (stop_idx a) (forced_src a)
              (results a ++ [(s, Some st, Some en, src_win)]))
  end.

End Matcher.

(** A hit is the timing commit of some window. *)
Definition is_commit (a : Aligner) (s : Sentence) (h : Hit) : Prop :=
  exists i k, h = commit_window a s i k.

(** Every window scored so far has a size that [P] admits. *)
Definition scored_in (P : Z -> Prop) (sc : Scan) : Prop :=
  Forall (fun w => P (snd w)) (scored sc).

End Aligner.
Import Aligner.

(** ** Recovery: anchor interpolation and weighted approximation *)

Module Recovery.

(** [RECOVER_LOOKAHEAD_SENTENCES] *)
Definition RECOVER_LOOKAHEAD_SENTENCES : Z := 8.

Definition src_is (src : option pystr) (fname : pystr) : bool :=
  match src with Some n => str_eqb n fname | None => false end.

(** [_last_end_ms_for_file] *)
Definition _last_end_ms_for_file (results_list : list Result) (fname : pystr)
  (file_start_ms : Z) : Z :=
  fold_left
    (fun last (r : Result) =>
       match r with
       | (_, _, Some en, src) =>
           if src_is src fname && (last <? en) then en else last
       | _ => last
       end)
    results_list file_start_ms.

(** [max(1, len((s.text or "").strip()))] *)
Definition char_weight (s : Sentence) : Z := Z.max 1 (len (strip (s_text s))).

(** [for s, dur in zip(pending, durs): ... results.append((s, cur, cur + dur,
    audio_name)); cur = en]: the appended entries and the final [cur]. *)
Fixpoint lay_out (pending : list Sentence) (durs : list Z) (cur : Z)
  (audio_name : pystr) : list Result * Z :=
  match pending, durs with
  | s :: ps, dur :: ds =>
      let st := cur in
      let en := cur + dur in
      let '(rest, cur') := lay_out ps ds en audio_name in
      ((s, Some st, Some en, Some audio_name) :: rest, cur')
  | _, _ => ([], cur)
  end.

Definition sentence_of_result (r : Result) : Sentence := fst (fst (fst r)).
Definition start_of (r : Result) : option Z := snd (fst (fst r)).
Definition end_of (r : Result) : option Z := snd (fst r).
Definition src_of (r : Result) : option pystr := snd r.

(** [results[-1] = (s_last, st_last, file_end_ms, src_last)] *)
Fixpoint force_last_end (rs : list Result) (file_end_ms : Z) : list Result :=
  match rs with
  | [] => []
  | r :: rest =>
      match rest with
      | [] => [(sentence_of_result r, start_of r, Some file_end_ms, src_of r)]
      | _ => r :: force_last_end rest file_end_ms
      end
  end.

Definition set_progress (a : Aligner) (rs : list Result) (idx cur st en : Z)
  : Aligner :=
  mkAligner (sentences a) (min_score a) (max_checks a) (dynamic_factor a)
    (word_texts a) (words a) (word_srcs a) cur idx st en
    (stop_idx a) (forced_src a) rs.

(** [_approximate_missing_chunk]; [None] stands for the [False] return.
    The warning it may log on the expected duration is not modelled. *)
Definition _approximate_missing_chunk (a : Aligner) (sentences_list : list Sentence)
  (chunk_end_idx : option Z) (audio_name : pystr)
  (file_start_ms file_end_ms : Z) : option Aligner :=
  match chunk_end_idx with
  | None => None
  | Some chunk_end =>
      let start_idx := sent_idx a in
      if chunk_end <=? start_idx then None
      else
        let last_end := _last_end_ms_for_file (results a) audio_name file_start_ms in
        let base_start := Z.max file_start_ms (last_end + 1) in
        let base_start := if file_end_ms <? base_start then file_end_ms else base_start in
        let remaining_ms := Z.max 0 (file_end_ms - base_start) in
        let pending := slice start_idx chunk_end sentences_list in
        match pending with
        | [] => None
        | _ =>
            let weights := map char_weight pending in
            let durs := _weighted_durations remaining_ms weights MIN_MATCH_MS in
            let '(entries, _) := lay_out pending durs base_start audio_name in
            let rs := force_last_end (results a ++ entries) file_end_ms in
            let last_r := last rs (mkSentence [] [] [] false, None, None, None) in
            let st_last := match start_of last_r with Some v => v | None => 0 end in
            Some (set_progress a rs chunk_end (_ptr_for_time a (file_end_ms + 1))
                    st_last file_end_ms)
        end
  end.

Section Anchor.

Variable _best_score : pystr -> pystr -> Z.

(** [for j in range(start_idx + 1, max_idx)]: the first sentence that the
    aggressive matcher finds. *)
Fixpoint find_anchor (a : Aligner) (cands : list Sentence) (j : Z)
  : option (Z * Sentence * Hit) :=
  match cands with
  | [] => None
  | s :: rest =>
      match _try_match_sentence_core _best_score a s true with
      | Some hit => Some (j, s, hit)
      | None => find_anchor a rest (j + 1)
      end
  end.

(** [_recover_with_anchor]; [None] stands for the [False] return. *)
Definition _recover_with_anchor (a : Aligner) (sentences_list : list Sentence)
  (chunk_end_idx : option Z) (audio_name : pystr)
  (file_start_ms file_end_ms : Z) (lookahead : Z) : option Aligner :=
  match chunk_end_idx with
  | None => None
  | Some chunk_end =>
      let start_idx := sent_idx a in
      if chunk_end <=? start_idx then None
      else
        let max_idx := Z.min chunk_end (start_idx + Z.max 1 lookahead + 1) in
        match find_anchor a (slice (start_idx + 1) max_idx sentences_list)
                (start_idx + 1) with
        | None => None
        | Some (anchor_idx, anchor_s, (st, en, _, end_idx)) =>
            let last_end := _last_end_ms_for_file (results a) audio_name file_start_ms in
            let base_start := Z.max file_start_ms (last_end + 1) in
            let anchor_start := Z.max base_start st in
            let pending := slice start_idx anchor_idx sentences_list in
            let '(anchor_start, entries, cur) :=
              match pending with
              | [] => (anchor_start, [], base_start)
              | _ =>
                  let min_total := MIN_MATCH_MS * len pending in
                  let anchor_start :=
                    if anchor_start - base_start <? min_total
                    then Z.min file_end_ms (base_start + min_total)
                    else anchor_start in
                  let gap_ms := Z.max 0 (anchor_start - base_start) in
                  let weights := map char_weight pending in
                  let durs := _weighted_durations gap_ms weights MIN_MATCH_MS in
                  let '(entries, cur) := lay_out pending durs base_start audio_name in
                  (anchor_start, entries, cur)
              end in
            let st := Z.max (Z.max anchor_start st) cur in
            let en := Z.max en (st + MIN_MATCH_MS) in
            let '(st, en) :=
              if file_end_ms <? en
              then (if file_end_ms <? st
                    then Z.max file_start_ms (file_end_ms - MIN_MATCH_MS)
                    else st, file_end_ms)
              else (st, en) in
            Some (set_progress a
                    (results a ++ entries ++ [(anchor_s, Some st, Some en, Some audio_name)])
                    (anchor_idx + 1)
                    (Z.min (len (words a)) (Z.max (cursor a) end_idx))
                    st en)
        end
  end.

End Anchor.

(** *** Resume priming *)

(** An item of a stored transcript, as far as the resume reads it. *)
Record Item := mkItem {
  it_text : option pystr;
  it_start_ms : option Z;
  it_end_ms : option Z;
  it_audio_file : option pystr
}.

Definition text_or_empty (t : option pystr) : pystr :=
  match t with Some s => s | None => [] end.

(** [for k in range(min(len(items), len(sentences)))] of
    [_prime_from_existing]; returns the final [k]. *)
Fixpoint prime_loop (items : list Item) (ss : list Sentence) (k : Z) (a : Aligner)
  : Z * Aligner :=
  match items, ss with
  | it :: items', s :: ss' =>
      if negb (str_eqb (strip (text_or_empty (it_text it))) (strip (s_text s)))
      then (k, a)
      else
        match it_start_ms it with
        | None => (k, a)
        | Some st =>
            let en_eff := match it_end_ms it with Some en => en | None => st end in
            prime_loop items' ss' (k + 1)
              (set_progress a
                 (results a ++ [(s, Some st, Some en_eff, it_audio_file it)])
                 (sent_idx a) (cursor a) st en_eff)
        end
  | _, _ => (k, a)
  end.

(** [_prime_from_existing], the part that touches the aligner. *)
Definition _prime_from_existing (items : list Item) (ss : list Sentence)
  (a : Aligner) : Z * Aligner :=
  let '(k, a1) := prime_loop items ss 0 a in
  (k, set_progress a1 (results a1) k (_ptr_for_time a1 (last_end_ms a1 + 1))
        (last_start_ms a1) (last_end_ms a1)).

(** *** Vocabulary of the statements on result lists *)

(** The consecutive spans [(cur, cur + d1), (cur + d1, cur + d1 + d2), ...]. *)
Fixpoint spans (cur : Z) (durs : list Z) : list (Z * Z) :=
  match durs with
  | [] => []
  | d :: ds => (cur, cur + d) :: spans (cur + d) ds
  end.

(** The entry appended for a sentence approximated over a span. *)
Definition approx_entry (audio_name : pystr) (p : Sentence * (Z * Z)) : Result :=
  (fst p, Some (fst (snd p)), Some (snd (snd p)), Some audio_name).



(** The span [end_ms - start_ms] of an entry that carries times. *)
Definition span_of (r : Result) : option Z :=
  match start_of r, end_of r with
  | Some st, Some en => Some (en - st)
  | _, _ => None
  end.

(** The entry that the resume replays for a stored item. *)
Definition primed_entry (p : Item * Sentence) : option Result :=
  match it_start_ms (fst p) with
  | Some st =>
      Some (snd p, Some st,
            Some (match it_end_ms (fst p) with Some en => en | None => st end),
            it_audio_file (fst p))
  | None => None
  end.

Definition no_result : Result := (mkSentence [] [] [] false, None, None, None).

End Recovery.
Import Recovery.

(** ** The progress store *)

Module Progress.

(** *** [save_progress_json]: the items *)

(** An item of the payload, as far as its times and audio file go; the
    other fields are copied from the sentence. *)
Record OutItem := mkOutItem {
  o_idx : Z;
  o_sentence : Sentence;
  o_start_ms : option Z;
  o_end_ms : option Z;
  o_audio_file : option pystr
}.

Definition Times : Type := option Z * option Z * option pystr.

(** [times.get(i, (None, None, None))], [times] being indexed by the
    position in [results]. *)
Definition times_get (results : list Result) (i : nat) : Times :=
  match nth_error results i with
  | Some (_, st, en, src) => (st, en, src)
  | None => (None, None, None)
  end.

(** The times of sentence [i] before the placeholder patch: those of
    [results], or, when it has no start there, those of the item stored at
    the same position by an earlier save if that item has the same
    non-empty text and a start.  An entry [None] of [existing_items] is an
    item that is not a dictionary; no stored items is the empty list. *)
Definition own_times (results : list Result) (existing_items : list (option Item))
  (i : nat) (sent : Sentence) : Times :=
  let '(st, en, src) := times_get results i in
  match st with
  | Some _ => (st, en, src)
  | None =>
      match nth_error existing_items i with
      | Some (Some prev) =>
          let prev_text := strip (text_or_empty (it_text prev)) in
          if nonempty prev_text && str_eqb prev_text (strip (s_text sent)) then
            match it_start_ms prev with
            | Some prev_st => (Some prev_st, it_end_ms prev, it_audio_file prev)
            | None => (st, en, src)
            end
          else (st, en, src)
      | _ => (st, en, src)
      end
  end.

(** The running [last_end_ms] and [last_audio_file]. *)
Definition Carry : Type := option Z * option pystr.

(** The patch of a placeholder without a start. *)
Definition patch_placeholder (sent : Sentence) (t : Times) (c : Carry) : Times :=
  let '(st, en, src) := t in
  match st, fst c with
  | None, Some last_end_ms =>
      if s_placeholder sent
      then (Some last_end_ms, Some last_end_ms,
            match src with None => snd c | Some _ => src end)
      else t
  | _, _ => t
  end.

(** The update of the carry after an item has been appended. *)
Definition carry_after (c : Carry) (it : OutItem) : Carry :=
  match o_end_ms it with
  | Some e => (Some e, if truthy (o_audio_file it) then o_audio_file it else snd c)
  | None => c
  end.

Definition emit (results : list Result) (existing_items : list (option Item))
  (i : nat) (sent : Sentence) (c : Carry) : OutItem :=
  let '(st, en, src) :=
    patch_placeholder sent (own_times results existing_items i sent) c in
  mkOutItem (Z.of_nat i) sent st en src.

(** [for i, sent in enumerate(sentences_all)], from position [i] on. *)
Fixpoint items_loop (results : list Result) (existing_items : list (option Item))
  (i : nat) (sents : list Sentence) (c : Carry) : list OutItem :=
  match sents with
  | [] => []
  | sent :: rest =>
      let it := emit results existing_items i sent c in
      it :: items_loop results existing_items (S i) rest (carry_after c it)
  end.

(** The items written by [save_progress_json]. *)
Definition save_items (results : list Result) (existing_items : list (option Item))
  (sentences_all : list Sentence) : list OutItem :=
  items_loop results existing_items 0 sentences_all (None, None).

(** The specification's words: the previous committed item among earlier
    items is the latest one with a non-null [end_ms]; the audio file that a
    placeholder inherits is that of the latest earlier item with a non-null
    [end_ms] that names one. *)
Definition has_end (it : OutItem) : bool :=
  match o_end_ms it with Some _ => true | None => false end.

Definition prev_committed (earlier : list OutItem) : option OutItem :=
  find has_end (rev earlier).

Definition prev_end (earlier : list OutItem) : option Z :=
  match prev_committed earlier with Some it => o_end_ms it | None => None end.

Definition prev_audio (earlier : list OutItem) : option pystr :=
  match find (fun it => has_end it && truthy (o_audio_file it)) (rev earlier) with
  | Some it => o_audio_file it
  | None => None
  end.

(** *** [_atomic_replace_with_retry] *)

(** What [os.replace] may raise: a [PermissionError], or another [OSError];
    both may carry a [winerror]. *)
Inductive OsError :=
| PermissionError (winerror : option Z)
| OtherOSError (winerror : option Z).

(** What one call of [os.replace] does. *)
Inductive Outcome :=
| Replaced
| Raises (e : OsError).

(** The errors after which the loop goes on: [PermissionError], and
    [OSError] whose [winerror] is 5 or 32. *)
Definition retried (e : OsError) : bool :=
  match e with
  | PermissionError _ => true
  | OtherOSError (Some w) => (w =? 5) || (w =? 32)
  | OtherOSError None => false
  end.

(** [min(0.25, base_sleep * (1.0 + 0.15 * i))], in seconds. *)
Definition sleep_for (base_sleep : Q) (i : nat) : Q :=
  Qminq (1 # 4) (base_sleep * (1 + (15 # 100) * inject_Z (Z.of_nat i))).

(** A run of the function: how it ended ([None] is a normal return,
    [Some e] the exception raised), the calls of [os.replace] it made and
    the sleeps it took, in order. *)
Record Run := mkRun {
  raised : option OsError;
  calls : nat;
  sleeps : list Q
}.

(** [for i in range(max(1, retries))] from attempt [i] on, followed by the
    code after the loop; [os_replace i] is the outcome of the call number
    [i]. *)
Fixpoint retry_loop (os_replace : nat -> Outcome) (base_sleep : Q)
  (todo i : nat) (last_exc : option OsError) (slept : list Q) : Run :=
  match todo with
  | O =>
      match last_exc with
      | Some e => mkRun (Some e) i slept
      | None =>
          match os_replace i with
          | Replaced => mkRun None (S i) slept
          | Raises e => mkRun (Some e) (S i) slept
          end
      end
  | S todo' =>
      match os_replace i with
      | Replaced => mkRun None (S i) slept
      | Raises e =>
          if retried e
          then retry_loop os_replace base_sleep todo' (S i) (Some e)
                 (slept ++ [sleep_for base_sleep i])
          else mkRun (Some e) (S i) slept
      end
  end.

Definition _atomic_replace_with_retry (os_replace : nat -> Outcome)
  (retries : Z) (base_sleep : Q) : Run :=
  retry_loop os_replace base_sleep (Z.to_nat (Z.max 1 retries)) 0 None [].

(** The calls [i], ..., [i + k - 1] all fail with an error that is retried. *)
Definition all_retried (os_replace : nat -> Outcome) (i k : nat) : Prop :=
  forall j, (j < k)%nat ->
    exists e, os_replace (i + j)%nat = Raises e /\ retried e = true.

(** The specification's words: a permission or sharing error is a
    [PermissionError], or an [OSError] whose [winerror] is 5 or 32. *)
Definition permission_or_sharing (e : OsError) : Prop :=
  (exists w, e = PermissionError w)
  \/ e = OtherOSError (Some 5) \/ e = OtherOSError (Some 32).

(** The calls [0], ..., [k - 1] all fail with a permission or sharing
    error. *)
Definition fails_sharing (os_replace : nat -> Outcome) (k : nat) : Prop :=
  forall j, (j < k)%nat ->
    exists e, os_replace j = Raises e /\ permission_or_sharing e.

(** The defaults of the signature, which every caller uses. *)
Definition default_retries : Z := 40.
Definition default_base_sleep : Q := 5 # 100.

End Progress.
Import Progress.

(** ** The balanced chunker

    [transcribe.py] defines [_find_break] and
    [_split_into_sentences_with_paras] twice; the later definitions replace
    the earlier ones in the module namespace, so [split_balanced] and
    [split_balanced_tts] both call the later ones, which are the ones
    modelled here.  A function that may loop forever returns [None] when
    it does. *)

Module Chunker.

(** The punctuation marks [.], [!], [?] and the ellipsis; the closers are
    the closing round bracket, the double quote, the right guillemet and
    the closing square bracket. *)
Definition is_punct (c : Z) : bool :=
  (c =? 46) || (c =? 33) || (c =? 63) || (c =? 8230).

Definition is_closer (c : Z) : bool :=
  (c =? 41) || (c =? 34) || (c =? 187) || (c =? 93).

(** The paragraph marker ["\n\n"]. *)
Definition marker : pystr := [10; 10].

Definition is_marker (s : pystr) : bool := str_eqb s marker.

(** *** Regular expressions

    Each pattern is given by the length of its match at the head of a
    string.  None of the three patterns matches the empty string. *)

(** The length of the longest prefix of characters in a class. *)
Fixpoint span_len (f : Z -> bool) (s : pystr) : nat :=
  match s with
  | c :: t => if f c then S (span_len f t) else O
  | [] => O
  end.

(** The pattern of the sentence splitter: one or more punctuation marks,
    any number of closers, then whitespace or the end of the string.  The
    punctuation run and the closers are taken greedily; giving any of them
    back leaves a punctuation mark or a closer where whitespace or the end
    is required, so no shorter choice matches. *)
Definition match_sentence_end (s : pystr) : option nat :=
  match span_len is_punct s with
  | O => None
  | np =>
      let s1 := skipn np s in
      let nc := span_len is_closer s1 in
      let s2 := skipn nc s1 in
      match s2 with
      | [] => Some (np + nc)%nat
      | c :: _ =>
          if isspace c then Some (np + nc + span_len isspace s2)%nat else None
      end
  end.

(** The pattern of [_find_break]: one or more punctuation marks, at most
    one closer, one whitespace character. *)
Definition match_break (s : pystr) : option nat :=
  match span_len is_punct s with
  | O => None
  | np =>
      match skipn np s with
      | c :: t =>
          if is_closer c then
            match t with
            | d :: _ => if isspace d then Some (np + 2)%nat else None
            | [] => None
            end
          else if isspace c then Some (np + 1)%nat else None
      | [] => None
      end
  end.

(** The position of the last ["\n"] of a string, counted from 1; 0 if there
    is none. *)
Fixpoint last_newline (s : pystr) (pos : nat) (found : nat) : nat :=
  match s with
  | [] => found
  | c :: t => last_newline t (S pos) (if c =? 10 then S pos else found)
  end.

(** The pattern of the paragraph split: a newline, any whitespace, a
    newline; that is a newline, then the whitespace run that follows it up
    to its last newline. *)
Definition match_para_sep (s : pystr) : option nat :=
  match s with
  | c :: t =>
      if c =? 10 then
        match last_newline (firstn (span_len isspace t) t) 0 0 with
        | O => None
        | k => Some (S k)
        end
      else None
  | [] => None
  end.

(** [rx.finditer(s)]: the matches [(start, end)], leftmost first, not
    overlapping; [skip] characters of the last match are still to be passed. *)
Fixpoint finditer (m : pystr -> option nat) (s : pystr) (pos skip : nat)
  : list (nat * nat) :=
  match s with
  | [] => []
  | _ :: t =>
      match skip with
      | S k => finditer m t (S pos) k
      | O =>
          match m s with
          | Some (S n) => (pos, (pos + S n)%nat) :: finditer m t (S pos) n
          | _ => finditer m t (S pos) 0
          end
      end
  end.

(** [re.split(rx, s)]; [cur] is the piece being read, in reverse. *)
Fixpoint re_split (m : pystr -> option nat) (s : pystr) (skip : nat) (cur : pystr)
  : list pystr :=
  match s with
  | [] => [rev cur]
  | c :: t =>
      match skip with
      | S k => re_split m t k cur
      | O =>
          match m s with
          | Some (S n) => rev cur :: re_split m t n []
          | _ => re_split m t 0 (c :: cur)
          end
      end
  end.

(** *** Bracketed tags *)

(** [_iter_tag_spans]: the spans [(start, end)] of the tags [[...]], an
    unclosed tag running to the end of the text.  [open] is the start of
    the tag being read, if any: the [find] of the closing bracket ignores
    opening brackets and the [find] of the next opening bracket ignores
    closing ones. *)
Fixpoint tag_spans_from (s : pystr) (pos : Z) (open : option Z) : list (Z * Z) :=
  match s with
  | [] => match open with Some st => [(st, pos)] | None => [] end
  | c :: t =>
      match open with
      | None =>
          if c =? 91 then tag_spans_from t (pos + 1) (Some pos)
          else tag_spans_from t (pos + 1) None
      | Some st =>
          if c =? 93 then (st, pos + 1) :: tag_spans_from t (pos + 1) None
          else tag_spans_from t (pos + 1) (Some st)
      end
  end.

Definition _iter_tag_spans (text : pystr) : list (Z * Z) :=
  tag_spans_from text 0 None.

Definition in_span (i : Z) (sp : Z * Z) : bool := (fst sp <=? i) && (i <? snd sp).

Fixpoint mask_from (spans : list (Z * Z)) (s : pystr) (i : Z) : pystr :=
  match s with
  | [] => []
  | c :: t => (if existsb (in_span i) spans then 97 else c) :: mask_from spans t (i + 1)
  end.

(** [_mask_tags]: the characters of the tag spans become ["a"]. *)
Definition _mask_tags (text : pystr) : pystr :=
  mask_from (_iter_tag_spans text) text 0.

(** [_adjust_break_index] *)
Fixpoint _adjust_break_index (idx : Z) (spans : list (Z * Z)) : Z :=
  match spans with
  | [] => idx
  | (start, end_) :: rest =>
      if (start <? idx) && (idx <? end_)
      then (if 0 <? start then start else end_)
      else _adjust_break_index idx rest
  end.

Definition char_at (s : pystr) (i : Z) : Z := nth (Z.to_nat i) s 0.

Definition high_surrogate (c : Z) : bool := (55296 <=? c) && (c <=? 56319).
Definition low_surrogate (c : Z) : bool := (56320 <=? c) && (c <=? 57343).

(** [_safe_break_index] *)
Definition _safe_break_index (s : pystr) (idx : Z) : Z :=
  let idx :=
    if (0 <? idx) && (idx <? len s)
       && high_surrogate (char_at s (idx - 1)) && low_surrogate (char_at s idx)
    then idx - 1 else idx in
  Z.max 0 (Z.min (len s) idx).

(** [s[:k]], also for a negative [k]. *)
Definition py_prefix (s : pystr) (k : Z) : pystr :=
  if 0 <=? k then firstn (Z.to_nat k) s
  else firstn (Z.to_nat (len s + k)) s.

(** [s.rfind(c)] *)
Fixpoint rfind_from (c : Z) (s : pystr) (pos : Z) (found : Z) : Z :=
  match s with
  | [] => found
  | d :: t => rfind_from c t (pos + 1) (if d =? c then pos else found)
  end.

Definition rfind (s : pystr) (c : Z) : Z := rfind_from c s 0 (-1).

(** [for m in rx.finditer(masked): best = m.end()] *)
Definition last_match_end (matches : list (nat * nat)) : Z :=
  fold_left (fun _ m => Z.of_nat (snd m)) matches (-1).

(** [_find_break] *)
Definition _find_break (remaining : pystr) (limit : Z) : Z :=
  let window := py_prefix remaining limit in
  let masked := _mask_tags window in
  let spans := _iter_tag_spans remaining in
  let best := last_match_end (finditer match_break masked 0 0) in
  if py_int (inject_Z limit * (6 # 10)) <=? best then
    let idx := _adjust_break_index best spans in
    let idx := if idx <=? 0 then Z.max 1 best else idx in
    _safe_break_index remaining idx
  else
    let last_space := Z.max (Z.max (rfind masked 32) (rfind masked 10)) (rfind masked 9) in
    if 0 <? last_space then
      let idx := _adjust_break_index (last_space + 1) spans in
      let idx := if idx <=? 0 then Z.max 1 (last_space + 1) else idx in
      _safe_break_index remaining idx
    else
      let idx := _adjust_break_index limit spans in
      let idx :=
        if idx <=? 0 then
          let idx :=
            match spans with
            | (0, e) :: _ => e
            | _ => idx
            end in
          if idx <=? 0 then 1 else idx
        else idx in
      _safe_break_index remaining idx.

(** *** [_split_into_sentences_with_paras] *)

(** [for m in rx.finditer(masked): sent = p[i:end]; ...; i = end], then the
    tail [p[i:]]. *)
Fixpoint cut_sentences (p : pystr) (i : nat) (ends : list nat) : list pystr :=
  match ends with
  | e :: es =>
      let sent := firstn (e - i) (skipn i p) in
      (if nonempty (strip sent) then [sent] else []) ++ cut_sentences p e es
  | [] =>
      if Nat.ltb i (length p) then
        let tail := skipn i p in
        if nonempty (strip tail) then [tail] else []
      else []
  end.

Definition para_sentences (p : pystr) : list pystr :=
  cut_sentences p 0 (map snd (finditer match_sentence_end (_mask_tags p) 0 0)).

(** [for p_idx, p in enumerate(paras)] *)
Fixpoint paras_loop (paras : list pystr) : list pystr :=
  match paras with
  | [] => []
  | p :: rest =>
      let p := strip p in
      if nonempty p then
        para_sentences p
        ++ (match rest with [] => [] | _ => [marker] end)
        ++ paras_loop rest
      else paras_loop rest
  end.

(** The removal of repeated paragraph markers; [prev] is [compact[-1]]. *)
Fixpoint dedupe_markers (result : list pystr) (prev : option pystr) : list pystr :=
  match result with
  | [] => []
  | cur :: rest =>
      if is_marker cur && match prev with Some q => is_marker q | None => false end
      then dedupe_markers rest prev
      else cur :: dedupe_markers rest (Some cur)
  end.

Definition _split_into_sentences_with_paras (source : pystr) : list pystr :=
  dedupe_markers (paras_loop (re_split match_para_sep source 0 [])) None.

(** *** The two balanced splits *)

(** [while len(rest) > limit: ...], common to both; [normalized] receives
    the pieces.  An iteration that leaves [rest] as it was repeats forever;
    any other one shortens [rest], so the fuel [S (length rest)] runs out
    exactly when the loop does not end. *)
Fixpoint break_loop (fuel : nat) (limit : Z) (rest : pystr) (pieces : list pystr)
  : option (list pystr * pystr) :=
  if len rest <=? limit then Some (pieces, rest)
  else
    match fuel with
    | O => None
    | S fuel' =>
        let bp := Z.to_nat (_find_break rest limit) in
        let chunk := strip (firstn bp rest) in
        let pieces := if nonempty chunk then pieces ++ [chunk] else pieces in
        break_loop fuel' limit (strip (skipn bp rest)) pieces
    end.

(** The normalization of one sentence by [split_balanced_tts]. *)
Definition normalize_one_tts (limit : Z) (s : pystr) : option (list pystr) :=
  if is_marker s then Some [s]
  else if len s <=? limit then Some [s]
  else
    match break_loop (S (length s)) limit s [] with
    | Some (pieces, rest) =>
        Some (pieces ++ (if nonempty (strip rest) then [strip rest] else []))
    | None => None
    end.

(** The normalization of one sentence by [split_balanced]. *)
Definition normalize_one (limit : Z) (s : pystr) : option (list pystr) :=
  if is_marker s || (len s <=? limit) then Some [s]
  else
    match break_loop (S (length (strip s))) limit (strip s) [] with
    | Some (pieces, rest) =>
        Some (pieces ++ (if nonempty rest then [rest] else []))
    | None => None
    end.

Fixpoint normalize_all (one : pystr -> option (list pystr)) (sents : list pystr)
  : option (list pystr) :=
  match sents with
  | [] => Some []
  | s :: rest =>
      match one s, normalize_all one rest with
      | Some a, Some b => Some (a ++ b)
      | _, _ => None
      end
  end.

(** A cost of the dynamic programme; [None] is [float("inf")].  A finite
    cost is a sum of squares of integers and is kept exact. *)
Definition Cost : Type := option Z.

Definition cost_add (c : Z) (b : Cost) : Cost :=
  match b with Some v => Some (c + v) | None => None end.

Definition cost_lt (a b : Cost) : bool :=
  match a, b with
  | Some x, Some y => x <? y
  | Some _, None => true
  | None, _ => false
  end.

(** The entry of a position [i]: [best[i]] and [next_break[i] - i], the
    number of sentences of the chunk that starts at [i], or [-1] where
    [next_break[i]] is [-1]. *)
Definition Entry : Type := Cost * Z.

(** [while j <= n and (pref[j] - pref[i]) <= limit]: [length] is
    [pref[j] - pref[i]], [count] is [j - i], [entries] are those of
    [j, j + 1, ...] and [lens] the lengths of the sentences [j, j + 1, ...]. *)
Fixpoint dp_inner (limit length count : Z) (lens : list Z) (entries : list Entry)
  (best : Cost) (next : Z) : Entry :=
  match entries with
  | [] => (best, next)
  | (best_j, _) :: entries' =>
      if length <=? limit then
        let slack := limit - length in
        let cost := cost_add (slack * slack) best_j in
        let '(best, next) := if cost_lt cost best then (cost, count) else (best, next) in
        match lens with
        | l :: lens' => dp_inner limit (length + l) (count + 1) lens' entries' best next
        | [] => (best, next)
        end
      else (best, next)
  end.

(** [for i in range(n - 1, -1, -1)]: the entries of the positions of
    [sents], followed by that of [n]. *)
Fixpoint dp (limit : Z) (sents : list pystr) : list Entry :=
  match sents with
  | [] => [(Some 0, -1)]
  | s :: rest =>
      let entries := dp limit rest in
      (if is_marker s
       then (fst (hd (None, -1) entries), 1)
       else dp_inner limit (len s) 1 (map len rest) entries None (-1))
      :: entries
  end.

(** [while i < n: j = next_break[i]; ...; i = j]; every round takes at
    least one sentence, so the fuel [length sents] is enough. *)
Fixpoint rebuild (fuel : nat) (sents : list pystr) (entries : list Entry)
  : list pystr :=
  match fuel with
  | O => []
  | S fuel' =>
      match sents with
      | [] => []
      | _ =>
          let count := snd (hd (None, -1) entries) in
          let count := if count <=? 0 then 1%nat else Z.to_nat count in
          let text := strip (concat (firstn count sents)) in
          (if nonempty text then [text] else [])
          ++ rebuild fuel' (skipn count sents) (skipn count entries)
      end
  end.

(** The part common to both functions, from the normalized sentences on. *)
Definition balance (limit : Z) (sents : list pystr) : list pystr :=
  rebuild (length sents) sents (dp limit sents).

(** [split_balanced] *)
Definition split_balanced (source : pystr) (limit : Z) : option (list pystr) :=
  match normalize_all (normalize_one limit)
          (_split_into_sentences_with_paras source) with
  | Some sents => Some (balance limit sents)
  | None => None
  end.

(** [split_balanced_tts]; [limit] is an integer, never [None]. *)
Definition split_balanced_tts (source : pystr) (limit : Z) : option (list pystr) :=
  if limit <=? 0 then Some (if nonempty (strip source) then [source] else [])
  else
    match normalize_all (normalize_one_tts limit)
            (_split_into_sentences_with_paras source) with
    | Some sents => Some (balance limit sents)
    | None => None
    end.

(** *** Notions used to state the properties of the chunker *)

(** A string with its whitespace removed. *)
Definition squash (s : pystr) : pystr := filter (fun c => negb (isspace c)) s.

(** A text with no opening square bracket, hence with no tag. *)
Definition tag_free (s : pystr) : Prop := Forall (fun c => c <> 91) s.

(** A text none of whose characters is a high surrogate. *)
Definition no_high_surrogate (s : pystr) : Prop :=
  Forall (fun c => high_surrogate c = false) s.

(** A pattern whose matches lie within the string. *)
Definition bounded_matcher (m : pystr -> option nat) : Prop :=
  forall s n, m s = Some n -> (n <= length s)%nat.

(** A pattern that matches whitespace only. *)
Definition ws_matcher (m : pystr -> option nat) : Prop :=
  forall s n, m s = Some n -> (n <= length s)%nat /\ squash (firstn n s) = [].

(** Positions that do not decrease, none before [lo]. *)
Fixpoint increasing_from (lo : nat) (es : list nat) : Prop :=
  match es with
  | [] => True
  | e :: es' => (lo <= e)%nat /\ increasing_from e es'
  end.

End Chunker.
Import Chunker.
(** ** Orders, suborders and chunk ranges of the structured mode

    The values of the [order] and [chunk] keys of a sentence's [meta] are
    integers, or [None] where the key is absent or null.  Of a sentence
    these functions read its tokens and these keys only. *)

Module Orders.

(** *** Dictionaries with integer keys, in insertion order *)

(** [key in d] *)
Fixpoint zdict_mem {V} (d : list (Z * V)) (key : Z) : bool :=
  match d with
  | [] => false
  | (k0, _) :: rest => (k0 =? key) || zdict_mem rest key
  end.

(** [d.get(key, default)] *)
Fixpoint zdict_get {V} (d : list (Z * V)) (key : Z) (default : V) : V :=
  match d with
  | [] => default
  | (k0, v0) :: rest => if k0 =? key then v0 else zdict_get rest key default
  end.

(** [d[key] = v] *)
Fixpoint zdict_set {V} (d : list (Z * V)) (key : Z) (v : V) : list (Z * V) :=
  match d with
  | [] => [(key, v)]
  | (k0, v0) :: rest =>
      if k0 =? key then (k0, v) :: rest else (k0, v0) :: zdict_set rest key v
  end.

(** Equality of two lists of tokens. *)
Definition tokens_eqb (x y : list pystr) : bool :=
  if list_eq_dec (list_eq_dec Z.eq_dec) x y then true else false.

(** *** [_find_token_subsequence] *)

(** [stream.index(x, lo, hi)] for [0 <= lo]: the first position in
    [[lo, hi)] that holds [x]; [None] is the [ValueError].  [l] is the
    stream from position [pos] on. *)
Fixpoint index_from (x : pystr) (l : list pystr) (pos lo hi : Z) : option Z :=
  match l with
  | [] => None
  | y :: t =>
      if (lo <=? pos) && (pos <? hi) && str_eqb y x then Some pos
      else index_from x t (pos + 1) lo hi
  end.

(** [while i <= max_i: ...].  Every round that goes on raises [i], so
    [max_i - i + 1] rounds are enough and the fuel never runs out. *)
Fixpoint seek (fuel : nat) (stream seq : list pystr) (first : pystr) (i max_i : Z)
  : option Z :=
  match fuel with
  | O => None
  | S fuel' =>
      if i <=? max_i then
        match index_from first stream 0 i (max_i + 1) with
        | None => None
        | Some j =>
            if tokens_eqb (slice j (j + len seq) stream) seq then Some j
            else seek fuel' stream seq first (j + 1) max_i
        end
      else None
  end.

(** [_find_token_subsequence]; [max_seek] may be [None]. *)
Definition _find_token_subsequence (stream seq : list pystr) (start : Z)
  (max_seek : option Z) : option Z :=
  match seq with
  | [] => Some start
  | first :: _ =>
      let start := if start <? 0 then 0 else start in
      let max_i := len stream - len seq in
      if max_i <? start then None
      else
        let max_i :=
          match max_seek with
          | Some m => if 0 <? m then Z.min max_i (start + m) else max_i
          | None => max_i
          end in
        seek (Z.to_nat (max_i - start + 1)) stream seq first start max_i
  end.

(** The default of the signature. *)
Definition default_max_seek : option Z := Some 5000.

(** *** [_dominant_order] *)

(** [for i, order in enumerate(orders)]: the dictionaries [counts] and
    [first_idx]. *)
Fixpoint tally (orders : list (option Z)) (i : Z) (counts first_idx : list (Z * Z))
  : list (Z * Z) * list (Z * Z) :=
  match orders with
  | [] => (counts, first_idx)
  | None :: rest => tally rest (i + 1) counts first_idx
  | Some order :: rest =>
      let counts := zdict_set counts order (zdict_get counts order 0 + 1) in
      let first_idx :=
        if zdict_mem first_idx order then first_idx
        else zdict_set first_idx order i in
      tally rest (i + 1) counts first_idx
  end.

(** The order of Python on pairs of integers: [a > b]. *)
Definition pair_gt (a b : Z * Z) : bool :=
  (fst b <? fst a) || ((fst a =? fst b) && (snd b <? snd a)).

(** [max(keys, key=key)]: the first key whose value no later one exceeds;
    [best] is the greatest so far. *)
Fixpoint max_by (key : Z -> Z * Z) (best : Z) (keys : list Z) : Z :=
  match keys with
  | [] => best
  | k :: rest => max_by key (if pair_gt (key k) (key best) then k else best) rest
  end.

Definition _dominant_order (orders : list (option Z)) : option Z :=
  let '(counts, first_idx) := tally orders 0 [] [] in
  match map fst counts with
  | [] => None
  | k :: keys =>
      Some (max_by (fun k => (zdict_get counts k 0, - zdict_get first_idx k 0))
              k keys)
  end.

(** *** [_assign_suborders] *)

(** [for s in sentences], on the orders of the sentences: the suborders
    written to them. *)
Fixpoint suborders (orders : list (option Z)) (counters : list (Z * Z))
  : list (option Z) :=
  match orders with
  | [] => []
  | None :: rest => None :: suborders rest counters
  | Some order :: rest =>
      let sub := zdict_get counters order 0 in
      Some sub :: suborders rest (zdict_set counters order (sub + 1))
  end.

Definition _assign_suborders (orders : list (option Z)) : list (option Z) :=
  suborders orders [].

(** *** [_rebuild_chunk_ranges] *)

Definition chunk_eqb (x y : option Z) : bool :=
  match x, y with
  | Some a, Some b => a =? b
  | None, None => true
  | _, _ => false
  end.

(** [for i, s in enumerate(sentences)], on the chunks of the sentences,
    followed by the last [append]. *)
Fixpoint ranges_loop (chunks : list (option Z)) (i start : Z) (prev_chunk : option Z)
  : list (Z * Z) :=
  match chunks with
  | [] => [(start, i)]
  | chunk :: rest =>
      if negb (chunk_eqb chunk prev_chunk)
      then (start, i) :: ranges_loop rest (i + 1) i chunk
      else ranges_loop rest (i + 1) start prev_chunk
  end.

Definition _rebuild_chunk_ranges (chunks : list (option Z)) : list (Z * Z) :=
  match chunks with
  | [] => []
  | first :: _ => ranges_loop chunks 0 0 first
  end.

(** *** Notions used to state the properties *)

(** [seq] stands in [stream] at position [j]. *)
Definition occurs_at (stream seq : list pystr) (j : Z) : Prop :=
  0 <= j /\ slice j (j + len seq) stream = seq.

(** The positions that [_find_token_subsequence] looks at: those from
    [max(0, start)] on, no further than [max_seek] beyond it if
    [max_seek] is a positive number. *)
Definition within_seek (start : Z) (max_seek : option Z) (k : Z) : Prop :=
  Z.max 0 start <= k
  /\ match max_seek with
     | Some m => 0 < m -> k <= Z.max 0 start + m
     | None => True
     end.

(** The number of entries of [orders] that are [order]. *)
Definition occurrences (orders : list (option Z)) (order : Z) : Z :=
  len (filter (chunk_eqb (Some order)) orders).

(** The position of the first entry of [orders] that is [order]. *)
Fixpoint first_position (orders : list (option Z)) (order : Z) : Z :=
  match orders with
  | [] => 0
  | o :: rest => if chunk_eqb (Some order) o then 0 else 1 + first_position rest order
  end.

(** What the two dictionaries hold after the entries [seen]. *)
Definition tallied (seen : list (option Z)) (counts first_idx : list (Z * Z)) : Prop :=
  (forall o, zdict_get counts o 0 = occurrences seen o)
  /\ (forall o, zdict_mem counts o = true <-> 0 < occurrences seen o)
  /\ (forall o, zdict_mem first_idx o = true <-> 0 < occurrences seen o)
  /\ (forall o, 0 < occurrences seen o ->
        zdict_get first_idx o 0 = first_position seen o).

(** The ranges [(start, end)] follow one another from [lo] to [hi], none
    of them empty. *)
Fixpoint tiles (lo hi : Z) (ranges : list (Z * Z)) : Prop :=
  match ranges with
  | [] => lo = hi
  | (s, e) :: rest => s = lo /\ lo < e /\ tiles e hi rest
  end.

(** [xs[i]] for [0 <= i < len(xs)]. *)
Definition item {A} (xs : list A) (i : Z) : option A := nth_error xs (Z.to_nat i).

End Orders.
Import Orders.
(** ** [_assign_orders_to_sentences] *)

Module OrderMap.

(** A part: [None] when it is not a dict, else its text and its order. *)
Definition Part : Type := option (pystr * option Z).

Section Assign.

(** [_tokens_from_text_for_order]; it folds the text with [unidecode]. *)
Variable _tokens_from_text_for_order : pystr -> list pystr.

(** [for p in parts]: [flat_tokens] and [flat_orders]. *)
Fixpoint flatten (parts : list Part) : list pystr * list (option Z) :=
  match parts with
  | [] => ([], [])
  | None :: rest => flatten rest
  | Some (text, order) :: rest =>
      let tokens := _tokens_from_text_for_order text in
      let '(flat_tokens, flat_orders) := flatten rest in
      (tokens ++ flat_tokens, map (fun _ => order) tokens ++ flat_orders)
  end.

(** [for s in sentences], on the tokens of the sentences: the orders
    written to them. *)
Fixpoint assign_loop (flat_tokens : list pystr) (flat_orders : list (option Z))
  (sentences : list (list pystr)) (cursor : Z) : list (option Z) :=
  match sentences with
  | [] => []
  | tokens :: rest =>
      if negb (nonempty_list tokens) then
        None :: assign_loop flat_tokens flat_orders rest cursor
      else
        match _find_token_subsequence flat_tokens tokens cursor default_max_seek with
        | None => None :: assign_loop flat_tokens flat_orders rest cursor
        | Some pos =>
            let span_orders := slice pos (pos + len tokens) flat_orders in
            _dominant_order span_orders
            :: assign_loop flat_tokens flat_orders rest (pos + len tokens)
        end
  end.

(** [_assign_orders_to_sentences], on the tokens and the orders of the
    sentences: the orders they have afterwards. *)
Definition _assign_orders_to_sentences
  (sentences : list (list pystr * option Z)) (parts : list Part)
  : list (option Z) :=
  let '(flat_tokens, flat_orders) := flatten parts in
  if negb (nonempty_list flat_tokens) then map snd sentences
  else assign_loop flat_tokens flat_orders (map fst sentences) 0.

(** The tokens of the parts, one after the other. *)
Definition part_tokens (parts : list Part) : list pystr :=
  flat_map (fun p => match p with
                     | Some (text, _) => _tokens_from_text_for_order text
                     | None => []
                     end) parts.

(** For every token of the parts, the order of its part. *)
Definition token_orders (parts : list Part) : list (option Z) :=
  flat_map (fun p => match p with
                     | Some (text, order) =>
                         map (fun _ => order) (_tokens_from_text_for_order text)
                     | None => []
                     end) parts.

End Assign.

(** The sentences are placed one after the other in the stream from
    [cursor] on: a sentence has the order [None], or its tokens stand in
    the stream at a position [pos] and its order is the dominant one of the
    orders at [pos]; the next sentences lie after it. *)
Fixpoint placed (flat_tokens : list pystr) (flat_orders : list (option Z))
  (cursor : Z) (sentences : list (list pystr)) (orders : list (option Z)) : Prop :=
  match sentences, orders with
  | [], [] => True
  | tokens :: ss, o :: os =>
      (o = None /\ placed flat_tokens flat_orders cursor ss os) \/
      (exists pos,
         tokens <> [] /\ cursor <= pos /\ pos + len tokens <= len flat_tokens /\
         slice pos (pos + len tokens) flat_tokens = tokens /\
         o = _dominant_order (slice pos (pos + len tokens) flat_orders) /\
         placed flat_tokens flat_orders (pos + len tokens) ss os)
  | _, _ => False
  end.

End OrderMap.
(** ** [_coalesce_short_sentences_with_meta] *)

Module Coalesce.

(** The [meta] of a sentence, as far as the function reads it: its
    [chunk] and its [order]. *)
Definition Bucket : Type := option Z * option Z.

(** A sentence and its [meta]. *)
Definition MetaSentence : Type := Sentence * Bucket.

(** [items[i] = v] *)
Fixpoint set_item {A} (i : nat) (v : A) (items : list A) : list A :=
  match items, i with
  | [], _ => []
  | _ :: t, O => v :: t
  | h :: t, S i' => h :: set_item i' v t
  end.

(** [del items[i]] *)
Fixpoint del_item {A} (i : nat) (items : list A) : list A :=
  match items, i with
  | [], _ => []
  | _ :: t, O => t
  | h :: t, S i' => h :: del_item i' t
  end.

(** [items[i - 1]] when [i > 0]. *)
Definition prev_item {A} (items : list A) (i : nat) : option A :=
  match i with O => None | S j => nth_error items j end.

Section Merge.

(** [make_sentence]; it folds the text with [unidecode]. *)
Variable make_sentence : pystr -> Sentence.

(** [_merge_sentences_with_meta] *)
Definition _merge_sentences_with_meta (left right : MetaSentence)
  (keep_meta : Bucket) : MetaSentence :=
  (make_sentence
     (strip (rstrip (s_text (fst left)) ++ 32 :: lstrip (s_text (fst right)))),
   keep_meta).

Variables min_chars min_tokens : Z.

Definition _too_short (s : MetaSentence) : bool :=
  (negb (min_chars =? 0) && (len (strip (s_text (fst s))) <? min_chars))
  || (negb (min_tokens =? 0) && (len (s_tokens (fst s)) <? min_tokens)).

Definition _same_bucket (a b : MetaSentence) : bool :=
  chunk_eqb (fst (snd a)) (fst (snd b))
  && chunk_eqb (snd (snd a)) (snd (snd b)).

(** [while i < len(items)].  Every round raises [i] or shortens the
    list, so twice the length of the list is enough fuel. *)
Fixpoint coalesce_loop (fuel : nat) (items : list MetaSentence) (i : nat)
  : list MetaSentence :=
  match fuel with
  | O => items
  | S fuel' =>
      match nth_error items i with
      | None => items
      | Some s =>
          if negb (_too_short s) then coalesce_loop fuel' items (S i)
          else
            let with_next :=
              match nth_error items (S i) with
              | Some next =>
                  if _same_bucket s next then
                    coalesce_loop fuel'
                      (del_item i
                         (set_item (S i)
                            (_merge_sentences_with_meta s next (snd next)) items))
                      i
                  else coalesce_loop fuel' items (S i)
              | None => coalesce_loop fuel' items (S i)
              end in
            match prev_item items i with
            | Some prev =>
                if _same_bucket prev s then
                  coalesce_loop fuel'
                    (del_item i
                       (set_item (i - 1)
                          (_merge_sentences_with_meta prev s (snd prev)) items))
                    i
                else with_next
            | None => with_next
            end
      end
  end.

(** [_coalesce_short_sentences_with_meta]: the list afterwards. *)
Definition _coalesce_short_sentences_with_meta (items : list MetaSentence)
  : list MetaSentence :=
  if (min_chars <=? 0) && (min_tokens <=? 0) then items
  else coalesce_loop (2 * length items) items 0.

End Merge.

(** *** Notions used to state the properties *)

Definition bucket_eqb (a b : Bucket) : bool :=
  chunk_eqb (fst a) (fst b) && chunk_eqb (snd a) (snd b).

(** The buckets of a list with every run of equal neighbours taken
    once. *)
Fixpoint runs (buckets : list Bucket) : list Bucket :=
  match buckets with
  | [] => []
  | a :: rest =>
      match rest with
      | b :: _ => if bucket_eqb a b then runs rest else a :: runs rest
      | [] => [a]
      end
  end.

End Coalesce.
(** ** [sanitize_text] *)

Module Sanitize.

(** [SANITIZE_MAP]: quotes and primes become an apostrophe or a double
    quote, dashes a hyphen, the ellipsis three dots, bullets an asterisk,
    the wide and narrow spaces a space, and the zero-width characters
    disappear. *)
Definition to_apostrophe (c : Z) : bool :=
  (c =? 171) || (c =? 187) || (c =? 8249) || (c =? 8250) || (c =? 8217)
  || (c =? 8216) || (c =? 8218) || (c =? 8242) || (c =? 8245) || (c =? 65287).

Definition to_quote (c : Z) : bool :=
  (c =? 8220) || (c =? 8221) || (c =? 8222) || (c =? 8223) || (c =? 12317)
  || (c =? 12318).

Definition to_hyphen (c : Z) : bool :=
  (c =? 8212) || (c =? 8211) || (c =? 8722) || (c =? 8210) || (c =? 8213).

Definition to_asterisk (c : Z) : bool :=
  (c =? 183) || (c =? 8226) || (c =? 8729).

Definition to_space (c : Z) : bool :=
  (c =? 160) || (c =? 5760) || ((8192 <=? c) && (c <=? 8202)) || (c =? 8239)
  || (c =? 8287) || (c =? 12288).

Definition to_nothing (c : Z) : bool :=
  (c =? 8203) || (c =? 8204) || (c =? 8205) || (c =? 65279).

(** The image of one character; [ellipsis] tells whether the ellipsis is
    in the map. *)
Definition translate_char (ellipsis : bool) (c : Z) : pystr :=
  if to_apostrophe c then [39]
  else if to_quote c then [34]
  else if to_hyphen c then [45]
  else if (c =? 8230) && ellipsis then [46; 46; 46]
  else if to_asterisk c then [42]
  else if to_space c then [32]
  else if to_nothing c then []
  else [c].

(** [s.translate(table)] *)
Definition translate (ellipsis : bool) (s : pystr) : pystr :=
  concat (map (translate_char ellipsis) s).

(** What a run of [k] dots becomes under [re.sub(r"\.{4,}", "...", s)]. *)
Definition flush_dots (k : nat) : pystr :=
  if Nat.leb 4 k then [46; 46; 46] else repeat 46 k.

(** [re.sub(r"\.{4,}", "...", s)]; [pending] dots of the run at hand have
    been read. *)
Fixpoint cap_dots_from (pending : nat) (s : pystr) : pystr :=
  match s with
  | [] => flush_dots pending
  | c :: t =>
      if c =? 46 then cap_dots_from (S pending) t
      else flush_dots pending ++ c :: cap_dots_from O t
  end.

Definition cap_dots (s : pystr) : pystr := cap_dots_from O s.

(** [re.sub(cls + "+", " ", s)] for a class [cls] of characters; [in_run]
    tells whether the character before was of the class. *)
Fixpoint collapse_from (cls : Z -> bool) (in_run : bool) (s : pystr) : pystr :=
  match s with
  | [] => []
  | c :: t =>
      if cls c then (if in_run then [] else [32]) ++ collapse_from cls true t
      else c :: collapse_from cls false t
  end.

Definition collapse (cls : Z -> bool) (s : pystr) : pystr :=
  collapse_from cls false s.

(** The class [[ \t\f\v]]. *)
Definition is_blank (c : Z) : bool :=
  (c =? 32) || (c =? 9) || (c =? 12) || (c =? 11).

(** [s.replace(old, new)] for an [old] of the two characters [a], [b] and a
    [new] of the one character [r]. *)
Fixpoint replace_pair (a b r : Z) (s : pystr) : pystr :=
  match s with
  | [] => []
  | x :: t =>
      match t with
      | y :: u =>
          if (x =? a) && (y =? b) then r :: replace_pair a b r u
          else x :: replace_pair a b r t
      | [] => [x]
      end
  end.

(** [sanitize_text] *)
Definition sanitize_text (s : pystr) (for_split : bool) : pystr :=
  if negb (nonempty s) then s
  else
    let s :=
      if for_split then
        let s := replace_pair 92 114 13 (replace_pair 92 110 10 s) in
        collapse is_blank (translate false s)
      else collapse isspace (cap_dots (translate true s)) in
    strip s.

(** *** Notions used to state its properties *)

(** A character of [SANITIZE_MAP]. *)
Definition in_sanitize_map (c : Z) : bool :=
  to_apostrophe c || to_quote c || to_hyphen c || (c =? 8230) || to_asterisk c
  || to_space c || to_nothing c.

(** With [k] dots read just before it, [s] has no run of four dots. *)
Fixpoint short_dots (k : nat) (s : pystr) : Prop :=
  match s with
  | [] => (k < 4)%nat
  | c :: t =>
      if c =? 46 then short_dots (S k) t
      else (k < 4)%nat /\ short_dots O t
  end.

(** The whitespace of [s] is single spaces; [after_ws] tells whether a
    whitespace character stands just before [s]. *)
Fixpoint single_spaced (after_ws : bool) (s : pystr) : Prop :=
  match s with
  | [] => True
  | c :: t =>
      if isspace c then c = 32 /\ after_ws = false /\ single_spaced true t
      else single_spaced false t
  end.

End Sanitize.
Import Sanitize.
(** ** [_clean_asr_prompt] and [_tokens_within_segment] *)

Module Prompt.

(** The pattern [_BRACKET_TAG_RE]: an opening bracket, any characters
    that are no brackets, a closing bracket. *)
Definition no_bracket (c : Z) : bool := negb ((c =? 91) || (c =? 93)).

Definition match_bracket_tag (s : pystr) : option nat :=
  match s with
  | c :: t =>
      if c =? 91 then
        let k := span_len no_bracket t in
        match skipn k t with
        | d :: _ => if d =? 93 then Some (k + 2)%nat else None
        | [] => None
        end
      else None
  | [] => None
  end.

(** [rx.sub("", s)] for a pattern that matches no empty string; [skip]
    characters of the last match are still to be passed. *)
Fixpoint remove_matches (m : pystr -> option nat) (skip : nat) (s : pystr) : pystr :=
  match s with
  | [] => []
  | c :: t =>
      match skip with
      | S k => remove_matches m k t
      | O =>
          match m s with
          | Some (S n) => remove_matches m n t
          | _ => c :: remove_matches m 0 t
          end
      end
  end.

(** [_clean_asr_prompt] *)
Definition _clean_asr_prompt (text : pystr) (max_chars : Z) : pystr :=
  if negb (nonempty text) then []
  else
    let text := remove_matches match_bracket_tag 0 text in
    let text := strip (collapse isspace text) in
    if negb (max_chars =? 0) && (0 <? max_chars) && (max_chars <? len text)
    then rstrip (py_prefix text max_chars)
    else text.






(** *** Notions used to state the properties *)


End Prompt.
Import Prompt.
(** ** Notions used to state the properties of the tag and break helpers *)

Module ChunkerNotions.

(** The spans [(start, end)] follow one another between [lo] and [hi]
    without touching inside: each starts no earlier than the one before
    it ends, and none is empty. *)
Fixpoint ordered_spans (lo hi : Z) (spans : list (Z * Z)) : Prop :=
  match spans with
  | [] => True
  | (s, e) :: rest => lo <= s /\ s < e /\ e <= hi /\ ordered_spans e hi rest
  end.

(** [i] lies strictly inside one of the spans. *)
Definition inside_span (spans : list (Z * Z)) (i : Z) : Prop :=
  exists sp, In sp spans /\ fst sp < i < snd sp.

(** [i] is covered by one of the spans. *)
Definition covered (spans : list (Z * Z)) (i : Z) : bool :=
  existsb (in_span i) spans.

(** A break at [i] would part a surrogate pair of [s]. *)
Definition splits_pair (s : pystr) (i : Z) : Prop :=
  0 < i < len s
  /\ high_surrogate (char_at s (i - 1)) = true
  /\ low_surrogate (char_at s i) = true.

(** No two paragraph markers stand side by side. *)
Fixpoint no_adjacent_markers (sents : list pystr) : Prop :=
  match sents with
  | a :: (b :: _) as rest =>
      ~ (is_marker a = true /\ is_marker b = true) /\ no_adjacent_markers rest
  | _ => True
  end.

(** A sentence with something else than whitespace in it. *)
Definition non_blank (s : pystr) : Prop := nonempty (strip s) = true.

(** The sentences of the paragraphs: a marker comes only after a
    sentence, and no sentence is blank. *)
Definition after_sentence (sents : list pystr) : Prop :=
  Forall (fun s => is_marker s = true \/ non_blank s) sents
  /\ no_adjacent_markers sents
  /\ forall s rest, sents = s :: rest -> is_marker s = false.

(** A chunk that is one bracketed tag: it starts with an opening square
    bracket and has no closing one before its last character. *)
Definition lone_tag (c : pystr) : bool :=
  match c with
  | x :: body =>
      (x =? 91) && forallb (fun y => negb (y =? 93)) (removelast body)
  | [] => false
  end.

(** A chunk within the limit, or one bracketed tag. *)
Definition within_or_tag (limit : Z) (c : pystr) : Prop :=
  len c <= limit \/ lone_tag c = true.

End ChunkerNotions.
Import ChunkerNotions.
(** ** [TextPartsManager]: the initial merge of the text parts *)

Module TextParts.

(** [attach_mode]: ["suffix"] or ["prefix"]. *)
Inductive Mode := suffix_mode | prefix_mode.

(** The manager; [part_chunk] is the [chunk] of [part_meta]. *)
Record Manager := mkManager {
  parts : list pystr;
  part_chunk : list (option Z);
  min_chars : Z;
  prefix_children : list (list Z);
  suffix_children : list (list Z);
  attached_to : list (option Z);
  attach_mode : list (option Mode);
  merged_into : list (option Z)
}.

(** [xs[i] = v] *)
Fixpoint put {A} (i : nat) (v : A) (xs : list A) : list A :=
  match xs, i with
  | [], _ => []
  | _ :: t, O => v :: t
  | h :: t, S i' => h :: put i' v t
  end.

(** [xs[i]] for [0 <= i < len(xs)]. *)
Definition get {A} (xs : list A) (i : Z) (d : A) : A := nth (Z.to_nat i) xs d.

(** [_attach_suffix] *)
Definition _attach_suffix (m : Manager) (child_idx target_idx : Z) : Manager :=
  mkManager (parts m) (part_chunk m) (min_chars m) (prefix_children m)
    (put (Z.to_nat target_idx)
       (get (suffix_children m) target_idx [] ++ [child_idx])
       (suffix_children m))
    (put (Z.to_nat child_idx) (Some target_idx) (attached_to m))
    (put (Z.to_nat child_idx) (Some suffix_mode) (attach_mode m))
    (put (Z.to_nat child_idx) (Some target_idx) (merged_into m)).

(** [len((self.parts[idx] or "").strip())] *)
Definition stripped_len (m : Manager) (idx : Z) : Z :=
  len (strip (get (parts m) idx [])).

Definition chunk_of (m : Manager) (idx : Z) : option Z :=
  get (part_chunk m) idx None.

Definition is_attached (m : Manager) (idx : Z) : bool :=
  match get (attached_to m) idx None with Some _ => true | None => false end.

(** The inner loop of [_initial_merge]: the parts that follow [carrier]
    are attached to it while they are of its chunk and either the total
    length is short of [min_chars] or the part is; the manager and the
    index it stops at.  Every round raises [idx], so [n - idx] rounds are
    enough. *)
Fixpoint merge_inner (fuel : nat) (m : Manager) (carrier total_len idx : Z)
  : Manager * Z :=
  match fuel with
  | O => (m, idx)
  | S fuel' =>
      if idx <? len (parts m) then
        if negb (chunk_eqb (chunk_of m idx) (chunk_of m carrier)) then (m, idx)
        else
          let next_len := stripped_len m idx in
          if total_len <? min_chars m then
            merge_inner fuel' (_attach_suffix m idx carrier) carrier
              (total_len + next_len) (idx + 1)
          else if next_len <? min_chars m then
            merge_inner fuel' (_attach_suffix m idx carrier) carrier
              (total_len + next_len) (idx + 1)
          else (m, idx)
      else (m, idx)
  end.

(** The outer loop. *)
Fixpoint merge_outer (fuel : nat) (m : Manager) (idx : Z) : Manager :=
  match fuel with
  | O => m
  | S fuel' =>
      if idx <? len (parts m) then
        if is_attached m idx then merge_outer fuel' m (idx + 1)
        else
          let '(m', idx') :=
            merge_inner (Z.to_nat (len (parts m) - (idx + 1))) m idx
              (stripped_len m idx) (idx + 1) in
          merge_outer fuel' m' idx'
      else m
  end.

(** [_initial_merge] *)
Definition _initial_merge (m : Manager) : Manager :=
  merge_outer (length (parts m)) m 0.

(** [TextPartsManager.__init__] on parts given by their text and their
    chunk; the chunk of a part that is a string or a tuple is [None].  The
    [order] and [suborder] of [part_meta] are not read by the functions
    below. *)
Definition new_manager (items : list (pystr * option Z)) (min_chars : Z) : Manager :=
  _initial_merge
    (mkManager (map fst items) (map snd items) (Z.max 0 min_chars)
       (map (fun _ => []) items) (map (fun _ => []) items)
       (map (fun _ => None) items) (map (fun _ => None) items)
       (map (fun _ => None) items)).

(** [_compose_text]: the texts of the prefix children, of the part and of
    the suffix children that are not empty, joined by spaces. *)
Definition _compose_text (m : Manager) (idx : Z) : pystr :=
  let texts :=
    map (fun child => get (parts m) child []) (get (prefix_children m) idx [])
    ++ [get (parts m) idx []]
    ++ map (fun child => get (parts m) child []) (get (suffix_children m) idx [])
  in
  strip (join_space (filter nonempty texts)).

Section Build.

(** [norm_text] and [tokenize_words]; both fold the text with
    [unidecode]. *)
Variable norm_text : pystr -> pystr.
Variable tokenize_words : pystr -> list pystr.

(** [make_sentence]: the bracketed tags are removed, the whitespace is
    collapsed to single spaces and stripped, and the text is sanitized. *)
Definition make_sentence (text : pystr) : Sentence :=
  let text := remove_matches match_bracket_tag 0 text in
  let text := strip (collapse isspace text) in
  let vis := sanitize_text text false in
  let nrm := norm_text vis in
  mkSentence vis nrm (tokenize_words nrm) false.

(** [_make_real_sentence]; of the [meta] it sets, the [placeholder]
    flag is kept. *)
Definition _make_real_sentence (m : Manager) (idx : Z) : Sentence :=
  let text := _compose_text m idx in
  let sent := if nonempty text then make_sentence text
              else mkSentence [] [] [] false in
  mkSentence (s_text sent) (s_norm sent) (s_tokens sent) false.

(** [_make_placeholder_sentence] *)
Definition _make_placeholder_sentence (m : Manager) (idx : Z) : Sentence :=
  mkSentence [] [] [] true.

(** [build_sentences] *)
Definition build_sentences (m : Manager) : list Sentence :=
  map (fun idx =>
         if is_attached m idx then _make_placeholder_sentence m idx
         else _make_real_sentence m idx)
      (zrange 0 (length (parts m))).

End Build.

(** *** Notions used to state the properties *)

(** The sum of the stripped lengths of the parts [lo], ..., [hi - 1]. *)
Definition span_chars (m : Manager) (lo hi : Z) : Z :=
  zsum (map (stripped_len m) (zrange lo (Z.to_nat (hi - lo)))).

(** The carrier of a part: the part it is attached to, or itself. *)
Definition carrier_of (m : Manager) (idx : Z) : Z :=
  match get (attached_to m) idx None with Some c => c | None => idx end.

Definition mode_of (m : Manager) (idx : Z) : option Mode :=
  get (attach_mode m) idx None.

(** Part [idx] starts a group: it is the first part, or its chunk is
    not that of the part before it, or the group before it has reached
    [min_chars] and the part has [min_chars] characters of its own. *)
Definition boundary (m : Manager) (idx : Z) : Prop :=
  idx = 0 \/
  chunk_eqb (chunk_of m idx) (chunk_of m (idx - 1)) = false \/
  (min_chars m <= span_chars m (carrier_of m (idx - 1)) idx /\
   min_chars m <= stripped_len m idx).

(** The lists of the manager are as long as [parts], and no part has
    prefix children. *)
Record shaped (m : Manager) : Prop := {
  shaped_chunk : length (part_chunk m) = length (parts m);
  shaped_prefix : length (prefix_children m) = length (parts m);
  shaped_suffix : length (suffix_children m) = length (parts m);
  shaped_attached : length (attached_to m) = length (parts m);
  shaped_mode : length (attach_mode m) = length (parts m);
  shaped_merged : length (merged_into m) = length (parts m);
  shaped_no_prefix : forall i, get (prefix_children m) i [] = []
}.

(** The parts before [k] are grouped, the parts from [k] on are as
    [__init__] left them. *)
Record merged (m : Manager) (k : Z) : Prop := {
  merged_shape : shaped m;
  merged_range : 0 <= k <= len (parts m);
  merged_fresh : forall i, k <= i < len (parts m) ->
    get (attached_to m) i None = None /\
    get (suffix_children m) i [] = [] /\
    mode_of m i = None /\ get (merged_into m) i None = None;
  merged_attached : forall i c, 0 <= i < k ->
    get (attached_to m) i None = Some c ->
    0 <= c < i /\ get (attached_to m) c None = None /\
    c = carrier_of m (i - 1) /\
    chunk_eqb (chunk_of m i) (chunk_of m (i - 1)) = true /\
    (span_chars m c i < min_chars m \/ stripped_len m i < min_chars m) /\
    mode_of m i = Some suffix_mode /\
    get (merged_into m) i None = Some c;
  merged_carrier : forall i, 0 <= i < k ->
    get (attached_to m) i None = None ->
    boundary m i /\ mode_of m i = None /\
    get (merged_into m) i None = None;
  merged_children : forall c, 0 <= c < len (parts m) ->
    get (suffix_children m) c [] =
      zrange (c + 1) (length (get (suffix_children m) c [])) /\
    forall j, 0 <= j < len (parts m) ->
      (In j (get (suffix_children m) c []) <->
       get (attached_to m) j None = Some c)
}.

(** The state of the inner loop of [_initial_merge]. *)
Record growing (m : Manager) (carrier total_len idx : Z) : Prop := {
  growing_merged : merged m idx;
  growing_carrier : 0 <= carrier < idx;
  growing_last : carrier_of m (idx - 1) = carrier;
  growing_free : get (attached_to m) carrier None = None;
  growing_total : total_len = span_chars m carrier idx;
  growing_chunk :
    chunk_eqb (chunk_of m (idx - 1)) (chunk_of m carrier) = true;
  growing_children :
    idx = carrier + 1 + len (get (suffix_children m) carrier [])
}.

(** The state of the outer loop. *)
Definition closed (m : Manager) (idx : Z) : Prop :=
  merged m idx /\ (idx < len (parts m) -> boundary m idx).

End TextParts.
(** ** [IncrementalAligner.extend_words_and_align] *)

Module AlignLoop.

Definition with_words (a : Aligner) (ws : list Word) (ts : list pystr)
  (ss : list (option pystr)) (cur : Z) : Aligner :=
  mkAligner (sentences a) (min_score a) (max_checks a) (dynamic_factor a)
    ts ws ss cur (sent_idx a) (last_start_ms a) (last_end_ms a)
    (stop_idx a) (forced_src a) (results a).

(** [sname != src] *)
Definition other_src (src : pystr) (sname : option pystr) : bool :=
  negb (src_is sname src).

(** [for w, t, sname in zip(self.words, self.word_texts, self.word_srcs):
    if sname != src: keep...] *)
Fixpoint keep_other (src : pystr) (ws : list Word) (ts : list pystr)
  (ss : list (option pystr)) : list Word * list pystr * list (option pystr) :=
  match ws, ts, ss with
  | w :: ws', t :: ts', sname :: ss' =>
      let '(kw, kt, ks) := keep_other src ws' ts' ss' in
      if other_src src sname then (w :: kw, t :: kt, sname :: ks)
      else (kw, kt, ks)
  | _, _, _ => ([], [], [])
  end.

(** The words of [src] heard before are dropped, and the cursor is set
    back to the word that [last_end_ms + 1] points at. *)
Definition replace_src (src : option pystr) (a : Aligner) : Aligner :=
  match src with
  | Some name =>
      if nonempty_list (word_srcs a) then
        let '(kw, kt, ks) :=
          keep_other name (words a) (word_texts a) (word_srcs a) in
        if negb (len kw =? len (words a)) then
          let a1 := with_words a kw kt ks (cursor a) in
          with_words a1 kw kt ks
            (Z.min (len kw) (_ptr_for_time a1 (last_end_ms a + 1)))
        else a
      else a
  | None => a
  end.

Definition with_result (a : Aligner) (r : Result) : Aligner :=
  mkAligner (sentences a) (min_score a) (max_checks a) (dynamic_factor a)
    (word_texts a) (words a) (word_srcs a) (cursor a) (sent_idx a + 1)
    (last_start_ms a) (last_end_ms a) (stop_idx a) (forced_src a)
    (results a ++ [r]).

Definition dummy_sentence : Sentence := mkSentence [] [] [] false.

(** [self.stop_idx is not None and self.sent_idx >= self.stop_idx] *)
Definition at_stop (a : Aligner) : bool :=
  match stop_idx a with
  | Some stop => stop <=? sent_idx a
  | None => false
  end.

(** [self.sentences[self.sent_idx]]; [sent_idx] is never negative. *)
Definition current_sentence (a : Aligner) : Sentence :=
  nth (Z.to_nat (sent_idx a)) (sentences a) dummy_sentence.

Section Loop.

(** The scorer of [rapidfuzz] and the folding [unidecode(w.text.lower())]
    of a word text. *)
Variable _best_score : pystr -> pystr -> Z.
Variable fold_text : pystr -> pystr.

(** [for w in new_words: ...append...] *)
Definition append_words (new_words : list Word) (src : option pystr)
  (a : Aligner) : Aligner :=
  with_words a (words a ++ new_words)
    (word_texts a ++ map (fun w => fold_text (w_text w)) new_words)
    (word_srcs a ++ map (fun _ => src) new_words)
    (cursor a).

(** [while self.sent_idx < len(self.sentences): ...].  Every round that
    goes on raises [sent_idx] by one, so [len(sentences) - sent_idx] rounds
    are enough. *)
Fixpoint align_loop (fuel : nat) (aggressive : bool) (a : Aligner) : Aligner :=
  match fuel with
  | O => a
  | S fuel' =>
      if sent_idx a <? len (sentences a) then
        if at_stop a then a
        else
          let s := current_sentence a in
          if s_placeholder s
          then align_loop fuel' aggressive (with_result a (s, None, None, None))
          else
            match _try_match_sentence _best_score a s aggressive with
            | Some a' => align_loop fuel' aggressive a'
            | None => a
            end
      else a
  end.

(** [extend_words_and_align]: the entries it returns and the aligner it
    leaves. *)
Definition extend_words_and_align (new_words : list Word) (src : option pystr)
  (aggressive : bool) (a : Aligner) : list Result * Aligner :=
  let start_len := length (results a) in
  let a1 := append_words new_words src (replace_src src a) in
  let a2 :=
    align_loop (Z.to_nat (len (sentences a1) - sent_idx a1)) aggressive a1 in
  (skipn start_len (results a2), a2).

End Loop.

(** *** Notions used to state its properties *)

(** The entries [rs] are what a run of matches leaves after [lo]: an entry
    without times is that of a placeholder; an entry with times starts
    after the end before it, lasts [MIN_MATCH_MS] at least, and the last
    end is [hi]. *)
Fixpoint timed_chain (lo : Z) (rs : list Result) (hi : Z) : Prop :=
  match rs with
  | [] => lo = hi
  | (_, Some st, Some en, _) :: rest =>
      lo + 1 <= st /\ st + MIN_MATCH_MS <= en /\ timed_chain en rest hi
  | (s, None, None, None) :: rest =>
      s_placeholder s = true /\ timed_chain lo rest hi
  | _ => False
  end.

(** The state in which the loop stops: no sentence is left, or the stop
    index is reached, or the sentence at hand, no placeholder, has no
    match. *)
Definition halted (bs : pystr -> pystr -> Z) (aggressive : bool) (a : Aligner)
  : Prop :=
  len (sentences a) <= sent_idx a
  \/ at_stop a = true
  \/ (s_placeholder (current_sentence a) = false
      /\ _try_match_sentence bs a (current_sentence a) aggressive = None).

(** The three word lists go together. *)
Definition words_aligned (a : Aligner) : Prop :=
  length (word_texts a) = length (words a)
  /\ length (word_srcs a) = length (words a).

(** The words kept when those of [src] are dropped. *)
Definition words_of_others (src : pystr) (a : Aligner) : list Word :=
  map fst (filter (fun p => other_src src (snd p)) (combine (words a) (word_srcs a))).

End AlignLoop.
Import AlignLoop.
(** ** A saved transcript read back *)

Module Resume.

(** The item that [_load_existing] reads back for an item written by
    [save_progress_json]: its [text] is the text of the sentence, and the
    times and the audio file are those written. *)
Definition stored (it : OutItem) : Item :=
  mkItem (Some (s_text (o_sentence it))) (o_start_ms it) (o_end_ms it)
    (o_audio_file it).

(** The entries [rs] are those of the first sentences of [ss], in order,
    and each carries a start and an end. *)
Fixpoint committed_prefix (rs : list Result) (ss : list Sentence) : Prop :=
  match rs, ss with
  | [], _ => True
  | r :: rs', s :: ss' =>
      sentence_of_result r = s
      /\ (exists st en, start_of r = Some st /\ end_of r = Some en)
      /\ committed_prefix rs' ss'
  | _ :: _, [] => False
  end.

(** The items written for committed entries can be replayed. *)
Fixpoint replayable (rs : list Result) (items : list Item) (ss : list Sentence)
  : Prop :=
  match rs, items, ss with
  | [], _, _ => True
  | r :: rs', it :: items', s :: ss' =>
      it_text it = Some (s_text s)
      /\ (exists st en,
            it_start_ms it = Some st /\ it_end_ms it = Some en
            /\ r = (s, Some st, Some en, it_audio_file it))
      /\ replayable rs' items' ss'
  | _, _, _ => False
  end.

End Resume.
Import Resume.
(** ** The processed audio of a stored transcript *)

Module Processed.

(** A value read where a number is expected: [None] when [float(value)]
    raises. *)
Definition Num : Type := option Q.

(** [_as_float] *)
Definition _as_float (value : Num) (default : Q) : Q :=
  match value with Some q => q | None => default end.

(** [max(a, b)] on floats: the first unless the second is greater. *)
Definition py_max (a b : Q) : Q := if Qltb a b then b else a.

(** [round(x, 2)] *)
Definition round2 (x : Q) : Q := inject_Z (py_round (x * 100)) / 100.

(** An entry of [processed_audio]: a string, a list or tuple, or
    anything else.  [head] is the first element of the list when it is a
    string, and [rest] the elements after the first. *)
Inductive AudioEntry :=
| entry_str (name : pystr)
| entry_list (head : option pystr) (rest : list Num)
| entry_other.

(** [_processed_audio_name] *)
Definition _processed_audio_name (entry : AudioEntry) : option pystr :=
  match entry with
  | entry_str name => Some name
  | entry_list (Some name) _ => Some name
  | _ => None
  end.

(** [if name], [name] being a string or [None]. *)
Definition truthy (name : option pystr) : bool :=
  match name with Some n => nonempty n | None => false end.

(** [_processed_audio_names] *)
Fixpoint _processed_audio_names (entries : list AudioEntry) : list pystr :=
  match entries with
  | [] => []
  | entry :: rest =>
      match _processed_audio_name entry with
      | Some name =>
          if nonempty name then name :: _processed_audio_names rest
          else _processed_audio_names rest
      | None => _processed_audio_names rest
      end
  end.

(** A dict from names to floats, in insertion order. *)
Definition Totals : Type := list (pystr * Q).

(** [totals.get(name, default)] *)
Fixpoint totals_get (totals : Totals) (name : pystr) (default : Q) : Q :=
  match totals with
  | [] => default
  | (k, v) :: rest => if str_eqb k name then v else totals_get rest name default
  end.

(** [totals[name] = v] *)
Fixpoint totals_set (totals : Totals) (name : pystr) (v : Q) : Totals :=
  match totals with
  | [] => [(name, v)]
  | (k, v0) :: rest =>
      if str_eqb k name then (k, v) :: rest
      else (k, v0) :: totals_set rest name v
  end.

(** The [progress] of the meta, as far as the functions below write it. *)
Record Progress := mkProgress {
  p_last_audio : option pystr;
  p_audios_done : Z
}.

(** The meta of a stored transcript: [processed_audio] when it is a
    list, [processed_audio_totals] when it is a dict (its keys are
    strings), [progress] when it is a dict. *)
Record Meta := mkMeta {
  m_processed_audio : option (list AudioEntry);
  m_totals : option (list (pystr * Num));
  m_progress : option Progress
}.

(** The stored transcript: [meta] when it is a dict, [items] when it is
    a list. *)
Record Existing := mkExisting {
  e_meta : option Meta;
  e_items : option (list Item)
}.

(** [meta.get("processed_audio") or []] *)
Definition processed_or_empty (meta : Meta) : list AudioEntry :=
  match m_processed_audio meta with Some l => l | None => [] end.

(** [existing.get("items") or []] *)
Definition items_or_empty (e : Existing) : list Item :=
  match e_items e with Some l => l | None => [] end.

(** [_load_processed_audio_totals] *)
Definition _load_processed_audio_totals (meta : Meta) : Totals :=
  match m_totals meta with
  | Some raw =>
      fold_left (fun t kv => totals_set t (fst kv) (_as_float (snd kv) 0%Q)) raw []
  | None => []
  end.

(** One round of the loop of [_normalize_processed_audio_list] for an
    entry with a name: the totals and the entry appended to [out]. *)
Definition normalize_entry (totals : Totals) (name : pystr) (entry : AudioEntry)
  : Totals * AudioEntry :=
  let total0 := totals_get totals name 0%Q in
  let '(last, total) :=
    match entry with
    | entry_list _ rest =>
        let last := match rest with v :: _ => _as_float v 0%Q | [] => 0%Q end in
        let total :=
          match rest with
          | _ :: v2 :: _ => _as_float v2 total0
          | [_] => py_max total0 last
          | [] => total0
          end in
        (last, total)
    | _ => (0%Q, total0)
    end in
  let total := if Qltb total last then last else total in
  (totals_set totals name (py_max (totals_get totals name 0%Q) total),
   entry_list (Some name) [Some (round2 last); Some (round2 total)]).

Fixpoint normalize_loop (totals : Totals) (processed_raw : list AudioEntry)
  : Totals * list AudioEntry :=
  match processed_raw with
  | [] => (totals, [])
  | entry :: rest =>
      match _processed_audio_name entry with
      | Some name =>
          if nonempty name then
            let '(totals1, e1) := normalize_entry totals name entry in
            let '(totals2, out) := normalize_loop totals1 rest in
            (totals2, e1 :: out)
          else normalize_loop totals rest
      | None => normalize_loop totals rest
      end
  end.

Definition with_totals (meta : Meta) (totals : Totals) : Meta :=
  mkMeta (m_processed_audio meta)
    (Some (map (fun kv => (fst kv, Some (snd kv))) totals)) (m_progress meta).

Definition with_processed (meta : Meta) (processed : list AudioEntry) : Meta :=
  mkMeta (Some processed) (m_totals meta) (m_progress meta).

(** [_normalize_processed_audio_list]: the meta, whose totals are
    rewritten, and the list returned. *)
Definition _normalize_processed_audio_list (meta : Meta)
  (processed_raw : list AudioEntry) : Meta * list AudioEntry :=
  let '(totals, out) :=
    normalize_loop (_load_processed_audio_totals meta) processed_raw in
  (with_totals meta totals, out).

(** [name in seen] *)
Definition seen_mem (name : pystr) (seen : list pystr) : bool :=
  existsb (str_eqb name) seen.

Definition item_has_end (it : Item) : bool :=
  match it_end_ms it with Some _ => true | None => false end.

(** The loops of [_sanitize_processed_audio] that rebuild the list from
    the items; the first one ([need_end]) only takes items that have an
    end. *)
Fixpoint rebuild_from_items (need_end : bool) (totals : Totals) (items : list Item)
  (seen : list pystr) : list AudioEntry :=
  match items with
  | [] => []
  | it :: rest =>
      match it_audio_file it with
      | Some name =>
          if nonempty name && (negb need_end || item_has_end it)
             && negb (seen_mem name seen)
          then entry_list (Some name)
                 [Some 0%Q; Some (round2 (totals_get totals name 0%Q))]
               :: rebuild_from_items need_end totals rest (name :: seen)
          else rebuild_from_items need_end totals rest seen
      | None => rebuild_from_items need_end totals rest seen
      end
  end.

(** The audio file of the last item that has one and has an end. *)
Fixpoint last_committed_audio (items : list Item) (last_audio : option pystr)
  : option pystr :=
  match items with
  | [] => last_audio
  | it :: rest =>
      last_committed_audio rest
        (if truthy (it_audio_file it) && item_has_end it then it_audio_file it
         else last_audio)
  end.

(** [names.index(name)] for a name of the list. *)
Fixpoint index_of (name : pystr) (names : list pystr) : nat :=
  match names with
  | [] => O
  | n :: rest => if str_eqb n name then O else S (index_of name rest)
  end.

(** The name of the last entry, [None] for the empty list. *)
Definition last_name (processed : list AudioEntry) : option pystr :=
  match processed with
  | [] => None
  | _ => _processed_audio_name (last processed entry_other)
  end.

(** [progress["last_audio"]] and [progress["audios_done"]] are written
    when [progress] is a dict. *)
Definition with_progress (meta : Meta) (last_audio : option pystr)
  (audios_done : Z) : Meta :=
  match m_progress meta with
  | Some _ =>
      mkMeta (m_processed_audio meta) (m_totals meta)
        (Some (mkProgress last_audio audios_done))
  | None => meta
  end.

(** [_sanitize_processed_audio] *)
Definition _sanitize_processed_audio (existing : Existing) : Existing :=
  match e_meta existing, e_items existing with
  | Some meta0, Some items =>
      let '(meta1, processed) :=
        _normalize_processed_audio_list meta0 (processed_or_empty meta0) in
      let meta := with_processed meta1 processed in
      if negb (nonempty_list processed) then
        let ordered :=
          rebuild_from_items true (_load_processed_audio_totals meta) items [] in
        if nonempty_list ordered then
          mkExisting
            (Some (with_progress (with_processed meta ordered)
                     (last_name ordered) (len ordered)))
            (Some items)
        else mkExisting (Some meta) (Some items)
      else
        let processed_names := _processed_audio_names processed in
        let meta2 :=
          match last_committed_audio items None with
          | None => with_processed meta []
          | Some last_audio =>
              if seen_mem last_audio processed_names then
                with_processed meta
                  (firstn (index_of last_audio processed_names + 1) processed)
              else
                with_processed meta
                  (rebuild_from_items false (_load_processed_audio_totals meta) items [])
          end in
        mkExisting
          (Some (with_progress meta2 (last_name (processed_or_empty meta2))
                   (len (processed_or_empty meta2))))
          (Some items)
  | _, _ => existing
  end.

(** The item with its times and its audio file set to [None]. *)
Definition cleared (it : Item) : Item := mkItem (it_text it) None None None.

(** [it.get("audio_file") == last_audio] *)
Definition of_audio (last_audio : pystr) (it : Item) : bool :=
  match it_audio_file it with
  | Some name => str_eqb name last_audio
  | None => false
  end.

(** [_rewind_last_audio]: the stored transcript and the name returned. *)
Definition _rewind_last_audio (existing : Existing) : Existing * option pystr :=
  match e_meta existing with
  | None => (existing, None)
  | Some meta0 =>
      let '(meta1, processed_audio) :=
        _normalize_processed_audio_list meta0 (processed_or_empty meta0) in
      if negb (nonempty_list processed_audio) then
        (mkExisting (Some meta1) (e_items existing), None)
      else
        let last_entry := last processed_audio entry_other in
        let last_audio := _processed_audio_name last_entry in
        let meta := with_processed meta1 (removelast processed_audio) in
        match last_audio, e_items existing with
        | Some name, Some items =>
            if nonempty name then
              (mkExisting (Some meta)
                 (Some (map (fun it => if of_audio name it then cleared it else it)
                          items)),
               last_audio)
            else (mkExisting (Some meta) (e_items existing), last_audio)
        | _, _ => (mkExisting (Some meta) (e_items existing), last_audio)
        end
  end.

(** The [processed_audio] that [_prime_from_existing] returns; the
    names of its entries are the audio files that the run skips. *)
Definition primed_processed_audio (existing : Existing) : list AudioEntry :=
  match e_meta existing with
  | Some meta => snd (_normalize_processed_audio_list meta (processed_or_empty meta))
  | None => []
  end.

(** *** Notions used to state the properties *)

(** The entry has a name that is not empty. *)
Definition named (entry : AudioEntry) : Prop :=
  truthy (_processed_audio_name entry) = true.

(** What [_rewind_last_audio] does to an item for the audio [name]. *)
Definition rewound (name : pystr) (it it' : Item) : Prop :=
  it_text it' = it_text it /\
  if of_audio name it
  then it_start_ms it' = None /\ it_end_ms it' = None /\ it_audio_file it' = None
  else it' = it.

(** The names of the list end with a name that stands nowhere else in
    it. *)
Definition ends_fresh (names : list pystr) : Prop :=
  names = [] \/
  exists before name, names = before ++ [name] /\ ~ In name before.

(** The names listed in the meta of a stored transcript. *)
Definition listed (existing : Existing) : list pystr :=
  match e_meta existing with
  | Some meta => _processed_audio_names (processed_or_empty meta)
  | None => []
  end.

End Processed.

(** ** Concrete inputs used by the examples *)

Module Examples.

(** A scorer for the examples: 100 on equal strings, 0 otherwise.
    [_best_score] is the greatest of four [rapidfuzz] ratios.  In the
    scenarios below the first window that the matcher scores for a
    sentence is the words of that sentence: [_best_score] is at least 94
    on the sentence and the window, which differ by the final full stop
    only, and the scorer here is 100 on their compact forms, so both
    commit that window.  The 35 tokens and the 42 words further down have
    no letter in common, and both scorers stay under both thresholds on
    every window. *)
Definition exact_score (x y : pystr) : Z := if str_eqb x y then 100 else 0.

(** [n] ASR words [text] of half a second each, starting at [t0] half
    seconds. *)
Definition half_second_words (text : String.string) (t0 : Z) (n : nat) : list Word :=
  map (fun i => mkWord (lit text) (i # 2) ((i + 1) # 2)) (zrange t0 n).

Arguments half_second_words text%_string t0%_Z n%_nat.

(** An aligner right after the words of one file have been appended. *)
Definition aligner_with (ss : list Sentence) (ws : list Word) (src : option pystr)
  (forced : option pystr) : Aligner :=
  mkAligner ss 75 4000 20 (map w_text ws) ws (map (fun _ => src) ws)
    0 0 (-1) (-1) None forced [].

(** A sentence given by its visible text, its normalized text and its
    tokens. *)
Definition sentence_of (text norm : String.string) (tokens : list String.string)
  : Sentence :=
  mkSentence (lit text) (lit norm) (map lit tokens) false.

Arguments sentence_of (text norm)%_string tokens%_list.

Definition a_wav : pystr := lit "a.wav".
Definition b_wav : pystr := lit "b.wav".

(** Scenario S1: two sentences, four words of [a.wav]. *)
Definition s_hello : Sentence :=
  sentence_of "Hello world." "hello world." ["hello"; "world"]%string.
Definition s_goodbye : Sentence :=
  sentence_of "Goodbye now." "goodbye now." ["goodbye"; "now"]%string.

Definition words_s1 : list Word :=
  [mkWord (lit "hello") 0 (1 # 2); mkWord (lit "world") (1 # 2) 1;
   mkWord (lit "goodbye") (12 # 10) (17 # 10);
   mkWord (lit "now") (17 # 10) (21 # 10)].

Definition a_s1 : Aligner :=
  aligner_with [s_hello; s_goodbye] words_s1 (Some a_wav) (Some a_wav).

(** The same words with no forced source. *)
Definition a_s1_unforced : Aligner :=
  aligner_with [s_hello; s_goodbye] words_s1 (Some a_wav) None.

(** Scenario S2: the middle sentence is not heard; the file lasts 6 s.
    The last sentence has one token, so the first window that the
    aggressive search scores for it, of one word, is the whole of it. *)
Definition s_filler : Sentence :=
  sentence_of "Unheard filler text." "unheard filler text."
              ["unheard"; "filler"; "text"]%string.
Definition s_farewell : Sentence :=
  sentence_of "Farewell." "farewell." ["farewell"]%string.

Definition words_s2 : list Word :=
  [mkWord (lit "hello") 0 (1 # 2); mkWord (lit "world") (1 # 2) 1;
   mkWord (lit "farewell") 3 4].

Definition ss_s2 : list Sentence := [s_hello; s_filler; s_farewell].

Definition a_s2 : Aligner :=
  aligner_with ss_s2 words_s2 (Some a_wav) (Some a_wav).

(** The aligner of S2 once the first sentence has been matched. *)
Definition a_s2_stalled : Aligner :=
  match _try_match_sentence exact_score a_s2 s_hello false with
  | Some a => a
  | None => a_s2
  end.

(** Scenario S3, shortened: ASR returns no word for [b.wav], which covers
    two sentences of 4 and 12 characters. *)
Definition s_yes : Sentence := sentence_of "Yes." "yes." ["yes"]%string.
Definition s_not_at_all : Sentence :=
  sentence_of "Not at all!!" "not at all!!" ["not"; "at"; "all"]%string.

Definition ss_s3 : list Sentence := [s_yes; s_not_at_all].

Definition a_s3 : Aligner := aligner_with ss_s3 [] (Some b_wav) (Some b_wav).

(** A sentence of 35 tokens against 42 unrelated ASR words. *)
Definition s35 : Sentence :=
  mkSentence (join_space (repeat (lit "aaaa") 35%nat))
             (join_space (repeat (lit "aaaa") 35%nat))
             (repeat (lit "aaaa") 35%nat) false.

Definition a42 : Aligner :=
  aligner_with [s35] (half_second_words "zzzz" 0 42) (Some a_wav) (Some a_wav).

(** A text part merged into its neighbour, between two real sentences; the
    first sentence is committed. *)
Definition s_merged_part : Sentence := mkSentence [] [] [] true.

Definition ss_ph : list Sentence := [s_hello; s_merged_part; s_goodbye].

Definition results_ph : list Result :=
  [(s_hello, Some 0, Some 1000, Some a_wav); (s_merged_part, None, None, None)].

(** Two committed sentences, the second with no audio file recorded (as
    the matcher leaves it when no source is forced), then a merged text
    part. *)
Definition ss_ph_unnamed : list Sentence := [s_hello; s_goodbye; s_merged_part].

Definition results_ph_unnamed : list Result :=
  [(s_hello, Some 0, Some 1000, Some a_wav);
   (s_goodbye, Some 1200, Some 2100, None);
   (s_merged_part, None, None, None)].

(** A target that a reader holds open during the first two calls of
    [os.replace] (sharing violation, [winerror] 32). *)
Definition sharing_violation_twice (i : nat) : Outcome :=
  if Nat.ltb i 2 then Raises (OtherOSError (Some 32)) else Replaced.

(** A target held open during the first call, on a disk that is full at
    the second ([winerror] 112); no later call would fail. *)
Definition sharing_then_disk_full (i : nat) : Outcome :=
  match i with
  | O => Raises (OtherOSError (Some 32))
  | S O => Raises (OtherOSError (Some 112))
  | _ => Replaced
  end.

(** Texts for the balanced chunker: a sentence followed by two spaces, a
    sentence of three words with no punctuation, two short sentences, a
    tag longer than the limit it is used with, and three sentences. *)
Definition two_spaces : pystr := lit "aa bb.  cc".
Definition three_words : pystr := lit "aaaa bbbb cccc".
Definition hi_yo : pystr := lit "Hi. Yo.".
Definition long_tag : pystr := lit "[aaaaaaaaaa] b".

(** Two sentences, the first longer than 6 characters also without the
    space that ends it. *)
Definition long_then_short : pystr := lit "aaaa bbbb cccc. dd".

(** Two sentences, the first longer than 5 characters by the spaces
    that end it. *)
Definition dot_spaces : pystr := lit "ab.   cd".

(** A tag with a blank line in it. *)
Definition tag_over_paragraphs : pystr := lit "[aaaa" ++ marker ++ lit "bbbb]".

End Examples.
(** ** Concrete inputs for the order mapping *)

Module OrderExamples.

(** The tokens [a b a b c] and the sequence [a b c]. *)
Definition abab_c : list pystr := map lit ["a"; "b"; "a"; "b"; "c"]%string.
Definition abc : list pystr := map lit ["a"; "b"; "c"]%string.

End OrderExamples.

Module TextPartExamples.

(** Six parts of two chunks. *)
Definition six_parts : list (pystr * option Z) :=
  [(lit "aaaa", Some 0); (lit "bb", Some 0); (lit "cccccc", Some 0);
   (lit "d", Some 0); (lit "e", Some 1); (lit "ffffff", Some 1)].

(** One part with a bracketed tag and a double space. *)
Definition tagged_part : list (pystr * option Z) :=
  [(lit "a  [x] b", None)].

(** A normalisation that lowers the text, and a tokenizer that takes the
    text as one word. *)
Definition lower_text (text : pystr) : pystr := lower text.
Definition whole_text (text : pystr) : list pystr := [text].

End TextPartExamples.

Module PromptExamples.

(** A prompt with a bracketed tag and a double space. *)
Definition tagged_prompt : pystr := lit "hello [tag] world  again".


End PromptExamples.

Module ResumeExamples.
Import Processed.

(** A stored transcript: three audio files are listed as processed, and
    the items of the first two have times. *)
Definition three_listed : Meta :=
  mkMeta
    (Some [entry_str (lit "a.wav");
           entry_list (Some (lit "b.wav")) [Some (3 # 2); Some 4%Q];
           entry_list (Some (lit "c.wav")) [Some 1%Q]])
    None (Some (mkProgress None 0)).

Definition two_committed : list Item :=
  [mkItem (Some (lit "one")) (Some 0) (Some 10) (Some (lit "a.wav"));
   mkItem (Some (lit "two")) (Some 11) (Some 20) (Some (lit "b.wav"));
   mkItem (Some (lit "three")) None None None].

Definition stored_transcript : Existing :=
  mkExisting (Some three_listed) (Some two_committed).

(** The sentences of the three items. *)
Definition three_sentences : list Sentence :=
  [mkSentence (lit "one") (lit "one") [lit "one"] false;
   mkSentence (lit "two") (lit "two") [lit "two"] false;
   mkSentence (lit "three") (lit "three") [lit "three"] false].

End ResumeExamples.

Module OrderMapExamples.
Import OrderMap.

(** A tokenizer for texts of one word. *)
Definition one_word (text : pystr) : list pystr :=
  if nonempty text then [text] else [].

(** Three parts of one word each, and two sentences over them. *)
Definition abc_parts : list Part :=
  [Some (lit "a", Some 1); Some (lit "b", Some 2); Some (lit "c", Some 2)].

Definition a_bc : list (list pystr * option Z) :=
  [([lit "a"], None); ([lit "b"; lit "c"], None)].

End OrderMapExamples.

Module CoalesceExamples.
Import Coalesce.

(** A sentence maker that keeps the text and takes it as one token. *)
Definition plain_sentence (text : pystr) : Sentence :=
  mkSentence text text [text] false.

Definition in_bucket (text : pystr) (chunk order : Z) : MetaSentence :=
  (plain_sentence text, (Some chunk, Some order)).

(** Five sentences in three buckets, three of them short of four
    characters. *)
Definition five_sentences : list MetaSentence :=
  [in_bucket (lit "aaaaa") 0 1; in_bucket (lit "bb") 0 1;
   in_bucket (lit "cc") 0 2; in_bucket (lit "dddddd") 0 2;
   in_bucket (lit "e") 1 2].

End CoalesceExamples.

(** * Properties *)

(** ** Facts on the numeric helpers *)

Module PyNumFacts.

Lemma py_round_comp (p q : Q) : (p == q)%Q -> py_round p = py_round q.
Proof.
  intros E. unfold py_round.
  rewrite (Qfloor_comp _ _ E).
  assert (C : ((p - inject_Z (Qfloor q)) ?= (1 # 2))%Q
              = ((q - inject_Z (Qfloor q)) ?= (1 # 2))%Q).
  { apply Qcompare_comp; [rewrite E|]; reflexivity. }
  rewrite C. reflexivity.
Qed.

Lemma py_round_upper (q : Q) : (inject_Z (py_round q) <= q + (1 # 2))%Q.
Proof.
  unfold py_round.
  pose proof (Qfloor_le q) as Hf. pose proof (Qlt_floor q) as Hc.
  rewrite inject_Z_plus in Hc. change (inject_Z 1) with 1%Q in Hc.
  destruct (Qcompare_spec (q - inject_Z (Qfloor q)) (1 # 2)) as [E|L|G].
  - destruct (Z.even (Qfloor q)); [lra|].
    rewrite inject_Z_plus. change (inject_Z 1) with 1%Q. lra.
  - lra.
  - rewrite inject_Z_plus. change (inject_Z 1) with 1%Q. lra.
Qed.

Lemma py_round_lower (q : Q) : (q - (1 # 2) <= inject_Z (py_round q))%Q.
Proof.
  unfold py_round.
  pose proof (Qfloor_le q) as Hf. pose proof (Qlt_floor q) as Hc.
  rewrite inject_Z_plus in Hc. change (inject_Z 1) with 1%Q in Hc.
  destruct (Qcompare_spec (q - inject_Z (Qfloor q)) (1 # 2)) as [E|L|G].
  - destruct (Z.even (Qfloor q)); [lra|].
    rewrite inject_Z_plus. change (inject_Z 1) with 1%Q. lra.
  - lra.
  - rewrite inject_Z_plus. change (inject_Z 1) with 1%Q. lra.
Qed.

(** Rounding never crosses an integer lower bound. *)
Lemma py_round_ge (k : Z) (q : Q) : (inject_Z k <= q)%Q -> k <= py_round q.
Proof.
  intros H. pose proof (py_round_lower q) as L.
  assert (B : k - 1 < py_round q); [|lia].
  rewrite Zlt_Qlt. unfold Z.sub. rewrite inject_Z_plus, inject_Z_opp.
  change (inject_Z 1) with 1%Q. lra.
Qed.

Lemma zsum_app (xs ys : list Z) : zsum (xs ++ ys) = zsum xs + zsum ys.
Proof. induction xs as [|x xs IH]; simpl; lia. Qed.

Lemma zsum_repeat0 (n : nat) : zsum (repeat 0 n) = 0.
Proof. induction n; simpl; lia. Qed.

Lemma set_nth_length i v xs : length (set_nth i v xs) = length xs.
Proof.
  revert i; induction xs as [|x xs IH]; intros [|i]; simpl; auto.
Qed.

Lemma zsum_set_nth i v xs :
  (i < length xs)%nat -> zsum (set_nth i v xs) = zsum xs + (v - nth i xs 0).
Proof.
  revert i; induction xs as [|x xs IH]; intros [|i] H; simpl in *; try lia.
  rewrite IH by lia. lia.
Qed.

Lemma nth_set_nth i j v xs :
  (i < length xs)%nat ->
  nth j (set_nth i v xs) 0 = if Nat.eqb j i then v else nth j xs 0.
Proof.
  revert i j; induction xs as [|x xs IH]; intros [|i] [|j] H; simpl in *;
    try lia; auto.
  apply IH. lia.
Qed.

Lemma add_last_length d xs : length (add_last d xs) = length xs.
Proof.
  induction xs as [|x [|y t] IH]; simpl in *; auto.
Qed.

Lemma zsum_add_last d xs : xs <> [] -> zsum (add_last d xs) = zsum xs + d.
Proof.
  induction xs as [|x [|y t] IH]; intros H; [congruence|simpl; lia|].
  change (zsum (x :: add_last d (y :: t)) = zsum (x :: y :: t) + d).
  change (x + zsum (add_last d (y :: t)) = x + zsum (y :: t) + d).
  rewrite IH by discriminate. lia.
Qed.

Lemma removelast_add_last d xs : removelast (add_last d xs) = removelast xs.
Proof.
  induction xs as [|x [|y t] IH]; auto.
  change (removelast (x :: add_last d (y :: t)) = x :: removelast (y :: t)).
  rewrite <- IH.
  destruct (add_last d (y :: t)) eqn:E; [|reflexivity].
  apply (f_equal (@length Z)) in E. rewrite add_last_length in E. discriminate.
Qed.

Lemma add_last_app d xs x : add_last d (xs ++ [x]) = xs ++ [x + d].
Proof.
  induction xs as [|y t IH]; [reflexivity|].
  simpl. rewrite IH. destruct t; reflexivity.
Qed.

Lemma Forall_removelast {A} (P : A -> Prop) xs :
  Forall P xs -> Forall P (removelast xs).
Proof.
  induction 1 as [|x xs Hx H IH]; simpl; [constructor|].
  destruct xs; [constructor|]. constructor; auto.
Qed.

End PyNumFacts.
Import PyNumFacts.

(** ** Facts on [_weighted_durations] *)

Module DurationsFacts.

Lemma drift_loop_length k : forall i n step out diff,
  length (fst (drift_loop k i n step out diff)) = length out.
Proof.
  induction k as [|k IH]; intros i n step out diff; simpl; [reflexivity|].
  destruct (diff =? 0); [reflexivity|].
  destruct (0 <=? nth (i mod n) out 0 + step); rewrite IH;
    [apply set_nth_length | reflexivity].
Qed.

Lemma fix_drift_length total out : length (fix_drift total out) = length out.
Proof.
  unfold fix_drift. destruct (total - zsum out =? 0); [reflexivity|].
  apply drift_loop_length.
Qed.

Lemma clamp_one_length out : length (clamp_one out) = length out.
Proof. apply length_map. Qed.

Lemma clamp_one_ge1 out : Forall (fun d => 1 <= d) (clamp_one out).
Proof.
  unfold clamp_one. apply Forall_map, Forall_forall. intros x _.
  destruct (Z.ltb_spec x 1); lia.
Qed.

Lemma clamp_one_id out : Forall (fun d => 1 <= d) out -> clamp_one out = out.
Proof.
  induction 1 as [|x xs Hx H IH]; simpl; [reflexivity|].
  rewrite IH. destruct (Z.ltb_spec x 1); [lia|reflexivity].
Qed.

Lemma settle_last_length total out : length (settle_last total out) = length out.
Proof.
  unfold settle_last. destruct (zsum out =? total); [reflexivity|].
  apply add_last_length.
Qed.

Lemma settle_last_sum total out :
  out <> [] -> zsum (settle_last total out) = total.
Proof.
  intros H. unfold settle_last. destruct (Z.eqb_spec (zsum out) total); [assumption|].
  rewrite zsum_add_last by assumption. lia.
Qed.

Lemma settle_last_init total out :
  removelast (settle_last total out) = removelast out.
Proof.
  unfold settle_last. destruct (zsum out =? total); [reflexivity|].
  apply removelast_add_last.
Qed.

Lemma raw_durations_length total ws m :
  length (raw_durations total ws m) = length ws.
Proof. unfold raw_durations. apply length_map. Qed.

Lemma weighted_durations_length total ws m :
  length (_weighted_durations total ws m) = length ws.
Proof.
  unfold _weighted_durations. destruct ws as [|w ws]; [reflexivity|].
  destruct (total <=? 0); [apply repeat_length|].
  rewrite settle_last_length, clamp_one_length, fix_drift_length, length_map.
  apply raw_durations_length.
Qed.

Lemma weighted_durations_nonpos total ws m :
  total <= 0 -> _weighted_durations total ws m = repeat 0 (length ws).
Proof.
  intros H. unfold _weighted_durations. destruct ws; [reflexivity|].
  destruct (Z.leb_spec total 0); [reflexivity|lia].
Qed.

Lemma weighted_durations_pos total ws m :
  0 < total -> ws <> [] ->
  _weighted_durations total ws m =
  settle_last total
    (clamp_one (fix_drift total (map py_round (raw_durations total ws m)))).
Proof.
  intros H N. unfold _weighted_durations. destruct ws; [congruence|].
  destruct (Z.leb_spec total 0); [lia|reflexivity].
Qed.

Lemma weighted_durations_sum total ws m :
  0 < total -> ws <> [] -> zsum (_weighted_durations total ws m) = total.
Proof.
  intros H N. rewrite weighted_durations_pos by assumption.
  apply settle_last_sum. intros E. apply (f_equal (@length Z)) in E.
  rewrite clamp_one_length, fix_drift_length, length_map, raw_durations_length in E.
  destruct ws; [congruence|discriminate].
Qed.

Lemma weighted_durations_init_ge1 total ws m :
  0 < total ->
  Forall (fun d => 1 <= d) (removelast (_weighted_durations total ws m)).
Proof.
  intros H. destruct ws as [|w ws]; [constructor|].
  rewrite weighted_durations_pos by (assumption || discriminate).
  rewrite settle_last_init. apply Forall_removelast, clamp_one_ge1.
Qed.

End DurationsFacts.
Import DurationsFacts.

Module DurationsBounds.

Lemma Forall_set_nth (P : Z -> Prop) i v xs :
  Forall P xs -> P v -> Forall P (set_nth i v xs).
Proof.
  intros H Hv. revert i.
  induction H as [|x xs Hx H IH]; intros [|i]; simpl; constructor; auto.
Qed.

Lemma Forall_add_last lo d xs :
  0 <= d -> Forall (fun x => lo <= x) xs -> Forall (fun x => lo <= x) (add_last d xs).
Proof.
  intros Hd H. induction H as [|x xs Hx H IH]; [constructor|].
  destruct xs as [|y t]; simpl; constructor; auto; lia.
Qed.

Lemma Forall_nth_ge lo xs j :
  Forall (fun x => lo <= x) xs -> (j < length xs)%nat -> lo <= nth j xs 0.
Proof.
  intros H Hj. rewrite Forall_forall in H. apply H, nth_In, Hj.
Qed.

(** Upward drift: entries only grow and the loop never overshoots. *)
Lemma drift_up lo k : forall i out diff,
  (0 < length out)%nat -> 0 <= diff ->
  Forall (fun x => lo <= x) out ->
  let r := drift_loop k i (length out) 1 out diff in
  Forall (fun x => lo <= x) (fst r) /\ 0 <= snd r /\
  zsum (fst r) + snd r = zsum out + diff.
Proof.
  induction k as [|k IH]; intros i out diff Hn Hd H; simpl; [auto|].
  destruct (Z.eqb_spec diff 0); [simpl; auto|].
  assert (Hi : (i mod length out < length out)%nat)
    by (apply Nat.mod_upper_bound; lia).
  destruct (Z.leb_spec 0 (nth (i mod length out) out 0 + 1)).
  - pose proof (Forall_nth_ge lo out _ H Hi) as Hc.
    specialize (IH (S i) (set_nth (i mod length out)
                            (nth (i mod length out) out 0 + 1) out) (diff - 1)).
    rewrite set_nth_length in IH.
    destruct IH as (A & B & C); [assumption|lia| |].
    + apply Forall_set_nth; [assumption|lia].
    + repeat split; try assumption.
      rewrite C, zsum_set_nth by assumption. lia.
  - apply IH; assumption.
Qed.

(** Downward drift over entries that are all at least 2: every decrement
    succeeds, each index is visited at most once, nothing drops below 1. *)
Lemma drift_down k : forall i out diff,
  (i + Z.to_nat (- diff) <= length out)%nat -> diff <= 0 ->
  (Z.to_nat (- diff) <= k)%nat ->
  (forall j, (j < length out)%nat -> 1 <= nth j out 0) ->
  (forall j, (i <= j < length out)%nat -> 2 <= nth j out 0) ->
  let r := drift_loop k i (length out) (-1) out diff in
  (forall j, (j < length out)%nat -> 1 <= nth j (fst r) 0) /\
  snd r = 0 /\ zsum (fst r) = zsum out + diff /\ length (fst r) = length out.
Proof.
  induction k as [|k IH]; intros i out diff Hi Hd Hk H1 H2; simpl.
  - repeat split; auto; lia.
  - destruct (Z.eqb_spec diff 0); [simpl; repeat split; auto; lia|].
    assert (Hlt : (i < length out)%nat) by lia.
    rewrite (Nat.mod_small i (length out) Hlt).
    pose proof (H2 i (conj (le_n i) Hlt)) as Hc.
    destruct (Z.leb_spec 0 (nth i out 0 + -1)); [|lia].
    specialize (IH (S i) (set_nth i (nth i out 0 + -1) out) (diff - -1)).
    rewrite set_nth_length in IH.
    destruct IH as (A & B & C & D); try lia.
    + intros j Hj. rewrite nth_set_nth by assumption.
      destruct (Nat.eqb_spec j i); [lia|auto].
    + intros j Hj. rewrite nth_set_nth by assumption.
      destruct (Nat.eqb_spec j i); [lia|apply H2; lia].
    + repeat split; try assumption.
      rewrite C, zsum_set_nth by assumption. lia.
Qed.

Lemma Forall_of_nth lo xs :
  (forall j, (j < length xs)%nat -> lo <= nth j xs 0) ->
  Forall (fun x => lo <= x) xs.
Proof.
  intros H. apply Forall_forall. intros x Hx.
  destruct (In_nth xs x 0 Hx) as (j & Hj & <-). auto.
Qed.

(** What [fix_drift] guarantees when the rounded entries are not too far
    above the target. *)
Lemma fix_drift_ge1 total out :
  out <> [] ->
  Forall (fun x => 1 <= x) out ->
  (total < zsum out -> Forall (fun x => 2 <= x) out) ->
  zsum out - total <= Z.of_nat (length out) ->
  Forall (fun x => 1 <= x) (fix_drift total out) /\ zsum (fix_drift total out) <= total.
Proof.
  intros N H1 H2 H3. unfold fix_drift.
  assert (Hn : (0 < length out)%nat) by (destruct out; [congruence|simpl; lia]).
  destruct (Z.eqb_spec (total - zsum out) 0) as [E|E]; [split; [assumption|lia]|].
  destruct (Z.ltb_spec 0 (total - zsum out)) as [P|P].
  - destruct (drift_up 1 (length out * 2) 0 out (total - zsum out))
      as (A & B & C); try assumption; try lia.
    split; [assumption|lia].
  - assert (G : total < zsum out) by lia. specialize (H2 G).
    destruct (drift_down (length out * 2) 0 out (total - zsum out))
      as (A & B & C & D); try lia.
    + intros j Hj. apply Forall_nth_ge; assumption.
    + intros j Hj. apply Forall_nth_ge; [assumption|lia].
    + split; [|lia]. apply Forall_of_nth. intros j Hj. apply A. lia.
Qed.

Lemma round_sum_upper (raw : list Q) :
  (inject_Z (zsum (map py_round raw))
   <= qsum raw + inject_Z (Z.of_nat (length raw)) * (1 # 2))%Q.
Proof.
  induction raw as [|q raw IH].
  - simpl. unfold Qle; simpl; lia.
  - cbn [map zsum fold_right qsum length].
    rewrite Nat2Z.inj_succ. unfold Z.succ.
    rewrite !inject_Z_plus. change (inject_Z 1) with 1%Q.
    pose proof (py_round_upper q). unfold zsum, qsum in IH. lra.
Qed.

Lemma qsum_affine (a rem ws : Q) (weights : list Z) :
  (qsum (map (fun w => a + rem * (inject_Z w / ws)) weights)
   == inject_Z (Z.of_nat (length weights)) * a
      + rem * (inject_Z (zsum weights) / ws))%Q.
Proof.
  induction weights as [|w t IH].
  - cbn [map qsum fold_right length zsum]. change (Z.of_nat 0) with 0.
    change (inject_Z 0) with 0%Q. unfold Qdiv. ring.
  - cbn [map qsum fold_right length zsum].
    unfold qsum, zsum in IH. rewrite IH.
    rewrite Nat2Z.inj_succ. unfold Z.succ. rewrite !inject_Z_plus.
    change (inject_Z 1) with 1%Q. unfold Qdiv. ring.
Qed.

End DurationsBounds.
Import DurationsBounds.

Module DurationsFloor.

Lemma Qmax0_nonneg x : (0 <= Qmax0 x)%Q.
Proof.
  unfold Qmax0. destruct (Qle_bool 0 x) eqn:E; [|apply Qle_refl].
  apply Qle_bool_iff. exact E.
Qed.

Lemma Qmax0_of_nonneg x : (0 <= x)%Q -> Qmax0 x = x.
Proof.
  intros H. unfold Qmax0. apply Qle_bool_iff in H. rewrite H. reflexivity.
Qed.

Lemma Qmax0_zero x : (x == 0)%Q -> (Qmax0 x == 0)%Q.
Proof.
  intros H. unfold Qmax0. destruct (Qle_bool 0 x); [exact H|reflexivity].
Qed.

Lemma zsum_nonneg ws : Forall (fun w => 0 <= w) ws -> 0 <= zsum ws.
Proof. induction 1; simpl; lia. Qed.

Lemma zsum_map_const {A} (f : A -> Z) (c : Z) (xs : list A) :
  (forall x, In x xs -> f x = c) ->
  zsum (map f xs) = Z.of_nat (length xs) * c.
Proof.
  induction xs as [|x xs IH]; intros H; [reflexivity|].
  cbn [map zsum fold_right length]. rewrite Nat2Z.inj_succ.
  unfold zsum in IH. rewrite IH by (intros; apply H; right; assumption).
  rewrite (H x) by (left; reflexivity). lia.
Qed.

Lemma length_ge1 (ws : list Z) : ws <> [] -> 1 <= Z.of_nat (length ws).
Proof. destruct ws; [congruence|simpl length; lia]. Qed.

Lemma qlength_pos (ws : list Z) :
  ws <> [] -> (0 < inject_Z (Z.of_nat (length ws)))%Q.
Proof.
  intros H. change 0%Q with (inject_Z 0). rewrite <- Zlt_Qlt.
  pose proof (length_ge1 ws H). lia.
Qed.

Section Floor.

Variables (total m : Z) (ws : list Z).
Hypothesis Hm : 2 <= m.
Hypothesis Hw : Forall (fun w => 0 <= w) ws.
Hypothesis Hne : ws <> [].
Hypothesis Hn : Z.of_nat (length ws) <= total.

Let n := Z.of_nat (length ws).

(** The three facts on the unrounded and rounded durations that the
    drift repair relies on. *)
Lemma raw_facts :
  let raw := raw_durations total ws m in
  (qsum raw <= inject_Z total)%Q /\
  Forall (fun x => 1 <= x) (map py_round raw) /\
  (total < zsum (map py_round raw) -> Forall (fun x => 2 <= x) (map py_round raw)).
Proof.
  pose proof (qlength_pos ws Hne) as Hq. fold n in Hq.
  assert (Hle : (inject_Z n <= inject_Z total)%Q) by (rewrite <- Zle_Qle; exact Hn).
  pose proof (length_ge1 ws Hne) as Hn1. fold n in Hn1.
  unfold raw_durations. fold n.
  set (wsum := if zsum ws =? 0 then 1%Q else inject_Z (zsum ws)).
  destruct (Qltb (inject_Z total) (inject_Z m * inject_Z n)) eqn:Eb; cbv zeta.
  - (* the span is shorter than the floor allows: every share is total / n *)
    set (rem := Qmax0 (inject_Z total - inject_Z total / inject_Z n * inject_Z n)).
    assert (Er : (rem == 0)%Q).
    { apply Qmax0_zero. field. intros E. rewrite E in Hq. apply (Qlt_irrefl 0 Hq). }
    assert (Eq1 : forall w, In w ws ->
              py_round (inject_Z total / inject_Z n + rem * (inject_Z w / wsum))
              = py_round (inject_Z total / inject_Z n)).
    { intros w _. apply py_round_comp. rewrite Er. ring. }
    assert (H1 : (1 <= inject_Z total / inject_Z n)%Q).
    { apply Qle_shift_div_l; [exact Hq|]. lra. }
    assert (R1 : 1 <= py_round (inject_Z total / inject_Z n)).
    { apply py_round_ge. exact H1. }
    rewrite !map_map.
    split; [|split].
    + rewrite qsum_affine, Er. fold n.
      setoid_replace (inject_Z n * (inject_Z total / inject_Z n))%Q
        with (inject_Z total).
      * lra.
      * field. intros E. rewrite E in Hq. apply (Qlt_irrefl 0 Hq).
    + apply Forall_map, Forall_forall. intros w Hin. cbv beta.
      rewrite Eq1 by assumption. exact R1.
    + rewrite (zsum_map_const _ _ ws Eq1). fold n. intros Hgt.
      apply Forall_map, Forall_forall. intros w Hin. cbv beta.
      rewrite Eq1 by assumption. nia.
  - (* the floor fits: every share is at least [m] *)
    assert (Hfit : (inject_Z m * inject_Z n <= inject_Z total)%Q).
    { unfold Qltb in Eb. apply negb_false_iff in Eb. apply Qle_bool_iff, Eb. }
    rewrite Qmax0_of_nonneg by lra.
    set (rem := (inject_Z total - inject_Z m * inject_Z n)%Q).
    assert (Hrem : (0 <= rem)%Q) by (subst rem; lra).
    pose proof (zsum_nonneg ws Hw) as Hs.
    assert (Hws : (0 < wsum)%Q).
    { subst wsum. destruct (Z.eqb_spec (zsum ws) 0); [reflexivity|].
      change 0%Q with (inject_Z 0). rewrite <- Zlt_Qlt. lia. }
    assert (Hshare : forall w, 0 <= w -> (0 <= rem * (inject_Z w / wsum))%Q).
    { intros w Hw0. apply Qmult_le_0_compat; [exact Hrem|].
      apply Qle_shift_div_l; [exact Hws|].
      setoid_replace (0 * wsum)%Q with (inject_Z 0) by ring.
      rewrite <- Zle_Qle. exact Hw0. }
    assert (R2 : Forall (fun x => 2 <= x)
                   (map py_round
                      (map (fun w => (inject_Z m + rem * (inject_Z w / wsum))%Q) ws))).
    { apply Forall_map, Forall_map. rewrite Forall_forall in Hw |- *.
      intros w Hin. cbv beta. apply py_round_ge.
      pose proof (Hshare w (Hw w Hin)).
      assert (inject_Z 2 <= inject_Z m)%Q by (rewrite <- Zle_Qle; exact Hm).
      lra. }
    split; [|split].
    + rewrite qsum_affine. fold n.
      assert (Hfrac : (inject_Z (zsum ws) / wsum <= 1)%Q).
      { apply Qle_shift_div_r; [exact Hws|]. subst wsum.
        destruct (Z.eqb_spec (zsum ws) 0) as [E|E];
          [rewrite E; change (inject_Z 0) with 0%Q|]; lra. }
      assert (rem * (inject_Z (zsum ws) / wsum) <= rem * 1)%Q.
      { rewrite !(Qmult_comm rem). apply Qmult_le_compat_r; assumption. }
      subst rem. lra.
    + eapply Forall_impl; [|exact R2]. simpl. intros; lia.
    + intros _. exact R2.
Qed.

Lemma weighted_durations_all_ge1 :
  Forall (fun d => 1 <= d) (_weighted_durations total ws m).
Proof.
  pose proof (length_ge1 ws Hne) as Hn1. fold n in Hn, Hn1.
  rewrite weighted_durations_pos by (lia || assumption).
  destruct raw_facts as (S1 & F1 & F2).
  set (out0 := map py_round (raw_durations total ws m)) in *.
  assert (L0 : length out0 = length ws)
    by (subst out0; rewrite length_map; apply raw_durations_length).
  assert (B : 2 * (zsum out0 - total) <= n).
  { pose proof (round_sum_upper (raw_durations total ws m)) as U.
    fold out0 in U. rewrite raw_durations_length in U. fold n in U.
    assert (X : 2 * zsum out0 <= 2 * total + n); [|lia].
    rewrite Zle_Qle, inject_Z_plus, !inject_Z_mult.
    change (inject_Z 2) with 2%Q. lra. }
  destruct (fix_drift_ge1 total out0) as (G & S); try assumption.
  - intros E. rewrite E in L0. destruct ws; [congruence|discriminate].
  - rewrite L0. fold n. lia.
  - rewrite clamp_one_id by assumption.
    unfold settle_last.
    destruct (Z.eqb_spec (zsum (fix_drift total out0)) total); [assumption|].
    apply Forall_add_last; [lia|assumption].
Qed.

End Floor.

End DurationsFloor.
Import DurationsFloor.

(** ** Claim C9 *)

(** C9, counterexample: a span of 1 ms over three weights.  The three rounded
    shares are 0, the drift repair raises the first to 1, the clamp raises
    all to 1 and the surplus of 2 is taken from the last entry, which ends
    at -1. *)
Lemma weighted_durations_entry_below_one :
  0 < 1 /\ [5; 5; 5] <> [] /\
  _weighted_durations 1 [5; 5; 5] MIN_MATCH_MS = [1; 1; -1] /\
  ~ Forall (fun d => 1 <= d) (_weighted_durations 1 [5; 5; 5] MIN_MATCH_MS).
Proof.
  assert (E : _weighted_durations 1 [5; 5; 5] MIN_MATCH_MS = [1; 1; -1])
    by (vm_compute; reflexivity).
  split; [lia|]. split; [discriminate|]. split; [exact E|].
  rewrite E. intros H. inversion H as [|? ? _ H1]; subst.
  inversion H1 as [|? ? _ H2]; subst. inversion H2 as [|? ? H3 _]; subst. lia.
Qed.

(** C9 (amended): for every [total_ms > 0] and every non-empty list of
    weights, [_weighted_durations] returns a list of the same length as the
    weights whose entries sum exactly to [total_ms] and whose entries before
    the last are all at least 1; when moreover [min_each >= 2], the weights
    are non-negative and [total_ms] is at least the number of weights, the
    last entry is at least 1 as well. *)
Theorem weighted_durations_spec (total_ms : Z) (weights : list Z) (min_each : Z) :
  0 < total_ms -> weights <> [] ->
  let out := _weighted_durations total_ms weights min_each in
  length out = length weights /\
  zsum out = total_ms /\
  Forall (fun d => 1 <= d) (removelast out) /\
  (2 <= min_each -> Forall (fun w => 0 <= w) weights ->
   Z.of_nat (length weights) <= total_ms ->
   Forall (fun d => 1 <= d) out).
Proof.
  intros Ht Hne out. subst out. split; [|split; [|split]].
  - apply weighted_durations_length.
  - apply weighted_durations_sum; assumption.
  - apply weighted_durations_init_ge1; assumption.
  - intros Hm Hw Hn. apply weighted_durations_all_ge1; assumption.
Qed.

Lemma weighted_durations_spec_witness :
  let out := _weighted_durations 802 [1; 3; 3; 3] MIN_MATCH_MS in
  out = [199; 201; 201; 201] /\
  length out = 4%nat /\ zsum out = 802 /\
  Forall (fun d => 1 <= d) (removelast out) /\ Forall (fun d => 1 <= d) out.
Proof.
  destruct (weighted_durations_spec 802 [1; 3; 3; 3] MIN_MATCH_MS)
    as (A & B & C & D); [lia|discriminate|].
  split; [vm_compute; reflexivity|].
  split; [exact A|]. split; [exact B|]. split; [exact C|].
  apply D; [unfold MIN_MATCH_MS; lia|repeat constructor; lia|simpl; lia].
Defined.

(** ** Facts on the matcher *)

Module MatcherFacts.

Section Matcher.

Variable _best_score : pystr -> pystr -> Z.
Variable a : Aligner.
Variable s : Sentence.
Variable aggressive : bool.

Local Abbreviation commit := (commit_window a s).
Local Abbreviation cap := (max_len s aggressive).

Local Abbreviation is_commit := (is_commit a s).

Lemma score_at_scored P sc i k :
  scored_in P sc -> P k ->
  scored_in P (snd (score_at _best_score a s aggressive sc i k)).
Proof.
  intros H Hk. unfold scored_in, score_at. simpl.
  apply Forall_app. split; [exact H|]. constructor; [exact Hk|constructor].
Qed.

Lemma tail_cands_scored P cand : forall end_idx best sc,
  Forall P cand -> scored_in P sc ->
  scored_in P (snd (tail_cands _best_score a s aggressive cand end_idx best sc)).
Proof.
  induction cand as [|k rest IH]; intros end_idx best sc Hc H; simpl; [exact H|].
  inversion Hc as [|? ? Hk Hrest]; subst.
  destruct ((end_idx - (k - 1) <? cursor a)
            || (len (words a) <? end_idx - (k - 1) + k)); [apply IH; assumption|].
  destruct (dyn_limit a aggressive <? checks sc); [exact H|].
  apply IH; [assumption|].
  apply (score_at_scored P sc (end_idx - (k - 1)) k); assumption.
Qed.

Lemma tail_scan_spec P cand positions : forall sc,
  Forall P cand -> scored_in P sc ->
  let r := tail_scan _best_score a s aggressive positions cand sc in
  scored_in P (snd r) /\ (forall h, fst r = Some h -> is_commit h).
Proof.
  induction positions as [|e rest IH]; intros sc Hc H; simpl.
  - split; [exact H|discriminate].
  - pose proof (tail_cands_scored P cand e None sc Hc H) as Ht.
    destruct (tail_cands _best_score a s aggressive cand e None sc) as [best sc'].
    simpl in Ht.
    destruct (dyn_limit a aggressive <? checks sc'); [split; [exact Ht|discriminate]|].
    destruct best as [[[b i] k]|]; [|apply IH; assumption].
    destruct (score_threshold a aggressive <=? b); [|apply IH; assumption].
    split; [exact Ht|]. intros h E. injection E as <-. exists i, k. reflexivity.
Qed.

Lemma slide_spec P fuel : forall k i step sc,
  P k -> scored_in P sc ->
  let r := slide _best_score a s aggressive fuel k i step sc in
  scored_in P (snd r) /\ (forall h, fst r = Some h -> is_commit h).
Proof.
  induction fuel as [|fuel IH]; intros k i step sc Hk H; simpl.
  - split; [exact H|discriminate].
  - destruct (len (words a) <? i + k); [split; [exact H|discriminate]|].
    destruct (dyn_limit a aggressive <? checks sc); [split; [exact H|discriminate]|].
    pose proof (score_at_scored P sc i k H Hk) as Hs.
    destruct (score_threshold a aggressive
              <=? window_score _best_score a s aggressive
                    (slice i (i + k) (word_texts a))).
    + split; [exact Hs|]. intros h E. injection E as <-. exists i, k. reflexivity.
    + apply IH; assumption.
Qed.

Lemma slide_all_spec P cand : forall sc,
  Forall P cand -> scored_in P sc ->
  let r := slide_all _best_score a s aggressive cand sc in
  scored_in P (snd r) /\ (forall h, fst r = Some h -> is_commit h).
Proof.
  induction cand as [|k rest IH]; intros sc Hc H; cbn [slide_all].
  - split; [exact H|discriminate].
  - inversion Hc as [|? ? Hk Hrest]; subst.
    pose proof (slide_spec P (S (length (words a))) k (cursor a)
                  (Z.max 1 (k / (if aggressive then 10 else 6))) sc Hk H) as Hs.
    destruct (slide _best_score a s aggressive (S (length (words a))) k (cursor a)
                (Z.max 1 (k / (if aggressive then 10 else 6))) sc) as [[h|] sc'].
    + exact Hs.
    + apply IH; [assumption|apply Hs].
Qed.

Lemma cand_of_cap exp : Forall (fun k => k <= cap) (cand_of a s aggressive exp).
Proof.
  unfold cand_of. apply Forall_forall. intros k Hk.
  apply filter_In in Hk. destruct Hk as [_ Hk]. apply Z.leb_le, Hk.
Qed.

Lemma exp_loop_spec exps : forall sc,
  scored_in (fun k => k <= cap) sc ->
  let r := exp_loop _best_score a s aggressive exps sc in
  scored_in (fun k => k <= cap) (snd r) /\ (forall h, fst r = Some h -> is_commit h).
Proof.
  induction exps as [|exp rest IH]; intros sc H; cbn [exp_loop].
  - split; [exact H|discriminate].
  - destruct (collect_cand a (base_lens s) exp []) eqn:Ec; [apply IH; exact H|].
    pose proof (cand_of_cap exp) as Hcap.
    destruct (cand_of a s aggressive exp) as [|k0 cand0] eqn:Eo; [apply IH; exact H|].
    set (cand := k0 :: cand0) in *.
    assert (Hslide : forall sc', scored_in (fun k => k <= cap) sc' ->
      let r := match slide_all _best_score a s aggressive cand sc' with
               | (Some h, sc'') => (Some h, sc'')
               | (None, sc'') => exp_loop _best_score a s aggressive rest sc''
               end in
      scored_in (fun k => k <= cap) (snd r) /\ (forall h, fst r = Some h -> is_commit h)).
    { intros sc' H'.
      pose proof (slide_all_spec (fun k => k <= cap) cand sc' Hcap H') as Hs.
      destruct (slide_all _best_score a s aggressive cand sc') as [[h|] sc''].
      - exact Hs.
      - apply IH, Hs. }
    destruct (require_tail s && nonempty_list (tail_positions a s)); [|apply Hslide, H].
    pose proof (tail_scan_spec (fun k => k <= cap) cand (tail_positions a s) sc Hcap H)
      as Ht.
    destruct (tail_scan _best_score a s aggressive (tail_positions a s) cand sc)
      as [[h|] sc'].
    + exact Ht.
    + destruct (dyn_limit a aggressive <? checks sc').
      * split; [apply Ht|discriminate].
      * apply Hslide, Ht.
Qed.

(** Every hit of the matcher is the commit of a window, and every window
    it scores respects the cap. *)
Lemma core_is_commit h :
  _try_match_sentence_core _best_score a s aggressive = Some h -> is_commit h.
Proof.
  unfold _try_match_sentence_core, _try_match_sentence_core_scan.
  apply (exp_loop_spec (expansions aggressive) (mkScan 0 [])). constructor.
Qed.

Lemma scored_windows_cap :
  Forall (fun w => snd w <= cap) (scored_windows _best_score a s aggressive).
Proof.
  unfold scored_windows, _try_match_sentence_core_scan.
  apply (exp_loop_spec (expansions aggressive) (mkScan 0 [])). constructor.
Qed.

(** The timing commit keeps clear of the previous end and never yields a
    span below [MIN_MATCH_MS]. *)
Lemma commit_window_times i k st en src e :
  commit i k = (st, en, src, e) ->
  last_end_ms a + 1 <= st /\ st + MIN_MATCH_MS <= en /\ src = None.
Proof.
  unfold commit_window. intros E. injection E as <- <- <- <-.
  set (st0 := ms_of _). set (en0 := ms_of _).
  unfold MIN_MATCH_MS.
  destruct (Z.ltb_spec (Z.max en0 (Z.max st0 (last_end_ms a + 1))
                        - Z.max st0 (last_end_ms a + 1)) 200); repeat split; lia.
Qed.

End Matcher.

End MatcherFacts.

(** The fuel of the two bounded loops of the matcher is never exhausted. *)
Module MatcherFuel.

Section Fuel.

Variable _best_score : pystr -> pystr -> Z.
Variable a : Aligner.
Variable s : Sentence.
Variable aggressive : bool.

Lemma slide_fuel fuel : forall k i step sc extra,
  1 <= step ->
  (Z.to_nat (len (words a) + 1 - (i + k)) <= fuel)%nat ->
  slide _best_score a s aggressive (fuel + extra) k i step sc
  = slide _best_score a s aggressive fuel k i step sc.
Proof.
  induction fuel as [|fuel IH]; intros k i step sc extra Hs Hf.
  - destruct extra as [|extra]; [reflexivity|]. simpl.
    destruct (Z.ltb_spec (len (words a)) (i + k)); [reflexivity|lia].
  - simpl. destruct (Z.ltb_spec (len (words a)) (i + k)); [reflexivity|].
    destruct (dyn_limit a aggressive <? checks sc); [reflexivity|].
    destruct (score_threshold a aggressive <=? _); [reflexivity|].
    apply IH; [assumption|lia].
Qed.

(** The sliding scan as [slide_all] runs it: from the cursor, over window
    sizes that are positive. *)
Lemma slide_enough k step sc extra :
  0 <= cursor a -> 1 <= k -> 1 <= step ->
  slide _best_score a s aggressive (S (length (words a)) + extra) k (cursor a) step sc
  = slide _best_score a s aggressive (S (length (words a))) k (cursor a) step sc.
Proof.
  intros Hc Hk Hs. apply slide_fuel; [assumption|]. unfold len. lia.
Qed.

Lemma merge_window_side_le win_comp s0 j :
  merge_window_side win_comp s0 = Some j ->
  (2 <= j <= length win_comp)%nat.
Proof.
  unfold merge_window_side.
  destruct (Nat.leb 2 (length win_comp) && _) eqn:E2.
  - intros E; injection E as <-. apply andb_prop in E2 as [E2 _].
    apply Nat.leb_le in E2. lia.
  - destruct (Nat.leb 3 (length win_comp) && _) eqn:E3; [|discriminate].
    intros E; injection E as <-. apply andb_prop in E3 as [E3 _].
    apply Nat.leb_le in E3. lia.
Qed.

Lemma end_idx_loop_fuel fuel : forall sent_comp win_comp w_i last_match extra,
  (length win_comp <= fuel)%nat ->
  end_idx_loop (fuel + extra) sent_comp win_comp w_i last_match
  = end_idx_loop fuel sent_comp win_comp w_i last_match.
Proof.
  induction fuel as [|fuel IH]; intros sent_comp win_comp w_i last_match extra Hf.
  - destruct win_comp; [|simpl in Hf; lia].
    destruct extra; [reflexivity|]. simpl. destruct sent_comp; reflexivity.
  - simpl. destruct sent_comp as [|s0 srest]; [reflexivity|].
    destruct win_comp as [|w0 wrest]; [reflexivity|]. simpl in Hf.
    destruct (nonempty s0 && str_eqb s0 w0); [apply IH; lia|].
    destruct (merge_sentence_side (s0 :: srest) w0); [apply IH; lia|].
    destruct (merge_window_side (w0 :: wrest) s0) as [j|] eqn:Ej; [|apply IH; lia].
    apply merge_window_side_le in Ej. apply IH.
    rewrite length_skipn. simpl length in *. lia.
Qed.

End Fuel.

End MatcherFuel.

(** ** Claim C5 *)

Module WindowCap.
Import Examples MatcherFacts.

Lemma py_int_scale (n p : Z) (q : positive) :
  0 <= n -> 0 <= p -> py_int (inject_Z n * (p # q)) = p * n / Zpos q.
Proof.
  intros Hn Hp. unfold py_int. cbn [Qnum Qden Qmult inject_Z].
  rewrite Pos.mul_1_l, Z.quot_div_nonneg by lia. f_equal. lia.
Qed.

(** C5, counterexample: a sentence of 35 tokens in non-aggressive mode.
    The window sizes of the first expansion are 35, 28 and 42, the cap is
    35 + max(6, int(35 * 0.2)) = 42, and the window of 42 words at the cursor
    is scored: 42 exceeds 35 + 6. *)
Lemma nonaggressive_window_exceeds_six :
  len (s_tokens s35) = 35 /\
  In (0, 42) (scored_windows exact_score a42 s35 false) /\
  35 + 6 < 42.
Proof.
  split; [reflexivity|]. split; [|lia].
  vm_compute. do 6 right. left. reflexivity.
Qed.

(** C5 (amended): for every sentence, with [L = max(1, len(s.tokens))] as the
    matcher computes it, no window scored by the matcher is larger than
    [L + max(6, floor(0.6 * L))] tokens in aggressive mode and than
    [L + max(6, floor(0.2 * L))] tokens in non-aggressive mode. *)
Theorem scored_window_size_cap (_best_score : pystr -> pystr -> Z)
  (a : Aligner) (s : Sentence) (aggressive : bool) (i k : Z) :
  In (i, k) (scored_windows _best_score a s aggressive) ->
  let L := Z.max 1 (len (s_tokens s)) in
  k <= L + Z.max 6 (if aggressive then 6 * L / 10 else 2 * L / 10).
Proof.
  intros Hin L0.
  pose proof (scored_windows_cap _best_score a s aggressive) as H.
  rewrite Forall_forall in H. specialize (H _ Hin). cbn [snd] in H.
  unfold max_len, max_extra, MAX_EXTRA_TOKENS in H. fold L0 in H.
  change (Aligner.L s) with L0 in H.
  destruct aggressive; rewrite py_int_scale in H by (subst L0; lia); exact H.
Qed.

Lemma scored_window_size_cap_witness :
  In (0, 42) (scored_windows exact_score a42 s35 false) /\
  42 <= 35 + Z.max 6 (2 * 35 / 10).
Proof.
  assert (Hin : In (0, 42) (scored_windows exact_score a42 s35 false))
    by (vm_compute; do 6 right; left; reflexivity).
  split; [exact Hin|].
  exact (scored_window_size_cap exact_score a42 s35 false 0 42 Hin).
Defined.

End WindowCap.

(** ** How far the durations are from the exact shares *)

Module DurationsNear.

(** A drift of [diff] steps of [step] that fits in one pass: the first
    [|diff|] positions from [i] on move by [step], nothing else moves.
    [lo] is what an entry must reach for the guard [out[idx] + step >= 0]
    to let it move. *)
Lemma drift_exact (step lo : Z) k : forall i out diff,
  (step = 1 /\ lo = -1) \/ (step = -1 /\ lo = 1) ->
  (i + Z.to_nat (step * diff) <= length out)%nat -> 0 <= step * diff ->
  (Z.to_nat (step * diff) <= k)%nat ->
  (forall j, (i <= j < length out)%nat -> lo <= nth j out 0) ->
  let r := drift_loop k i (length out) step out diff in
  snd r = 0 /\ zsum (fst r) = zsum out + diff /\
  length (fst r) = length out /\
  (forall j, (j < i)%nat -> nth j (fst r) 0 = nth j out 0) /\
  (forall j, Z.abs (nth j (fst r) 0 - nth j out 0) <= 1).
Proof.
  induction k as [|k IH]; intros i out diff Hs Hi Hd Hk H1; simpl.
  - repeat split; auto; lia.
  - destruct (Z.eqb_spec diff 0); [simpl; repeat split; auto; lia|].
    assert (Hlt : (i < length out)%nat) by lia.
    rewrite (Nat.mod_small i (length out) Hlt).
    pose proof (H1 i (conj (le_n i) Hlt)) as Hc.
    destruct (Z.leb_spec 0 (nth i out 0 + step)); [|lia].
    specialize (IH (S i) (set_nth i (nth i out 0 + step) out) (diff - step)).
    rewrite set_nth_length in IH.
    destruct IH as (A & B & C & D & E); try assumption; try nia.
    + intros j Hj. rewrite nth_set_nth by assumption.
      destruct (Nat.eqb_spec j i); [lia|apply H1; lia].
    + split; [assumption|]. split; [rewrite B, zsum_set_nth by assumption; lia|].
      split; [assumption|]. split.
      * intros j Hj. rewrite D by lia. rewrite nth_set_nth by assumption.
        destruct (Nat.eqb_spec j i); [lia|reflexivity].
      * intros j. specialize (E j).
        destruct (Nat.lt_ge_cases j (length out)) as [Hj|Hj].
        -- rewrite nth_set_nth in E by assumption.
           destruct (Nat.eqb_spec j i) as [Heq|Hne]; [subst j|exact E].
           rewrite D by lia. rewrite nth_set_nth by assumption.
           rewrite Nat.eqb_refl. lia.
        -- rewrite !nth_overflow by (rewrite ?C; lia). lia.
Qed.

(** [fix_drift] when the rounded entries are within half the length of the
    target: the target is met and no entry moves by more than 1. *)
Lemma fix_drift_exact total out :
  Forall (fun x => 1 <= x) out ->
  2 * Z.abs (total - zsum out) <= Z.of_nat (length out) ->
  zsum (fix_drift total out) = total /\
  length (fix_drift total out) = length out /\
  (forall j, Z.abs (nth j (fix_drift total out) 0 - nth j out 0) <= 1).
Proof.
  intros H1 H2. unfold fix_drift.
  destruct (Z.eqb_spec (total - zsum out) 0) as [E|E].
  { split; [lia|]. split; [reflexivity|]. intros j. lia. }
  destruct (Z.ltb_spec 0 (total - zsum out)) as [P|P].
  - destruct (drift_exact 1 (-1) (length out * 2) 0 out (total - zsum out))
      as (A & B & C & D & F); try lia.
    + intros j Hj. pose proof (Forall_nth_ge 1 out j H1). lia.
    + split; [lia|]. split; assumption.
  - destruct (drift_exact (-1) 1 (length out * 2) 0 out (total - zsum out))
      as (A & B & C & D & F); try lia.
    + intros j Hj. apply Forall_nth_ge; [assumption|lia].
    + split; [lia|]. split; assumption.
Qed.

Lemma round_sum_lower (raw : list Q) :
  (qsum raw - inject_Z (Z.of_nat (length raw)) * (1 # 2)
   <= inject_Z (zsum (map py_round raw)))%Q.
Proof.
  induction raw as [|q raw IH].
  - simpl. unfold Qle; simpl; lia.
  - cbn [map zsum fold_right qsum length].
    rewrite Nat2Z.inj_succ. unfold Z.succ.
    rewrite !inject_Z_plus. change (inject_Z 1) with 1%Q.
    pose proof (py_round_lower q). unfold zsum, qsum in IH. lra.
Qed.

Lemma Forall2_map_r {A B} (R : A -> B -> Prop) (f : A -> B) (xs : list A) :
  (forall x, In x xs -> R x (f x)) -> Forall2 R xs (map f xs).
Proof.
  induction xs as [|x t IH]; intros H; simpl; constructor.
  - apply H. left. reflexivity.
  - apply IH. intros y Hy. apply H. right. exact Hy.
Qed.

Lemma Forall2_of_nth (R : Z -> Z -> Prop) : forall xs ys,
  length xs = length ys ->
  (forall j, (j < length xs)%nat -> R (nth j xs 0) (nth j ys 0)) ->
  Forall2 R xs ys.
Proof.
  induction xs as [|x t IH]; intros [|y u] Hl H; try discriminate; constructor.
  - apply (H 0%nat). simpl. lia.
  - apply IH; [simpl in Hl; lia|].
    intros j Hj. apply (H (S j)). simpl. lia.
Qed.

Lemma Forall2_compose {A B C} (R1 : A -> B -> Prop) (R2 : B -> C -> Prop)
  (R : A -> C -> Prop) :
  (forall x y z, R1 x y -> R2 y z -> R x z) ->
  forall xs ys zs, Forall2 R1 xs ys -> Forall2 R2 ys zs -> Forall2 R xs zs.
Proof.
  intros H xs ys zs H1. revert zs.
  induction H1 as [|x y xs ys Hxy _ IH]; intros zs H2; inversion H2; subst;
    constructor; eauto.
Qed.

Lemma weights_nonneg (ws : list Z) :
  Forall (fun w => 1 <= w) ws -> Forall (fun w => 0 <= w) ws.
Proof. intros H. eapply Forall_impl; [|exact H]. simpl. intros; lia. Qed.

Lemma weights_sum_pos (ws : list Z) :
  Forall (fun w => 1 <= w) ws -> ws <> [] -> 0 < zsum ws.
Proof.
  intros Hw Hne. destruct ws as [|w t]; [congruence|].
  inversion Hw as [|? ? H1 H2]; subst.
  pose proof (zsum_nonneg t (weights_nonneg t H2)). simpl. lia.
Qed.

Section Near.

Variables (total m : Z) (ws : list Z).
Hypothesis Hm : 2 <= m.
Hypothesis Hw : Forall (fun w => 1 <= w) ws.
Hypothesis Hne : ws <> [].
Hypothesis Hn : Z.of_nat (length ws) <= total.

Let n := Z.of_nat (length ws).

Lemma raw_durations_exact :
  Forall2 (fun w r => (r == exact_share total ws m w)%Q) ws (raw_durations total ws m).
Proof.
  pose proof (qlength_pos ws Hne) as Hq. fold n in Hq.
  pose proof (weights_sum_pos ws Hw Hne) as Hs.
  unfold raw_durations, exact_share. fold n.
  rewrite (proj2 (Z.eqb_neq (zsum ws) 0)) by lia.
  destruct (Qltb (inject_Z total) (inject_Z m * inject_Z n)) eqn:Eb; cbv zeta.
  - assert (Er : (Qmax0 (inject_Z total - inject_Z total / inject_Z n * inject_Z n)
                  == 0)%Q).
    { apply Qmax0_zero. field. intros E. rewrite E in Hq. apply (Qlt_irrefl 0 Hq). }
    apply Forall2_map_r. intros w _. rewrite Er. ring.
  - assert (Hfit : (inject_Z m * inject_Z n <= inject_Z total)%Q).
    { unfold Qltb in Eb. apply negb_false_iff in Eb. apply Qle_bool_iff, Eb. }
    rewrite Qmax0_of_nonneg by lra.
    apply Forall2_map_r. intros w _. reflexivity.
Qed.

Lemma raw_sum_exact : (qsum (raw_durations total ws m) == inject_Z total)%Q.
Proof.
  pose proof (qlength_pos ws Hne) as Hq. fold n in Hq.
  pose proof (weights_sum_pos ws Hw Hne) as Hs.
  assert (Hsq : ~ (inject_Z (zsum ws) == 0)%Q).
  { intros E. change 0%Q with (inject_Z 0) in E.
    rewrite inject_Z_injective in E. lia. }
  assert (Hnq : ~ (inject_Z n == 0)%Q).
  { intros E. rewrite E in Hq. apply (Qlt_irrefl 0 Hq). }
  unfold raw_durations. fold n.
  rewrite (proj2 (Z.eqb_neq (zsum ws) 0)) by lia.
  rewrite qsum_affine. fold n.
  destruct (Qltb (inject_Z total) (inject_Z m * inject_Z n)) eqn:Eb.
  - rewrite Qmax0_zero by (field; exact Hnq). field. split; assumption.
  - assert (Hfit : (inject_Z m * inject_Z n <= inject_Z total)%Q).
    { unfold Qltb in Eb. apply negb_false_iff in Eb. apply Qle_bool_iff, Eb. }
    rewrite Qmax0_of_nonneg by lra. field. exact Hsq.
Qed.

(** With a floor of at least 2 and a target of at least 1 ms per weight,
    every duration is within 1.5 ms of its exact share. *)
Lemma weighted_durations_near :
  Forall2 (fun w d => (exact_share total ws m w - (3 # 2) <= inject_Z d
                       /\ inject_Z d <= exact_share total ws m w + (3 # 2))%Q)
          ws (_weighted_durations total ws m).
Proof.
  pose proof (length_ge1 ws Hne) as Hn1. fold n in Hn, Hn1.
  pose proof (weights_nonneg ws Hw) as Hw0.
  rewrite weighted_durations_pos by (lia || assumption).
  destruct (raw_facts total m ws Hm Hw0 Hne Hn) as (_ & F1 & F2).
  set (raw := raw_durations total ws m) in *.
  set (out0 := map py_round raw) in *.
  assert (L0 : length out0 = length ws)
    by (subst out0 raw; rewrite length_map; apply raw_durations_length).
  assert (B : 2 * Z.abs (total - zsum out0) <= n).
  { pose proof (round_sum_upper raw) as U. pose proof (round_sum_lower raw) as Lo.
    fold out0 in U, Lo. subst raw. rewrite raw_durations_length in U, Lo.
    fold n in U, Lo. rewrite raw_sum_exact in U, Lo.
    assert (X : 2 * zsum out0 <= 2 * total + n /\ 2 * total - n <= 2 * zsum out0);
      [|lia].
    rewrite !Zle_Qle. unfold Z.sub.
    rewrite !inject_Z_plus, !inject_Z_mult, inject_Z_opp.
    change (inject_Z 2) with 2%Q. split; lra. }
  destruct (fix_drift_exact total out0) as (S1 & L1 & N1); [assumption|lia|].
  destruct (fix_drift_ge1 total out0) as (G1 & _); try assumption.
  { intros E. rewrite E in L0. destruct ws; [congruence|discriminate]. }
  { rewrite L0. fold n. lia. }
  rewrite clamp_one_id by assumption.
  unfold settle_last. rewrite (proj2 (Z.eqb_eq _ _) S1).
  apply (Forall2_compose
           (fun w r => (r == exact_share total ws m w)%Q)
           (fun r d => (r - (3 # 2) <= inject_Z d /\ inject_Z d <= r + (3 # 2))%Q)
           _) with (ys := raw); [|apply raw_durations_exact|].
  { cbv beta. intros w r d E [A1 A2]. split; lra. }
  apply (Forall2_compose
           (fun r o => (r - (1 # 2) <= inject_Z o /\ inject_Z o <= r + (1 # 2))%Q)
           (fun o d => Z.abs (d - o) <= 1)
           _) with (ys := out0).
  - cbv beta. intros r o d [A1 A2] A3.
    assert (Z1 : o + - 1 <= d) by lia. assert (Z2 : d <= o + 1) by lia.
    rewrite Zle_Qle, inject_Z_plus in Z1, Z2.
    change (inject_Z (-1)) with (-1 # 1)%Q in Z1.
    change (inject_Z 1) with 1%Q in Z2. split; lra.
  - subst out0. apply Forall2_map_r. intros r _.
    split; [apply py_round_lower|apply py_round_upper].
  - apply Forall2_of_nth; [symmetry; exact L1|]. intros j _. apply N1.
Qed.

End Near.

End DurationsNear.

(** ** Facts on the recovery paths *)

Module RecoveryFacts.

Lemma lay_out_eq pending : forall durs cur audio,
  lay_out pending durs cur audio
  = (map (approx_entry audio) (combine pending (spans cur durs)),
     cur + zsum (firstn (length pending) durs)).
Proof.
  induction pending as [|s ps IH]; intros [|d ds] cur audio; simpl;
    try (f_equal; lia).
  rewrite IH, Z.add_assoc. reflexivity.
Qed.

Lemma spans_length durs : forall cur, length (spans cur durs) = length durs.
Proof. induction durs as [|d ds IH]; intros cur; simpl; [|rewrite IH]; reflexivity. Qed.

Lemma spans_last durs : forall cur dflt,
  durs <> [] -> snd (last (spans cur durs) dflt) = cur + zsum durs.
Proof.
  induction durs as [|d ds IH]; intros cur dflt H; [congruence|].
  destruct ds as [|d' ds']; [simpl; lia|].
  change (snd (last (spans (cur + d) (d' :: ds')) dflt) = cur + zsum (d :: d' :: ds')).
  rewrite IH by discriminate. simpl. lia.
Qed.


Lemma approx_entries_span audio pending : forall durs cur,
  length pending = length durs ->
  map span_of (map (approx_entry audio) (combine pending (spans cur durs)))
  = map Some durs.
Proof.
  induction pending as [|s ps IH]; intros [|d ds] cur Hl; try discriminate;
    [reflexivity|].
  simpl. rewrite IH by (simpl in Hl; lia).
  unfold span_of, approx_entry, start_of, end_of. simpl. do 2 f_equal. lia.
Qed.

Lemma approx_entries_sentences audio pending : forall durs cur,
  length pending = length durs ->
  map sentence_of_result
      (map (approx_entry audio) (combine pending (spans cur durs)))
  = pending.
Proof.
  induction pending as [|s ps IH]; intros [|d ds] cur Hl; try discriminate;
    [reflexivity|].
  simpl. rewrite IH by (simpl in Hl; lia). reflexivity.
Qed.

Lemma force_last_end_app xs ys fe :
  ys <> [] -> force_last_end (xs ++ ys) fe = xs ++ force_last_end ys fe.
Proof.
  intros H. induction xs as [|x t IH]; [reflexivity|].
  simpl. rewrite IH.
  destruct (t ++ ys) eqn:E; [|reflexivity].
  apply app_eq_nil in E. destruct E. congruence.
Qed.

Lemma force_last_end_id rs fe :
  rs <> [] -> end_of (last rs no_result) = Some fe -> force_last_end rs fe = rs.
Proof.
  induction rs as [|r t IH]; intros H E; [congruence|].
  destruct t as [|r' t'].
  - destruct r as [[[s st] en] src]. simpl in *. unfold end_of in E.
    simpl in E. rewrite E. reflexivity.
  - change (r :: force_last_end (r' :: t') fe = r :: r' :: t'). f_equal.
    apply IH; [discriminate|exact E].
Qed.

Lemma last_app_nonempty {A} (xs ys : list A) d :
  ys <> [] -> last (xs ++ ys) d = last ys d.
Proof.
  intros H. induction xs as [|x t IH]; [reflexivity|].
  simpl. rewrite IH. destruct (t ++ ys) eqn:E; [|reflexivity].
  apply app_eq_nil in E. destruct E. congruence.
Qed.

Lemma approx_entries_last_end audio pending durs cur :
  length pending = length durs -> durs <> [] ->
  end_of (last (map (approx_entry audio) (combine pending (spans cur durs))) no_result)
  = Some (cur + zsum durs).
Proof.
  revert durs cur.
  induction pending as [|s ps IH]; intros [|d ds] cur Hl Hne; try discriminate;
    [congruence|].
  destruct ps as [|s' ps']; destruct ds as [|d' ds']; try discriminate.
  - unfold end_of. simpl. f_equal. lia.
  - change (end_of (last (map (approx_entry audio)
                            (combine (s' :: ps') (spans (cur + d) (d' :: ds'))))
                         no_result)
            = Some (cur + zsum (d :: d' :: ds'))).
    rewrite IH by (simpl in Hl |- *; (lia || discriminate)).
    f_equal. simpl. lia.
Qed.

Lemma char_weight_ge1 pending : Forall (fun w => 1 <= w) (map char_weight pending).
Proof.
  apply Forall_map, Forall_forall. intros s _. unfold char_weight. lia.
Qed.

(** What [_approximate_missing_chunk] appends, with the end of the last
    entry shown to be the file end already before it is forced. *)
Lemma approximate_inv a ss ce audio fs fe a' :
  _approximate_missing_chunk a ss (Some ce) audio fs fe = Some a' ->
  let pending := slice (sent_idx a) ce ss in
  let base_start :=
    Z.min fe (Z.max fs (_last_end_ms_for_file (results a) audio fs + 1)) in
  let durs :=
    _weighted_durations (fe - base_start) (map char_weight pending) MIN_MATCH_MS in
  pending <> [] /\
  length durs = length pending /\
  zsum durs = fe - base_start /\
  results a' = results a
               ++ map (approx_entry audio) (combine pending (spans base_start durs)) /\
  end_of (last (results a') no_result) = Some fe /\
  sent_idx a' = ce /\ last_end_ms a' = fe.
Proof.
  unfold _approximate_missing_chunk.
  destruct (ce <=? sent_idx a); [discriminate|].
  set (b0 := Z.max fs (_last_end_ms_for_file (results a) audio fs + 1)).
  assert (Eb : (if fe <? b0 then fe else b0) = Z.min fe b0)
    by (destruct (Z.ltb_spec fe b0); lia).
  rewrite Eb. clear Eb. set (base := Z.min fe b0).
  assert (Er : Z.max 0 (fe - base) = fe - base) by (subst base; lia).
  rewrite Er. clear Er.
  set (pending := slice (sent_idx a) ce ss).
  destruct pending as [|s0 ps0] eqn:Ep; [discriminate|].
  rewrite <- Ep. set (durs := _weighted_durations _ _ _).
  rewrite lay_out_eq. cbv iota beta zeta.
  intros E. injection E as <-. cbv zeta.
  assert (Hp : pending <> []) by (rewrite Ep; discriminate).
  assert (Hl : length durs = length pending)
    by (subst durs; rewrite weighted_durations_length; apply length_map).
  assert (Hd : durs <> []).
  { intros E. rewrite E in Hl. rewrite Ep in Hl. discriminate. }
  assert (Hs : zsum durs = fe - base).
  { destruct (Z.eq_dec (fe - base) 0) as [E0|E0].
    - subst durs. rewrite E0, weighted_durations_nonpos by lia. apply zsum_repeat0.
    - subst durs. apply weighted_durations_sum; [subst base; lia|].
      rewrite Ep. discriminate. }
  set (entries := map (approx_entry audio) (combine pending (spans base durs))).
  assert (He : entries <> []).
  { intros E. apply (f_equal (@length Result)) in E. subst entries.
    rewrite length_map, length_combine, spans_length, Hl, Nat.min_id in E.
    rewrite Ep in E. discriminate. }
  assert (Hlast : end_of (last entries no_result) = Some fe).
  { subst entries. rewrite approx_entries_last_end by (auto; congruence).
    f_equal. lia. }
  assert (Hf : force_last_end (results a ++ entries) fe = results a ++ entries).
  { rewrite force_last_end_app by assumption.
    rewrite force_last_end_id by assumption. reflexivity. }
  rewrite Hf. simpl.
  repeat split; try assumption; try reflexivity.
  rewrite last_app_nonempty by assumption. exact Hlast.
Qed.

End RecoveryFacts.

Module AnchorFacts.
Import RecoveryFacts MatcherFacts.

Lemma find_anchor_hit bs a cands : forall j idx s h,
  find_anchor bs a cands j = Some (idx, s, h) ->
  In s cands /\ _try_match_sentence_core bs a s true = Some h.
Proof.
  induction cands as [|c rest IH]; intros j idx s h; simpl; [discriminate|].
  destruct (_try_match_sentence_core bs a c true) as [hit|] eqn:E.
  - intros X. injection X as <- <- <-. split; [simpl; left; reflexivity|exact E].
  - intros X. apply IH in X. destruct X as [X1 X2]. split; [simpl; right|]; assumption.
Qed.

(** What [_recover_with_anchor] appends: the interpolated gap, back to
    back from [base_start], then the anchor. *)
Lemma recover_inv bs a ss ce audio fs fe la a' :
  _recover_with_anchor bs a ss (Some ce) audio fs fe la = Some a' ->
  let base_start := Z.max fs (_last_end_ms_for_file (results a) audio fs + 1) in
  exists anchor_idx anchor_s pending durs st en,
    pending = slice (sent_idx a) anchor_idx ss /\
    results a'
    = results a
      ++ map (approx_entry audio) (combine pending (spans base_start durs))
      ++ [(anchor_s, Some st, Some en, Some audio)] /\
    length durs = length pending /\
    last_end_ms a' = en /\ sent_idx a' = anchor_idx + 1 /\
    ((base_start + zsum durs <= st /\ st + MIN_MATCH_MS <= en) \/ en = fe).
Proof.
  unfold _recover_with_anchor.
  destruct (ce <=? sent_idx a); [discriminate|].
  destruct (find_anchor bs a _ _) as [[[anchor_idx anchor_s] [[[st0 en0] src0] e0]]|];
    [|discriminate].
  set (base := Z.max fs (_last_end_ms_for_file (results a) audio fs + 1)).
  set (pending := slice (sent_idx a) anchor_idx ss).
  cbv zeta. intros E.
  exists anchor_idx, anchor_s, pending.
  destruct pending as [|p0 ps0] eqn:Ep.
  - (* no gap *)
    exists []. 
    set (st1 := Z.max (Z.max (Z.max base st0) st0) base) in *.
    set (en1 := Z.max en0 (st1 + MIN_MATCH_MS)) in *.
    destruct (Z.ltb_spec fe en1) as [Hc|Hc].
    + injection E as <-.
      exists (if fe <? st1 then Z.max fs (fe - MIN_MATCH_MS) else st1), fe.
      simpl. split; [symmetry; exact Ep|].
      do 4 (split; [reflexivity|]). right. reflexivity.
    + injection E as <-. exists st1, en1. simpl.
      split; [symmetry; exact Ep|].
      do 4 (split; [reflexivity|]). left. subst st1 en1. lia.
  - rewrite <- Ep in *.
    set (durs := _weighted_durations _ _ _) in E.
    rewrite lay_out_eq in E. cbv iota beta zeta in E.
    assert (Hl : length durs = length pending)
      by (subst durs; rewrite weighted_durations_length; apply length_map).
    rewrite <- Hl, firstn_all in E.
    exists durs.
    set (as1 := if Z.max base st0 - base <? MIN_MATCH_MS * len pending
                then Z.min fe (base + MIN_MATCH_MS * len pending)
                else Z.max base st0) in *.
    set (st1 := Z.max (Z.max as1 st0) (base + zsum durs)) in *.
    set (en1 := Z.max en0 (st1 + MIN_MATCH_MS)) in *.
    destruct (Z.ltb_spec fe en1) as [Hc|Hc].
    + injection E as <-.
      exists (if fe <? st1 then Z.max fs (fe - MIN_MATCH_MS) else st1), fe.
      simpl. do 2 (split; [reflexivity|]). split; [assumption|].
      do 2 (split; [reflexivity|]). right. reflexivity.
    + injection E as <-. exists st1, en1. simpl.
      do 2 (split; [reflexivity|]). split; [assumption|].
      do 2 (split; [reflexivity|]). left. subst st1 en1. lia.
Qed.

(** The same with the span of the gap: it is at least [MIN_MATCH_MS] per
    pending sentence unless the file end cuts it. *)
Lemma recover_gap_inv bs a ss ce audio fs fe la a' :
  _recover_with_anchor bs a ss (Some ce) audio fs fe la = Some a' ->
  let base_start := Z.max fs (_last_end_ms_for_file (results a) audio fs + 1) in
  exists anchor_idx anchor_s pending gap_ms durs st en,
    pending = slice (sent_idx a) anchor_idx ss /\
    (pending <> [] ->
     durs = _weighted_durations gap_ms (map char_weight pending) MIN_MATCH_MS) /\
    results a'
    = results a
      ++ map (approx_entry audio) (combine pending (spans base_start durs))
      ++ [(anchor_s, Some st, Some en, Some audio)] /\
    length durs = length pending /\
    zsum durs = gap_ms /\
    (MIN_MATCH_MS * len pending <= gap_ms \/
     (gap_ms = Z.max 0 (fe - base_start) /\
      fe - base_start < MIN_MATCH_MS * len pending)) /\
    last_end_ms a' = en /\ sent_idx a' = anchor_idx + 1 /\
    ((base_start + gap_ms <= st /\ st + MIN_MATCH_MS <= en) \/ en = fe).
Proof.
  unfold _recover_with_anchor.
  destruct (ce <=? sent_idx a); [discriminate|].
  destruct (find_anchor bs a _ _) as [[[anchor_idx anchor_s] [[[st0 en0] src0] e0]]|];
    [|discriminate].
  set (base := Z.max fs (_last_end_ms_for_file (results a) audio fs + 1)).
  set (pending := slice (sent_idx a) anchor_idx ss).
  cbv zeta. intros E.
  exists anchor_idx, anchor_s, pending.
  destruct pending as [|p0 ps0] eqn:Ep.
  - exists 0, [].
    set (st1 := Z.max (Z.max (Z.max base st0) st0) base) in *.
    set (en1 := Z.max en0 (st1 + MIN_MATCH_MS)) in *.
    destruct (Z.ltb_spec fe en1) as [Hc|Hc].
    + injection E as <-.
      exists (if fe <? st1 then Z.max fs (fe - MIN_MATCH_MS) else st1), fe.
      simpl. split; [symmetry; exact Ep|].
      split; [intros X; congruence|].
      do 3 (split; [reflexivity|]). split; [left; reflexivity|].
      do 2 (split; [reflexivity|]). right. reflexivity.
    + injection E as <-. exists st1, en1. simpl.
      split; [symmetry; exact Ep|].
      split; [intros X; congruence|].
      do 3 (split; [reflexivity|]). split; [left; reflexivity|].
      do 2 (split; [reflexivity|]). left. subst st1 en1. lia.
  - rewrite <- Ep in *.
    set (as1 := if Z.max base st0 - base <? MIN_MATCH_MS * len pending
                then Z.min fe (base + MIN_MATCH_MS * len pending)
                else Z.max base st0) in *.
    set (gap_ms := Z.max 0 (as1 - base)) in *.
    set (durs := _weighted_durations _ _ _) in E.
    rewrite lay_out_eq in E. cbv iota beta zeta in E.
    assert (Hl : length durs = length pending)
      by (subst durs; rewrite weighted_durations_length; apply length_map).
    rewrite <- Hl, firstn_all in E.
    exists gap_ms, durs.
    assert (Hne : map char_weight pending <> [])
      by (rewrite Ep; discriminate).
    assert (Hs : zsum durs = gap_ms).
    { destruct (Z.eq_dec gap_ms 0) as [E0|E0].
      - subst durs. rewrite E0, weighted_durations_nonpos by lia. apply zsum_repeat0.
      - subst durs. apply weighted_durations_sum; [subst gap_ms; lia|exact Hne]. }
    assert (Hg : MIN_MATCH_MS * len pending <= gap_ms \/
                 (gap_ms = Z.max 0 (fe - base) /\
                  fe - base < MIN_MATCH_MS * len pending)).
    { subst gap_ms as1.
      destruct (Z.ltb_spec (Z.max base st0 - base) (MIN_MATCH_MS * len pending));
        lia. }
    set (st1 := Z.max (Z.max as1 st0) (base + zsum durs)) in *.
    set (en1 := Z.max en0 (st1 + MIN_MATCH_MS)) in *.
    assert (Hd : pending <> [] ->
                 durs = _weighted_durations gap_ms (map char_weight pending)
                          MIN_MATCH_MS) by (intros _; reflexivity).
    destruct (Z.ltb_spec fe en1) as [Hc|Hc].
    + injection E as <-.
      exists (if fe <? st1 then Z.max fs (fe - MIN_MATCH_MS) else st1), fe.
      simpl. split; [reflexivity|]. split; [exact Hd|].
      split; [reflexivity|]. split; [assumption|]. split; [assumption|].
      split; [assumption|].
      do 2 (split; [reflexivity|]). right. reflexivity.
    + injection E as <-. exists st1, en1. simpl.
      split; [reflexivity|]. split; [exact Hd|].
      split; [reflexivity|]. split; [assumption|]. split; [assumption|].
      split; [assumption|].
      do 2 (split; [reflexivity|]). left. subst st1 en1. lia.
Qed.

End AnchorFacts.

Module CommitFacts.
Import RecoveryFacts MatcherFacts AnchorFacts Examples.

(** What a successful [_try_match_sentence] does to the aligner. *)
Lemma try_match_inv bs a s aggressive a' :
  _try_match_sentence bs a s aggressive = Some a' ->
  exists st en,
    results a'
    = results a
      ++ [(s, Some st, Some en,
           if truthy (forced_src a) then forced_src a else None)] /\
    last_end_ms a + 1 <= st /\ st + MIN_MATCH_MS <= en /\
    last_start_ms a' = st /\ last_end_ms a' = en /\
    sent_idx a' = sent_idx a + 1.
Proof.
  unfold _try_match_sentence.
  destruct (_try_match_sentence_core bs a s aggressive) as [[[[st en] src] e]|] eqn:E;
    [|discriminate].
  apply core_is_commit in E. destruct E as (i & k & E). symmetry in E.
  apply commit_window_times in E. destruct E as (H1 & H2 & ->).
  intros X. injection X as <-. exists st, en. simpl.
  repeat split; assumption || reflexivity.
Qed.


(** The resume loop appends one entry per replayed item and copies its
    stored times. *)
Lemma prime_loop_spec items : forall ss k a k' a',
  prime_loop items ss k a = (k', a') ->
  exists n,
    k' = k + Z.of_nat n /\ (n <= length items)%nat /\ (n <= length ss)%nat /\
    map Some (skipn (length (results a)) (results a'))
    = map primed_entry (combine (firstn n items) (firstn n ss)) /\
    firstn (length (results a)) (results a') = results a.
Proof.
  induction items as [|it items IH]; intros ss k a k' a' E.
  - simpl in E. injection E as <- <-. exists 0%nat. simpl.
    rewrite skipn_all, firstn_all. repeat split; try lia; reflexivity.
  - destruct ss as [|s ss].
    { simpl in E. injection E as <- <-. exists 0%nat. simpl.
      rewrite skipn_all, firstn_all. repeat split; try lia; reflexivity. }
    simpl in E.
    destruct (negb (str_eqb (strip (text_or_empty (it_text it))) (strip (s_text s)))).
    { injection E as <- <-. exists 0%nat. simpl.
      rewrite skipn_all, firstn_all. repeat split; try lia; reflexivity. }
    destruct (it_start_ms it) as [st|] eqn:Est.
    2:{ injection E as <- <-. exists 0%nat. simpl.
        rewrite skipn_all, firstn_all. repeat split; try lia; reflexivity. }
    apply IH in E. destruct E as (n & -> & Hn1 & Hn2 & Hs & Hf).
    cbn [results set_progress] in Hs, Hf. rewrite length_app in Hs, Hf.
    cbn [length] in Hs, Hf.
    exists (S n). split; [lia|]. split; [simpl; lia|]. split; [simpl; lia|].
    assert (Hpre : firstn (length (results a)) (results a') = results a).
    { apply (f_equal (firstn (length (results a)))) in Hf.
      rewrite firstn_firstn in Hf.
      rewrite Nat.min_l in Hf by lia.
      rewrite Hf, firstn_app, Nat.sub_diag, firstn_all. simpl.
      apply app_nil_r. }
    split; [|exact Hpre].
    cbn [firstn combine map]. unfold primed_entry at 1. cbn [fst snd]. rewrite Est.
    rewrite <- Hs.
    assert (Hsk : skipn (length (results a)) (results a')
                  = (s, Some st,
                     Some match it_end_ms it with Some en => en | None => st end,
                     it_audio_file it)
                    :: skipn (length (results a) + 1) (results a')).
    { rewrite <- (firstn_skipn (length (results a) + 1) (results a')) at 1.
      rewrite Hf, skipn_app, length_app. cbn [length].
      rewrite skipn_app, skipn_all, Nat.sub_diag. simpl.
      replace (length (results a) - (length (results a) + 1))%nat with 0%nat by lia.
      reflexivity. }
    rewrite Hsk. reflexivity.
Qed.

End CommitFacts.

(** ** Claims C1, C2 and C4 *)

Module CommitClaims.
Import RecoveryFacts MatcherFacts AnchorFacts CommitFacts DurationsNear Examples.




End CommitClaims.

Module ApproximationClaims.
Import RecoveryFacts MatcherFacts AnchorFacts CommitFacts DurationsNear Examples.

Lemma Qltb_inject (x m n : Z) :
  Qltb (inject_Z x) (inject_Z m * inject_Z n) = (x <? m * n).
Proof.
  unfold Qltb. rewrite <- inject_Z_mult.
  destruct (Z.ltb_spec x (m * n)) as [H|H].
  - apply negb_true_iff. destruct (Qle_bool _ _) eqn:E; [|reflexivity].
    apply Qle_bool_iff in E. rewrite <- Zle_Qle in E. lia.
  - apply negb_false_iff, Qle_bool_iff. rewrite <- Zle_Qle. exact H.
Qed.

Lemma Forall2_right {A B} (P : B -> Prop) (xs : list A) (ys : list B) :
  Forall2 (fun _ y => P y) xs ys -> Forall P ys.
Proof. induction 1; constructor; assumption. Qed.

(** C4, counterexample: [b.wav] spans [0, 1001] ms, no word was heard, the
    chunk holds "Yes." (4 characters) and "Not at all!!" (12 characters).
    The span of 1000 ms is split 350 / 650, each sentence first receiving
    200 ms; shares proportional to the character lengths would be
    250 / 750. *)
Lemma approximation_not_proportional :
  exists a',
    _approximate_missing_chunk a_s3 ss_s3 (Some 2) b_wav 0 1001 = Some a' /\
    map char_weight ss_s3 = [4; 12] /\
    map span_of (results a') = [Some 350; Some 650] /\
    350 * 12 <> 650 * 4 /\
    2 < Z.abs (350 - 1000 * 4 / (4 + 12)).
Proof.
  eexists. split; [vm_compute; reflexivity|].
  split; [reflexivity|]. split; [reflexivity|]. split; [lia|].
  vm_compute. reflexivity.
Qed.

(** C4 (amended): when the weighted approximation fires for an audio file,
    it appends one entry per pending sentence of the chunk, back to back
    from [base_start = min(file_end_ms, max(file_start_ms, last end of the
    file + 1))]; the durations sum exactly to [file_end_ms - base_start], so
    the last entry ends exactly at [file_end_ms].  With [n] pending sentences
    of character weights [w] summing to [W] and [span = file_end_ms -
    base_start]: if [span >= MIN_MATCH_MS * n], every duration is within
    1.5 ms of [MIN_MATCH_MS + (span - MIN_MATCH_MS * n) * w / W], a floor
    plus a share of the rest proportional to the character length; if
    [n <= span < MIN_MATCH_MS * n], every duration is within 1.5 ms of
    [span / n], whatever the character lengths. *)
Theorem approximate_missing_chunk_spec (a : Aligner) (ss : list Sentence)
  (ce : Z) (audio : pystr) (fs fe : Z) (a' : Aligner) :
  _approximate_missing_chunk a ss (Some ce) audio fs fe = Some a' ->
  let pending := slice (sent_idx a) ce ss in
  let base_start :=
    Z.min fe (Z.max fs (_last_end_ms_for_file (results a) audio fs + 1)) in
  let span := fe - base_start in
  let weights := map char_weight pending in
  let n := len pending in
  exists durs,
    results a'
    = results a
      ++ map (approx_entry audio) (combine pending (spans base_start durs)) /\
    length durs = length pending /\
    zsum durs = span /\
    end_of (last (results a') no_result) = Some fe /\
    sent_idx a' = ce /\
    (MIN_MATCH_MS * n <= span ->
     Forall2
       (fun w d =>
          let share :=
            (inject_Z MIN_MATCH_MS
             + (inject_Z span - inject_Z MIN_MATCH_MS * inject_Z n)
               * (inject_Z w / inject_Z (zsum weights)))%Q in
          (share - (3 # 2) <= inject_Z d /\ inject_Z d <= share + (3 # 2))%Q)
       weights durs) /\
    (n <= span < MIN_MATCH_MS * n ->
     Forall
       (fun d =>
          let share := (inject_Z span / inject_Z n)%Q in
          (share - (3 # 2) <= inject_Z d /\ inject_Z d <= share + (3 # 2))%Q)
       durs).
Proof.
  intros E pending base_start span weights n.
  apply approximate_inv in E. cbv zeta in E.
  fold pending base_start span weights in E.
  destruct E as (Hp & Hl & Hs & Hr & He & Hi & _).
  exists (_weighted_durations span weights MIN_MATCH_MS).
  do 5 (split; [assumption|]).
  assert (Hw : Forall (fun w => 1 <= w) weights) by apply char_weight_ge1.
  assert (Hne : weights <> []).
  { subst weights. destruct pending; [congruence|discriminate]. }
  assert (Hn : Z.of_nat (length weights) = n)
    by (subst weights n; unfold len; rewrite length_map; reflexivity).
  assert (Hnear : n <= span ->
            Forall2 (fun w d =>
                       (exact_share span weights MIN_MATCH_MS w - (3 # 2) <= inject_Z d
                        /\ inject_Z d <= exact_share span weights MIN_MATCH_MS w + (3 # 2))%Q)
                    weights (_weighted_durations span weights MIN_MATCH_MS)).
  { intros H. apply weighted_durations_near; try assumption.
    - unfold MIN_MATCH_MS. lia.
    - rewrite Hn. exact H. }
  assert (Hn1 : 1 <= n).
  { rewrite <- Hn. destruct weights; [congruence|simpl length; lia]. }
  split.
  - intros Hfit. unfold MIN_MATCH_MS in Hfit.
    eapply Forall2_impl; [|apply Hnear; lia].
    cbv beta zeta. intros w d. unfold exact_share.
    rewrite Hn, Qltb_inject.
    destruct (Z.ltb_spec span (MIN_MATCH_MS * n)) as [X|X];
      [unfold MIN_MATCH_MS in X; lia|]. auto.
  - intros [Hlo Hhi].
    apply (Forall2_right _ weights).
    eapply Forall2_impl; [|apply Hnear; lia].
    cbv beta zeta. intros w d. unfold exact_share.
    rewrite Hn, Qltb_inject.
    destruct (Z.ltb_spec span (MIN_MATCH_MS * n)) as [X|X]; [auto|lia].
Qed.

Lemma approximate_missing_chunk_spec_witness :
  exists a',
    _approximate_missing_chunk a_s3 ss_s3 (Some 2) b_wav 0 1001 = Some a' /\
    map (fun r => (start_of r, end_of r)) (results a')
    = [(Some 1, Some 351); (Some 351, Some 1001)] /\
    end_of (last (results a') no_result) = Some 1001.
Proof.
  destruct (_approximate_missing_chunk a_s3 ss_s3 (Some 2) b_wav 0 1001)
    as [a'|] eqn:E; [|vm_compute in E; discriminate].
  exists a'. split; [reflexivity|].
  destruct (approximate_missing_chunk_spec a_s3 ss_s3 2 b_wav 0 1001 a' E)
    as (durs & _ & _ & _ & He & _).
  split; [|exact He]. vm_compute in E. injection E as <-. reflexivity.
Defined.

(** ** Claim C2 *)

(** C2, counterexample: as above with [b.wav] spanning [0, 301] ms.  The two
    sentences, neither of them a placeholder, are committed with spans of
    150 ms each. *)
Lemma approximated_span_below_min :
  exists a',
    _approximate_missing_chunk a_s3 ss_s3 (Some 2) b_wav 0 301 = Some a' /\
    map s_placeholder (map sentence_of_result (results a')) = [false; false] /\
    map span_of (results a') = [Some 150; Some 150] /\
    150 < MIN_MATCH_MS.
Proof.
  eexists. split; [vm_compute; reflexivity|].
  split; [reflexivity|]. split; [reflexivity|]. reflexivity.
Qed.

Lemma Forall2_with_left {A B} (P : A -> Prop) (R : A -> B -> Prop) xs ys :
  Forall P xs -> Forall2 R xs ys -> Forall2 (fun x y => P x /\ R x y) xs ys.
Proof.
  intros HP HR. induction HR as [|x y xs ys Hxy _ IH]; [constructor|].
  inversion HP; subst. constructor; auto.
Qed.

(** With at least [m] ms per weight to share, the exact share is at
    least [m]. *)
Lemma exact_share_floor total ws m w :
  ws <> [] -> Forall (fun x => 1 <= x) ws -> 0 <= w ->
  m * len ws <= total ->
  (inject_Z m <= exact_share total ws m w)%Q.
Proof.
  intros Hne Hw Hw0 Hfit. unfold exact_share, len in *.
  rewrite Qltb_inject.
  destruct (Z.ltb_spec total (m * Z.of_nat (length ws))) as [X|X]; [lia|].
  pose proof (weights_sum_pos ws Hw Hne) as Hs.
  assert (Hsq : (0 < inject_Z (zsum ws))%Q)
    by (change 0%Q with (inject_Z 0); rewrite <- Zlt_Qlt; exact Hs).
  assert (Hr : (0 <= inject_Z total - inject_Z m * inject_Z (Z.of_nat (length ws)))%Q).
  { rewrite Zle_Qle, inject_Z_mult in X. lra. }
  assert (Hq : (0 <= inject_Z w / inject_Z (zsum ws))%Q).
  { apply Qle_shift_div_l; [exact Hsq|].
    setoid_replace (0 * inject_Z (zsum ws))%Q with (inject_Z 0) by ring.
    rewrite <- Zle_Qle. exact Hw0. }
  pose proof (Qmult_le_0_compat _ _ Hr Hq). lra.
Qed.

(** With at least [m] ms per weight to share, every duration is at least
    [m - 1]. *)
Lemma weighted_durations_floor total ws m :
  2 <= m -> ws <> [] -> Forall (fun x => 1 <= x) ws ->
  m * len ws <= total ->
  Forall (fun d => m - 1 <= d) (_weighted_durations total ws m).
Proof.
  intros Hm Hne Hw Hfit.
  pose proof (length_ge1 ws Hne) as Hn1.
  assert (Hn : Z.of_nat (length ws) <= total) by (unfold len in Hfit; nia).
  pose proof (weighted_durations_near total m ws Hm Hw Hne Hn) as N.
  apply (Forall2_right _ ws).
  eapply Forall2_impl; [|apply (Forall2_with_left _ _ _ _ Hw N)].
  cbv beta. intros w d [Hw1 [Hlo _]].
  pose proof (exact_share_floor total ws m w Hne Hw ltac:(lia) Hfit) as F.
  assert (X : (inject_Z (m - 2) < inject_Z d)%Q).
  { unfold Z.sub. rewrite inject_Z_plus. change (inject_Z (- (2))) with (-2 # 1)%Q.
    lra. }
  rewrite <- Zlt_Qlt in X. lia.
Qed.

Lemma zsum_floor m (l : list Z) :
  Forall (fun d => m <= d) l -> m * len l <= zsum l.
Proof.
  unfold len. induction 1 as [|d l Hd _ IH]; [simpl; lia|].
  change (zsum (d :: l)) with (d + zsum l). cbn [length].
  rewrite Nat2Z.inj_succ. lia.
Qed.

(** With less than [m] ms per weight to share, some duration is less
    than [m]. *)
Lemma weighted_durations_short total ws m :
  0 < m -> ws <> [] -> total < m * len ws ->
  Exists (fun d => d < m) (_weighted_durations total ws m).
Proof.
  intros Hm Hne Hs.
  destruct (Z_le_gt_dec total 0) as [H0|H0].
  - rewrite weighted_durations_nonpos by assumption.
    destruct ws; [congruence|]. simpl. left. lia.
  - assert (N : ~ Forall (fun d => m <= d) (_weighted_durations total ws m)).
    { intros F. apply zsum_floor in F. unfold len in F, Hs.
      rewrite weighted_durations_length in F.
      rewrite weighted_durations_sum in F by (lia || assumption). lia. }
    apply neg_Forall_Exists_neg in N; [|intros x; apply Z_le_dec].
    eapply Exists_impl; [|exact N]. cbv beta. intros; lia.
Qed.

Lemma spans_Forall (P : Z -> Prop) (rs : list Result) : forall ds,
  map span_of rs = map Some ds -> Forall P ds ->
  Forall (fun r => exists d, span_of r = Some d /\ P d) rs.
Proof.
  induction rs as [|r rs IH]; intros [|d ds] E F; try discriminate; [constructor|].
  simpl in E. injection E as E1 E2. inversion F; subst.
  constructor; [exists d; auto|eapply IH; eauto].
Qed.

Lemma spans_Exists (P : Z -> Prop) (rs : list Result) : forall ds,
  map span_of rs = map Some ds -> Exists P ds ->
  Exists (fun r => exists d, span_of r = Some d /\ P d) rs.
Proof.
  induction rs as [|r rs IH]; intros [|d ds] E F; try discriminate;
    [inversion F|].
  simpl in E. injection E as E1 E2. inversion F; subst.
  - left. exists d; auto.
  - right. eapply IH; eauto.
Qed.

(** C2 (amended): a sentence committed by the fuzzy matcher has
    [end_ms - start_ms >= MIN_MATCH_MS]; the anchor committed by anchor
    recovery has [end_ms - start_ms >= MIN_MATCH_MS] unless its end is cut at
    [file_end_ms].  The weighted approximation commits every pending
    sentence with a span of at least [MIN_MATCH_MS - 1] when the span it
    shares out is at least [MIN_MATCH_MS] per sentence, and commits some
    sentence with a span under [MIN_MATCH_MS] when it is not.  The gap
    interpolation of anchor recovery commits every sentence of the gap with
    a span of at least [MIN_MATCH_MS - 1], unless the file ends less than
    [MIN_MATCH_MS] per sentence after the start of the gap; then it commits
    some sentence with a span under [MIN_MATCH_MS].  Both take the spans
    from [_weighted_durations], of which the same holds; 802 ms over the
    weights 1, 3, 3, 3 give a first span of 199 ms. *)
Theorem committed_span_floor :
  (forall bs a s aggressive a',
     _try_match_sentence bs a s aggressive = Some a' ->
     exists st en src,
       last (results a') no_result = (s, Some st, Some en, src) /\
       MIN_MATCH_MS <= en - st) /\
  (forall bs a ss ce audio fs fe lookahead a',
     _recover_with_anchor bs a ss (Some ce) audio fs fe lookahead = Some a' ->
     exists s st en,
       last (results a') no_result = (s, Some st, Some en, Some audio) /\
       (MIN_MATCH_MS <= en - st \/ en = fe)) /\
  (forall a ss ce audio fs fe a',
     _approximate_missing_chunk a ss (Some ce) audio fs fe = Some a' ->
     let pending := slice (sent_idx a) ce ss in
     let base_start :=
       Z.min fe (Z.max fs (_last_end_ms_for_file (results a) audio fs + 1)) in
     let span := fe - base_start in
     exists entries,
       results a' = results a ++ entries /\
       map sentence_of_result entries = pending /\
       (MIN_MATCH_MS * len pending <= span ->
        Forall (fun r => exists d, span_of r = Some d /\ MIN_MATCH_MS - 1 <= d)
               entries) /\
       (span < MIN_MATCH_MS * len pending ->
        Exists (fun r => exists d, span_of r = Some d /\ d < MIN_MATCH_MS)
               entries)) /\
  (forall bs a ss ce audio fs fe lookahead a',
     _recover_with_anchor bs a ss (Some ce) audio fs fe lookahead = Some a' ->
     let pending := slice (sent_idx a) (sent_idx a' - 1) ss in
     let base_start :=
       Z.max fs (_last_end_ms_for_file (results a) audio fs + 1) in
     exists gap anchor,
       results a' = results a ++ gap ++ [anchor] /\
       map sentence_of_result gap = pending /\
       (Forall (fun r => exists d, span_of r = Some d /\ MIN_MATCH_MS - 1 <= d)
               gap
        \/ (fe - base_start < MIN_MATCH_MS * len pending /\
            Exists (fun r => exists d, span_of r = Some d /\ d < MIN_MATCH_MS)
                   gap))) /\
  (forall total weights,
     weights <> [] -> Forall (fun w => 1 <= w) weights ->
     let durs := _weighted_durations total weights MIN_MATCH_MS in
     (MIN_MATCH_MS * len weights <= total ->
      Forall (fun d => MIN_MATCH_MS - 1 <= d) durs) /\
     (total < MIN_MATCH_MS * len weights ->
      Exists (fun d => d < MIN_MATCH_MS) durs)) /\
  _weighted_durations 802 [1; 3; 3; 3] MIN_MATCH_MS = [199; 201; 201; 201].
Proof.
  assert (W : forall total weights,
     weights <> [] -> Forall (fun w => 1 <= w) weights ->
     (MIN_MATCH_MS * len weights <= total ->
      Forall (fun d => MIN_MATCH_MS - 1 <= d)
             (_weighted_durations total weights MIN_MATCH_MS)) /\
     (total < MIN_MATCH_MS * len weights ->
      Exists (fun d => d < MIN_MATCH_MS)
             (_weighted_durations total weights MIN_MATCH_MS))).
  { intros total weights Hne Hw. split; intros H.
    - apply weighted_durations_floor; try assumption. unfold MIN_MATCH_MS. lia.
    - apply weighted_durations_short; try assumption. unfold MIN_MATCH_MS. lia. }
  split; [|split; [|split; [|split; [|split]]]].
  - intros bs a s aggressive a' E. apply try_match_inv in E.
    destruct E as (st & en & Hr & _ & H2 & _).
    eexists st, en, _. rewrite Hr, last_app_nonempty by discriminate.
    split; [reflexivity|lia].
  - intros bs a ss ce audio fs fe lookahead a' E. apply recover_inv in E.
    cbv zeta in E.
    destruct E as (ai & s & pending & durs & st & en & _ & Hr & _ & _ & _ & Hord).
    exists s, st, en. rewrite Hr, app_assoc, last_app_nonempty by discriminate.
    split; [reflexivity|]. destruct Hord as [[_ H]|H]; [left; lia|right; exact H].
  - intros a ss ce audio fs fe a' E pending base_start span.
    apply approximate_inv in E. cbv zeta in E.
    fold pending base_start span in E.
    destruct E as (Hp & Hl & _ & Hr & _).
    set (ws := map char_weight pending) in *.
    assert (Hne : ws <> []).
    { subst ws. destruct pending; [congruence|discriminate]. }
    assert (Hlw : len ws = len pending)
      by (subst ws; unfold len; rewrite length_map; reflexivity).
    destruct (W span ws Hne (char_weight_ge1 pending)) as [W1 W2].
    rewrite Hlw in W1, W2.
    eexists. split; [exact Hr|]. split; [|split].
    + apply approx_entries_sentences. symmetry. exact Hl.
    + intros H. eapply spans_Forall; [|apply W1; exact H].
      apply approx_entries_span. symmetry. exact Hl.
    + intros H. eapply spans_Exists; [|apply W2; exact H].
      apply approx_entries_span. symmetry. exact Hl.
  - intros bs a ss ce audio fs fe lookahead a' E pending base_start.
    apply recover_gap_inv in E. cbv zeta in E. fold base_start in E.
    destruct E as (ai & s & pend & gap_ms & durs & st & en & Hp & Hd & Hr & Hl
                   & _ & Hg & _ & Hsi & _).
    assert (Epend : pend = pending).
    { subst pending. rewrite Hp, Hsi. f_equal. lia. }
    rewrite Epend in *. clear Epend Hp.
    eexists _, _. split; [exact Hr|]. split.
    + apply approx_entries_sentences. symmetry. exact Hl.
    + destruct pending as [|p ps] eqn:Ep.
      * left. destruct durs; [constructor|discriminate].
      * rewrite <- Ep in *.
        assert (Hp : pending <> []) by (rewrite Ep; discriminate).
        specialize (Hd Hp).
        set (ws := map char_weight pending) in *.
        assert (Hne : ws <> []) by (subst ws; rewrite Ep; discriminate).
        assert (Hlw : len ws = len pending)
          by (subst ws; unfold len; rewrite length_map; reflexivity).
        destruct (W gap_ms ws Hne (char_weight_ge1 pending)) as [W1 W2].
        rewrite Hlw, <- Hd in W1, W2.
        assert (Hn1 : 1 <= len pending)
          by (rewrite Ep; unfold len; cbn [length]; lia).
        destruct Hg as [Hg|[Hg1 Hg2]].
        -- left. eapply spans_Forall; [|apply W1; exact Hg].
           apply approx_entries_span. symmetry. exact Hl.
        -- right. split; [exact Hg2|].
           eapply spans_Exists; [|apply W2; unfold MIN_MATCH_MS in *; lia].
           apply approx_entries_span. symmetry. exact Hl.
  - intros total weights Hne Hw. cbv zeta. apply W; assumption.
  - vm_compute. reflexivity.
Qed.

Lemma committed_span_floor_witness :
  (exists a',
     _try_match_sentence exact_score a_s1 s_hello false = Some a' /\
     map span_of (results a') = [Some 1000]) /\
  (exists a',
     _recover_with_anchor exact_score a_s2_stalled ss_s2 (Some 3) a_wav 0 6000
       RECOVER_LOOKAHEAD_SENTENCES = Some a' /\
     map span_of (results a') = [Some 1000; Some 1999; Some 1000]) /\
  (exists a',
     _approximate_missing_chunk a_s3 ss_s3 (Some 2) b_wav 0 1001 = Some a' /\
     map span_of (results a') = [Some 350; Some 650]) /\
  Forall (fun d => MIN_MATCH_MS - 1 <= d)
         (_weighted_durations 1000 [4; 12] MIN_MATCH_MS) /\
  Exists (fun d => d < MIN_MATCH_MS)
         (_weighted_durations 1999 (repeat 1 10) MIN_MATCH_MS).
Proof.
  destruct committed_span_floor as (F & R & A & G & S & _).
  split; [|split; [|split; [|split]]].
  - destruct (_try_match_sentence exact_score a_s1 s_hello false) as [a'|] eqn:E;
      [|vm_compute in E; discriminate].
    exists a'. split; [reflexivity|].
    destruct (F exact_score a_s1 s_hello false a' E) as (st & en & src & Hl & Hm).
    vm_compute in E. injection E as <-. reflexivity.
  - destruct (_recover_with_anchor exact_score a_s2_stalled ss_s2 (Some 3) a_wav
                0 6000 RECOVER_LOOKAHEAD_SENTENCES) as [a'|] eqn:E;
      [|vm_compute in E; discriminate].
    exists a'. split; [reflexivity|].
    pose proof (R exact_score a_s2_stalled ss_s2 3 a_wav 0 6000
                  RECOVER_LOOKAHEAD_SENTENCES a' E) as _.
    pose proof (G exact_score a_s2_stalled ss_s2 3 a_wav 0 6000
                  RECOVER_LOOKAHEAD_SENTENCES a' E) as _.
    vm_compute in E. injection E as <-. reflexivity.
  - destruct (_approximate_missing_chunk a_s3 ss_s3 (Some 2) b_wav 0 1001)
      as [a'|] eqn:E; [|vm_compute in E; discriminate].
    exists a'. split; [reflexivity|].
    pose proof (A a_s3 ss_s3 2 b_wav 0 1001 a' E) as _.
    vm_compute in E. injection E as <-. reflexivity.
  - apply (S 1000 [4; 12]); [discriminate|repeat constructor; lia|].
    vm_compute. discriminate.
  - apply (S 1999 (repeat 1 10)); [discriminate|repeat constructor; lia|].
    vm_compute. reflexivity.
Defined.

End ApproximationClaims.

(** ** Facts on [_dominant_src] *)

Module DominantFacts.

Lemma str_eqb_eq (x y : pystr) : str_eqb x y = true <-> x = y.
Proof.
  unfold str_eqb. destruct (list_eq_dec Z.eq_dec x y); split; auto; discriminate.
Qed.

Lemma str_eqb_refl (x : pystr) : str_eqb x x = true.
Proof. apply str_eqb_eq. reflexivity. Qed.

Lemma str_eqb_neq (x y : pystr) : str_eqb x y = false <-> x <> y.
Proof.
  unfold str_eqb. destruct (list_eq_dec Z.eq_dec x y); split; auto;
    [discriminate|congruence].
Qed.

Section Dict.

Context {V : Type}.
Variable add : V -> V -> V.
Variable zero : V.

Lemma dict_add_keys key v (d : list (pystr * V)) name :
  In name (map fst (dict_add add key v d)) <-> name = key \/ In name (map fst d).
Proof.
  induction d as [|[k0 v0] rest IH]; simpl.
  - split; intros [H|H]; auto.
  - destruct (str_eqb k0 key) eqn:E; simpl.
    + apply str_eqb_eq in E. subst. intuition (subst; auto).
    + rewrite IH. tauto.
Qed.

Lemma dict_add_nodup key v (d : list (pystr * V)) :
  NoDup (map fst d) -> NoDup (map fst (dict_add add key v d)).
Proof.
  induction d as [|[k0 v0] rest IH]; simpl; intros H.
  - constructor; [intros []|constructor].
  - inversion H as [|? ? Hn Hr]; subst.
    destruct (str_eqb k0 key) eqn:E; simpl; [constructor; assumption|].
    constructor; [|apply IH; assumption].
    rewrite dict_add_keys. intros [->|Hin]; [|contradiction].
    rewrite str_eqb_refl in E. discriminate.
Qed.

Lemma dict_get_in (d : list (pystr * V)) k v :
  NoDup (map fst d) -> In (k, v) d -> dict_get zero d k = v.
Proof.
  induction d as [|[k0 v0] rest IH]; simpl; intros Hn H; [contradiction|].
  destruct H as [H|H].
  - injection H as -> ->. rewrite str_eqb_refl. reflexivity.
  - inversion Hn as [|? ? Hx Hr]; subst.
    destruct (str_eqb k0 k) eqn:E; [|apply IH; assumption].
    apply str_eqb_eq in E. subst. exfalso. apply Hx.
    change k with (fst (k, v)). apply in_map. exact H.
Qed.

Lemma dict_get_absent (d : list (pystr * V)) k :
  ~ In k (map fst d) -> dict_get zero d k = zero.
Proof.
  induction d as [|[k0 v0] rest IH]; simpl; intros H; [reflexivity|].
  destruct (str_eqb k0 k) eqn:E.
  - apply str_eqb_eq in E. subst. exfalso. apply H. left. reflexivity.
  - apply IH. intros X. apply H. right. exact X.
Qed.

Lemma dict_add_get_other key v (d : list (pystr * V)) name :
  name <> key -> dict_get zero (dict_add add key v d) name = dict_get zero d name.
Proof.
  intros Hne. induction d as [|[k0 v0] rest IH]; simpl.
  - rewrite (proj2 (str_eqb_neq key name)) by congruence. reflexivity.
  - destruct (str_eqb k0 key) eqn:E; simpl.
    + apply str_eqb_eq in E. subst.
      rewrite (proj2 (str_eqb_neq key name)) by congruence. reflexivity.
    + destruct (str_eqb k0 name); [reflexivity|exact IH].
Qed.

Lemma dict_add_get_same key v (d : list (pystr * V)) :
  dict_get zero (dict_add add key v d) key
  = if existsb (fun kv => str_eqb (fst kv) key) d
    then add (dict_get zero d key) v else v.
Proof.
  induction d as [|[k0 v0] rest IH]; simpl.
  - rewrite str_eqb_refl. reflexivity.
  - destruct (str_eqb k0 key) eqn:E; simpl; rewrite E; [reflexivity|exact IH].
Qed.

(** The first maximal entry: [dict_argmax] returns a key of the dictionary
    whose value no value exceeds, for any comparison [gt] that is the strict
    part of a total preorder [le]. *)
Variable gt : V -> V -> bool.
Variable le : V -> V -> Prop.
Hypothesis le_refl : forall x, le x x.
Hypothesis le_trans : forall x y z, le x y -> le y z -> le x z.
Hypothesis gt_false : forall x y, gt x y = false -> le x y.
Hypothesis gt_true : forall x y, gt x y = true -> le y x.

Lemma dict_argmax_spec (d : list (pystr * V)) : forall best,
  exists v,
    In (dict_argmax gt best d, v) (best :: d) /\
    forall kv, In kv (best :: d) -> le (snd kv) v.
Proof.
  induction d as [|kv rest IH]; intros best; simpl.
  - exists (snd best). split; [left; destruct best; reflexivity|].
    intros kv [<-|[]]. apply le_refl.
  - destruct (gt (snd kv) (snd best)) eqn:E.
    + destruct (IH kv) as (v & Hin & Hle). exists v. split.
      * destruct Hin as [Hin|Hin]; [right; left; exact Hin|right; right; exact Hin].
      * intros kv' [<-|[<-|H]].
        -- eapply le_trans; [apply gt_true; exact E|]. apply Hle. left. reflexivity.
        -- apply Hle. left. reflexivity.
        -- apply Hle. right. exact H.
    + destruct (IH best) as (v & Hin & Hle). exists v. split.
      * destruct Hin as [Hin|Hin]; [left; exact Hin|right; right; exact Hin].
      * intros kv' [<-|[<-|H]].
        -- apply Hle. left. reflexivity.
        -- eapply le_trans; [apply gt_false; exact E|]. apply Hle. left. reflexivity.
        -- apply Hle. right. exact H.
Qed.

End Dict.

End DominantFacts.

Module OverlapFacts.
Import DominantFacts.

Lemma Qltb_lt (x y : Q) : Qltb x y = true <-> (x < y)%Q.
Proof.
  unfold Qltb. rewrite negb_true_iff. split.
  - intros H. apply Qnot_le_lt. intros L. apply Qle_bool_iff in L. congruence.
  - intros H. destruct (Qle_bool y x) eqn:E; [|reflexivity].
    apply Qle_bool_iff in E. exfalso. apply (Qlt_not_le _ _ H E).
Qed.

Lemma Qmax0_of_nonpos x : (x <= 0)%Q -> (Qmax0 x == 0)%Q.
Proof.
  intros H. unfold Qmax0. destruct (Qle_bool 0 x) eqn:E; [|reflexivity].
  apply Qle_bool_iff in E. apply Qle_antisym; assumption.
Qed.

Lemma dict_add_get_same_Q key v d :
  (dict_get 0%Q (dict_add Qplus key v d) key == dict_get 0%Q d key + v)%Q.
Proof.
  induction d as [|[k0 v0] rest IH]; simpl.
  - rewrite str_eqb_refl. ring.
  - destruct (str_eqb k0 key) eqn:E; simpl; rewrite E; [reflexivity|exact IH].
Qed.

Lemma dict_add_pos key v (d : list (pystr * Q)) :
  (0 < v)%Q -> nonempty key = true ->
  Forall (fun kv => (0 < snd kv)%Q /\ nonempty (fst kv) = true) d ->
  Forall (fun kv => (0 < snd kv)%Q /\ nonempty (fst kv) = true)
         (dict_add Qplus key v d).
Proof.
  intros Hv Hk H. induction H as [|[k0 v0] rest [Hx Hn] H IH]; simpl.
  - constructor; [split; assumption|constructor].
  - destruct (str_eqb k0 key); constructor; simpl in *; auto.
    split; [lra|assumption].
Qed.

Lemma nonempty_neq (n name : pystr) :
  nonempty n = false -> nonempty name = true -> str_eqb n name = false.
Proof.
  intros H1 H2. apply str_eqb_neq. intros ->. congruence.
Qed.

Lemma overlap_total_cons p rest st_s en_s name :
  overlap_total (p :: rest) st_s en_s name
  = ((if named (snd p) name then overlap_with (fst p) st_s en_s else 0)
     + overlap_total rest st_s en_s name)%Q.
Proof. reflexivity. Qed.

(** The dictionary built by the first loop of [_dominant_src]: distinct
    non-empty keys, positive values, and for every source its cumulative
    overlap. *)
Lemma overlap_loop_spec zipped st_s en_s : forall d,
  NoDup (map fst d) ->
  Forall (fun kv => (0 < snd kv)%Q /\ nonempty (fst kv) = true) d ->
  let d' := overlap_loop zipped st_s en_s d in
  NoDup (map fst d') /\
  Forall (fun kv => (0 < snd kv)%Q /\ nonempty (fst kv) = true) d' /\
  forall name, nonempty name = true ->
    (dict_get 0%Q d' name
     == dict_get 0%Q d name + overlap_total zipped st_s en_s name)%Q.
Proof.
  induction zipped as [|[w sname] rest IH]; intros d Hn Hp; cbn [overlap_loop].
  - split; [exact Hn|]. split; [exact Hp|]. intros name _.
    unfold overlap_total. simpl. ring.
  - assert (Hskip : forall name, nonempty name = true ->
              named sname name = false ->
              (overlap_total ((w, sname) :: rest) st_s en_s name
               == overlap_total rest st_s en_s name)%Q).
    { intros name _ E. rewrite overlap_total_cons. cbn [fst snd].
      rewrite E. ring. }
    assert (Hdefault :
      NoDup (map fst (overlap_loop rest st_s en_s d)) /\
      Forall (fun kv => (0 < snd kv)%Q /\ nonempty (fst kv) = true)
             (overlap_loop rest st_s en_s d) /\
      forall name, nonempty name = true ->
        (named sname name = false
         \/ (overlap_with w st_s en_s == 0)%Q) ->
        (dict_get 0%Q (overlap_loop rest st_s en_s d) name
         == dict_get 0%Q d name
            + overlap_total ((w, sname) :: rest) st_s en_s name)%Q).
    { destruct (IH d Hn Hp) as (A & B & C). split; [exact A|]. split; [exact B|].
      intros name Hne [E|E].
      - rewrite Hskip by assumption. apply C. exact Hne.
      - rewrite (C name Hne), overlap_total_cons. cbn [fst snd].
        destruct (named sname name); [rewrite E|]; ring. }
    destruct sname as [n|].
    2:{ destruct Hdefault as (A & B & C). split; [exact A|]. split; [exact B|].
        intros name Hne. apply C; [exact Hne|left; reflexivity]. }
    destruct (nonempty n) eqn:En.
    2:{ destruct Hdefault as (A & B & C). split; [exact A|]. split; [exact B|].
        intros name Hne. apply C; [exact Hne|left].
        simpl. apply nonempty_neq; assumption. }
    set (lo := Qmaxq (w_start w) st_s). set (hi := Qminq (w_end w) en_s).
    destruct (Qltb lo hi) eqn:El.
    2:{ destruct Hdefault as (A & B & C). split; [exact A|]. split; [exact B|].
        intros name Hne. apply C; [exact Hne|right].
        unfold overlap_with. fold lo hi. apply Qmax0_of_nonpos.
        assert (~ (lo < hi)%Q) by (rewrite <- Qltb_lt; congruence).
        apply Qnot_lt_le in H. lra. }
    apply Qltb_lt in El.
    destruct (IH (dict_add Qplus n (hi - lo)%Q d)) as (A & B & C).
    { apply dict_add_nodup. exact Hn. }
    { apply dict_add_pos; [lra|exact En|exact Hp]. }
    split; [exact A|]. split; [exact B|].
    intros name Hne. rewrite (C name Hne), overlap_total_cons.
    cbn [fst snd named].
    destruct (str_eqb n name) eqn:E.
    + apply str_eqb_eq in E. subst name.
      rewrite dict_add_get_same_Q. unfold overlap_with. fold lo hi.
      rewrite Qmax0_of_nonneg by lra. ring.
    + rewrite (dict_add_get_other Qplus 0%Q) by (apply str_eqb_neq in E; congruence).
      ring.
Qed.

End OverlapFacts.

Module FallbackFacts.
Import DominantFacts OverlapFacts.

Lemma word_count_cons src rest name :
  word_count (src :: rest) name
  = (if named src name then 1 else 0) + word_count rest name.
Proof. reflexivity. Qed.

Lemma dict_add_get_same_Z key v d :
  dict_get 0 (dict_add Z.add key v d) key = dict_get 0 d key + v.
Proof.
  induction d as [|[k0 v0] rest IH]; simpl.
  - rewrite str_eqb_refl. reflexivity.
  - destruct (str_eqb k0 key) eqn:E; simpl; rewrite E; [reflexivity|exact IH].
Qed.

Lemma dict_add_pos_Z key v (d : list (pystr * Z)) :
  0 < v -> nonempty key = true ->
  Forall (fun kv => 0 < snd kv /\ nonempty (fst kv) = true) d ->
  Forall (fun kv => 0 < snd kv /\ nonempty (fst kv) = true)
         (dict_add Z.add key v d).
Proof.
  intros Hv Hk H. induction H as [|[k0 v0] rest [Hx Hn] H IH]; simpl.
  - constructor; [split; assumption|constructor].
  - destruct (str_eqb k0 key); constructor; simpl in *; auto.
    split; [lia|assumption].
Qed.

(** The dictionary built by the third loop of [_dominant_src]. *)
Lemma freq_loop_spec srcs : forall d,
  NoDup (map fst d) ->
  Forall (fun kv => 0 < snd kv /\ nonempty (fst kv) = true) d ->
  let d' := freq_loop srcs d in
  NoDup (map fst d') /\
  Forall (fun kv => 0 < snd kv /\ nonempty (fst kv) = true) d' /\
  forall name, nonempty name = true ->
    dict_get 0 d' name = dict_get 0 d name + word_count srcs name.
Proof.
  induction srcs as [|[n|] rest IH]; intros d Hn Hp; cbn [freq_loop].
  - split; [exact Hn|]. split; [exact Hp|]. intros name _.
    unfold word_count. simpl. lia.
  - destruct (nonempty n) eqn:En.
    + destruct (IH (dict_add Z.add n 1 d)) as (A & B & C).
      { apply dict_add_nodup. exact Hn. }
      { apply dict_add_pos_Z; [lia|exact En|exact Hp]. }
      split; [exact A|]. split; [exact B|].
      intros name Hne. rewrite (C name Hne), word_count_cons. cbn [named].
      destruct (str_eqb n name) eqn:E.
      * apply str_eqb_eq in E. subst name. rewrite dict_add_get_same_Z. lia.
      * rewrite (dict_add_get_other Z.add 0) by (apply str_eqb_neq in E; congruence).
        lia.
    + destruct (IH d Hn Hp) as (A & B & C).
      split; [exact A|]. split; [exact B|].
      intros name Hne. rewrite (C name Hne), word_count_cons. cbn [named].
      rewrite (nonempty_neq n name) by assumption. lia.
  - destruct (IH d Hn Hp) as (A & B & C).
    split; [exact A|]. split; [exact B|].
    intros name Hne. rewrite (C name Hne), word_count_cons. cbn [named]. lia.
Qed.

Lemma Qle_bool_false (x y : Q) : Qle_bool x y = false -> (y < x)%Q.
Proof.
  intros H. apply Qnot_le_lt. intros L. apply Qle_bool_iff in L. congruence.
Qed.

(** The second loop returns the source of the first word that ends at or
    after the start of the interval. *)
Lemma crossing_src_first pre : forall w src post st_s,
  (st_s <= w_end w)%Q ->
  Forall (fun p : Word * option pystr => (w_end (fst p) < st_s)%Q) pre ->
  crossing_src (pre ++ (w, src) :: post) st_s = Some src.
Proof.
  induction pre as [|[w0 s0] pre IH]; intros w src post st_s Hw Hp; simpl.
  - apply Qle_bool_iff in Hw. rewrite Hw. reflexivity.
  - inversion Hp as [|? ? H0 Hr]; subst. simpl in H0.
    destruct (Qle_bool st_s (w_end w0)) eqn:E.
    + apply Qle_bool_iff in E. exfalso. apply (Qlt_not_le _ _ H0 E).
    + apply IH; assumption.
Qed.

Lemma crossing_src_none zipped st_s :
  Forall (fun p : Word * option pystr => (w_end (fst p) < st_s)%Q) zipped ->
  crossing_src zipped st_s = None.
Proof.
  induction 1 as [|[w0 s0] rest H0 H IH]; simpl; [reflexivity|].
  simpl in H0. destruct (Qle_bool st_s (w_end w0)) eqn:E; [|exact IH].
  apply Qle_bool_iff in E. exfalso. apply (Qlt_not_le _ _ H0 E).
Qed.

(** When no source overlaps the interval, the first loop leaves the
    dictionary empty. *)
Lemma overlap_loop_empty zipped st_s en_s :
  (forall name, nonempty name = true ->
     (overlap_total zipped st_s en_s name == 0)%Q) ->
  overlap_loop zipped st_s en_s [] = [].
Proof.
  intros H.
  destruct (overlap_loop_spec zipped st_s en_s []) as (_ & B & C);
    [constructor|constructor|].
  destruct (overlap_loop zipped st_s en_s []) as [|[k v] rest]; [reflexivity|].
  inversion B as [|? ? [Hv Hk] _]; subst. simpl in Hv, Hk.
  specialize (C k Hk). simpl in C. rewrite str_eqb_refl in C.
  rewrite (H k Hk) in C. lra.
Qed.

End FallbackFacts.

(** ** Claim C3 *)

Module SourceAttribution.
Import DominantFacts OverlapFacts FallbackFacts CommitFacts RecoveryFacts Examples.

Lemma in_keys_value {V} (d : list (pystr * V)) name :
  In name (map fst d) -> exists v, In (name, v) d.
Proof.
  intros H. apply in_map_iff in H. destruct H as ([k v] & <- & H).
  exists v. exact H.
Qed.

(** The overlap winner of [_dominant_src]. *)
Lemma dominant_src_overlap a i j st_ms en_ms :
  let st_s := (inject_Z st_ms / 1000)%Q in
  let en_s := (inject_Z en_ms / 1000)%Q in
  let zipped := combine (slice i j (words a)) (slice i j (word_srcs a)) in
  (exists name, nonempty name = true
                /\ (0 < overlap_total zipped st_s en_s name)%Q) ->
  exists best,
    _dominant_src a i j (Some st_ms) (Some en_ms) = Some best /\
    nonempty best = true /\
    (0 < overlap_total zipped st_s en_s best)%Q /\
    forall name, nonempty name = true ->
      (overlap_total zipped st_s en_s name
       <= overlap_total zipped st_s en_s best)%Q.
Proof.
  intros st_s en_s zipped (name0 & Hn0 & Hpos).
  unfold _dominant_src. fold st_s en_s zipped.
  destruct (overlap_loop_spec zipped st_s en_s []) as (A & B & C);
    [constructor|constructor|].
  destruct (overlap_loop zipped st_s en_s []) as [|kv rest] eqn:Ed.
  { specialize (C name0 Hn0). simpl in C. lra. }
  destruct (dict_argmax_spec (fun x y => Qltb y x) Qle Qle_refl Qle_trans) with
    (d := rest) (best := kv) as (v & Hin & Hmax).
  { intros x y H. apply Qnot_lt_le. rewrite <- Qltb_lt. congruence. }
  { intros x y H. apply Qltb_lt in H. apply Qlt_le_weak. exact H. }
  set (best := dict_argmax (fun x y => Qltb y x) kv rest) in *.
  assert (Hbest : (0 < v)%Q /\ nonempty best = true).
  { rewrite Forall_forall in B. apply (B (best, v)). exact Hin. }
  assert (Hget : dict_get 0%Q (kv :: rest) best = v)
    by (apply dict_get_in; assumption).
  assert (Htot : (overlap_total zipped st_s en_s best == v)%Q).
  { pose proof (C best (proj2 Hbest)) as X. rewrite Hget in X. simpl in X.
    rewrite X. ring. }
  exists best. split; [reflexivity|]. split; [apply Hbest|].
  split; [rewrite Htot; apply Hbest|].
  intros name Hne. rewrite Htot.
  pose proof (C name Hne) as X. simpl (dict_get 0%Q [] name) in X.
  assert (Y : (overlap_total zipped st_s en_s name
               == dict_get 0%Q (kv :: rest) name)%Q) by (rewrite X; ring).
  rewrite Y.
  destruct (in_dec (list_eq_dec Z.eq_dec) name (map fst (kv :: rest))) as [Hk|Hk].
  - destruct (in_keys_value _ _ Hk) as (v' & Hv').
    rewrite (dict_get_in 0%Q (kv :: rest) name v' A Hv').
    apply (Hmax (name, v')). exact Hv'.
  - rewrite dict_get_absent by assumption. apply Qlt_le_weak, Hbest.
Qed.

(** The word-count majority of [_dominant_src], reached when no source
    overlaps the interval and no word ends at or after its start. *)
Lemma dominant_src_majority a i j st_ms en_ms :
  let st_s := (inject_Z st_ms / 1000)%Q in
  let en_s := (inject_Z en_ms / 1000)%Q in
  let srcs := slice i j (word_srcs a) in
  let zipped := combine (slice i j (words a)) srcs in
  (forall name, nonempty name = true ->
     (overlap_total zipped st_s en_s name == 0)%Q) ->
  Forall (fun p : Word * option pystr => (w_end (fst p) < st_s)%Q) zipped ->
  match _dominant_src a i j (Some st_ms) (Some en_ms) with
  | Some best =>
      nonempty best = true /\ 0 < word_count srcs best /\
      forall name, nonempty name = true ->
        word_count srcs name <= word_count srcs best
  | None => forall name, nonempty name = true -> word_count srcs name = 0
  end.
Proof.
  intros st_s en_s srcs zipped Hz Hc.
  unfold _dominant_src. fold st_s en_s srcs zipped.
  rewrite overlap_loop_empty by exact Hz.
  rewrite crossing_src_none by exact Hc.
  destruct (freq_loop_spec srcs []) as (A & B & C); [constructor|constructor|].
  destruct (freq_loop srcs []) as [|kv rest] eqn:Ed.
  { intros name Hne. specialize (C name Hne). simpl in C. lia. }
  destruct (dict_argmax_spec (fun x y => y <? x) Z.le Z.le_refl Z.le_trans) with
    (d := rest) (best := kv) as (v & Hin & Hmax).
  { intros x y H. apply Z.ltb_ge in H. exact H. }
  { intros x y H. apply Z.ltb_lt in H. lia. }
  set (best := dict_argmax (fun x y => y <? x) kv rest) in *.
  assert (Hbest : 0 < v /\ nonempty best = true).
  { rewrite Forall_forall in B. apply (B (best, v)). exact Hin. }
  assert (Hget : dict_get 0 (kv :: rest) best = v)
    by (apply dict_get_in; assumption).
  assert (Htot : word_count srcs best = v).
  { pose proof (C best (proj2 Hbest)) as X. rewrite Hget in X. simpl in X. lia. }
  split; [apply Hbest|]. split; [lia|].
  intros name Hne. rewrite Htot.
  pose proof (C name Hne) as X. simpl (dict_get 0 [] name) in X.
  replace (word_count srcs name) with (dict_get 0 (kv :: rest) name) by lia.
  destruct (in_dec (list_eq_dec Z.eq_dec) name (map fst (kv :: rest))) as [Hk|Hk].
  - destruct (in_keys_value _ _ Hk) as (v' & Hv').
    rewrite (dict_get_in 0 (kv :: rest) name v' A Hv').
    apply (Hmax (name, v')). exact Hv'.
  - rewrite dict_get_absent by assumption. lia.
Qed.

(** C3, counterexample: scenario S1 on an aligner whose [forced_src] is not
    set.  "Hello world." is matched on the words 0 and 1 of [a.wav] and
    committed as (0, 1000); the recorded audio file is null although
    [a.wav] overlaps the whole interval. *)
Lemma recorded_source_not_dominant :
  forced_src a_s1_unforced = None /\
  (exists a',
     _try_match_sentence exact_score a_s1_unforced s_hello false = Some a' /\
     results a' = [(s_hello, Some 0, Some 1000, None)]) /\
  _dominant_src a_s1_unforced 0 2 (Some 0) (Some 1000) = Some a_wav.
Proof.
  split; [reflexivity|]. split; [|vm_compute; reflexivity].
  eexists. split; vm_compute; reflexivity.
Qed.

(** C3 (amended): for every sentence matched by the aligner, the audio file
    recorded in its result entry is [forced_src] when that is set and null
    otherwise; [_dominant_src] is not consulted.  [_dominant_src] itself
    returns, for an interval and a word range: a source of greatest
    cumulative overlap with the interval when some source overlaps it; else
    the source of the first word of the range that ends at or after the
    start of the interval; else a source of greatest word count in the range,
    or null when the range has no named word. *)
Theorem source_attribution :
  (forall bs a s aggressive a',
     _try_match_sentence bs a s aggressive = Some a' ->
     src_of (last (results a') no_result)
     = if truthy (forced_src a) then forced_src a else None) /\
  (forall a i j st_ms en_ms,
     let st_s := (inject_Z st_ms / 1000)%Q in
     let en_s := (inject_Z en_ms / 1000)%Q in
     let srcs := slice i j (word_srcs a) in
     let zipped := combine (slice i j (words a)) srcs in
     let r := _dominant_src a i j (Some st_ms) (Some en_ms) in
     ((exists name, nonempty name = true
                    /\ (0 < overlap_total zipped st_s en_s name)%Q) ->
      exists best,
        r = Some best /\ nonempty best = true /\
        (0 < overlap_total zipped st_s en_s best)%Q /\
        forall name, nonempty name = true ->
          (overlap_total zipped st_s en_s name
           <= overlap_total zipped st_s en_s best)%Q) /\
     ((forall name, nonempty name = true ->
         (overlap_total zipped st_s en_s name == 0)%Q) ->
      (forall pre w src post,
         zipped = pre ++ (w, src) :: post ->
         (st_s <= w_end w)%Q ->
         Forall (fun p : Word * option pystr => (w_end (fst p) < st_s)%Q) pre ->
         r = src) /\
      (Forall (fun p : Word * option pystr => (w_end (fst p) < st_s)%Q) zipped ->
       match r with
       | Some best =>
           nonempty best = true /\ 0 < word_count srcs best /\
           forall name, nonempty name = true ->
             word_count srcs name <= word_count srcs best
       | None => forall name, nonempty name = true -> word_count srcs name = 0
       end))).
Proof.
  split.
  - intros bs a s aggressive a' E. apply try_match_inv in E.
    destruct E as (st & en & Hr & _). rewrite Hr.
    rewrite last_app_nonempty by discriminate. reflexivity.
  - intros a i j st_ms en_ms st_s en_s srcs zipped r. split.
    + apply dominant_src_overlap.
    + intros Hz. split.
      * intros pre w src post Ez Hw Hp. subst r. unfold _dominant_src.
        fold st_s en_s srcs zipped.
        rewrite overlap_loop_empty by exact Hz.
        rewrite Ez, crossing_src_first by assumption. reflexivity.
      * apply dominant_src_majority. exact Hz.
Qed.

Lemma source_attribution_witness :
  (exists a',
     _try_match_sentence exact_score a_s1 s_hello false = Some a' /\
     src_of (last (results a') no_result) = Some a_wav) /\
  (exists best,
     _dominant_src a_s1 0 2 (Some 0) (Some 1000) = Some best /\ best = a_wav).
Proof.
  destruct source_attribution as (F & D).
  split.
  - destruct (_try_match_sentence exact_score a_s1 s_hello false) as [a'|] eqn:E;
      [|vm_compute in E; discriminate].
    exists a'. split; [reflexivity|].
    rewrite (F exact_score a_s1 s_hello false a' E). reflexivity.
  - destruct (D a_s1 0 2 0 1000) as [Ho _].
    destruct Ho as (best & Hb & _).
    + exists a_wav. split; [reflexivity|]. vm_compute. reflexivity.
    + exists best. split; [exact Hb|].
      vm_compute in Hb. injection Hb as <-. reflexivity.
Defined.

End SourceAttribution.

(** ** Claim C7: placeholder items of the progress file *)

Module PlaceholderItems.
Import Examples.

(** The running variables of the loop are the previous committed end and
    the inherited audio file of the specification. *)
Lemma carry_spec (items : list OutItem) :
  fold_left carry_after items (None, None) = (prev_end items, prev_audio items).
Proof.
  induction items as [|x items IH] using rev_ind; [reflexivity|].
  rewrite fold_left_app, IH. cbn [fold_left].
  unfold carry_after, prev_end, prev_audio, prev_committed.
  rewrite rev_app_distr. cbn [rev app find].
  assert (Hx : has_end x = match o_end_ms x with Some _ => true | None => false end)
    by reflexivity.
  rewrite Hx. destruct (o_end_ms x) as [e|] eqn:E; cbn [snd andb].
  - rewrite E. destruct (truthy (o_audio_file x)); reflexivity.
  - reflexivity.
Qed.

Lemma items_loop_nth results existing sents : forall i c k sent,
  nth_error sents k = Some sent ->
  nth_error (items_loop results existing i sents c) k
  = Some (emit results existing (i + k) sent
            (fold_left carry_after
               (firstn k (items_loop results existing i sents c)) c)).
Proof.
  induction sents as [|s0 rest IH]; intros i c k sent H.
  - destruct k; discriminate.
  - destruct k as [|k]; cbn [items_loop].
    + injection H as <-. rewrite Nat.add_0_r. reflexivity.
    + cbn [nth_error firstn fold_left]. simpl in H.
      rewrite (IH (S i) _ k sent H). do 2 f_equal. lia.
Qed.

Lemma save_items_nth results existing sentences_all i sent :
  nth_error sentences_all i = Some sent ->
  let items := save_items results existing sentences_all in
  nth_error items i
  = Some (emit results existing i sent
            (prev_end (firstn i items), prev_audio (firstn i items))).
Proof.
  intros H items. subst items. unfold save_items.
  rewrite (items_loop_nth results existing sentences_all 0 (None, None) i sent H).
  rewrite carry_spec. reflexivity.
Qed.

Lemma prev_audio_of_committed earlier p :
  prev_committed earlier = Some p -> truthy (o_audio_file p) = true ->
  prev_audio earlier = o_audio_file p.
Proof.
  unfold prev_committed, prev_audio.
  induction (rev earlier) as [|x t IH]; cbn [find]; [discriminate|].
  destruct (has_end x) eqn:E; cbn [andb].
  - intros X. injection X as ->. intros ->. reflexivity.
  - exact IH.
Qed.

(** C7, counterexample: [a.wav] gave the first sentence, the second
    sentence is committed with times but without an audio file, and the
    third is a placeholder.  The placeholder is written with the end of
    the second item, its previous committed item, but with the audio file
    of the first: the previous committed item names none. *)
Lemma placeholder_audio_not_of_previous_item :
  let items := save_items results_ph_unnamed [] ss_ph_unnamed in
  exists it p,
    nth_error items 2 = Some it /\
    prev_committed (firstn 2 items) = Some p /\
    o_idx p = 1 /\ o_end_ms p = Some 2100 /\ o_audio_file p = None /\
    o_start_ms it = Some 2100 /\ o_end_ms it = Some 2100 /\
    o_audio_file it = Some a_wav /\
    o_audio_file it <> o_audio_file p.
Proof.
  cbv zeta. eexists. eexists.
  split; [vm_compute; reflexivity|].
  split; [vm_compute; reflexivity|].
  repeat (split; [reflexivity|]). discriminate.
Qed.

(** C7 (amended): in the items written by [save_progress_json], a sentence marked
    [placeholder] that has no time of its own (none in [results], none
    taken over from the stored item of the same text) is emitted with
    [start_ms = end_ms =] the [end_ms] of the latest earlier item whose
    [end_ms] is not null, and with the audio file inherited from the
    previous committed items, unless it has a source of its own; if no
    earlier item has a non-null [end_ms], its [start_ms] and [end_ms] stay
    null.  The inherited audio file is that of the latest earlier item with
    a non-null [end_ms] that names one; this is the previous committed item
    itself whenever that item names an audio file. *)
Theorem placeholder_item_inherits (results : list Result)
  (existing_items : list (option Item)) (sentences_all : list Sentence)
  (i : nat) (sent : Sentence) (own_src : option pystr) :
  nth_error sentences_all i = Some sent ->
  s_placeholder sent = true ->
  own_times results existing_items i sent = (None, None, own_src) ->
  let items := save_items results existing_items sentences_all in
  let earlier := firstn i items in
  exists it,
    nth_error items i = Some it /\
    match prev_end earlier with
    | Some e =>
        o_start_ms it = Some e /\ o_end_ms it = Some e /\
        o_audio_file it
        = match own_src with None => prev_audio earlier | Some _ => own_src end /\
        (forall p, prev_committed earlier = Some p ->
                   o_end_ms p = Some e /\
                   (truthy (o_audio_file p) = true ->
                    prev_audio earlier = o_audio_file p))
    | None => o_start_ms it = None /\ o_end_ms it = None
    end.
Proof.
  intros Hs Hp Ho items earlier.
  eexists. split; [apply save_items_nth; exact Hs|].
  fold items earlier. unfold emit, patch_placeholder. rewrite Ho. cbn [fst snd].
  destruct (prev_end earlier) as [e|] eqn:Ee.
  - rewrite Hp. cbn. do 3 (split; [reflexivity|]).
    intros p Hpc. split.
    + unfold prev_end in Ee. rewrite Hpc in Ee. exact Ee.
    + apply prev_audio_of_committed. exact Hpc.
  - cbn. split; reflexivity.
Qed.

Lemma placeholder_item_inherits_witness :
  let items := save_items results_ph [] ss_ph in
  exists it,
    nth_error items 1 = Some it /\
    o_start_ms it = Some 1000 /\ o_end_ms it = Some 1000 /\
    o_audio_file it = Some a_wav.
Proof.
  destruct (placeholder_item_inherits results_ph [] ss_ph 1 s_merged_part None)
    as (it & Hn & H); [reflexivity|reflexivity|reflexivity|].
  exists it. split; [exact Hn|].
  change (prev_end (firstn 1 (save_items results_ph [] ss_ph))) with (Some 1000) in H.
  destruct H as (A & B & C & _). repeat split; assumption.
Defined.

End PlaceholderItems.

(** ** Claim C8: the atomic replace with retry *)

Module AtomicReplace.

Lemma sleep_for_bounds (i : nat) :
  (5 # 100 <= sleep_for default_base_sleep i)%Q /\
  (sleep_for default_base_sleep i <= 25 # 100)%Q.
Proof.
  unfold sleep_for, default_base_sleep, Qminq.
  assert (H : (0 <= inject_Z (Z.of_nat i))%Q).
  { change 0%Q with (inject_Z 0). rewrite <- Zle_Qle. lia. }
  destruct (Qle_bool (1 # 4) _) eqn:E.
  - split; unfold Qle; simpl; lia.
  - apply FallbackFacts.Qle_bool_false in E. split; lra.
Qed.

Section Loop.

Variable os_replace : nat -> Outcome.
Variable base_sleep : Q.

Local Abbreviation all_retried := (Progress.all_retried os_replace).

Lemma all_retried_step i k :
  all_retried i (S k) ->
  (exists e, os_replace i = Raises e /\ retried e = true) /\ all_retried (S i) k.
Proof.
  intros H. split.
  - destruct (H 0%nat) as (e & He); [lia|]. rewrite Nat.add_0_r in He. eauto.
  - intros j Hj. destruct (H (S j)) as (e & He); [lia|].
    replace (S i + j)%nat with (i + S j)%nat by lia. eauto.
Qed.

(** After [k] retried failures the loop is at call [i + k], has slept [k]
    times and remembers the last error. *)
Lemma retry_loop_skip k : forall todo i last_exc slept,
  all_retried i k ->
  exists last_exc',
    retry_loop os_replace base_sleep (k + todo) i last_exc slept
    = retry_loop os_replace base_sleep todo (i + k) last_exc'
        (slept ++ map (sleep_for base_sleep) (seq i k)) /\
    (k = 0%nat -> last_exc' = last_exc) /\
    (forall k', k = S k' -> os_replace (i + k') = Raises
                  match last_exc' with Some e => e | None => PermissionError None end
                /\ last_exc' <> None).
Proof.
  induction k as [|k IH]; intros todo i last_exc slept H.
  - exists last_exc. simpl. rewrite Nat.add_0_r, app_nil_r.
    split; [reflexivity|]. split; [reflexivity|]. intros k' X. discriminate.
  - apply all_retried_step in H. destruct H as ((e & He & Hr) & H).
    cbn [Nat.add retry_loop]. rewrite He, Hr.
    destruct (IH todo (S i) (Some e) (slept ++ [sleep_for base_sleep i]) H)
      as (l' & E & H0 & HS).
    exists l'. split.
    + rewrite E. cbn [seq map]. rewrite <- app_assoc.
      replace (S i + k)%nat with (i + S k)%nat by lia. reflexivity.
    + split; [discriminate|]. intros k' X. injection X as <-.
      destruct k as [|k2].
      * rewrite (H0 eq_refl), Nat.add_0_r. split; [exact He|discriminate].
      * destruct (HS k2 eq_refl) as [A B].
        replace (i + S k2)%nat with (S i + k2)%nat by lia. split; assumption.
Qed.

End Loop.

Lemma retried_iff (e : OsError) : retried e = true <-> permission_or_sharing e.
Proof.
  unfold permission_or_sharing. destruct e as [w|[w|]]; simpl.
  - split; [intros _; left; eexists; reflexivity|reflexivity].
  - rewrite orb_true_iff, !Z.eqb_eq. split.
    + intros [-> | ->]; [right; left|right; right]; reflexivity.
    + intros [[w' H]|[H|H]]; [discriminate|injection H as ->|injection H as ->];
        [left|right]; reflexivity.
  - split; [discriminate|].
    intros [[w' H]|[H|H]]; discriminate.
Qed.

Lemma fails_sharing_retried (os_replace : nat -> Outcome) (k : nat) :
  fails_sharing os_replace k <-> all_retried os_replace 0 k.
Proof.
  unfold fails_sharing, all_retried. split; intros H j Hj;
    destruct (H j Hj) as (e & He & Hr); exists e; simpl in *;
    (split; [exact He|apply retried_iff; exact Hr]).
Qed.

(** C8: with the defaults (40 retries, base sleep 0.05 s), the atomic
    replace calls [os.replace] at most 40 times.  The errors after which it
    goes on are exactly the permission and sharing errors: a
    [PermissionError], or an [OSError] whose [winerror] is 5 or 32.  After
    every call that fails with one of them it sleeps
    [min(0.25, 0.05 * (1 + 0.15 * i))] seconds, which lies between 50 ms
    and 250 ms; it returns as soon as a call succeeds; an [OSError] of any
    other kind is raised at once, with no sleep and no further call; and
    when all 40 calls fail with permission or sharing errors, the error of
    the last call is raised. *)
Theorem atomic_replace_retry (os_replace : nat -> Outcome) :
  let run := _atomic_replace_with_retry os_replace default_retries
               default_base_sleep in
  (forall e, retried e = true <-> permission_or_sharing e) /\
  (forall k, (k < 40)%nat -> fails_sharing os_replace k ->
     match os_replace k with
     | Replaced =>
         run = mkRun None (S k) (map (sleep_for default_base_sleep) (seq 0 k))
     | Raises e =>
         ~ permission_or_sharing e ->
         run = mkRun (Some e) (S k) (map (sleep_for default_base_sleep) (seq 0 k))
     end) /\
  (fails_sharing os_replace 40 ->
   exists e,
     os_replace 39%nat = Raises e /\
     run = mkRun (Some e) 40 (map (sleep_for default_base_sleep) (seq 0 40))) /\
  (calls run <= 40)%nat /\
  Forall (fun s => (5 # 100 <= s)%Q /\ (s <= 25 # 100)%Q) (sleeps run).
Proof.
  intros run.
  assert (Hk : forall k, (k < 40)%nat -> all_retried os_replace 0 k ->
     match os_replace k with
     | Replaced =>
         run = mkRun None (S k) (map (sleep_for default_base_sleep) (seq 0 k))
     | Raises e =>
         retried e = false ->
         run = mkRun (Some e) (S k) (map (sleep_for default_base_sleep) (seq 0 k))
     end).
  { intros k Hlt H. subst run. unfold _atomic_replace_with_retry, default_retries.
    change (Z.to_nat (Z.max 1 40)) with 40%nat.
    destruct (retry_loop_skip os_replace default_base_sleep k (S (39 - k)) 0 None [] H)
      as (l' & E & _).
    replace (k + S (39 - k))%nat with 40%nat in E by lia.
    rewrite E. cbn [retry_loop Nat.add app].
    destruct (os_replace k) as [|e]; [reflexivity|].
    intros Hr. rewrite Hr. reflexivity. }
  assert (Hall : all_retried os_replace 0 40 ->
     exists e,
       os_replace 39%nat = Raises e /\
       run = mkRun (Some e) 40 (map (sleep_for default_base_sleep) (seq 0 40))).
  { intros H. subst run. unfold _atomic_replace_with_retry, default_retries.
    change (Z.to_nat (Z.max 1 40)) with (40 + 0)%nat.
    destruct (retry_loop_skip os_replace default_base_sleep 40 0 0 None [] H)
      as (l' & E & _ & HS). rewrite E.
    destruct (HS 39%nat eq_refl) as [A B].
    destruct l' as [e|]; [|congruence].
    exists e. split; [exact A|]. reflexivity. }
  split; [exact retried_iff|].
  split.
  { intros k Hlt H. apply fails_sharing_retried in H.
    specialize (Hk k Hlt H). destruct (os_replace k) as [|e]; [exact Hk|].
    intros Hn. apply Hk. destruct (retried e) eqn:Er; [|reflexivity].
    exfalso. apply Hn, retried_iff, Er. }
  split; [intros H; apply Hall, fails_sharing_retried, H|].
  (* either some call within the first 40 is not a retried failure, or
     all are *)
  assert (Hcases : (exists k, (k < 40)%nat /\ all_retried os_replace 0 k /\
                      match os_replace k with
                      | Replaced => True
                      | Raises e => retried e = false
                      end)
                   \/ all_retried os_replace 0 40).
  { assert (G : forall n,
              (exists k, (k < n)%nat /\ all_retried os_replace 0 k /\
                 match os_replace k with
                 | Replaced => True
                 | Raises e => retried e = false
                 end)
              \/ all_retried os_replace 0 n).
    { induction n as [|n IH].
      - right. intros j Hj. lia.
      - destruct IH as [(k & Hlt & Ha & Hm)|Ha].
        + left. exists k. split; [lia|]. split; assumption.
        + destruct (os_replace n) as [|e] eqn:En.
          * left. exists n. rewrite En. split; [lia|]. split; [exact Ha|exact I].
          * destruct (retried e) eqn:Er.
            -- right. intros j Hj. destruct (Nat.eq_dec j n) as [->|Hne].
               ++ exists e. split; assumption.
               ++ apply Ha. lia.
            -- left. exists n. rewrite En. split; [lia|]. split; assumption. }
    apply G. }
  assert (Hsl : forall k, Forall (fun s => (5 # 100 <= s)%Q /\ (s <= 25 # 100)%Q)
                            (map (sleep_for default_base_sleep) (seq 0 k))).
  { intros k. apply Forall_map, Forall_forall. intros i _. apply sleep_for_bounds. }
  destruct Hcases as [(k & Hlt & Ha & Hm)|Ha].
  - specialize (Hk k Hlt Ha). destruct (os_replace k) as [|e].
    + rewrite Hk. cbn [calls sleeps]. split; [lia|apply Hsl].
    + rewrite (Hk Hm). cbn [calls sleeps]. split; [lia|apply Hsl].
  - destruct (Hall Ha) as (e & _ & E). rewrite E. cbn [calls sleeps].
    split; [lia|apply Hsl].
Qed.

Lemma atomic_replace_retry_witness :
  (let run := _atomic_replace_with_retry Examples.sharing_violation_twice
                default_retries default_base_sleep in
   raised run = None /\ calls run = 3%nat /\
   Forall2 Qeq (sleeps run) [5 # 100; 575 # 10000]%Q) /\
  (let run := _atomic_replace_with_retry Examples.sharing_then_disk_full
                default_retries default_base_sleep in
   raised run = Some (OtherOSError (Some 112)) /\ calls run = 2%nat /\
   Forall2 Qeq (sleeps run) [5 # 100]%Q).
Proof.
  split.
  - destruct (atomic_replace_retry Examples.sharing_violation_twice) as (_ & H & _).
    specialize (H 2%nat).
    change (Examples.sharing_violation_twice 2) with Replaced in H.
    cbv zeta. rewrite H.
    + split; [reflexivity|]. split; [reflexivity|].
      repeat constructor; reflexivity.
    + lia.
    + intros j Hj. exists (OtherOSError (Some 32)).
      destruct j as [|[|j]];
        [split; [reflexivity|right; right; reflexivity]
        |split; [reflexivity|right; right; reflexivity]|lia].
  - destruct (atomic_replace_retry Examples.sharing_then_disk_full) as (_ & H & _).
    specialize (H 1%nat).
    change (Examples.sharing_then_disk_full 1)
      with (Raises (OtherOSError (Some 112))) in H.
    cbv zeta. rewrite H.
    + split; [reflexivity|]. split; [reflexivity|].
      repeat constructor; reflexivity.
    + lia.
    + intros j Hj. exists (OtherOSError (Some 32)).
      destruct j as [|j]; [split; [reflexivity|right; right; reflexivity]|lia].
    + intros [[w X]|[X|X]]; discriminate.
Defined.

End AtomicReplace.

(** ** Facts on strings *)

Module StrFacts.

Lemma squash_app (x y : pystr) : squash (x ++ y) = squash x ++ squash y.
Proof. apply filter_app. Qed.

Lemma squash_rev (s : pystr) : squash (rev s) = rev (squash s).
Proof. apply filter_rev. Qed.

Lemma squash_lstrip (s : pystr) : squash (lstrip s) = squash s.
Proof.
  induction s as [|c t IH]; [reflexivity|].
  simpl. destruct (isspace c) eqn:E; simpl; [exact IH|rewrite E; reflexivity].
Qed.

Lemma squash_rstrip (s : pystr) : squash (rstrip s) = squash s.
Proof.
  unfold rstrip. rewrite squash_rev, squash_lstrip, squash_rev. apply rev_involutive.
Qed.

Lemma squash_strip (s : pystr) : squash (strip s) = squash s.
Proof. unfold strip. rewrite squash_rstrip. apply squash_lstrip. Qed.

Lemma lstrip_length (s : pystr) : (length (lstrip s) <= length s)%nat.
Proof.
  induction s as [|c t IH]; [simpl; lia|].
  simpl. destruct (isspace c); simpl; lia.
Qed.

Lemma rstrip_length (s : pystr) : (length (rstrip s) <= length s)%nat.
Proof.
  unfold rstrip. rewrite length_rev.
  pose proof (lstrip_length (rev s)) as H. rewrite length_rev in H. exact H.
Qed.

Lemma strip_length (s : pystr) : (length (strip s) <= length s)%nat.
Proof.
  unfold strip. pose proof (rstrip_length (lstrip s)). pose proof (lstrip_length s).
  lia.
Qed.

Lemma lstrip_Forall (P : Z -> Prop) (s : pystr) : Forall P s -> Forall P (lstrip s).
Proof.
  induction 1 as [|c t Hc H IH]; [constructor|].
  simpl. destruct (isspace c); [exact IH|constructor; assumption].
Qed.

Lemma strip_Forall (P : Z -> Prop) (s : pystr) : Forall P s -> Forall P (strip s).
Proof.
  intros H. unfold strip, rstrip.
  apply Forall_rev, lstrip_Forall, Forall_rev, lstrip_Forall, H.
Qed.

Lemma lstrip_app_one (x : pystr) (c : Z) :
  lstrip (x ++ [c])
  = match lstrip x with
    | [] => if isspace c then [] else [c]
    | _ => lstrip x ++ [c]
    end.
Proof.
  induction x as [|d t IH]; [reflexivity|].
  simpl. destruct (isspace d); [exact IH|reflexivity].
Qed.

(** [rstrip] read from the left. *)
Lemma rstrip_cons (c : Z) (t : pystr) :
  rstrip (c :: t)
  = match rstrip t with
    | [] => if isspace c then [] else [c]
    | _ => c :: rstrip t
    end.
Proof.
  unfold rstrip. simpl rev. rewrite lstrip_app_one.
  destruct (lstrip (rev t)) as [|d u] eqn:E; [destruct (isspace c); reflexivity|].
  rewrite rev_app_distr. simpl.
  destruct (rev u ++ [d]) eqn:E2; [|reflexivity].
  apply app_eq_nil in E2. destruct E2. discriminate.
Qed.

Lemma rstrip_idem (s : pystr) : rstrip (rstrip s) = rstrip s.
Proof.
  induction s as [|c t IH]; [reflexivity|].
  rewrite rstrip_cons. destruct (rstrip t) as [|d u] eqn:E.
  - destruct (isspace c) eqn:Ec; [reflexivity|].
    rewrite rstrip_cons. change (rstrip []) with (@nil Z). rewrite Ec. reflexivity.
  - rewrite rstrip_cons, IH. reflexivity.
Qed.

Lemma lstrip_idem (s : pystr) : lstrip (lstrip s) = lstrip s.
Proof.
  induction s as [|c t IH]; [reflexivity|].
  simpl. destruct (isspace c) eqn:E; [exact IH|]. simpl. rewrite E. reflexivity.
Qed.

Lemma lstrip_fixed_head (c : Z) (t : pystr) :
  lstrip (c :: t) = c :: t -> isspace c = false.
Proof.
  simpl. destruct (isspace c); [|reflexivity].
  intros H. pose proof (lstrip_length t) as L. rewrite H in L. simpl in L. lia.
Qed.

Lemma lstrip_rstrip_fixed (t : pystr) : lstrip t = t -> lstrip (rstrip t) = rstrip t.
Proof.
  destruct t as [|c t']; [reflexivity|].
  intros H. apply lstrip_fixed_head in H.
  rewrite rstrip_cons. destruct (rstrip t'); rewrite ?H; simpl; rewrite H; reflexivity.
Qed.

Lemma strip_idem (s : pystr) : strip (strip s) = strip s.
Proof.
  unfold strip. rewrite (lstrip_rstrip_fixed (lstrip s)) by apply lstrip_idem.
  apply rstrip_idem.
Qed.

Lemma squash_nil_of_strip (s : pystr) : nonempty (strip s) = false -> squash s = [].
Proof.
  intros H. rewrite <- squash_strip. destruct (strip s); [reflexivity|discriminate].
Qed.

Lemma squash_marker : squash marker = [].
Proof. reflexivity. Qed.

Lemma strip_marker : strip marker = [].
Proof. reflexivity. Qed.

Lemma is_marker_eq (s : pystr) : is_marker s = true -> s = marker.
Proof. apply DominantFacts.str_eqb_eq. Qed.

Lemma len_nonneg {A} (xs : list A) : 0 <= len xs.
Proof. unfold len. lia. Qed.

End StrFacts.

(** ** The two balanced splits compared *)

Module SplitFacts.
Import StrFacts.

Lemma break_loop_eq (fuel : nat) (limit : Z) (rest : pystr) (pieces : list pystr) :
  break_loop fuel limit rest pieces
  = if len rest <=? limit then Some (pieces, rest)
    else
      match fuel with
      | O => None
      | S fuel' =>
          let bp := Z.to_nat (_find_break rest limit) in
          let chunk := strip (firstn bp rest) in
          let pieces := if nonempty chunk then pieces ++ [chunk] else pieces in
          break_loop fuel' limit (strip (skipn bp rest)) pieces
      end.
Proof. destruct fuel; reflexivity. Qed.

(** The remainder that the break loop leaves is stripped if the string it
    starts from is. *)
Lemma break_loop_rest_stripped (limit : Z) (fuel : nat) :
  forall rest pieces out r,
    strip rest = rest ->
    break_loop fuel limit rest pieces = Some (out, r) ->
    strip r = r.
Proof.
  induction fuel as [|fuel IH]; intros rest pieces out r Hs H;
    rewrite break_loop_eq in H; destruct (len rest <=? limit).
  - injection H as _ <-. exact Hs.
  - discriminate.
  - injection H as _ <-. exact Hs.
  - cbv zeta in H. eapply IH; [|exact H]. apply strip_idem.
Qed.

(** On a sentence that is short enough, or has no whitespace around it,
    the two normalizations agree. *)
Lemma normalize_one_agree (limit : Z) (s : pystr) :
  len s <= limit \/ strip s = s ->
  normalize_one limit s = normalize_one_tts limit s.
Proof.
  intros H. unfold normalize_one, normalize_one_tts.
  destruct (is_marker s); [reflexivity|]. cbn [orb].
  destruct (len s <=? limit) eqn:E; [reflexivity|].
  destruct H as [H|H]; [apply Z.leb_gt in E; lia|].
  rewrite H.
  destruct (break_loop (S (length s)) limit s []) as [[pieces r]|] eqn:B;
    [|reflexivity].
  rewrite (break_loop_rest_stripped _ _ _ _ _ _ H B). reflexivity.
Qed.

Lemma normalize_all_ext (f g : pystr -> option (list pystr)) (sents : list pystr) :
  Forall (fun s => f s = g s) sents ->
  normalize_all f sents = normalize_all g sents.
Proof.
  induction 1 as [|s rest Hs _ IH]; [reflexivity|].
  simpl. rewrite Hs, IH. reflexivity.
Qed.

End SplitFacts.

(** ** The text kept by the chunker *)

Module ChunkerText.
Import StrFacts.

Lemma span_ws (t : pystr) :
  forall k, (k <= span_len isspace t)%nat -> squash (firstn k t) = [].
Proof.
  induction t as [|c t IH]; intros [|k] H; try reflexivity.
  simpl in H. destruct (isspace c) eqn:E; [|lia].
  simpl. rewrite E. simpl. apply IH. lia.
Qed.

Lemma span_len_le (f : Z -> bool) (t : pystr) : (span_len f t <= length t)%nat.
Proof. induction t as [|c t IH]; simpl; [lia|]. destruct (f c); simpl; lia. Qed.

Lemma last_newline_le (s : pystr) :
  forall pos found,
    (last_newline s pos found <= Nat.max found (pos + length s))%nat.
Proof.
  induction s as [|c t IH]; intros pos found; simpl; [lia|].
  specialize (IH (S pos) (if c =? 10 then S pos else found)).
  destruct (c =? 10); lia.
Qed.

Lemma match_para_sep_ws : ws_matcher match_para_sep.
Proof.
  intros s n H. destruct s as [|c t]; [discriminate|].
  unfold match_para_sep in H. destruct (c =? 10) eqn:E; [|discriminate].
  destruct (last_newline (firstn (span_len isspace t) t) 0 0) as [|k] eqn:L;
    [discriminate|].
  injection H as <-.
  pose proof (last_newline_le (firstn (span_len isspace t) t) 0 0) as B.
  rewrite L, length_firstn in B. pose proof (span_len_le isspace t).
  split; [simpl; lia|].
  apply Z.eqb_eq in E. subst c.
  change (firstn (S (S k)) (10 :: t)) with (10 :: firstn (S k) t).
  change (squash (10 :: firstn (S k) t)) with (squash (firstn (S k) t)).
  apply span_ws. lia.
Qed.

(** [re.split] on a pattern of whitespace loses whitespace only. *)
Lemma re_split_squash (m : pystr -> option nat) (Hm : ws_matcher m) (s : pystr) :
  forall skip cur,
    (skip <= length s)%nat -> squash (firstn skip s) = [] ->
    squash (concat (re_split m s skip cur))
    = squash (rev cur) ++ squash (skipn skip s).
Proof.
  induction s as [|c t IH]; intros skip cur Hk Hw.
  - destruct skip; simpl; rewrite !app_nil_r; reflexivity.
  - destruct skip as [|k].
    + cbn [re_split skipn]. destruct (m (c :: t)) as [[|n]|] eqn:E.
      * rewrite IH by (simpl; first [lia|reflexivity]).
        simpl rev. rewrite squash_app, <- app_assoc, <- squash_app. reflexivity.
      * destruct (Hm _ _ E) as [Hn Hs]. simpl in Hn.
        cbn [concat]. rewrite squash_app. f_equal.
        rewrite IH by (first [lia|simpl in Hs; destruct (isspace c); [exact Hs|discriminate]]).
        simpl rev. simpl app.
        transitivity (squash (firstn (S n) (c :: t) ++ skipn (S n) (c :: t)));
          [rewrite squash_app, Hs; reflexivity|rewrite firstn_skipn; reflexivity].
      * rewrite IH by (simpl; first [lia|reflexivity]).
        simpl rev. rewrite squash_app, <- app_assoc, <- squash_app. reflexivity.
    + cbn [re_split skipn]. simpl in Hk. simpl in Hw.
      apply IH; [lia|]. destruct (isspace c); [exact Hw|discriminate].
Qed.

Lemma increasing_from_weaken (es : list nat) (lo lo' : nat) :
  (lo' <= lo)%nat -> increasing_from lo es -> increasing_from lo' es.
Proof. destruct es; simpl; [trivial|]. intros H [H1 H2]. split; [lia|exact H2]. Qed.

(** The ends of the matches of [finditer] do not decrease. *)
Lemma finditer_increasing (m : pystr -> option nat) (s : pystr) :
  forall pos skip, increasing_from (pos + skip) (map snd (finditer m s pos skip)).
Proof.
  induction s as [|c t IH]; intros pos skip; [exact I|].
  destruct skip as [|k]; cbn [finditer].
  - destruct (m (c :: t)) as [[|n]|].
    + eapply increasing_from_weaken; [|apply (IH (S pos) 0%nat)]. lia.
    + simpl. split; [lia|].
      eapply increasing_from_weaken; [|apply (IH (S pos) n)]. lia.
    + eapply increasing_from_weaken; [|apply (IH (S pos) 0%nat)]. lia.
  - eapply increasing_from_weaken; [|apply (IH (S pos) k)]. lia.
Qed.

Lemma squash_kept (s : pystr) :
  squash (concat (if nonempty (strip s) then [s] else [])) = squash s.
Proof.
  destruct (nonempty (strip s)) eqn:E.
  - simpl. rewrite app_nil_r. reflexivity.
  - symmetry. apply squash_nil_of_strip, E.
Qed.

Lemma squash_kept_strip (s : pystr) :
  squash (concat (if nonempty (strip s) then [strip s] else [])) = squash (strip s).
Proof.
  destruct (strip s) eqn:E; [reflexivity|].
  simpl nonempty. cbn [concat]. rewrite app_nil_r. reflexivity.
Qed.

(** The sentences cut from a paragraph lose whitespace only. *)
Lemma cut_sentences_squash (p : pystr) (ends : list nat) :
  forall i, increasing_from i ends ->
    squash (concat (cut_sentences p i ends)) = squash (skipn i p).
Proof.
  induction ends as [|e es IH]; intros i H.
  - cbn [cut_sentences]. destruct (Nat.ltb i (length p)) eqn:E.
    + apply squash_kept.
    + apply Nat.ltb_ge in E. rewrite skipn_all2 by exact E. reflexivity.
  - destruct H as [H1 H2]. cbn [cut_sentences].
    rewrite concat_app, squash_app, squash_kept, (IH e H2).
    rewrite <- squash_app. f_equal.
    replace (skipn e p) with (skipn (e - i) (skipn i p))
      by (rewrite skipn_skipn; f_equal; lia).
    apply firstn_skipn.
Qed.

Lemma para_sentences_squash (p : pystr) :
  squash (concat (para_sentences p)) = squash p.
Proof.
  unfold para_sentences.
  rewrite cut_sentences_squash; [reflexivity|].
  apply (finditer_increasing match_sentence_end (_mask_tags p) 0 0).
Qed.

Lemma paras_loop_squash (paras : list pystr) :
  squash (concat (paras_loop paras)) = squash (concat paras).
Proof.
  induction paras as [|p rest IH]; [reflexivity|].
  cbn [paras_loop concat]. rewrite squash_app.
  destruct (nonempty (strip p)) eqn:E.
  - rewrite !concat_app, !squash_app, para_sentences_squash, squash_strip, IH.
    f_equal. destruct rest; reflexivity.
  - rewrite (squash_nil_of_strip _ E). exact IH.
Qed.

Lemma dedupe_markers_squash (result : list pystr) :
  forall prev,
    squash (concat (dedupe_markers result prev)) = squash (concat result).
Proof.
  induction result as [|cur rest IH]; intros prev; [reflexivity|].
  cbn [dedupe_markers concat]. rewrite squash_app.
  destruct (is_marker cur) eqn:E; cbn [andb].
  - destruct (match prev with Some q => is_marker q | None => false end).
    + rewrite (is_marker_eq _ E). apply IH.
    + cbn [concat]. rewrite squash_app, IH. reflexivity.
  - cbn [concat]. rewrite squash_app, IH. reflexivity.
Qed.

Lemma split_sentences_squash (source : pystr) :
  squash (concat (_split_into_sentences_with_paras source)) = squash source.
Proof.
  unfold _split_into_sentences_with_paras.
  rewrite dedupe_markers_squash, paras_loop_squash.
  rewrite (re_split_squash _ match_para_sep_ws) by (simpl; first [lia|reflexivity]).
  reflexivity.
Qed.

End ChunkerText.

(** ** The text kept by the normalization and by the balancing *)

Module BalanceText.
Import StrFacts SplitFacts ChunkerText.

Lemma break_loop_squash (limit : Z) (fuel : nat) :
  forall rest pieces out r,
    break_loop fuel limit rest pieces = Some (out, r) ->
    squash (concat out) ++ squash r = squash (concat pieces) ++ squash rest.
Proof.
  induction fuel as [|fuel IH]; intros rest pieces out r H;
    rewrite break_loop_eq in H; destruct (len rest <=? limit);
    try discriminate; try (injection H as <- <-; reflexivity).
  cbv zeta in H. apply IH in H. rewrite H. clear H.
  set (bp := Z.to_nat (_find_break rest limit)).
  assert (K : squash (concat (if nonempty (strip (firstn bp rest))
                              then pieces ++ [strip (firstn bp rest)]
                              else pieces))
              = squash (concat pieces) ++ squash (firstn bp rest)).
  { destruct (nonempty (strip (firstn bp rest))) eqn:E.
    - rewrite concat_app, squash_app. cbn [concat].
      rewrite app_nil_r, squash_strip. reflexivity.
    - rewrite (squash_nil_of_strip _ E), app_nil_r. reflexivity. }
  etransitivity; [apply f_equal2; [exact K|apply squash_strip]|].
  rewrite <- app_assoc, <- squash_app, firstn_skipn. reflexivity.
Qed.

Lemma normalize_one_tts_squash (limit : Z) (s : pystr) (l : list pystr) :
  normalize_one_tts limit s = Some l -> squash (concat l) = squash s.
Proof.
  unfold normalize_one_tts. intros H.
  assert (One : squash (concat [s]) = squash s)
    by (simpl; rewrite app_nil_r; reflexivity).
  destruct (is_marker s); [injection H as <-; exact One|].
  destruct (len s <=? limit); [injection H as <-; exact One|].
  destruct (break_loop (S (length s)) limit s []) as [[pieces r]|] eqn:B;
    [|discriminate].
  injection H as <-. apply break_loop_squash in B. simpl in B. rewrite <- B.
  rewrite concat_app, squash_app. f_equal.
  rewrite <- (squash_strip r). apply squash_kept_strip.
Qed.

Lemma normalize_all_squash (one : pystr -> option (list pystr)) :
  (forall s l, one s = Some l -> squash (concat l) = squash s) ->
  forall sents l,
    normalize_all one sents = Some l ->
    squash (concat l) = squash (concat sents).
Proof.
  intros Hone. induction sents as [|s rest IH]; intros l H.
  - injection H as <-. reflexivity.
  - cbn [normalize_all] in H.
    destruct (one s) as [a|] eqn:Ea; [|discriminate].
    destruct (normalize_all one rest) as [b|]; [|discriminate].
    injection H as <-. cbn [concat].
    rewrite concat_app, !squash_app, (Hone _ _ Ea), (IH _ eq_refl). reflexivity.
Qed.

(** The number of sentences that a round of the reconstruction takes. *)
Lemma rebuild_eq (fuel : nat) (s : pystr) (rest : list pystr) (entries : list Entry) :
  rebuild (S fuel) (s :: rest) entries
  = let count := snd (hd (None, -1) entries) in
    let count := if count <=? 0 then 1%nat else Z.to_nat count in
    let text := strip (concat (firstn count (s :: rest))) in
    (if nonempty text then [text] else [])
    ++ rebuild fuel (skipn count (s :: rest)) (skipn count entries).
Proof. reflexivity. Qed.

Lemma taken_pos (count : Z) :
  (1 <= (if (count <=? 0)%Z then 1 else Z.to_nat count))%nat.
Proof. destruct (count <=? 0) eqn:E; [lia|]. apply Z.leb_gt in E. lia. Qed.

Lemma rebuild_squash (fuel : nat) :
  forall sents entries,
    (length sents <= fuel)%nat ->
    squash (concat (rebuild fuel sents entries)) = squash (concat sents).
Proof.
  induction fuel as [|fuel IH]; intros sents entries H.
  - destruct sents; [reflexivity|simpl in H; lia].
  - destruct sents as [|s rest]; [reflexivity|].
    rewrite rebuild_eq. cbv zeta.
    pose proof (taken_pos (snd (hd (None, -1) entries))) as Hc.
    set (count := if snd (hd (None, -1) entries) <=? 0 then 1%nat else _) in *.
    rewrite concat_app, squash_app, squash_kept_strip, squash_strip, IH.
    + rewrite <- squash_app, <- concat_app, firstn_skipn. reflexivity.
    + rewrite length_skipn. simpl in H. simpl length. lia.
Qed.

Lemma balance_squash (limit : Z) (sents : list pystr) :
  squash (concat (balance limit sents)) = squash (concat sents).
Proof. apply rebuild_squash. lia. Qed.

(** The chunks of [split_balanced_tts] hold the text of the source, less
    some of its whitespace. *)
Lemma split_balanced_tts_squash (source : pystr) (limit : Z) (chunks : list pystr) :
  0 < limit ->
  split_balanced_tts source limit = Some chunks ->
  squash (concat chunks) = squash source.
Proof.
  intros Hl H. unfold split_balanced_tts in H.
  destruct (limit <=? 0) eqn:E; [apply Z.leb_le in E; lia|].
  destruct (normalize_all _ _) as [sents|] eqn:N; [|discriminate].
  injection H as <-.
  rewrite balance_squash.
  rewrite (normalize_all_squash _ (normalize_one_tts_squash limit) _ _ N).
  apply split_sentences_squash.
Qed.

End BalanceText.

(** ** What the chunker keeps of a property of the characters *)

Module ChunkerKeeps.
Import StrFacts.



Section Keeps.

Variable P : Z -> Prop.
Hypothesis P_newline : P 10.





Lemma dedupe_markers_keeps {Q : pystr -> Prop} (result : list pystr) :
  forall prev, Forall Q result -> Forall Q (dedupe_markers result prev).
Proof.
  induction result as [|cur rest IH]; intros prev H; [constructor|].
  inversion H; subst. cbn [dedupe_markers].
  destruct (_ && _); [apply IH; assumption|].
  constructor; [assumption|apply IH; assumption].
Qed.


End Keeps.



End ChunkerKeeps.

(** ** The break index *)

Module BreakIndex.
Import StrFacts ChunkerText ChunkerKeeps.

Lemma tag_spans_free (s : pystr) :
  forall pos, tag_free s -> tag_spans_from s pos None = [].
Proof.
  induction s as [|c t IH]; intros pos H; [reflexivity|].
  inversion H as [|? ? Hc Ht]; subst. cbn [tag_spans_from].
  destruct (c =? 91) eqn:E; [apply Z.eqb_eq in E; contradiction|].
  apply IH, Ht.
Qed.

Lemma mask_from_length (spans : list (Z * Z)) (s : pystr) :
  forall i, length (mask_from spans s i) = length s.
Proof. induction s as [|c t IH]; intros i; simpl; [reflexivity|]. rewrite IH. reflexivity. Qed.

Lemma py_prefix_len (s : pystr) (k : Z) : 0 <= k -> len (py_prefix s k) <= k.
Proof.
  intros H. unfold py_prefix, len.
  destruct (0 <=? k) eqn:E; [|apply Z.leb_gt in E; lia].
  pose proof (firstn_le_length (Z.to_nat k) s). lia.
Qed.

Lemma match_break_bounded : bounded_matcher match_break.
Proof.
  intros s n H. unfold match_break in H.
  pose proof (length_skipn (span_len is_punct s) s) as L.
  pose proof (span_len_le is_punct s) as B.
  destruct (span_len is_punct s) as [|np]; [discriminate|].
  destruct (skipn (S np) s) as [|c t]; [discriminate|]. simpl in L.
  destruct (is_closer c).
  - destruct t as [|d u]; [discriminate|]. simpl in L.
    destruct (isspace d); [|discriminate]. injection H as <-. lia.
  - destruct (isspace c); [|discriminate]. injection H as <-. lia.
Qed.

Lemma finditer_ends_le (m : pystr -> option nat) (Hm : bounded_matcher m) (s : pystr) :
  forall pos skip,
    Forall (fun e => (snd e <= pos + length s)%nat) (finditer m s pos skip).
Proof.
  induction s as [|c t IH]; intros pos skip; [constructor|].
  assert (Step : forall k,
             Forall (fun e => (snd e <= pos + length (c :: t))%nat)
                    (finditer m t (S pos) k)).
  { intros k. eapply Forall_impl; [|apply (IH (S pos) k)].
    intros e He. simpl. simpl in He. lia. }
  destruct skip as [|k]; cbn [finditer]; [|apply Step].
  destruct (m (c :: t)) as [[|n]|] eqn:E; try apply Step.
  constructor; [|apply Step]. apply Hm in E. simpl in *. lia.
Qed.

Lemma last_match_end_le (b : Z) (matches : list (nat * nat)) :
  forall init,
    init <= b -> Forall (fun e => Z.of_nat (snd e) <= b) matches ->
    fold_left (fun _ m => Z.of_nat (snd m)) matches init <= b.
Proof.
  induction matches as [|e es IH]; intros init Hi H; [exact Hi|].
  inversion H; subst. simpl. apply IH; assumption.
Qed.

Lemma rfind_from_le (c : Z) (s : pystr) :
  forall pos found,
    rfind_from c s pos found <= Z.max found (pos + len s - 1).
Proof.
  induction s as [|d t IH]; intros pos found; simpl; [lia|].
  specialize (IH (pos + 1) (if d =? c then pos else found)).
  unfold len in *. simpl length. destruct (d =? c); lia.
Qed.

Lemma rfind_lt (s : pystr) (c : Z) : rfind s c + 1 <= len s.
Proof.
  unfold rfind. pose proof (rfind_from_le c s 0 (-1)). pose proof (len_nonneg s).
  lia.
Qed.

Lemma safe_break_le (s : pystr) (idx : Z) : 0 <= idx -> _safe_break_index s idx <= idx.
Proof. intros H. unfold _safe_break_index. destruct (_ && _); lia. Qed.

Lemma safe_break_nonneg (s : pystr) (idx : Z) : 0 <= _safe_break_index s idx.
Proof. unfold _safe_break_index. lia. Qed.

Lemma char_at_plain (s : pystr) (i : Z) :
  no_high_surrogate s -> high_surrogate (char_at s i) = false.
Proof.
  intros H. unfold char_at.
  destruct (nth_in_or_default (Z.to_nat i) s 0) as [Hin| ->]; [|reflexivity].
  unfold no_high_surrogate in H. rewrite Forall_forall in H. apply H, Hin.
Qed.

Lemma safe_break_plain (s : pystr) (idx : Z) :
  no_high_surrogate s -> _safe_break_index s idx = Z.max 0 (Z.min (len s) idx).
Proof.
  intros H. unfold _safe_break_index.
  rewrite (char_at_plain s (idx - 1) H), andb_false_r. reflexivity.
Qed.

(** Without tags the break lies within the limit. *)
Lemma find_break_le (remaining : pystr) (limit : Z) :
  tag_free remaining -> 1 <= limit -> _find_break remaining limit <= limit.
Proof.
  intros Hfree Hl. unfold _find_break.
  replace (_iter_tag_spans remaining) with (@nil (Z * Z))
    by (symmetry; apply tag_spans_free, Hfree).
  set (masked := _mask_tags (py_prefix remaining limit)).
  assert (Hm : len masked <= limit).
  { unfold masked, _mask_tags, len. rewrite mask_from_length.
    apply py_prefix_len. lia. }
  set (best := last_match_end (finditer match_break masked 0 0)).
  assert (Hb : best <= limit).
  { unfold best, last_match_end. apply last_match_end_le; [lia|].
    eapply Forall_impl; [|apply (finditer_ends_le _ match_break_bounded masked 0 0)].
    intros e He. unfold len in Hm. simpl in He. lia. }
  pose proof (rfind_lt masked 32). pose proof (rfind_lt masked 10).
  pose proof (rfind_lt masked 9).
  cbn [_adjust_break_index].
  destruct (_ <=? best).
  - destruct (best <=? 0) eqn:E.
    + pose proof (safe_break_le remaining (Z.max 1 best)). lia.
    + apply Z.leb_gt in E. pose proof (safe_break_le remaining best). lia.
  - set (last_space := Z.max (Z.max (rfind masked 32) (rfind masked 10)) (rfind masked 9)).
    assert (Hs : last_space + 1 <= limit) by (unfold last_space; lia).
    destruct (0 <? last_space) eqn:E0.
    + apply Z.ltb_lt in E0.
      destruct (last_space + 1 <=? 0) eqn:E; [apply Z.leb_le in E; lia|].
      pose proof (safe_break_le remaining (last_space + 1)). lia.
    + destruct (limit <=? 0) eqn:E; [apply Z.leb_le in E; lia|].
      pose proof (safe_break_le remaining limit). lia.
Qed.

(** Without surrogates the break takes at least one character. *)
Lemma find_break_pos (remaining : pystr) (limit : Z) :
  no_high_surrogate remaining -> 1 <= len remaining ->
  1 <= _find_break remaining limit.
Proof.
  intros Hp Hn. unfold _find_break.
  set (spans := _iter_tag_spans remaining).
  set (masked := _mask_tags (py_prefix remaining limit)).
  set (best := last_match_end (finditer match_break masked 0 0)).
  set (last_space := Z.max (Z.max (rfind masked 32) (rfind masked 10)) (rfind masked 9)).
  rewrite !(safe_break_plain remaining _ Hp).
  destruct (_ <=? best).
  - destruct (_adjust_break_index best spans <=? 0) eqn:E;
      [|apply Z.leb_gt in E]; lia.
  - destruct (0 <? last_space).
    + destruct (_adjust_break_index (last_space + 1) spans <=? 0) eqn:E;
        [|apply Z.leb_gt in E]; lia.
    + destruct (_adjust_break_index limit spans <=? 0) eqn:E;
        [|apply Z.leb_gt in E; lia].
      match goal with
      | |- context [if ?x <=? 0 then 1 else _] =>
          destruct (x <=? 0) eqn:E2; [|apply Z.leb_gt in E2]; lia
      end.
Qed.

End BreakIndex.

(** ** The lengths of the chunks *)

Module ChunkLength.
Import StrFacts SplitFacts ChunkerText ChunkerKeeps BreakIndex BalanceText.


Lemma len_strip (s : pystr) : len (strip s) <= len s.
Proof. unfold len. pose proof (strip_length s). lia. Qed.














End ChunkLength.

(** ** Dictionaries with integer keys *)

Module ZDictFacts.

Lemma zdict_get_set_same {V} (d : list (Z * V)) (k : Z) (v dflt : V) :
  zdict_get (zdict_set d k v) k dflt = v.
Proof.
  induction d as [|[k0 v0] rest IH]; simpl.
  - rewrite Z.eqb_refl. reflexivity.
  - destruct (k0 =? k) eqn:E; simpl; rewrite E; [reflexivity|exact IH].
Qed.

Lemma zdict_get_set_other {V} (d : list (Z * V)) (k k' : Z) (v dflt : V) :
  k <> k' -> zdict_get (zdict_set d k v) k' dflt = zdict_get d k' dflt.
Proof.
  intros H. induction d as [|[k0 v0] rest IH]; simpl.
  - destruct (k =? k') eqn:E; [apply Z.eqb_eq in E; contradiction|reflexivity].
  - destruct (k0 =? k) eqn:E; simpl.
    + apply Z.eqb_eq in E. subst k0.
      destruct (k =? k') eqn:E'; [apply Z.eqb_eq in E'; contradiction|reflexivity].
    + destruct (k0 =? k'); [reflexivity|exact IH].
Qed.

Lemma zdict_mem_set {V} (d : list (Z * V)) (k k' : Z) (v : V) :
  zdict_mem (zdict_set d k v) k' = (k =? k') || zdict_mem d k'.
Proof.
  induction d as [|[k0 v0] rest IH]; simpl.
  - reflexivity.
  - destruct (k0 =? k) eqn:E; simpl.
    + apply Z.eqb_eq in E. subst k0. destruct (k =? k'); reflexivity.
    + rewrite IH. destruct (k0 =? k'), (k =? k'); reflexivity.
Qed.

Lemma zdict_mem_keys {V} (d : list (Z * V)) (k : Z) :
  zdict_mem d k = true <-> In k (map fst d).
Proof.
  induction d as [|[k0 v0] rest IH]; simpl; [split; [discriminate|tauto]|].
  rewrite orb_true_iff, IH, Z.eqb_eq. tauto.
Qed.

End ZDictFacts.

(** ** Suborders *)

Module SuborderFacts.
Import ZDictFacts.

Lemma occurrences_app (xs ys : list (option Z)) (o : Z) :
  occurrences (xs ++ ys) o = occurrences xs o + occurrences ys o.
Proof. unfold occurrences, len. rewrite filter_app, length_app. lia. Qed.

Lemma occurrences_one (x : option Z) (o : Z) :
  occurrences [x] o = if chunk_eqb (Some o) x then 1 else 0.
Proof. unfold occurrences. cbn [filter]. destruct (chunk_eqb (Some o) x); reflexivity. Qed.

Lemma occurrences_nonneg (xs : list (option Z)) (o : Z) : 0 <= occurrences xs o.
Proof. unfold occurrences, len. lia. Qed.

Lemma chunk_eqb_eq (x y : option Z) : chunk_eqb x y = true <-> x = y.
Proof.
  destruct x, y; simpl; try rewrite Z.eqb_eq;
    split; intros H; try discriminate; try congruence; reflexivity.
Qed.

Lemma chunk_eqb_refl (x : option Z) : chunk_eqb x x = true.
Proof. apply chunk_eqb_eq. reflexivity. Qed.

Lemma suborders_spec (orders : list (option Z)) :
  forall (seen : list (option Z)) (counters : list (Z * Z)) (i : nat),
    (forall o, zdict_get counters o 0 = occurrences seen o) ->
    nth_error (suborders orders counters) i
    = option_map (option_map (occurrences (seen ++ firstn i orders)))
        (nth_error orders i).
Proof.
  induction orders as [|[order|] rest IH]; intros seen counters i H.
  - destruct i; reflexivity.
  - cbn [suborders]. destruct i as [|i].
    + simpl. rewrite app_nil_r, H. reflexivity.
    + cbn [nth_error firstn].
      rewrite (IH (seen ++ [Some order])).
      * rewrite <- app_assoc. reflexivity.
      * intros o. rewrite occurrences_app, occurrences_one.
        destruct (Z.eq_dec order o) as [->|Hne].
        -- rewrite zdict_get_set_same, H, chunk_eqb_refl. reflexivity.
        -- rewrite zdict_get_set_other, H by exact Hne.
           destruct (chunk_eqb (Some o) (Some order)) eqn:E; [|lia].
           apply chunk_eqb_eq in E. congruence.
  - cbn [suborders]. destruct i as [|i]; [reflexivity|].
    cbn [nth_error firstn].
    rewrite (IH (seen ++ [None])).
    + rewrite <- app_assoc. reflexivity.
    + intros o. rewrite occurrences_app, occurrences_one, H. simpl. lia.
Qed.

End SuborderFacts.

Module Suborders.
Import SuborderFacts.

(** The suborder that [_assign_suborders] writes to a sentence is the
    number of earlier sentences that have its order; a sentence without
    an order gets none. *)
Theorem assign_suborders_counts (orders : list (option Z)) (i : nat) :
  nth_error (_assign_suborders orders) i
  = option_map (option_map (occurrences (firstn i orders))) (nth_error orders i).
Proof.
  unfold _assign_suborders.
  apply (suborders_spec orders [] [] i). intros o. reflexivity.
Qed.

End Suborders.

(** ** The search of a token sequence *)

Module SeekFacts.

Lemma tokens_eqb_eq (x y : list pystr) : tokens_eqb x y = true <-> x = y.
Proof.
  unfold tokens_eqb.
  destruct (list_eq_dec (list_eq_dec Z.eq_dec) x y); split; congruence.
Qed.

Lemma str_eqb_iff (x y : pystr) : str_eqb x y = true <-> x = y.
Proof. unfold str_eqb. destruct (list_eq_dec Z.eq_dec x y); split; congruence. Qed.

(** [list.index] finds the first position of the range that holds [x]. *)
Lemma index_from_spec (x : pystr) (l : list pystr) :
  forall pos lo hi,
    match index_from x l pos lo hi with
    | Some j =>
        pos <= j /\ lo <= j < hi
        /\ nth_error l (Z.to_nat (j - pos)) = Some x
        /\ forall k, pos <= k < j -> lo <= k < hi ->
             nth_error l (Z.to_nat (k - pos)) <> Some x
    | None =>
        forall k, pos <= k -> lo <= k < hi ->
          nth_error l (Z.to_nat (k - pos)) <> Some x
    end.
Proof.
  induction l as [|y t IH]; intros pos lo hi; cbn [index_from].
  - intros k _ _. destruct (Z.to_nat (k - pos)); discriminate.
  - destruct ((lo <=? pos) && (pos <? hi) && str_eqb y x) eqn:E.
    + apply andb_true_iff in E. destruct E as [E Ex].
      apply andb_true_iff in E. destruct E as [E1 E2].
      apply Z.leb_le in E1. apply Z.ltb_lt in E2. apply str_eqb_iff in Ex.
      subst y. split; [lia|]. split; [lia|]. split.
      * rewrite Z.sub_diag. reflexivity.
      * intros k Hk. lia.
    + specialize (IH (pos + 1) lo hi).
      assert (Here : lo <= pos < hi -> y <> x).
      { intros [H1 H2] ->. apply Z.leb_le in H1. apply Z.ltb_lt in H2.
        rewrite H1, H2 in E. simpl in E.
        rewrite (proj2 (str_eqb_iff x x) eq_refl) in E. discriminate. }
      assert (Shift : forall k, pos < k ->
                 Z.to_nat (k - pos) = S (Z.to_nat (k - (pos + 1)))) by (intros; lia).
      destruct (index_from x t (pos + 1) lo hi) as [j|].
      * destruct IH as (H1 & H2 & H3 & H4).
        split; [lia|]. split; [lia|]. split.
        -- rewrite Shift by lia. exact H3.
        -- intros k Hk Hr. destruct (Z.eq_dec k pos) as [->|Hne].
           ++ rewrite Z.sub_diag. simpl. intros Hx. injection Hx as Hx.
              exact (Here Hr Hx).
           ++ rewrite Shift by lia. apply H4; lia.
      * intros k Hk Hr. destruct (Z.eq_dec k pos) as [->|Hne].
        -- rewrite Z.sub_diag. simpl. intros Hx. injection Hx as Hx.
           exact (Here Hr Hx).
        -- rewrite Shift by lia. apply IH; lia.
Qed.

(** Where a sequence stands, its first token stands. *)
Lemma occurs_at_first (stream : list pystr) (first : pystr) (rest : list pystr)
  (j : Z) :
  occurs_at stream (first :: rest) j -> nth_error stream (Z.to_nat j) = Some first.
Proof.
  intros [Hj H]. unfold slice in H.
  destruct (skipn (Z.to_nat j) stream) as [|y t] eqn:E.
  - rewrite firstn_nil in H. discriminate.
  - replace (Z.to_nat (j + len (first :: rest) - j)) with (S (length rest)) in H
      by (unfold len; simpl length; lia).
    simpl in H. injection H as -> _.
    rewrite <- (firstn_skipn (Z.to_nat j) stream), E.
    rewrite nth_error_app2 by (rewrite length_firstn; lia).
    assert (L : (Z.to_nat j <= length stream)%nat).
    { destruct (Nat.le_gt_cases (Z.to_nat j) (length stream)) as [L|L]; [exact L|].
      rewrite skipn_all2 in E by lia. discriminate. }
    rewrite length_firstn, Nat.min_l by exact L. rewrite Nat.sub_diag. reflexivity.
Qed.

Lemma seek_spec (stream : list pystr) (first : pystr) (rest : list pystr)
  (max_i : Z) (fuel : nat) :
  forall i,
    0 <= i -> max_i - i + 1 <= Z.of_nat fuel ->
    match seek fuel stream (first :: rest) first i max_i with
    | Some j =>
        i <= j <= max_i /\ occurs_at stream (first :: rest) j
        /\ forall k, i <= k < j -> ~ occurs_at stream (first :: rest) k
    | None =>
        forall k, i <= k <= max_i -> ~ occurs_at stream (first :: rest) k
    end.
Proof.
  induction fuel as [|fuel IH]; intros i Hi Hf; cbn [seek].
  - intros k Hk. lia.
  - destruct (i <=? max_i) eqn:E; [|apply Z.leb_gt in E; intros k Hk; lia].
    pose proof (index_from_spec first stream 0 i (max_i + 1)) as Hx.
    destruct (index_from first stream 0 i (max_i + 1)) as [j|].
    + destruct Hx as (H1 & H2 & H3 & H4).
      assert (Before : forall k, i <= k < j -> ~ occurs_at stream (first :: rest) k).
      { intros k Hk Ho. apply occurs_at_first in Ho.
        apply (H4 k); [lia|lia|]. rewrite Z.sub_0_r. exact Ho. }
      destruct (tokens_eqb _ _) eqn:T.
      * apply tokens_eqb_eq in T. split; [lia|]. split; [split; [lia|exact T]|].
        exact Before.
      * assert (Here : ~ occurs_at stream (first :: rest) j).
        { intros [_ Ho]. rewrite (proj2 (tokens_eqb_eq _ _) Ho) in T. discriminate. }
        specialize (IH (j + 1)).
        destruct (seek fuel stream (first :: rest) first (j + 1) max_i) as [j'|].
        -- destruct IH as (G1 & G2 & G3); [lia|lia|].
           split; [lia|]. split; [exact G2|].
           intros k Hk. destruct (Z_lt_ge_dec k j) as [L|L]; [apply Before; lia|].
           destruct (Z.eq_dec k j) as [->|Hne]; [exact Here|apply G3; lia].
        -- intros k Hk. destruct (Z_lt_ge_dec k j) as [L|L]; [apply Before; lia|].
           destruct (Z.eq_dec k j) as [->|Hne]; [exact Here|apply IH; lia].
    + intros k Hk Ho. apply occurs_at_first in Ho.
      apply (Hx k); [lia|lia|]. rewrite Z.sub_0_r. exact Ho.
Qed.

(** A sequence that stands at [j] ends within the stream. *)
Lemma occurs_at_fits (stream seq : list pystr) (j : Z) :
  seq <> [] -> occurs_at stream seq j -> j + len seq <= len stream.
Proof.
  intros Hne [Hj H]. unfold slice in H.
  assert (0 < length seq)%nat by (destruct seq; [contradiction|simpl; lia]).
  assert (L : length (firstn (Z.to_nat (j + len seq - j)) (skipn (Z.to_nat j) stream))
              = length seq) by (rewrite H; reflexivity).
  rewrite length_firstn, length_skipn in L. unfold len in *. lia.
Qed.

End SeekFacts.

Module TokenSearch.
Import SeekFacts.

(** [_find_token_subsequence] returns the leftmost position, among those
    it looks at, where the sequence stands in the stream, and [None] only
    if it stands at none of them. *)
Theorem find_token_subsequence_leftmost (stream seq : list pystr) (start : Z)
  (max_seek : option Z) :
  seq <> [] ->
  match _find_token_subsequence stream seq start max_seek with
  | Some j =>
      within_seek start max_seek j /\ occurs_at stream seq j
      /\ forall k, Z.max 0 start <= k < j -> ~ occurs_at stream seq k
  | None =>
      forall k, within_seek start max_seek k -> ~ occurs_at stream seq k
  end.
Proof.
  intros Hseq. destruct seq as [|first rest]; [contradiction|].
  unfold _find_token_subsequence.
  replace (if start <? 0 then 0 else start) with (Z.max 0 start)
    by (destruct (start <? 0) eqn:E; [apply Z.ltb_lt in E|apply Z.ltb_ge in E]; lia).
  set (lo := Z.max 0 start).
  set (top := len stream - len (first :: rest)).
  destruct (top <? lo) eqn:E.
  - apply Z.ltb_lt in E. intros k [Hk _] Ho. apply occurs_at_fits in Ho; [|exact Hseq].
    unfold top, lo in *. lia.
  - apply Z.ltb_ge in E.
    set (max_i := match max_seek with
                  | Some m => if 0 <? m then Z.min top (lo + m) else top
                  | None => top
                  end).
    assert (Hmax : max_i <= top /\
                   forall k, within_seek start max_seek k -> k <= top -> k <= max_i).
    { unfold max_i, within_seek. fold lo. destruct max_seek as [m|].
      - destruct (0 <? m) eqn:Em.
        + apply Z.ltb_lt in Em. split; [lia|]. intros k [_ Hk] Hk'.
          specialize (Hk Em). lia.
        + split; [lia|]. intros; lia.
      - split; [lia|]. intros; lia. }
    assert (Hseek : forall j, lo <= j <= max_i -> within_seek start max_seek j).
    { intros j Hj. unfold within_seek. fold lo. split; [lia|].
      unfold max_i in Hj. destruct max_seek as [m|]; [|exact I].
      intros Hm. apply Z.ltb_lt in Hm. rewrite Hm in Hj. lia. }
    pose proof (seek_spec stream first rest max_i (Z.to_nat (max_i - lo + 1)) lo)
      as S.
    destruct (seek _ stream (first :: rest) first lo max_i) as [j|].
    + destruct S as (S1 & S2 & S3); [unfold lo; lia|lia|].
      split; [apply Hseek; lia|]. split; [exact S2|exact S3].
    + intros k Hk Ho. assert (Hfit := occurs_at_fits _ _ _ Hseq Ho).
      destruct Hmax as [_ Hmax]. specialize (Hmax k Hk).
      apply (S ltac:(unfold lo; lia) ltac:(lia) k); [|exact Ho].
      destruct Hk as [Hk _]. fold lo in Hk. unfold top in Hmax. lia.
Qed.

Lemma find_token_subsequence_leftmost_witness :
  _find_token_subsequence OrderExamples.abab_c OrderExamples.abc 0 default_max_seek
  = Some 2
  /\ occurs_at OrderExamples.abab_c OrderExamples.abc 2
  /\ ~ occurs_at OrderExamples.abab_c OrderExamples.abc 0.
Proof.
  assert (Hne : OrderExamples.abc <> []) by discriminate.
  pose proof (find_token_subsequence_leftmost OrderExamples.abab_c
                OrderExamples.abc 0 default_max_seek Hne) as H.
  assert (E : _find_token_subsequence OrderExamples.abab_c OrderExamples.abc 0
                default_max_seek = Some 2) by (vm_compute; reflexivity).
  rewrite E in H. destruct H as (_ & H1 & H2).
  split; [exact E|]. split; [exact H1|]. apply H2. lia.
Defined.

End TokenSearch.

(** ** The dominant order *)

Module TallyFacts.
Import ZDictFacts SuborderFacts.

Lemma pair_gt_iff (a b : Z * Z) :
  pair_gt a b = true <-> fst b < fst a \/ (fst a = fst b /\ snd b < snd a).
Proof.
  unfold pair_gt. rewrite orb_true_iff, andb_true_iff, !Z.ltb_lt, Z.eqb_eq.
  tauto.
Qed.

Lemma pair_gt_false (a b : Z * Z) :
  pair_gt a b = false <-> fst a < fst b \/ (fst a = fst b /\ snd a <= snd b).
Proof.
  rewrite <- not_true_iff_false, pair_gt_iff. lia.
Qed.

(** [max] returns a key that no key exceeds. *)
Lemma max_by_spec (key : Z -> Z * Z) (keys : list Z) :
  forall best,
    In (max_by key best keys) (best :: keys)
    /\ forall k, In k (best :: keys) ->
         pair_gt (key k) (key (max_by key best keys)) = false.
Proof.
  induction keys as [|k rest IH]; intros best; cbn [max_by].
  - split; [left; reflexivity|]. intros k [<-|[]].
    apply pair_gt_false. lia.
  - destruct (IH (if pair_gt (key k) (key best) then k else best)) as [Hin Hmax].
    set (r := max_by key (if pair_gt (key k) (key best) then k else best) rest) in *.
    split.
    + destruct Hin as [Hin|Hin]; [|right; right; exact Hin].
      destruct (pair_gt (key k) (key best)); rewrite <- Hin; simpl; auto.
    + assert (Hb : pair_gt (key (if pair_gt (key k) (key best) then k else best))
                     (key r) = false) by (apply Hmax; left; reflexivity).
      intros x [<-|[<-|Hx]]; [| |apply Hmax; right; exact Hx].
      * destruct (pair_gt (key k) (key best)) eqn:E; [|exact Hb].
        apply pair_gt_iff in E. apply pair_gt_false in Hb. apply pair_gt_false. lia.
      * destruct (pair_gt (key k) (key best)) eqn:E; [exact Hb|].
        apply pair_gt_false in E. apply pair_gt_false in Hb. apply pair_gt_false. lia.
Qed.

Lemma first_position_app (xs : list (option Z)) (x : option Z) (o : Z) :
  first_position (xs ++ [x]) o
  = if 0 <? occurrences xs o then first_position xs o
    else if chunk_eqb (Some o) x then len xs else len xs + 1.
Proof.
  induction xs as [|y t IH].
  - simpl. destruct (chunk_eqb (Some o) x); reflexivity.
  - cbn [app first_position]. unfold occurrences. cbn [filter].
    destruct (chunk_eqb (Some o) y) eqn:E.
    + unfold len. simpl length. 
      destruct (0 <? Z.of_nat (S (length (filter (chunk_eqb (Some o)) t)))) eqn:L;
        [reflexivity|apply Z.ltb_ge in L; lia].
    + rewrite IH. unfold occurrences.
      destruct (0 <? len (filter (chunk_eqb (Some o)) t)); [reflexivity|].
      unfold len. simpl length. destruct (chunk_eqb (Some o) x); lia.
Qed.

Lemma first_position_bounds (xs : list (option Z)) (o : Z) :
  0 < occurrences xs o ->
  0 <= first_position xs o < len xs
  /\ nth_error xs (Z.to_nat (first_position xs o)) = Some (Some o).
Proof.
  induction xs as [|y t IH]; [unfold occurrences, len; simpl; lia|].
  intros H. cbn [first_position]. destruct (chunk_eqb (Some o) y) eqn:E.
  - apply chunk_eqb_eq in E. subst y. unfold len. simpl. split; [lia|reflexivity].
  - unfold occurrences in H. cbn [filter] in H. rewrite E in H.
    destruct (IH H) as [B N]. unfold len in *. simpl length. split; [lia|].
    replace (Z.to_nat (1 + first_position t o))
      with (S (Z.to_nat (first_position t o))) by lia.
    exact N.
Qed.

Lemma tally_spec (orders : list (option Z)) :
  forall seen counts first_idx,
    tallied seen counts first_idx ->
    tallied (seen ++ orders)
      (fst (tally orders (len seen) counts first_idx))
      (snd (tally orders (len seen) counts first_idx)).
Proof.
  induction orders as [|[order|] rest IH]; intros seen counts first_idx H.
  - rewrite app_nil_r. exact H.
  - cbn [tally].
    replace (len seen + 1) with (len (seen ++ [Some order]))
      by (unfold len; rewrite length_app; simpl; lia).
    replace (seen ++ Some order :: rest) with ((seen ++ [Some order]) ++ rest)
      by (rewrite <- app_assoc; reflexivity).
    apply IH. destruct H as (H1 & H2 & H3 & H4).
    assert (Occ : forall o, occurrences (seen ++ [Some order]) o
                            = occurrences seen o + if Z.eq_dec order o then 1 else 0).
    { intros o. rewrite occurrences_app, occurrences_one.
      destruct (Z.eq_dec order o) as [->|Hne]; [rewrite chunk_eqb_refl; reflexivity|].
      destruct (chunk_eqb (Some o) (Some order)) eqn:E; [|reflexivity].
      apply chunk_eqb_eq in E. congruence. }
    split; [|split; [|split]].
    + intros o. rewrite Occ. destruct (Z.eq_dec order o) as [->|Hne].
      * rewrite zdict_get_set_same, H1. reflexivity.
      * rewrite zdict_get_set_other, H1 by exact Hne. lia.
    + intros o. rewrite zdict_mem_set, orb_true_iff, Z.eqb_eq, H2, Occ.
      pose proof (occurrences_nonneg seen o).
      destruct (Z.eq_dec order o); split; try lia; intros [?|?]; try lia; contradiction.
    + intros o. rewrite Occ. pose proof (occurrences_nonneg seen o).
      destruct (zdict_mem first_idx order) eqn:M.
      * assert (0 < occurrences seen order) by (apply H3; exact M).
        rewrite H3. destruct (Z.eq_dec order o); [subst; lia|lia].
      * rewrite zdict_mem_set, orb_true_iff, Z.eqb_eq, H3.
        destruct (Z.eq_dec order o); split; try lia; intros [?|?]; try lia; contradiction.
    + intros o Hp. rewrite first_position_app.
      rewrite Occ in Hp. pose proof (occurrences_nonneg seen o).
      destruct (zdict_mem first_idx order) eqn:M.
      * assert (0 < occurrences seen order) by (apply H3; exact M).
        destruct (0 <? occurrences seen o) eqn:L.
        -- apply Z.ltb_lt in L. apply H4, L.
        -- apply Z.ltb_ge in L. destruct (Z.eq_dec order o); [subst; lia|lia].
      * assert (Hz : ~ 0 < occurrences seen order)
          by (intros Hx; apply H3 in Hx; congruence).
        destruct (Z.eq_dec order o) as [->|Hne].
        -- rewrite zdict_get_set_same.
           destruct (0 <? occurrences seen o) eqn:L; [apply Z.ltb_lt in L; lia|].
           rewrite chunk_eqb_refl. reflexivity.
        -- rewrite zdict_get_set_other by exact Hne.
           destruct (0 <? occurrences seen o) eqn:L;
             [apply Z.ltb_lt in L; apply H4, L|apply Z.ltb_ge in L; lia].
  - cbn [tally].
    replace (len seen + 1) with (len (seen ++ [None]))
      by (unfold len; rewrite length_app; simpl; lia).
    replace (seen ++ None :: rest) with ((seen ++ [None]) ++ rest)
      by (rewrite <- app_assoc; reflexivity).
    apply IH. destruct H as (H1 & H2 & H3 & H4).
    assert (Occ : forall o, occurrences (seen ++ [None]) o = occurrences seen o).
    { intros o. rewrite occurrences_app, occurrences_one. simpl. lia. }
    split; [|split; [|split]]; intros o; rewrite Occ;
      [apply H1|apply H2|apply H3|].
    intros Hp. rewrite first_position_app.
    destruct (0 <? occurrences seen o) eqn:L; [apply H4, Hp|apply Z.ltb_ge in L; lia].
Qed.

Lemma occurrences_zero_all (orders : list (option Z)) :
  (forall o, occurrences orders o = 0) -> Forall (fun x => x = None) orders.
Proof.
  induction orders as [|[o|] rest IH]; intros H; [constructor| |].
  - specialize (H o). unfold occurrences in H. cbn [filter] in H.
    rewrite chunk_eqb_refl in H. unfold len in H. simpl in H. lia.
  - constructor; [reflexivity|]. apply IH. intros o. specialize (H o).
    unfold occurrences in *. cbn [filter] in H. simpl in H. exact H.
Qed.

End TallyFacts.

Module DominantOrder.
Import ZDictFacts SuborderFacts TallyFacts.

(** [_dominant_order] returns [None] exactly on a list that holds no
    order; otherwise it returns an order of the list that no other order
    outnumbers, and among the most frequent orders the one that appears
    first. *)
Theorem dominant_order_spec (orders : list (option Z)) :
  match _dominant_order orders with
  | None => Forall (fun x => x = None) orders
  | Some o =>
      0 < occurrences orders o
      /\ forall o', o' <> o -> 0 < occurrences orders o' ->
           occurrences orders o' < occurrences orders o
           \/ (occurrences orders o' = occurrences orders o
               /\ first_position orders o < first_position orders o')
  end.
Proof.
  unfold _dominant_order.
  assert (T0 : tallied [] [] []).
  { split; [|split; [|split]]; intros o; unfold occurrences, len; simpl.
    - reflexivity.
    - split; [discriminate|lia].
    - split; [discriminate|lia].
    - lia. }
  pose proof (tally_spec orders [] [] [] T0) as T. simpl app in T.
  change (len []) with 0 in T.
  destruct (tally orders 0 [] []) as [counts first_idx]. cbn [fst snd] in T.
  destruct T as (H1 & H2 & H3 & H4).
  destruct (map fst counts) as [|k keys] eqn:K.
  - apply occurrences_zero_all. intros o.
    pose proof (occurrences_nonneg orders o).
    destruct (Z.eq_dec (occurrences orders o) 0) as [E|E]; [exact E|].
    assert (Hm : zdict_mem counts o = true) by (apply H2; lia).
    apply zdict_mem_keys in Hm. rewrite K in Hm. destruct Hm.
  - set (key := fun k => (zdict_get counts k 0, - zdict_get first_idx k 0)).
    destruct (max_by_spec key keys k) as [Hin Hmax].
    set (r := max_by key k keys) in *.
    rewrite <- K in Hin, Hmax.
    assert (Hr : 0 < occurrences orders r)
      by (apply H2, zdict_mem_keys, Hin).
    split; [exact Hr|]. intros o' Hne Ho'.
    assert (Hin' : In o' (map fst counts)) by (apply zdict_mem_keys, H2, Ho').
    specialize (Hmax o' Hin'). apply pair_gt_false in Hmax.
    unfold key in Hmax. cbn [fst snd] in Hmax.
    rewrite !H1, (H4 _ Hr), (H4 _ Ho') in Hmax.
    destruct Hmax as [L|[E L]]; [left; exact L|right].
    split; [exact E|].
    destruct (Z.eq_dec (first_position orders r) (first_position orders o'))
      as [Eq|Neq]; [|lia].
    destruct (first_position_bounds orders r Hr) as [_ Nr].
    destruct (first_position_bounds orders o' Ho') as [_ No].
    rewrite Eq in Nr. congruence.
Qed.

End DominantOrder.

(** ** Chunk ranges *)

Module RangeFacts.
Import SuborderFacts.

Lemma item_middle {A} (done : list A) (c : A) (t : list A) :
  item (done ++ c :: t) (len done) = Some c.
Proof.
  unfold item, len. rewrite Nat2Z.id, nth_error_app2 by lia.
  rewrite Nat.sub_diag. reflexivity.
Qed.

Lemma chunk_eqb_false (x y : option Z) : chunk_eqb x y = false -> x <> y.
Proof.
  intros H E. apply chunk_eqb_eq in E. congruence.
Qed.

Lemma ranges_loop_spec (rest : list (option Z)) :
  forall (done : list (option Z)) (start : Z) (prev : option Z),
    0 <= start <= len done ->
    (forall i, start <= i < len done -> item (done ++ rest) i = Some prev) ->
    (start = len done -> exists t, rest = prev :: t) ->
    let all := done ++ rest in
    let ranges := ranges_loop rest (len done) start prev in
    tiles start (len all) ranges
    /\ Forall (fun r => forall i, fst r <= i < snd r ->
                 item all i = item all (fst r)) ranges
    /\ Forall (fun r => snd r < len all ->
                 item all (snd r) <> item all (snd r - 1)) ranges.
Proof.
  induction rest as [|c t IH]; intros done start prev Hs Hrun Hfirst; cbv zeta.
  - assert (start < len done).
    { destruct (Z.eq_dec start (len done)) as [E|E]; [|lia].
      destruct (Hfirst E) as [t Ht]. discriminate. }
    rewrite app_nil_r in *. cbn [ranges_loop tiles].
    split; [repeat split; lia|]. split.
    + constructor; [|constructor]. cbn [fst snd]. intros i Hi.
      rewrite (Hrun i Hi), (Hrun start) by lia. reflexivity.
    + constructor; [|constructor]. cbn [fst snd]. lia.
  - cbn [ranges_loop].
    assert (Hlen : len (done ++ [c]) = len done + 1)
      by (unfold len; rewrite length_app; simpl; lia).
    assert (Happ : (done ++ [c]) ++ t = done ++ c :: t)
      by (rewrite <- app_assoc; reflexivity).
    destruct (chunk_eqb c prev) eqn:E; cbn [negb].
    + apply chunk_eqb_eq in E. subst c.
      specialize (IH (done ++ [prev]) start prev).
      rewrite Hlen, Happ in IH. apply IH; [lia| |lia].
      intros i Hi. destruct (Z.eq_dec i (len done)) as [->|Hne];
        [apply item_middle|apply Hrun; lia].
    + apply chunk_eqb_false in E.
      assert (start < len done).
      { destruct (Z.eq_dec start (len done)) as [E'|E']; [|lia].
        destruct (Hfirst E') as [t' Ht]. congruence. }
      specialize (IH (done ++ [c]) (len done) c).
      rewrite Hlen, Happ in IH.
      destruct IH as (T & U & B); [lia| |lia|].
      { intros i Hi. replace i with (len done) by lia. apply item_middle. }
      cbn [tiles]. split; [repeat split; [lia|exact T]|]. split.
      * constructor; [|exact U]. cbn [fst snd]. intros i Hi.
        rewrite (Hrun i Hi), (Hrun start) by lia. reflexivity.
      * constructor; [|exact B]. cbn [fst snd]. intros _.
        rewrite item_middle, (Hrun (len done - 1)) by lia. congruence.
Qed.

End RangeFacts.

Module ChunkRanges.
Import RangeFacts.

(** The ranges of [_rebuild_chunk_ranges] cover the sentences from the
    first to the last, one after the other and none empty; the sentences
    of a range all have the chunk of its first one, and the sentence after
    a range has another chunk than the last sentence of the range. *)
Theorem rebuild_chunk_ranges_runs (chunks : list (option Z)) :
  let ranges := _rebuild_chunk_ranges chunks in
  tiles 0 (len chunks) ranges
  /\ Forall (fun r => forall i, fst r <= i < snd r ->
               item chunks i = item chunks (fst r)) ranges
  /\ Forall (fun r => snd r < len chunks ->
               item chunks (snd r) <> item chunks (snd r - 1)) ranges.
Proof.
  destruct chunks as [|first rest].
  - cbv zeta. cbn. split; [reflexivity|]. split; constructor.
  - apply (ranges_loop_spec (first :: rest) [] 0 first).
    + unfold len. simpl. lia.
    + unfold len. simpl. intros i Hi. lia.
    + intros _. exists rest. reflexivity.
Qed.

End ChunkRanges.

(** ** Tag spans *)

Module TagSpans.
Import StrFacts ChunkerText ChunkerKeeps BreakIndex.

Lemma char_at_middle (done : pystr) (c : Z) (t : pystr) :
  char_at (done ++ c :: t) (len done) = c.
Proof.
  unfold char_at, len. rewrite Nat2Z.id, app_nth2 by lia.
  rewrite Nat.sub_diag. reflexivity.
Qed.

Lemma ordered_spans_weaken (spans : list (Z * Z)) (lo lo' hi : Z) :
  lo' <= lo -> ordered_spans lo hi spans -> ordered_spans lo' hi spans.
Proof.
  destruct spans as [|[s e] rest]; [trivial|].
  simpl. intros H (H1 & H2 & H3 & H4). repeat split; try lia. exact H4.
Qed.

(** The state of [_iter_tag_spans] after the characters [done]: either no
    tag is open, or one is, from an opening bracket with no closing
    bracket after it so far. *)
Lemma tag_spans_from_spec (s : pystr) :
  forall (done : pystr) (open : option Z),
    match open with
    | Some st => 0 <= st < len done /\ char_at (done ++ s) st = 91
    | None => True
    end ->
    let text := done ++ s in
    let spans := tag_spans_from s (len done) open in
    ordered_spans (match open with Some st => st | None => len done end)
                  (len text) spans
    /\ Forall (fun sp => char_at text (fst sp) = 91) spans
    /\ Forall (fun sp => char_at text (snd sp - 1) = 93 \/ snd sp = len text) spans
    /\ (forall i, len done <= i < len text -> char_at text i = 91 ->
          covered spans i = true)
    /\ match open with
       | Some st => exists e rest, spans = (st, e) :: rest
       | None => True
       end.
Proof.
  induction s as [|c t IH]; intros done open Hopen; cbv zeta.
  - rewrite app_nil_r in *. cbn [tag_spans_from]. destruct open as [st|].
    + cbn [ordered_spans]. split; [repeat split; lia|]. split.
      * constructor; [|constructor]. apply Hopen.
      * split; [constructor; [right; reflexivity|constructor]|].
        split; [intros i Hi; lia|]. eexists; eexists; reflexivity.
    + split; [exact I|]. split; [constructor|]. split; [constructor|].
      split; [intros i Hi; lia|exact I].
  - assert (Hlen : len (done ++ [c]) = len done + 1)
      by (unfold len; rewrite length_app; simpl; lia).
    assert (Happ : (done ++ [c]) ++ t = done ++ c :: t)
      by (rewrite <- app_assoc; reflexivity).
    assert (Hall : len (done ++ c :: t) = len done + 1 + len t)
      by (unfold len; rewrite length_app; simpl; lia).
    pose proof (len_nonneg done) as Hd. pose proof (len_nonneg t) as Ht.
    cbn [tag_spans_from]. destruct open as [st|].
    + destruct Hopen as [Hst Hch]. destruct (c =? 93) eqn:E.
      * apply Z.eqb_eq in E. subst c.
        specialize (IH (done ++ [93]) None I). cbv zeta in IH.
        rewrite Hlen, Happ in IH. destruct IH as (O & S & C & V & _).
        cbn [ordered_spans]. split; [repeat split; try lia; exact O|].
        split; [constructor; [exact Hch|exact S]|].
        split.
        { constructor; [|exact C]. left. cbn [snd].
          replace (len done + 1 - 1) with (len done) by lia. apply char_at_middle. }
        split; [|eexists; eexists; reflexivity].
        intros i Hi Hc. destruct (Z.eq_dec i (len done)) as [->|Hne].
        -- rewrite char_at_middle in Hc. discriminate.
        -- unfold covered in *. cbn [existsb]. rewrite V by lia. apply orb_true_r.
      * specialize (IH (done ++ [c]) (Some st)). cbv zeta in IH.
        rewrite Hlen, Happ in IH.
        destruct IH as (O & S & C & V & (e & rest & Hsp)); [split; [lia|exact Hch]|].
        split; [exact O|]. split; [exact S|]. split; [exact C|].
        split; [|exists e, rest; exact Hsp].
        intros i Hi Hc. destruct (Z.eq_dec i (len done)) as [->|Hne];
          [|apply V; [lia|exact Hc]].
        rewrite Hsp in O |- *. cbn [ordered_spans] in O.
        unfold covered, in_span. cbn [existsb fst snd].
        destruct O as (_ & O2 & _).
        assert (len done < e).
        { destruct (Z_lt_ge_dec (len done) e) as [L|L]; [exact L|].
          (* the span of the open tag cannot end before the current position *)
          exfalso. clear - Hsp L Hst Hd.
          assert (G : forall (u : pystr) (p : Z) (st0 : Z) e0 r0,
                     tag_spans_from u p (Some st0) = (st0, e0) :: r0 -> p <= e0).
          { induction u as [|d u IHu]; intros p st0 e0 r0 Hu; cbn [tag_spans_from] in Hu.
            - injection Hu as <- _. lia.
            - destruct (d =? 93).
              + injection Hu as <- _. lia.
              + apply IHu in Hu. lia. }
          apply G in Hsp. lia. }
        replace (st <=? len done) with true by (symmetry; apply Z.leb_le; lia).
        replace (len done <? e) with true by (symmetry; apply Z.ltb_lt; lia).
        reflexivity.
    + destruct (c =? 91) eqn:E.
      * apply Z.eqb_eq in E. subst c.
        specialize (IH (done ++ [91]) (Some (len done))). cbv zeta in IH.
        rewrite Hlen, Happ in IH.
        destruct IH as (O & S & C & V & (e & rest & Hsp));
          [split; [lia|apply char_at_middle]|].
        split; [exact O|]. split; [exact S|]. split; [exact C|]. split; [|exact I].
        intros i Hi Hc. destruct (Z.eq_dec i (len done)) as [->|Hne];
          [|apply V; [lia|exact Hc]].
        rewrite Hsp in O |- *. cbn [ordered_spans] in O.
        unfold covered, in_span. cbn [existsb fst snd].
        replace (len done <=? len done) with true by (symmetry; apply Z.leb_le; lia).
        replace (len done <? e) with true by (symmetry; apply Z.ltb_lt; lia).
        reflexivity.
      * specialize (IH (done ++ [c]) None I). cbv zeta in IH.
        rewrite Hlen, Happ in IH. destruct IH as (O & S & C & V & _).
        split; [eapply ordered_spans_weaken; [|exact O]; lia|].
        split; [exact S|]. split; [exact C|]. split; [|exact I].
        intros i Hi Hc. destruct (Z.eq_dec i (len done)) as [->|Hne];
          [|apply V; [lia|exact Hc]].
        rewrite char_at_middle in Hc. apply Z.eqb_neq in E. contradiction.
Qed.

End TagSpans.

Module TagSpanClaims.
Import TagSpans.

(** The spans of [_iter_tag_spans] lie within the text in increasing
    order, without overlap and none empty; each starts at an opening
    bracket and ends right after a closing bracket or at the end of the
    text; and every opening bracket of the text lies in one of them. *)
Theorem iter_tag_spans_wellformed (text : pystr) :
  let spans := _iter_tag_spans text in
  ordered_spans 0 (len text) spans
  /\ Forall (fun sp => char_at text (fst sp) = 91) spans
  /\ Forall (fun sp => char_at text (snd sp - 1) = 93 \/ snd sp = len text) spans
  /\ forall i, 0 <= i < len text -> char_at text i = 91 -> covered spans i = true.
Proof.
  destruct (tag_spans_from_spec text [] None I) as (O & S & C & V & _).
  cbv zeta. unfold _iter_tag_spans. repeat split; assumption.
Qed.

End TagSpanClaims.

(** ** Masked tags and break indices *)

Module MaskFacts.
Import StrFacts ChunkerText ChunkerKeeps BreakIndex TagSpans.

Lemma mask_from_nth (spans : list (Z * Z)) (s : pystr) :
  forall (i : Z) (k : nat),
    (k < length s)%nat ->
    nth k (mask_from spans s i) 0
    = if covered spans (i + Z.of_nat k) then 97 else nth k s 0.
Proof.
  induction s as [|c t IH]; intros i k Hk; [simpl in Hk; lia|].
  destruct k as [|k]; cbn [mask_from nth].
  - unfold covered. rewrite Z.add_0_r. reflexivity.
  - rewrite IH by (simpl in Hk; lia).
    replace (i + 1 + Z.of_nat k) with (i + Z.of_nat (S k)) by lia. reflexivity.
Qed.

Lemma mask_from_nil (s : pystr) : forall i, mask_from [] s i = s.
Proof. induction s as [|c t IH]; intros i; simpl; [|rewrite IH]; reflexivity. Qed.

Lemma ordered_spans_in (spans : list (Z * Z)) :
  forall lo hi sp,
    ordered_spans lo hi spans -> In sp spans ->
    lo <= fst sp /\ fst sp < snd sp /\ snd sp <= hi.
Proof.
  induction spans as [|[s e] rest IH]; intros lo hi sp H Hin; [destruct Hin|].
  destruct H as (H1 & H2 & H3 & H4). destruct Hin as [<-|Hin].
  - simpl. lia.
  - destruct (IH _ _ _ H4 Hin). lia.
Qed.

(** What [_adjust_break_index] returns: the index itself if it is inside
    no span, else an end of the first span that holds it. *)
Lemma adjust_cases (idx : Z) (spans : list (Z * Z)) :
  (~ inside_span spans idx /\ _adjust_break_index idx spans = idx)
  \/ exists sp, In sp spans /\ fst sp < idx < snd sp
                /\ _adjust_break_index idx spans
                   = if 0 <? fst sp then fst sp else snd sp.
Proof.
  induction spans as [|[s e] rest IH]; cbn [_adjust_break_index].
  - left. split; [intros (sp & [] & _)|reflexivity].
  - destruct ((s <? idx) && (idx <? e)) eqn:E.
    + apply andb_true_iff in E. destruct E as [E1 E2].
      apply Z.ltb_lt in E1. apply Z.ltb_lt in E2.
      right. exists (s, e). split; [left; reflexivity|]. cbn [fst snd].
      split; [lia|reflexivity].
    + destruct IH as [[Hn Hr]|(sp & Hin & Hsp & Hr)].
      * left. split; [|exact Hr]. intros (sp & [<-|Hin] & Hsp).
        -- cbn [fst snd] in Hsp.
           replace (s <? idx) with true in E by (symmetry; apply Z.ltb_lt; lia).
           replace (idx <? e) with true in E by (symmetry; apply Z.ltb_lt; lia).
           discriminate.
        -- apply Hn. exists sp. split; assumption.
      * right. exists sp. split; [right; exact Hin|]. split; assumption.
Qed.

(** The ends of a span are inside no span. *)
Lemma ends_outside (spans : list (Z * Z)) :
  forall lo hi sp,
    ordered_spans lo hi spans -> In sp spans ->
    ~ inside_span spans (fst sp) /\ ~ inside_span spans (snd sp).
Proof.
  induction spans as [|[s e] rest IH]; intros lo hi sp H Hin; [destruct Hin|].
  destruct H as (H1 & H2 & H3 & H4).
  assert (Later : forall sp', In sp' rest ->
             e <= fst sp' /\ fst sp' < snd sp') .
  { intros sp' Hin'. destruct (ordered_spans_in _ _ _ _ H4 Hin'). lia. }
  destruct Hin as [<-|Hin]; cbn [fst snd].
  - split; intros (sp' & [<-|Hin'] & Hsp); cbn [fst snd] in Hsp; try lia;
      destruct (Later _ Hin'); lia.
  - destruct (IH _ _ _ H4 Hin) as [I1 I2]. destruct (Later _ Hin).
    split; intros (sp' & [<-|Hin'] & Hsp); cbn [fst snd] in Hsp; try lia.
    + apply I1. exists sp'. split; assumption.
    + apply I2. exists sp'. split; assumption.
Qed.

Lemma adjust_outside (idx lo hi : Z) (spans : list (Z * Z)) :
  ordered_spans lo hi spans ->
  ~ inside_span spans (_adjust_break_index idx spans).
Proof.
  intros H. destruct (adjust_cases idx spans) as [[Hn ->]|(sp & Hin & _ & ->)];
    [exact Hn|].
  destruct (ends_outside _ _ _ _ H Hin). destruct (0 <? fst sp); assumption.
Qed.

(** From an index of at least 1 the adjusted index is at least 1. *)
Lemma adjust_pos (idx lo hi : Z) (spans : list (Z * Z)) :
  0 <= lo -> ordered_spans lo hi spans -> 1 <= idx ->
  1 <= _adjust_break_index idx spans.
Proof.
  intros Hlo H Hidx.
  destruct (adjust_cases idx spans) as [[_ ->]|(sp & Hin & _ & ->)]; [exact Hidx|].
  destruct (ordered_spans_in _ _ _ _ H Hin).
  destruct (0 <? fst sp) eqn:E; [apply Z.ltb_lt in E|]; lia.
Qed.

Lemma high_not_low (c : Z) : high_surrogate c = true -> low_surrogate c = false.
Proof. unfold high_surrogate, low_surrogate. lia. Qed.

Lemma safe_break_cases (s : pystr) (idx : Z) :
  let r := _safe_break_index s idx in
  0 <= r <= len s
  /\ ~ splits_pair s r
  /\ (0 <= idx <= len s ->
      (splits_pair s idx /\ r = idx - 1) \/ (~ splits_pair s idx /\ r = idx)).
Proof.
  cbv zeta. unfold _safe_break_index, splits_pair.
  pose proof (len_nonneg s) as Hn.
  destruct ((0 <? idx) && (idx <? len s) && high_surrogate (char_at s (idx - 1))
            && low_surrogate (char_at s idx)) eqn:E.
  - apply andb_true_iff in E. destruct E as [E E4].
    apply andb_true_iff in E. destruct E as [E E3].
    apply andb_true_iff in E. destruct E as [E1 E2].
    apply Z.ltb_lt in E1. apply Z.ltb_lt in E2.
    replace (Z.max 0 (Z.min (len s) (idx - 1))) with (idx - 1) by lia.
    split; [lia|]. split.
    + intros (_ & _ & Hl). rewrite (high_not_low _ E3) in Hl. discriminate.
    + intros _. left. repeat split; assumption || lia.
  - split; [lia|].
    assert (No : ~ (0 < idx < len s /\ high_surrogate (char_at s (idx - 1)) = true
                   /\ low_surrogate (char_at s idx) = true)).
    { intros ([H1 H2] & H3 & H4).
      apply Z.ltb_lt in H1. apply Z.ltb_lt in H2.
      rewrite H1, H2, H3, H4 in E. discriminate. }
    split.
    + intros (Hr & H3 & H4). apply No.
      replace idx with (Z.max 0 (Z.min (len s) idx)) by lia.
      repeat split; assumption || lia.
    + intros Hi. right. split; [exact No|lia].
Qed.

End MaskFacts.

Module BreakClaims.
Import StrFacts ChunkerText ChunkerKeeps BreakIndex TagSpans MaskFacts.

(** [_mask_tags] keeps the length of the text, turns the characters of
    the tag spans into ["a"] and leaves the others as they are; the masked
    text has no opening bracket, and masking it again changes nothing. *)
Theorem mask_tags_spec (text : pystr) :
  let masked := _mask_tags text in
  len masked = len text
  /\ (forall i, 0 <= i < len text ->
        char_at masked i
        = if covered (_iter_tag_spans text) i then 97 else char_at text i)
  /\ tag_free masked
  /\ _mask_tags masked = masked.
Proof.
  cbv zeta.
  destruct (tag_spans_from_spec text [] None I) as (_ & _ & _ & V & _).
  cbv zeta in V. simpl app in V. change (len []) with 0 in V.
  fold (_iter_tag_spans text) in V.
  assert (Hlen : len (_mask_tags text) = len text)
    by (unfold _mask_tags, len; rewrite mask_from_length; reflexivity).
  assert (Hnth : forall i, 0 <= i < len text ->
            char_at (_mask_tags text) i
            = if covered (_iter_tag_spans text) i then 97 else char_at text i).
  { intros i Hi. unfold char_at, _mask_tags.
    rewrite mask_from_nth by (unfold len in Hi; lia).
    rewrite Z.add_0_l, Z2Nat.id by lia. reflexivity. }
  assert (Hfree : tag_free (_mask_tags text)).
  { unfold tag_free. apply Forall_nth. intros k d Hk.
    assert (Hi : 0 <= Z.of_nat k < len text) by (unfold len in *; lia).
    rewrite (nth_indep _ d 0 Hk).
    specialize (Hnth _ Hi). unfold char_at in Hnth. rewrite Nat2Z.id in Hnth.
    rewrite Hnth. destruct (covered (_iter_tag_spans text) (Z.of_nat k)) eqn:C;
      [discriminate|].
    intros Hc. specialize (V _ Hi). unfold char_at in V. rewrite Nat2Z.id in V.
    rewrite (V Hc) in C. discriminate. }
  split; [exact Hlen|]. split; [exact Hnth|]. split; [exact Hfree|].
  unfold _mask_tags at 1. unfold _iter_tag_spans.
  rewrite (tag_spans_free _ 0 Hfree). apply mask_from_nil.
Qed.

(** [_adjust_break_index], given the tag spans of a text, returns an
    index that lies strictly inside none of them, and the index it was
    given if that one already does. *)
Theorem adjust_break_index_outside (text : pystr) (idx : Z) :
  let spans := _iter_tag_spans text in
  ~ inside_span spans (_adjust_break_index idx spans)
  /\ (~ inside_span spans idx -> _adjust_break_index idx spans = idx).
Proof.
  cbv zeta.
  destruct (tag_spans_from_spec text [] None I) as (O & _).
  cbv zeta in O. simpl app in O. change (len []) with 0 in O.
  fold (_iter_tag_spans text) in O.
  split; [exact (adjust_outside idx _ _ _ O)|].
  intros Hn. destruct (adjust_cases idx (_iter_tag_spans text))
    as [[_ E]|(sp & Hin & Hsp & _)]; [exact E|].
  exfalso. apply Hn. exists sp. split; assumption.
Qed.

(** [_safe_break_index] returns an index of the string that parts no
    surrogate pair: the index it was given, if that one is within the
    string and parts none, the one before it if it parts one. *)
Theorem safe_break_index_spec (s : pystr) (idx : Z) :
  let r := _safe_break_index s idx in
  0 <= r <= len s
  /\ ~ splits_pair s r
  /\ (0 <= idx <= len s ->
      (splits_pair s idx /\ r = idx - 1) \/ (~ splits_pair s idx /\ r = idx)).
Proof. apply safe_break_cases. Qed.

End BreakClaims.

(** ** The break found in an overlong sentence *)

Module FindBreakFacts.
Import StrFacts ChunkerText ChunkerKeeps BreakIndex TagSpans MaskFacts.

Lemma finditer_ends_pos (m : pystr -> option nat) (s : pystr) :
  forall pos skip, Forall (fun e => (1 <= snd e)%nat) (finditer m s pos skip).
Proof.
  induction s as [|c t IH]; intros pos skip; [constructor|].
  destruct skip as [|k]; cbn [finditer]; [|apply IH].
  destruct (m (c :: t)) as [[|n]|]; try apply IH.
  constructor; [simpl; lia|apply IH].
Qed.

Lemma last_match_end_cases (matches : list (nat * nat)) :
  Forall (fun e => (1 <= snd e)%nat) matches ->
  forall init,
    (init = -1 \/ 1 <= init) ->
    fold_left (fun _ m => Z.of_nat (snd m)) matches init = -1
    \/ 1 <= fold_left (fun _ m => Z.of_nat (snd m)) matches init.
Proof.
  induction 1 as [|e es He _ IH]; intros init Hi; [exact Hi|].
  simpl. apply IH. right. lia.
Qed.

Lemma py_int_nonneg (n : Z) : 0 <= n -> 0 <= py_int (inject_Z n * (6 # 10)).
Proof.
  intros H. unfold py_int. apply Z.quot_pos; [simpl; lia|reflexivity].
Qed.

(** For a limit of at least 1 the break is the safe index of the adjusted
    index of some position from 1 on. *)
Lemma find_break_form (remaining : pystr) (limit : Z) :
  1 <= limit ->
  exists x,
    1 <= x
    /\ _find_break remaining limit
       = _safe_break_index remaining
           (_adjust_break_index x (_iter_tag_spans remaining)).
Proof.
  intros Hl. unfold _find_break.
  destruct (tag_spans_from_spec remaining [] None I) as (O & _).
  cbv zeta in O. simpl app in O. change (len []) with 0 in O.
  fold (_iter_tag_spans remaining) in O.
  set (spans := _iter_tag_spans remaining) in *.
  set (masked := _mask_tags (py_prefix remaining limit)).
  set (best := last_match_end (finditer match_break masked 0 0)).
  assert (Hb : best = -1 \/ 1 <= best).
  { unfold best, last_match_end. apply last_match_end_cases;
      [apply finditer_ends_pos|left; reflexivity]. }
  pose proof (py_int_nonneg limit ltac:(lia)) as Hq.
  assert (Pos : forall x, 1 <= x ->
            (if _adjust_break_index x spans <=? 0 then Z.max 1 x
             else _adjust_break_index x spans) = _adjust_break_index x spans).
  { intros x Hx. pose proof (adjust_pos x 0 _ spans ltac:(lia) O Hx).
    destruct (_adjust_break_index x spans <=? 0) eqn:E;
      [apply Z.leb_le in E; lia|reflexivity]. }
  destruct (_ <=? best) eqn:E.
  - apply Z.leb_le in E. exists best. split; [lia|]. rewrite Pos by lia. reflexivity.
  - set (last_space := Z.max (Z.max (rfind masked 32) (rfind masked 10)) (rfind masked 9)).
    destruct (0 <? last_space) eqn:E0.
    + apply Z.ltb_lt in E0. exists (last_space + 1). split; [lia|].
      rewrite Pos by lia. reflexivity.
    + exists limit. split; [exact Hl|].
      pose proof (adjust_pos limit 0 _ spans ltac:(lia) O Hl).
      destruct (_adjust_break_index limit spans <=? 0) eqn:E1;
        [apply Z.leb_le in E1; lia|reflexivity].
Qed.

Lemma safe_break_beyond (s : pystr) (idx : Z) :
  len s < idx -> _safe_break_index s idx = len s.
Proof.
  intros H. unfold _safe_break_index. pose proof (len_nonneg s).
  replace (idx <? len s) with false by (symmetry; apply Z.ltb_ge; lia).
  rewrite andb_false_r. simpl. lia.
Qed.

End FindBreakFacts.

Module FindBreak.
Import StrFacts ChunkerText ChunkerKeeps BreakIndex TagSpans MaskFacts
  FindBreakFacts.

(** For a limit of at least 1, [_find_break] returns an index of the text
    that is strictly inside no bracketed tag and parts no surrogate pair;
    it is at most the limit on a text without opening brackets, and at
    least 1 on a non-empty text without high surrogates. *)
Theorem find_break_safe (remaining : pystr) (limit : Z) :
  1 <= limit ->
  let r := _find_break remaining limit in
  0 <= r <= len remaining
  /\ ~ inside_span (_iter_tag_spans remaining) r
  /\ ~ splits_pair remaining r
  /\ (tag_free remaining -> r <= limit)
  /\ (no_high_surrogate remaining -> 1 <= len remaining -> 1 <= r).
Proof.
  intros Hl. cbv zeta.
  destruct (find_break_form remaining limit Hl) as (x & Hx & E).
  destruct (tag_spans_from_spec remaining [] None I) as (O & _ & C & _).
  cbv zeta in O, C. simpl app in O, C. change (len []) with 0 in O.
  fold (_iter_tag_spans remaining) in O, C.
  set (spans := _iter_tag_spans remaining) in *.
  pose proof (adjust_outside x _ _ _ O) as Hout.
  pose proof (adjust_pos x 0 _ spans ltac:(lia) O Hx) as Hpos.
  set (a := _adjust_break_index x spans) in *.
  destruct (safe_break_cases remaining a) as (R1 & R2 & R3). cbv zeta in R1, R2, R3.
  rewrite E. split; [exact R1|]. split; [|split; [exact R2|]].
  - destruct (Z_le_gt_dec a (len remaining)) as [L|L].
    + destruct (R3 ltac:(lia)) as [[Hs Hr]|[_ Hr]]; rewrite Hr; [|exact Hout].
      intros (sp & Hin & Hsp).
      assert (a = snd sp).
      { destruct (Z_lt_ge_dec a (snd sp)) as [L'|L']; [|lia].
        exfalso. apply Hout. exists sp. split; [exact Hin|lia]. }
      rewrite Forall_forall in C. destruct Hs as (Hs1 & Hs2 & _).
      destruct (C _ Hin) as [Hc|Hc]; [|lia].
      rewrite <- H in Hc. rewrite Hc in Hs2. discriminate.
    + rewrite safe_break_beyond by lia.
      intros (sp & Hin & Hsp). destruct (ordered_spans_in _ _ _ _ O Hin). lia.
  - rewrite <- E. split.
    + intros Hf. apply find_break_le; assumption.
    + intros Hp Hn. apply find_break_pos; assumption.
Qed.

Lemma find_break_safe_witness :
  _find_break Examples.long_tag 5 = 12
  /\ ~ inside_span (_iter_tag_spans Examples.long_tag) 12.
Proof.
  destruct (find_break_safe Examples.long_tag 5) as (_ & H & _); [lia|].
  split; [vm_compute; reflexivity|].
  replace 12 with (_find_break Examples.long_tag 5) by (vm_compute; reflexivity).
  exact H.
Defined.

End FindBreak.

(** ** The sentences and the chunks *)

Module SentenceFacts.
Import StrFacts ChunkerText ChunkerKeeps BalanceText.

Lemma non_blank_not_marker (s : pystr) : non_blank s -> is_marker s = false.
Proof.
  intros H. destruct (is_marker s) eqn:M; [|reflexivity].
  apply is_marker_eq in M. subst s. discriminate.
Qed.

Lemma cut_sentences_non_blank (p : pystr) (ends : list nat) :
  forall i, Forall non_blank (cut_sentences p i ends).
Proof.
  induction ends as [|e es IH]; intros i; cbn [cut_sentences].
  - destruct (Nat.ltb i (length p)); [|constructor].
    destruct (nonempty (strip (skipn i p))) eqn:E; [|constructor].
    constructor; [exact E|constructor].
  - apply Forall_app. split; [|apply IH].
    destruct (nonempty (strip (firstn (e - i) (skipn i p)))) eqn:E; [|constructor].
    constructor; [exact E|constructor].
Qed.

(** A paragraph that is not blank has a first sentence. *)
Lemma para_sentences_head (p : pystr) :
  nonempty (strip p) = true ->
  exists s rest, para_sentences p = s :: rest /\ non_blank s.
Proof.
  intros H. pose proof (para_sentences_squash p) as Q.
  pose proof (cut_sentences_non_blank p
                (map snd (finditer match_sentence_end (_mask_tags p) 0 0)) 0) as F.
  fold (para_sentences p) in F.
  destruct (para_sentences p) as [|s rest].
  - simpl in Q. exfalso.
    assert (L : lstrip p = []).
    { clear - Q. induction p as [|c t IH]; [reflexivity|].
      simpl in Q. simpl. destruct (isspace c); [apply IH, Q|discriminate]. }
    unfold strip in H. rewrite L in H. discriminate.
  - inversion F; subst. exists s, rest. split; [reflexivity|assumption].
Qed.

Lemma no_adjacent_app (xs ys : list pystr) :
  no_adjacent_markers xs -> no_adjacent_markers ys ->
  (forall y rest, ys = y :: rest -> is_marker y = false) ->
  no_adjacent_markers (xs ++ ys).
Proof.
  intros Hx Hy Hh. induction xs as [|a [|b t] IH].
  - exact Hy.
  - destruct ys as [|y rest]; [exact I|]. cbn. split; [|exact Hy].
    rewrite (Hh y rest eq_refl). intros [_ F]. discriminate.
  - destruct Hx as [H1 H2]. cbn. split; [exact H1|]. apply IH, H2.
Qed.

Lemma no_adjacent_non_blank (xs : list pystr) :
  Forall non_blank xs -> no_adjacent_markers xs.
Proof.
  induction 1 as [|a t Ha _ IH]; [exact I|].
  destruct t as [|b t']; [exact I|]. split; [|exact IH].
  rewrite (non_blank_not_marker _ Ha). intros [F _]. discriminate.
Qed.

Lemma paras_loop_shape (paras : list pystr) : after_sentence (paras_loop paras).
Proof.
  induction paras as [|p rest IH]; [repeat split; [constructor|discriminate]|].
  cbn [paras_loop]. destruct (nonempty (strip p)) eqn:E; [|exact IH].
  destruct IH as (F & N & Hd).
  pose proof (cut_sentences_non_blank (strip p)
                (map snd (finditer match_sentence_end (_mask_tags (strip p)) 0 0)) 0)
    as G.
  fold (para_sentences (strip p)) in G.
  assert (E' : nonempty (strip (strip p)) = true) by (rewrite strip_idem; exact E).
  destruct (para_sentences_head (strip p) E') as (s & more & Hs & Hnb).
  split; [|split].
  - apply Forall_app. split; [eapply Forall_impl; [|exact G]; intros; right; assumption|].
    apply Forall_app. split; [|exact F].
    destruct rest; [constructor|]. constructor; [left; reflexivity|constructor].
  - assert (Tail : no_adjacent_markers
                     ((match rest with [] => [] | _ => [marker] end)
                      ++ paras_loop rest)).
    { destruct rest as [|q rest']; [exact N|]. cbn [app].
      destruct (paras_loop (q :: rest')) as [|y ys] eqn:P; [exact I|].
      split; [|exact N]. rewrite (Hd y ys eq_refl). intros [_ X]. discriminate. }
    rewrite Hs. rewrite Hs in G. clear Hs.
    revert Tail. generalize ((match rest with [] => [] | _ => [marker] end)
                              ++ paras_loop rest).
    intros tail Tail.
    assert (K : forall xs, Forall non_blank xs -> xs <> [] ->
                no_adjacent_markers (xs ++ tail)).
    { induction xs as [|a [|b t] IHx]; intros Hx Hne; [contradiction| |].
      - inversion Hx; subst. destruct tail as [|y ys]; [exact I|]. cbn.
        split; [|exact Tail]. rewrite (non_blank_not_marker a) by assumption.
        intros [X _]. discriminate.
      - inversion Hx; subst. cbn. split.
        + rewrite (non_blank_not_marker a) by assumption. intros [X _]. discriminate.
        + apply IHx; [assumption|discriminate]. }
    apply K; [exact G|discriminate].
  - intros s0 rest0 H0. rewrite Hs in H0. injection H0 as <- _.
    apply non_blank_not_marker, Hnb.
Qed.

(** With no two markers side by side, the removal of repeated markers
    removes nothing. *)
Lemma dedupe_markers_id (sents : list pystr) :
  forall prev,
    no_adjacent_markers sents ->
    (forall s rest, sents = s :: rest ->
       ~ (is_marker s = true
          /\ match prev with Some q => is_marker q | None => false end = true)) ->
    dedupe_markers sents prev = sents.
Proof.
  induction sents as [|a t IH]; intros prev N Hd; [reflexivity|].
  cbn [dedupe_markers].
  destruct (is_marker a && match prev with Some q => is_marker q | None => false end)
    eqn:E.
  - apply andb_true_iff in E. exfalso. exact (Hd a t eq_refl E).
  - f_equal. apply IH.
    + destruct t; [exact I|]. apply N.
    + intros s rest Hs. subst t. destruct N as [N _]. intros [X Y]. apply N.
      split; assumption.
Qed.

Lemma rebuild_stripped (fuel : nat) :
  forall sents entries,
    Forall (fun c => c <> [] /\ strip c = c) (rebuild fuel sents entries).
Proof.
  induction fuel as [|fuel IH]; intros sents entries; [constructor|].
  destruct sents as [|s rest]; [constructor|].
  rewrite rebuild_eq. cbv zeta. apply Forall_app. split; [|apply IH].
  destruct (nonempty (strip _)) eqn:E; [|constructor].
  constructor; [|constructor]. split; [|apply strip_idem].
  intros X. rewrite X in E. discriminate.
Qed.

Lemma squash_nil_lstrip (s : pystr) : squash s = [] -> lstrip s = [].
Proof.
  induction s as [|c t IH]; [reflexivity|].
  simpl. destruct (isspace c); [exact IH|discriminate].
Qed.

Lemma stripped_has_text (c : pystr) : c <> [] -> strip c = c -> squash c <> [].
Proof.
  intros Hne Hs Hq. apply squash_nil_lstrip in Hq.
  unfold strip in Hs. rewrite Hq in Hs. apply Hne. rewrite <- Hs. reflexivity.
Qed.

End SentenceFacts.

Module SentenceClaims.
Import StrFacts ChunkerText ChunkerKeeps BalanceText SentenceFacts.

(** The sentences of [_split_into_sentences_with_paras] hold the text of
    the source, less some of its whitespace; each is a paragraph marker or
    has text in it; no two markers stand side by side and the first
    sentence is not a marker. *)
Theorem split_into_sentences_shape (source : pystr) :
  let sents := _split_into_sentences_with_paras source in
  squash (concat sents) = squash source
  /\ Forall (fun s => is_marker s = true \/ non_blank s) sents
  /\ no_adjacent_markers sents
  /\ forall s rest, sents = s :: rest -> is_marker s = false.
Proof.
  cbv zeta. split; [apply split_sentences_squash|].
  unfold _split_into_sentences_with_paras.
  destruct (paras_loop_shape (re_split match_para_sep source 0 [])) as (F & N & Hd).
  rewrite dedupe_markers_id; [repeat split; assumption|exact N|].
  intros s rest Hs [_ X]. discriminate.
Qed.

(** For a limit > 0, every chunk of [split_balanced_tts] is non-empty and
    has no whitespace at its ends, and a source of whitespace alone gives
    no chunk. *)
Theorem split_balanced_tts_chunks (source : pystr) (limit : Z)
  (chunks : list pystr) :
  0 < limit ->
  split_balanced_tts source limit = Some chunks ->
  Forall (fun c => c <> [] /\ strip c = c) chunks
  /\ (squash source = [] -> chunks = []).
Proof.
  intros Hl H.
  assert (F : Forall (fun c => c <> [] /\ strip c = c) chunks).
  { unfold split_balanced_tts in H.
    destruct (limit <=? 0) eqn:E; [apply Z.leb_le in E; lia|].
    destruct (normalize_all _ _) as [sents|]; [|discriminate].
    injection H as <-. apply rebuild_stripped. }
  split; [exact F|]. intros Hb.
  pose proof (split_balanced_tts_squash _ _ _ Hl H) as Q. rewrite Hb in Q.
  destruct chunks as [|c rest]; [reflexivity|]. exfalso.
  inversion F as [|? ? [Hne Hs] _]; subst.
  cbn [concat] in Q. rewrite squash_app in Q. apply app_eq_nil in Q.
  exact (stripped_has_text c Hne Hs (proj1 Q)).
Qed.

Lemma split_balanced_tts_chunks_witness :
  split_balanced_tts Examples.hi_yo 4 = Some [lit "Hi."; lit "Yo."]
  /\ Forall (fun c => c <> [] /\ strip c = c) [lit "Hi."; lit "Yo."].
Proof.
  assert (E : split_balanced_tts Examples.hi_yo 4 = Some [lit "Hi."; lit "Yo."])
    by (vm_compute; reflexivity).
  split; [exact E|].
  apply (split_balanced_tts_chunks Examples.hi_yo 4 _ ltac:(lia) E).
Defined.

End SentenceClaims.
(** ** The chunks that exceed the limit *)

Module ChunkBound.
Import StrFacts SplitFacts ChunkerText ChunkerKeeps BreakIndex BalanceText
  ChunkLength TagSpans MaskFacts FindBreakFacts.

Local Notation "'unclosed'" := (forallb (fun y => negb (y =? 93))).







Section Bound.

Variable limit : Z.
Hypothesis Hl : 1 <= limit.

Local Notation "'fits'" := (within_or_tag limit).





End Bound.

End ChunkBound.

(** ** The balanced chunker *)

Module BalancedChunker.
Import StrFacts ChunkerKeeps BalanceText ChunkLength ChunkBound Examples.


(** A tag is no unit of the chunker: one with a blank line in it is cut
    there, the paragraphs being split before the tags are looked for. *)
Lemma tag_cut_at_blank_line :
  split_balanced_tts tag_over_paragraphs 5 = Some [lit "[aaaa"; lit "bbbb]"].
Proof. vm_compute. reflexivity. Qed.



End BalancedChunker.
(** ** The two normalizations of an overlong sentence *)

Module SplitAgree.
Import StrFacts SplitFacts ChunkerText ChunkerKeeps BreakIndex BalanceText
  ChunkLength TagSpans MaskFacts FindBreakFacts.

Local Notation "'blank'" := (Forall (fun c => isspace c = true)).

Lemma lstrip_blank (u y : pystr) : blank u -> lstrip (u ++ y) = lstrip y.
Proof.
  induction 1 as [|c u Hc _ IH]; [reflexivity|].
  cbn [app lstrip]. rewrite Hc. exact IH.
Qed.

Lemma lstrip_split (y : pystr) : exists u, y = u ++ lstrip y /\ blank u.
Proof.
  induction y as [|c t (u & IH & B)]; [exists []; split; [reflexivity|constructor]|].
  cbn [lstrip]. destruct (isspace c) eqn:E.
  - exists (c :: u). split; [cbn [app]; f_equal; exact IH|constructor; assumption].
  - exists []. split; [reflexivity|constructor].
Qed.

Lemma rstrip_split (s : pystr) : exists w, s = rstrip s ++ w /\ blank w.
Proof.
  destruct (lstrip_split (rev s)) as (u & E & B).
  exists (rev u). split; [|apply Forall_rev, B].
  unfold rstrip. rewrite <- rev_app_distr, <- E. symmetry. apply rev_involutive.
Qed.

Lemma rstrip_blank (x w : pystr) : blank w -> rstrip (x ++ w) = rstrip x.
Proof.
  intros B. unfold rstrip. rewrite rev_app_distr, lstrip_blank; [reflexivity|].
  apply Forall_rev, B.
Qed.

Lemma lstrip_app (x w : pystr) :
  lstrip (x ++ w) = match lstrip x with [] => lstrip w | _ => lstrip x ++ w end.
Proof.
  induction x as [|c t IH]; [cbn; destruct (lstrip w); reflexivity|].
  cbn [app lstrip]. destruct (isspace c); [exact IH|reflexivity].
Qed.

Lemma lstrip_all_blank (w : pystr) : blank w -> lstrip w = [].
Proof. intros B. rewrite <- (app_nil_r w). rewrite lstrip_blank; [reflexivity|exact B]. Qed.

Lemma strip_app_blank (x w : pystr) : blank w -> strip (x ++ w) = strip x.
Proof.
  intros B. unfold strip. rewrite lstrip_app.
  destruct (lstrip x) as [|c t] eqn:E.
  - rewrite (lstrip_all_blank w B). reflexivity.
  - apply rstrip_blank, B.
Qed.

(** A state in which the break is at 0 repeats forever. *)
Lemma break_loop_stuck (limit : Z) (rest : pystr) :
  strip rest = rest -> limit < len rest ->
  Z.to_nat (_find_break rest limit) = 0%nat ->
  forall fuel pieces, break_loop fuel limit rest pieces = None.
Proof.
  intros Hs Hl Hb. induction fuel as [|fuel IH]; intros pieces;
    rewrite break_loop_eq;
    (replace (len rest <=? limit) with false by (symmetry; apply Z.leb_gt; lia));
    [reflexivity|].
  cbv zeta. rewrite Hb. cbn [firstn skipn]. change (strip []) with (@nil Z).
  cbn [nonempty]. rewrite Hs. apply IH.
Qed.

(** More fuel than the characters left changes nothing. *)
Lemma break_loop_fuel (limit : Z) (Hl : 0 <= limit) (f1 : nat) :
  forall f2 rest pieces,
    strip rest = rest ->
    (length rest < f1)%nat -> (length rest < f2)%nat ->
    break_loop f1 limit rest pieces = break_loop f2 limit rest pieces.
Proof.
  induction f1 as [|f1 IH]; intros f2 rest pieces Hs H1 H2; [lia|].
  destruct f2 as [|f2]; [lia|].
  rewrite (break_loop_eq (S f1)), (break_loop_eq (S f2)).
  destruct (len rest <=? limit) eqn:E; [reflexivity|].
  apply Z.leb_gt in E. cbv zeta.
  destruct (Z.to_nat (_find_break rest limit)) as [|b] eqn:Eb.
  - pose proof (break_loop_stuck limit rest Hs E Eb) as St.
    generalize (St (S f1) pieces), (St (S f2) pieces).
    rewrite (break_loop_eq (S f1)), (break_loop_eq (S f2)).
    replace (len rest <=? limit) with false by (symmetry; apply Z.leb_gt; lia).
    cbv zeta. rewrite Eb. intros -> ->. reflexivity.
  - apply IH; [apply strip_idem| |];
      pose proof (strip_length (skipn (S b) rest)) as L;
      rewrite length_skipn in L; unfold len in E; lia.
Qed.

Local Notation "'plain'" := (Forall (fun c => c <> 91 /\ c <> 93)).

Lemma blank_plain (w : pystr) : blank w -> plain w.
Proof.
  intros B. eapply Forall_impl; [|exact B]. cbv beta. intros c Hc.
  split; intros ->; discriminate.
Qed.

Lemma blank_not_low (c : Z) : isspace c = true -> low_surrogate c = false.
Proof. unfold isspace, low_surrogate. lia. Qed.

Lemma tag_spans_plain (w : pystr) :
  plain w ->
  forall pos open,
    tag_spans_from w pos open
    = match open with Some st => [(st, pos + len w)] | None => [] end.
Proof.
  induction 1 as [|c w [H1 H2] _ IH]; intros pos open.
  - cbn [tag_spans_from]. change (len []) with 0. rewrite Z.add_0_r. reflexivity.
  - cbn [tag_spans_from].
    replace (pos + len (c :: w)) with (pos + 1 + len w)
      by (unfold len; cbn [length]; lia).
    destruct open as [st|].
    + replace (c =? 93) with false by (symmetry; apply Z.eqb_neq; exact H2).
      apply IH.
    + replace (c =? 91) with false by (symmetry; apply Z.eqb_neq; exact H1).
      apply IH.
Qed.

(** The spans of a text followed by plain characters: those closed in the
    text, and the open one stretched. *)
Lemma tag_spans_app (w : pystr) (Hw : plain w) (t : pystr) :
  forall pos open,
    exists closed o,
      tag_spans_from t pos open
      = closed ++ match o with Some st => [(st, pos + len t)] | None => [] end
      /\ tag_spans_from (t ++ w) pos open
         = closed ++ match o with
                     | Some st => [(st, pos + len t + len w)]
                     | None => []
                     end.
Proof.
  induction t as [|c t IH]; intros pos open.
  - exists [], open. cbn [app tag_spans_from]. rewrite tag_spans_plain by exact Hw.
    change (len []) with 0. rewrite Z.add_0_r. split; reflexivity.
  - assert (L : forall p, p + 1 + len t = p + len (c :: t))
      by (intros p; unfold len; cbn [length]; lia).
    cbn [app tag_spans_from]. destruct open as [st|].
    + destruct (c =? 93).
      * destruct (IH (pos + 1) None) as (closed & o & E1 & E2).
        exists ((st, pos + 1) :: closed), o. rewrite E1, E2, L. split; reflexivity.
      * destruct (IH (pos + 1) (Some st)) as (closed & o & E1 & E2).
        exists closed, o. rewrite E1, E2, L. split; reflexivity.
    + destruct (c =? 91).
      * destruct (IH (pos + 1) (Some pos)) as (closed & o & E1 & E2).
        exists closed, o. rewrite E1, E2, L. split; reflexivity.
      * destruct (IH (pos + 1) None) as (closed & o & E1 & E2).
        exists closed, o. rewrite E1, E2, L. split; reflexivity.
Qed.

Lemma adjust_app (x : Z) (a : list (Z * Z)) :
  (exists r, forall l, _adjust_break_index x (a ++ l) = r)
  \/ (forall l, _adjust_break_index x (a ++ l) = _adjust_break_index x l).
Proof.
  induction a as [|[s e] a IH]; [right; reflexivity|].
  cbn [app _adjust_break_index]. destruct ((s <? x) && (x <? e)).
  - left. eexists. intros l. reflexivity.
  - exact IH.
Qed.

(** The adjusted index of a position of the text, with and without a
    blank tail. *)
Lemma adjust_compare (t w : pystr) (x : Z) :
  blank w -> 1 <= x < len t ->
  let it := _adjust_break_index x (_iter_tag_spans t) in
  let iw := _adjust_break_index x (_iter_tag_spans (t ++ w)) in
  (iw = it /\ 1 <= it <= len t) \/ (it = len t /\ iw = len t + len w).
Proof.
  intros B Hx. cbv zeta.
  destruct (tag_spans_from_spec t [] None I) as (O & _).
  cbv zeta in O. simpl app in O. change (len []) with 0 in O.
  fold (_iter_tag_spans t) in O.
  assert (Bound : 1 <= _adjust_break_index x (_iter_tag_spans t) <= len t).
  { split; [apply (adjust_pos x 0 (len t)); [lia|exact O|lia]|].
    destruct (adjust_cases x (_iter_tag_spans t)) as [[_ ->]|(sp & Hin & _ & ->)];
      [lia|].
    destruct (ordered_spans_in _ _ _ _ O Hin).
    destruct (0 <? fst sp); lia. }
  unfold _iter_tag_spans in *.
  destruct (tag_spans_app w (blank_plain w B) t 0 None) as (closed & o & E1 & E2).
  rewrite E1, E2 in *. rewrite !Z.add_0_l.
  destruct (adjust_app x closed) as [[r Hr]|Hr].
  - left. rewrite !Hr in *. split; [reflexivity|exact Bound].
  - rewrite !Hr in *. destruct o as [st|]; [|left; split; [reflexivity|exact Bound]].
    rewrite Z.add_0_l in Bound. cbn [_adjust_break_index] in *.
    replace (x <? len t) with true in * by (symmetry; apply Z.ltb_lt; lia).
    replace (x <? len t + len w) with true
      by (symmetry; apply Z.ltb_lt; pose proof (len_nonneg w); lia).
    destruct (st <? x); cbn [andb] in *; [|left; split; [reflexivity|exact Bound]].
    destruct (0 <? st); [left; split; [reflexivity|exact Bound]|].
    right. split; reflexivity.
Qed.

Lemma char_at_app (t w : pystr) (i : Z) :
  0 <= i < len t -> char_at (t ++ w) i = char_at t i.
Proof. intros H. unfold char_at, len in *. apply app_nth1. lia. Qed.

Lemma len_app' (t w : pystr) : len (t ++ w) = len t + len w.
Proof. unfold len. rewrite length_app. lia. Qed.

Lemma safe_break_app (t w : pystr) (i : Z) :
  blank w -> 0 <= i <= len t ->
  _safe_break_index (t ++ w) i = _safe_break_index t i.
Proof.
  intros B Hi. unfold _safe_break_index. rewrite len_app'.
  pose proof (len_nonneg w) as Hw.
  destruct (Z_lt_ge_dec i (len t)) as [L|L].
  - destruct (Z.eq_dec i 0) as [->|N].
    + cbn [Z.ltb andb]. change (0 <? 0) with false. cbn [andb]. lia.
    + rewrite !char_at_app by lia.
      replace (i <? len t + len w) with true by (symmetry; apply Z.ltb_lt; lia).
      replace (i <? len t) with true by (symmetry; apply Z.ltb_lt; lia).
      destruct (_ && _); lia.
  - assert (i = len t) by lia. subst i.
    replace (len t <? len t) with false by (symmetry; apply Z.ltb_ge; lia).
    rewrite andb_false_r. cbn [andb].
    destruct w as [|c w'].
    + change (len []) with 0.
      replace (len t <? len t + 0) with false by (symmetry; apply Z.ltb_ge; lia).
      rewrite andb_false_r. cbn [andb]. lia.
    + rewrite char_at_middle. inversion B; subst.
      rewrite (blank_not_low c) by assumption. rewrite andb_false_r. lia.
Qed.

(** The position that [_find_break] adjusts depends on the window only. *)
Lemma find_break_window (limit : Z) (window : pystr) :
  1 <= limit ->
  exists x,
    1 <= x <= limit
    /\ forall remaining,
         py_prefix remaining limit = window ->
         _find_break remaining limit
         = _safe_break_index remaining
             (_adjust_break_index x (_iter_tag_spans remaining)).
Proof.
  intros Hl.
  set (masked := _mask_tags window).
  set (best := last_match_end (finditer match_break masked 0 0)).
  set (last_space := Z.max (Z.max (rfind masked 32) (rfind masked 10)) (rfind masked 9)).
  assert (Hb : best = -1 \/ 1 <= best).
  { unfold best, last_match_end. apply last_match_end_cases;
      [apply finditer_ends_pos|left; reflexivity]. }
  pose proof (py_int_nonneg limit ltac:(lia)) as Hq.
  assert (Pos : forall remaining x, 1 <= x ->
            (if _adjust_break_index x (_iter_tag_spans remaining) <=? 0
             then Z.max 1 x
             else _adjust_break_index x (_iter_tag_spans remaining))
            = _adjust_break_index x (_iter_tag_spans remaining)).
  { intros remaining x Hx.
    destruct (tag_spans_from_spec remaining [] None I) as (O & _).
    cbv zeta in O. simpl app in O. change (len []) with 0 in O.
    fold (_iter_tag_spans remaining) in O.
    pose proof (adjust_pos x 0 _ _ ltac:(lia) O Hx).
    destruct (_ <=? 0) eqn:E; [apply Z.leb_le in E; lia|reflexivity]. }
  assert (Len : forall remaining, py_prefix remaining limit = window ->
            len masked <= limit).
  { intros remaining <-. unfold masked, _mask_tags, len. rewrite mask_from_length.
    apply py_prefix_len. lia. }
  destruct (py_int (inject_Z limit * (6 # 10)) <=? best) eqn:E.
  - apply Z.leb_le in E.
    destruct (Z_le_gt_dec best limit) as [Le|Gt].
    + exists best. split; [lia|]. intros remaining Hw. unfold _find_break.
      rewrite Hw. fold masked best.
      replace (_ <=? best) with true by (symmetry; apply Z.leb_le; exact E).
      rewrite Pos by lia. reflexivity.
    + exists 1. split; [lia|]. intros remaining Hw. exfalso.
      pose proof (Len remaining Hw) as Hm.
      assert (best <= limit); [|lia].
      unfold best, last_match_end. apply last_match_end_le; [lia|].
      eapply Forall_impl; [|apply (finditer_ends_le _ match_break_bounded masked 0 0)].
      intros e He. unfold len in Hm. simpl in He. lia.
  - destruct (0 <? last_space) eqn:E0.
    + apply Z.ltb_lt in E0.
      destruct (Z_le_gt_dec (last_space + 1) limit) as [Le|Gt].
      * exists (last_space + 1). split; [lia|]. intros remaining Hw.
        unfold _find_break. rewrite Hw. fold masked best last_space.
        rewrite E. replace (0 <? last_space) with true
          by (symmetry; apply Z.ltb_lt; exact E0).
        rewrite Pos by lia. reflexivity.
      * exists 1. split; [lia|]. intros remaining Hw. exfalso.
        pose proof (Len remaining Hw) as Hm.
        pose proof (rfind_lt masked 32). pose proof (rfind_lt masked 10).
        pose proof (rfind_lt masked 9). unfold last_space in Gt. lia.
    + exists limit. split; [lia|]. intros remaining Hw.
      unfold _find_break. rewrite Hw. fold masked best last_space.
      rewrite E, E0.
      destruct (tag_spans_from_spec remaining [] None I) as (O & _).
      cbv zeta in O. simpl app in O. change (len []) with 0 in O.
      fold (_iter_tag_spans remaining) in O.
      pose proof (adjust_pos limit 0 _ _ ltac:(lia) O Hl).
      destruct (_adjust_break_index limit _ <=? 0) eqn:E1;
        [apply Z.leb_le in E1; lia|reflexivity].
Qed.

(** The break of a text that is longer than the limit, with and without
    a blank tail. *)
Lemma find_break_compare (t w : pystr) (limit : Z) :
  1 <= limit -> limit < len t -> blank w ->
  let b := _find_break t limit in
  let b' := _find_break (t ++ w) limit in
  (b' = b /\ 0 <= b <= len t) \/ (b = len t /\ b' = len t + len w).
Proof.
  intros Hl Ht B. cbv zeta.
  destruct (find_break_window limit (py_prefix t limit) Hl) as (x & Hx & F).
  rewrite (F t eq_refl).
  rewrite (F (t ++ w)).
  2:{ unfold py_prefix. replace (0 <=? limit) with true
        by (symmetry; apply Z.leb_le; lia).
      rewrite firstn_app.
      replace (Z.to_nat limit - length t)%nat with 0%nat by (unfold len in Ht; lia).
      cbn [firstn]. apply app_nil_r. }
  destruct (adjust_compare t w x B ltac:(lia)) as [[E Bd]|[E1 E2]];
    cbv zeta in *.
  - left. rewrite E. rewrite safe_break_app by (assumption || lia).
    split; [reflexivity|].
    destruct (safe_break_cases t (_adjust_break_index x (_iter_tag_spans t)))
      as (R & _). exact R.
  - right. rewrite E1, E2. unfold _safe_break_index. rewrite len_app'.
    pose proof (len_nonneg t). pose proof (len_nonneg w).
    replace (len t <? len t) with false by (symmetry; apply Z.ltb_ge; lia).
    replace (len t + len w <? len t + len w) with false
      by (symmetry; apply Z.ltb_ge; lia).
    rewrite !andb_false_r. cbn [andb]. split; lia.
Qed.

(** The first cut of a stripped text that is longer than the limit, with
    and without a blank tail. *)
Lemma first_cut (t w : pystr) (limit : Z) :
  1 <= limit -> limit < len t -> blank w ->
  let b := Z.to_nat (_find_break t limit) in
  let b' := Z.to_nat (_find_break (t ++ w) limit) in
  strip (firstn b' (t ++ w)) = strip (firstn b t)
  /\ strip (skipn b' (t ++ w)) = strip (skipn b t).
Proof.
  intros Hl Ht B. cbv zeta.
  destruct (find_break_compare t w limit Hl Ht B) as [[E Bd]|[E1 E2]];
    cbv zeta in *.
  - rewrite E.
    assert (Hb : (Z.to_nat (_find_break t limit) <= length t)%nat)
      by (unfold len in Bd; lia).
    rewrite firstn_app, skipn_app.
    replace (Z.to_nat (_find_break t limit) - length t)%nat with 0%nat by lia.
    cbn [firstn skipn]. rewrite app_nil_r. split; [reflexivity|].
    apply strip_app_blank, B.
  - rewrite E1, E2.
    replace (Z.to_nat (len t)) with (length t) by (unfold len; lia).
    replace (Z.to_nat (len t + len w)) with (length (t ++ w))
      by (rewrite length_app; unfold len; lia).
    rewrite !firstn_all, !skipn_all. split; [apply strip_app_blank, B|reflexivity].
Qed.

Lemma normalize_cut_blank (limit : Z) (t w : pystr) :
  1 <= limit -> strip t = t -> limit < len t -> blank w ->
  match break_loop (S (length t)) limit t [] with
  | Some (pieces, rest) => Some (pieces ++ (if nonempty rest then [rest] else []))
  | None => None
  end
  = match break_loop (S (length (t ++ w))) limit (t ++ w) [] with
    | Some (pieces, rest) =>
        Some (pieces ++ (if nonempty (strip rest) then [strip rest] else []))
    | None => None
    end.
Proof.
  intros Hl St Ht B.
  rewrite (break_loop_eq (S (length t))), (break_loop_eq (S (length (t ++ w)))).
  replace (len t <=? limit) with false by (symmetry; apply Z.leb_gt; lia).
  replace (len (t ++ w) <=? limit) with false
    by (symmetry; apply Z.leb_gt; rewrite len_app'; pose proof (len_nonneg w); lia).
  cbv zeta.
  destruct (first_cut t w limit Hl Ht B) as [C1 C2]. cbv zeta in C1, C2.
  rewrite C1, C2.
  set (b := Z.to_nat (_find_break t limit)) in *.
  set (rest1 := strip (skipn b t)).
  set (pieces1 := if nonempty (strip (firstn b t))
                  then [] ++ [strip (firstn b t)] else []).
  assert (S1 : strip rest1 = rest1) by apply strip_idem.
  assert (F : break_loop (length t) limit rest1 pieces1
              = break_loop (length (t ++ w)) limit rest1 pieces1).
  { destruct b as [|b0] eqn:Eb.
    - assert (R : rest1 = t) by (unfold rest1; cbn [skipn]; exact St).
      rewrite R, !(break_loop_stuck limit t St Ht Eb). reflexivity.
    - apply break_loop_fuel; [lia|exact S1| |];
        pose proof (strip_length (skipn (S b0) t)) as L;
        rewrite length_skipn in L; fold rest1 in L;
        rewrite ?length_app; unfold len in Ht; lia. }
  rewrite <- F.
  destruct (break_loop (length t) limit rest1 pieces1) as [[pieces r]|] eqn:Bl;
    [|reflexivity].
  rewrite (break_loop_rest_stripped _ _ _ _ _ _ S1 Bl). reflexivity.
Qed.

(** On a sentence with no whitespace before it whose text is longer than
    the limit, the two normalizations agree. *)
Lemma normalize_one_cut (limit : Z) (s : pystr) :
  1 <= limit -> lstrip s = s -> limit < len (strip s) ->
  normalize_one limit s = normalize_one_tts limit s.
Proof.
  intros Hl Hls Hlong.
  assert (Et : strip s = rstrip s) by (unfold strip; rewrite Hls; reflexivity).
  destruct (rstrip_split s) as (w & Es & B). rewrite <- Et in Es.
  pose proof (normalize_cut_blank limit (strip s) w Hl (strip_idem s) Hlong B) as N.
  rewrite <- Es in N.
  unfold normalize_one, normalize_one_tts.
  destruct (is_marker s); [reflexivity|]. cbn [orb].
  assert (Ls : limit < len s).
  { pose proof (len_strip s). lia. }
  replace (len s <=? limit) with false by (symmetry; apply Z.leb_gt; lia).
  exact N.
Qed.

(** On a sentence with no whitespace before it that is longer than the
    limit only by the whitespace after it, the two normalizations agree
    if the break does not fall inside its text. *)
Lemma normalize_one_tail (limit : Z) (s : pystr) :
  0 <= limit -> lstrip s = s -> len (strip s) <= limit ->
  _find_break s limit <= 0 \/ len (strip s) <= _find_break s limit ->
  normalize_one limit s = normalize_one_tts limit s.
Proof.
  intros Hl Hls Hshort Hb.
  assert (Et : strip s = rstrip s) by (unfold strip; rewrite Hls; reflexivity).
  destruct (rstrip_split s) as (w & Es & B). rewrite <- Et in Es.
  pose proof (strip_idem s) as St.
  remember (strip s) as t eqn:Ht.
  unfold normalize_one, normalize_one_tts. rewrite <- Ht.
  destruct (is_marker s); [reflexivity|]. cbn [orb].
  destruct (len s <=? limit) eqn:E; [reflexivity|]. apply Z.leb_gt in E.
  rewrite (break_loop_eq (S (length t))), (break_loop_eq (S (length s))).
  replace (len t <=? limit) with true by (symmetry; apply Z.leb_le; lia).
  replace (len s <=? limit) with false by (symmetry; apply Z.leb_gt; lia).
  cbv zeta.
  remember (Z.to_nat (_find_break s limit)) as b eqn:Eb.
  destruct Hb as [Hb|Hb].
  - replace b with 0%nat by lia. cbn [firstn skipn].
    change (strip []) with (@nil Z). cbn [nonempty].
    rewrite <- Ht, break_loop_eq.
    replace (len t <=? limit) with true by (symmetry; apply Z.leb_le; lia).
    rewrite St. reflexivity.
  - assert (Hbt : (length t <= b)%nat) by (unfold len in Hb; lia).
    rewrite Es, firstn_app, skipn_app.
    rewrite firstn_all2, skipn_all2 by exact Hbt.
    cbn [app].
    rewrite strip_app_blank
      by (rewrite <- (firstn_skipn (b - length t) w) in B;
          apply Forall_app in B; apply B).
    rewrite St.
    assert (Bs : strip (skipn (b - length t) w) = []).
    { assert (B' : blank (skipn (b - length t) w))
        by (rewrite <- (firstn_skipn (b - length t) w) in B;
            apply Forall_app in B; apply B).
      rewrite <- (app_nil_l (skipn _ w)), strip_app_blank by exact B'.
      reflexivity. }
    rewrite Bs, break_loop_eq. change (len []) with 0.
    replace (0 <=? limit) with true by (symmetry; apply Z.leb_le; lia).
    change (strip []) with (@nil Z). cbn [nonempty app].
    rewrite app_nil_r. reflexivity.
Qed.

Lemma squash_nil_blank (y : pystr) : squash y = [] -> blank y.
Proof.
  induction y as [|c t IH]; [constructor|].
  unfold squash. cbn [filter]. destruct (isspace c) eqn:E; cbn [negb].
  - intros H. constructor; [exact E|apply IH, H].
  - discriminate.
Qed.

Lemma strip_nil_blank (y : pystr) : strip y = [] -> blank y.
Proof.
  intros H. apply squash_nil_blank. rewrite <- squash_strip, H. reflexivity.
Qed.

(** On a sentence with no whitespace before it that is longer than the
    limit only by the whitespace after it, the two normalizations differ
    if the break falls inside its text: one keeps the text whole, the
    other cuts it in two. *)
Lemma normalize_one_inside (limit : Z) (s : pystr) :
  0 <= limit -> lstrip s = s -> is_marker s = false ->
  len (strip s) <= limit < len s ->
  0 < _find_break s limit < len (strip s) ->
  normalize_one limit s = Some [strip s]
  /\ exists chunk rest, normalize_one_tts limit s = Some [chunk; rest].
Proof.
  intros Hl Hls Hm [Hshort Hlong] Hb.
  assert (Et : strip s = rstrip s) by (unfold strip; rewrite Hls; reflexivity).
  destruct (rstrip_split s) as (w & Es & B). rewrite <- Et in Es.
  pose proof (strip_idem s) as St.
  assert (Lt : lstrip (strip s) = strip s).
  { rewrite Et. apply lstrip_rstrip_fixed, Hls. }
  assert (Rt : rstrip (strip s) = strip s).
  { rewrite Et. apply rstrip_idem. }
  remember (strip s) as t eqn:Ht.
  remember (Z.to_nat (_find_break s limit)) as b eqn:Eb.
  assert (Hb1 : (1 <= b)%nat) by lia.
  assert (Hb2 : (b < length t)%nat) by (unfold len in Hb; lia).
  assert (Nc : nonempty (strip (firstn b t)) = true).
  { destruct (strip (firstn b t)) eqn:E; [|reflexivity]. exfalso.
    apply strip_nil_blank in E.
    pose proof (lstrip_blank (firstn b t) (skipn b t) E) as X.
    rewrite firstn_skipn, Lt in X.
    pose proof (lstrip_length (skipn b t)) as L.
    rewrite <- X, length_skipn in L. lia. }
  assert (Nr : nonempty (strip (skipn b t)) = true).
  { destruct (strip (skipn b t)) eqn:E; [|reflexivity]. exfalso.
    apply strip_nil_blank in E.
    pose proof (rstrip_blank (firstn b t) (skipn b t) E) as X.
    rewrite firstn_skipn, Rt in X.
    pose proof (rstrip_length (firstn b t)) as L.
    rewrite <- X, length_firstn in L. lia. }
  unfold normalize_one, normalize_one_tts. rewrite <- Ht, Hm. cbn [orb].
  replace (len s <=? limit) with false by (symmetry; apply Z.leb_gt; lia).
  rewrite (break_loop_eq (S (length t))), (break_loop_eq (S (length s))).
  replace (len t <=? limit) with true by (symmetry; apply Z.leb_le; lia).
  replace (len s <=? limit) with false by (symmetry; apply Z.leb_gt; lia).
  cbv zeta. rewrite <- Eb. split.
  - destruct t; [simpl in Hb2; lia|reflexivity].
  - assert (F : firstn b s = firstn b t).
    { rewrite Es, firstn_app.
      replace (b - length t)%nat with 0%nat by lia. cbn [firstn].
      apply app_nil_r. }
    assert (K : strip (skipn b s) = strip (skipn b t)).
    { rewrite Es, skipn_app.
      replace (b - length t)%nat with 0%nat by lia. cbn [skipn].
      apply strip_app_blank, B. }
    rewrite F, K, Nc, break_loop_eq.
    assert (Lr : len (strip (skipn b t)) <= limit).
    { pose proof (strip_length (skipn b t)) as L. rewrite length_skipn in L.
      unfold len in *. lia. }
    replace (len (strip (skipn b t)) <=? limit) with true
      by (symmetry; apply Z.leb_le; exact Lr).
    rewrite strip_idem, Nr. eexists. eexists. reflexivity.
Qed.

(** *** The sentences begin with no whitespace *)

Lemma span_len_true (f : Z -> bool) (s : pystr) :
  forall k d, (k < span_len f s)%nat -> f (nth k s d) = true.
Proof.
  induction s as [|c t IH]; intros k d H; [simpl in H; lia|].
  cbn [span_len] in H. destruct (f c) eqn:E; [|lia].
  destruct k as [|k]; [exact E|]. cbn [nth]. apply IH. lia.
Qed.

Lemma span_len_stop (f : Z -> bool) (s : pystr) (d : Z) :
  (span_len f s < length s)%nat -> f (nth (span_len f s) s d) = false.
Proof.
  induction s as [|c t IH]; intros H; [simpl in H; lia|].
  cbn [span_len] in *. destruct (f c) eqn:E; [|exact E].
  cbn [nth]. apply IH. simpl in H. lia.
Qed.

(** After a match of the sentence pattern comes the end of the text or a
    character that is no whitespace, right after one that is. *)
Lemma match_sentence_end_next (u : pystr) (n : nat) :
  match_sentence_end u = Some n ->
  (length u <= n)%nat
  \/ ((1 <= n)%nat /\ isspace (nth (n - 1) u 0) = true
      /\ isspace (nth n u 0) = false).
Proof.
  unfold match_sentence_end.
  destruct (span_len is_punct u) as [|np'] eqn:Enp; [discriminate|].
  remember (S np') as np eqn:Hnp.
  remember (span_len is_closer (skipn np u)) as nc eqn:Hnc.
  rewrite skipn_skipn.
  destruct (skipn (nc + np) u) as [|c s2'] eqn:E2.
  - intros X. assert (En : (np + nc)%nat = n) by congruence.
    left. apply (f_equal (@length Z)) in E2. rewrite length_skipn in E2.
    simpl in E2. lia.
  - destruct (isspace c) eqn:Ec; [|discriminate].
    remember (span_len isspace (c :: s2')) as k eqn:Hk0.
    intros X. assert (En : (np + nc + k)%nat = n) by congruence. clear X.
    assert (Hk : (1 <= k)%nat) by (subst k; cbn [span_len]; rewrite Ec; lia).
    assert (Hlen : length u = (nc + np + length (c :: s2'))%nat).
    { rewrite <- E2, length_skipn.
      assert (length (skipn (nc + np) u) <> 0)%nat by (rewrite E2; discriminate).
      rewrite length_skipn in H. lia. }
    destruct (Nat.lt_ge_cases k (length (c :: s2'))) as [L|L]; [right|left; lia].
    split; [lia|]. rewrite <- En. split.
    + replace (np + nc + k - 1)%nat with ((nc + np) + (k - 1))%nat by lia.
      rewrite <- nth_skipn, E2. apply span_len_true. rewrite <- Hk0. lia.
    + replace (np + nc + k)%nat with ((nc + np) + k)%nat by lia.
      rewrite <- nth_skipn, E2. rewrite Hk0. apply span_len_stop.
      rewrite <- Hk0. exact L.
Qed.

Lemma finditer_sound (m : pystr -> option nat) (s : pystr) :
  forall pos skip,
    Forall (fun ae => exists n,
              (pos <= fst ae)%nat
              /\ m (skipn (fst ae - pos) s) = Some n
              /\ snd ae = (fst ae + n)%nat)
           (finditer m s pos skip).
Proof.
  induction s as [|c t IH]; intros pos skip; [constructor|].
  assert (Step : forall k,
             Forall (fun ae => exists n,
                       (pos <= fst ae)%nat
                       /\ m (skipn (fst ae - pos) (c :: t)) = Some n
                       /\ snd ae = (fst ae + n)%nat)
                    (finditer m t (S pos) k)).
  { intros k. eapply Forall_impl; [|apply (IH (S pos) k)].
    cbv beta. intros ae (n & H1 & H2 & H3). exists n. split; [lia|].
    split; [|exact H3].
    replace (fst ae - pos)%nat with (S (fst ae - S pos)) by lia. exact H2. }
  destruct skip as [|k]; cbn [finditer]; [|apply Step].
  destruct (m (c :: t)) as [[|n]|] eqn:E; try apply Step.
  constructor; [|apply Step].
  exists (S n). cbn [fst snd]. rewrite Nat.sub_diag. cbn [skipn].
  split; [lia|]. split; [exact E|reflexivity].
Qed.

(** A position of the paragraph at which a sentence may begin. *)
Local Notation "'good'" :=
  (fun (p : pystr) (e : nat) =>
     (length p <= e)%nat \/ isspace (nth e p 0) = false).

Lemma sentence_ends_good (p : pystr) :
  Forall (good p) (map snd (finditer match_sentence_end (_mask_tags p) 0 0)).
Proof.
  apply Forall_map.
  eapply Forall_impl; [|apply finditer_sound].
  cbv beta. intros [a e] (n & _ & M & ->). cbn [fst snd] in *.
  rewrite Nat.sub_0_r in M.
  assert (Lm : length (_mask_tags p) = length p)
    by (unfold _mask_tags; apply mask_from_length).
  apply match_sentence_end_next in M. rewrite length_skipn, Lm in M.
  destruct M as [M|(M1 & M2 & M3)]; [left; lia|].
  destruct (Nat.lt_ge_cases (a + n) (length p)) as [L|L]; [right|left; exact L].
  rewrite nth_skipn in M2, M3.
  unfold _mask_tags in M2, M3.
  rewrite mask_from_nth in M2, M3 by lia.
  rewrite !Z.add_0_l in M2, M3.
  destruct (covered (_iter_tag_spans p) (Z.of_nat (a + n))) eqn:C;
    [|exact M3].
  unfold covered in C. apply existsb_exists in C. destruct C as (sp & Hin & Hsp).
  unfold in_span in Hsp. apply andb_true_iff in Hsp. destruct Hsp as [H1 H2].
  apply Z.leb_le in H1. apply Z.ltb_lt in H2.
  destruct (tag_spans_from_spec p [] None I) as (_ & S & _).
  cbv zeta in S. simpl app in S. change (len []) with 0 in S.
  fold (_iter_tag_spans p) in S.
  rewrite Forall_forall in S. specialize (S sp Hin).
  destruct (Z.eq_dec (fst sp) (Z.of_nat (a + n))) as [E|N].
  - rewrite E in S. unfold char_at in S. rewrite Nat2Z.id in S. rewrite S.
    reflexivity.
  - exfalso.
    assert (C' : covered (_iter_tag_spans p) (Z.of_nat (a + (n - 1))) = true).
    { unfold covered. apply existsb_exists. exists sp. split; [exact Hin|].
      unfold in_span. apply andb_true_iff. split; [apply Z.leb_le|apply Z.ltb_lt]; lia. }
    rewrite C' in M2. discriminate.
Qed.

Lemma lstrip_skipn_good (p : pystr) (i : nat) :
  good p i -> lstrip (skipn i p) = skipn i p.
Proof.
  cbv beta. intros [H|H]; [rewrite skipn_all2 by lia; reflexivity|].
  destruct (Nat.lt_ge_cases i (length p)) as [L|L];
    [|rewrite skipn_all2 by lia; reflexivity].
  destruct (skipn i p) as [|c t] eqn:E; [reflexivity|].
  assert (c = nth i p 0).
  { rewrite <- (Nat.add_0_r i), <- nth_skipn, E. reflexivity. }
  subst c. cbn [lstrip]. rewrite H. reflexivity.
Qed.

Lemma lstrip_firstn (y : pystr) (k : nat) :
  lstrip y = y -> lstrip (firstn k y) = firstn k y.
Proof.
  destruct y as [|c t]; [destruct k; reflexivity|].
  intros H. apply lstrip_fixed_head in H.
  destruct k as [|k]; [reflexivity|]. cbn [firstn lstrip]. rewrite H. reflexivity.
Qed.

Lemma cut_sentences_lstripped (p : pystr) (ends : list nat) :
  forall i, good p i -> Forall (good p) ends ->
    Forall (fun s => lstrip s = s) (cut_sentences p i ends).
Proof.
  induction ends as [|e es IH]; intros i Hi He; cbn [cut_sentences].
  - destruct (Nat.ltb i (length p)); [|constructor].
    destruct (nonempty _); [|constructor].
    constructor; [apply lstrip_skipn_good, Hi|constructor].
  - inversion He; subst. apply Forall_app. split; [|apply IH; assumption].
    destruct (nonempty _); [|constructor].
    constructor; [apply lstrip_firstn, lstrip_skipn_good, Hi|constructor].
Qed.

Lemma para_sentences_lstripped (p : pystr) :
  lstrip p = p -> Forall (fun s => lstrip s = s) (para_sentences p).
Proof.
  intros H. unfold para_sentences.
  apply cut_sentences_lstripped; [|apply sentence_ends_good].
  cbv beta. destruct p as [|c t]; [left; simpl; lia|].
  right. exact (lstrip_fixed_head c t H).
Qed.

Lemma paras_loop_lstripped (paras : list pystr) :
  Forall (fun s => is_marker s = true \/ lstrip s = s) (paras_loop paras).
Proof.
  induction paras as [|p rest IH]; [constructor|].
  cbn [paras_loop]. destruct (nonempty (strip p)); [|exact IH].
  apply Forall_app. split.
  - eapply Forall_impl; [|apply para_sentences_lstripped].
    + cbv beta. intros s Hs. right. exact Hs.
    + unfold strip. apply lstrip_rstrip_fixed, lstrip_idem.
  - apply Forall_app. split; [|exact IH].
    destruct rest; [constructor|]. constructor; [left; reflexivity|constructor].
Qed.

(** No sentence of the paragraph-aware split begins with whitespace. *)
Lemma split_sentences_lstripped (source : pystr) :
  Forall (fun s => is_marker s = true \/ lstrip s = s)
         (_split_into_sentences_with_paras source).
Proof. apply dedupe_markers_keeps, paras_loop_lstripped. Qed.

Lemma normalize_one_marker (limit : Z) (s : pystr) :
  is_marker s = true -> normalize_one limit s = normalize_one_tts limit s.
Proof. intros M. unfold normalize_one, normalize_one_tts. rewrite M. reflexivity. Qed.

End SplitAgree.

(** ** The two balanced splits compared *)

Module SplitEquivalence.
Import StrFacts SplitFacts SplitAgree Examples.

(** C10, counterexample: with limit 6 the sentence ["aa bb.  "], which is
    too long only by its trailing spaces, is kept whole by [split_balanced]
    and cut in two by [split_balanced_tts]; with limit 0 [split_balanced]
    cuts ["ab"] after every character and [split_balanced_tts] returns it
    whole. *)
Lemma split_balanced_differs :
  split_balanced two_spaces 6 = Some [lit "aa bb."; lit "cc"]
  /\ split_balanced_tts two_spaces 6 = Some [lit "aa"; lit "bb.cc"]
  /\ split_balanced (lit "ab") 0 = Some [lit "a"; lit "b"]
  /\ split_balanced_tts (lit "ab") 0 = Some [lit "ab"].
Proof. repeat split; vm_compute; reflexivity. Qed.

(** C10, amended: for a positive limit, [split_balanced] and
    [split_balanced_tts] return equal chunk lists (and loop forever on the
    same inputs) whenever every sentence of the paragraph-aware split that
    is longer than the limit either is longer than the limit also when it
    is stripped, or is broken by [_find_break] outside its text: at 0, or
    no earlier than its stripped text ends.  A sentence that is neither,
    and is no paragraph marker, is normalized differently by the two:
    [split_balanced] keeps its stripped text whole, [split_balanced_tts]
    cuts it in two. *)
Theorem split_balanced_agree (source : pystr) (limit : Z) :
  0 < limit ->
  let sents := _split_into_sentences_with_paras source in
  (Forall (fun s => is_marker s = true \/ len s <= limit
                    \/ limit < len (strip s)
                    \/ _find_break s limit <= 0
                    \/ len (strip s) <= _find_break s limit)
          sents ->
   split_balanced source limit = split_balanced_tts source limit)
  /\ (forall s,
        In s sents -> is_marker s = false ->
        len (strip s) <= limit < len s ->
        0 < _find_break s limit < len (strip s) ->
        normalize_one limit s = Some [strip s]
        /\ exists chunk rest, normalize_one_tts limit s = Some [chunk; rest]).
Proof.
  intros Hl sents.
  pose proof (split_sentences_lstripped source) as L. fold sents in L.
  rewrite Forall_forall in L. split.
  - intros H. unfold split_balanced, split_balanced_tts. fold sents.
    destruct (limit <=? 0) eqn:E; [apply Z.leb_le in E; lia|].
    rewrite (normalize_all_ext (normalize_one limit) (normalize_one_tts limit)).
    + reflexivity.
    + rewrite Forall_forall in H. apply Forall_forall. intros s Hin.
      destruct (L s Hin) as [M|Hls]; [apply normalize_one_marker, M|].
      destruct (H s Hin) as [M|[Hs|[Hs|Hs]]].
      * apply normalize_one_marker, M.
      * apply normalize_one_agree. left. exact Hs.
      * apply normalize_one_cut; [lia|exact Hls|exact Hs].
      * destruct (Z_le_gt_dec (len (strip s)) limit) as [Sh|Lo].
        -- apply normalize_one_tail; [lia|exact Hls|exact Sh|exact Hs].
        -- apply normalize_one_cut; [lia|exact Hls|lia].
  - intros s Hin Hm Hlen Hb.
    destruct (L s Hin) as [M|Hls]; [congruence|].
    apply normalize_one_inside; (lia || assumption).
Qed.

Lemma split_balanced_agree_witness :
  (_split_into_sentences_with_paras long_then_short
   = [lit "aaaa bbbb cccc. "; lit "dd"]
   /\ split_balanced long_then_short 6 = split_balanced_tts long_then_short 6
   /\ split_balanced_tts long_then_short 6
      = Some [lit "aaaa"; lit "bbbb"; lit "cccc."; lit "dd"])
  /\ (_split_into_sentences_with_paras dot_spaces = [lit "ab.   "; lit "cd"]
      /\ split_balanced dot_spaces 5 = split_balanced_tts dot_spaces 5
      /\ split_balanced_tts dot_spaces 5 = Some [lit "ab.cd"])
  /\ (_find_break (lit "aa bb.  ") 6 = 3
      /\ normalize_one 6 (lit "aa bb.  ") = Some [lit "aa bb."]
      /\ normalize_one_tts 6 (lit "aa bb.  ") = Some [lit "aa"; lit "bb."]).
Proof.
  split; [|split].
  - assert (E : _split_into_sentences_with_paras long_then_short
                = [lit "aaaa bbbb cccc. "; lit "dd"]) by (vm_compute; reflexivity).
    split; [exact E|]. split; [|vm_compute; reflexivity].
    apply (proj1 (split_balanced_agree long_then_short 6 ltac:(lia))).
    cbv zeta. rewrite E.
    constructor; [right; right; left; vm_compute; reflexivity|].
    constructor; [right; left; vm_compute; discriminate|constructor].
  - assert (E : _split_into_sentences_with_paras dot_spaces
                = [lit "ab.   "; lit "cd"]) by (vm_compute; reflexivity).
    split; [exact E|]. split; [|vm_compute; reflexivity].
    apply (proj1 (split_balanced_agree dot_spaces 5 ltac:(lia))).
    cbv zeta. rewrite E.
    constructor; [right; right; right; right; vm_compute; discriminate|].
    constructor; [right; left; vm_compute; discriminate|constructor].
  - split; [vm_compute; reflexivity|].
    destruct (proj2 (split_balanced_agree two_spaces 6 ltac:(lia))
                (lit "aa bb.  ")) as [N _].
    + vm_compute. left. reflexivity.
    + vm_compute. reflexivity.
    + vm_compute. split; [discriminate|reflexivity].
    + vm_compute. split; reflexivity.
    + split; [exact N|vm_compute; reflexivity].
Defined.

End SplitEquivalence.

(** ** The alignment loop *)

Module AlignLoopFacts.
Import RecoveryFacts MatcherFacts CommitFacts StrFacts.

Lemma try_match_frame bs a s aggressive a' :
  _try_match_sentence bs a s aggressive = Some a' ->
  sentences a' = sentences a /\ stop_idx a' = stop_idx a
  /\ words a' = words a /\ word_texts a' = word_texts a
  /\ word_srcs a' = word_srcs a /\ forced_src a' = forced_src a
  /\ (0 <= cursor a -> 0 <= cursor a' <= len (words a')).
Proof.
  unfold _try_match_sentence.
  destruct (_try_match_sentence_core bs a s aggressive) as [[[[st en] src] e]|];
    [|discriminate].
  intros X. injection X as <-. simpl. pose proof (len_nonneg (words a)).
  repeat split; try reflexivity; lia.
Qed.

Lemma slice_step {A} (xs : list A) (d : A) (i k : Z) :
  0 <= i < len xs -> 0 <= k ->
  slice i (i + 1 + k) xs = nth (Z.to_nat i) xs d :: slice (i + 1) (i + 1 + k) xs.
Proof.
  intros Hi Hk. unfold slice.
  replace (Z.to_nat (i + 1 + k - i)) with (S (Z.to_nat k)) by lia.
  replace (Z.to_nat (i + 1 + k - (i + 1))) with (Z.to_nat k) by lia.
  replace (Z.to_nat (i + 1)) with (S (Z.to_nat i)) by lia.
  assert (L : (Z.to_nat i < length xs)%nat) by (unfold len in Hi; lia).
  revert L. generalize (Z.to_nat i). clear Hi.
  induction xs as [|x t IH]; intros n L; [simpl in L; lia|].
  destruct n as [|n]; [reflexivity|].
  cbn [skipn nth]. apply IH. simpl in L. lia.
Qed.

Lemma slice_empty {A} (xs : list A) (i : Z) : slice i i xs = [].
Proof. unfold slice. rewrite Z.sub_diag. reflexivity. Qed.

Lemma align_loop_spec (bs : pystr -> pystr -> Z) (aggressive : bool) (fuel : nat) :
  forall a,
    0 <= sent_idx a ->
    len (sentences a) - sent_idx a <= Z.of_nat fuel ->
    let a' := align_loop bs fuel aggressive a in
    exists ret,
      results a' = results a ++ ret
      /\ sentences a' = sentences a /\ stop_idx a' = stop_idx a
      /\ words a' = words a /\ word_texts a' = word_texts a
      /\ word_srcs a' = word_srcs a /\ forced_src a' = forced_src a
      /\ sent_idx a' = sent_idx a + len ret
      /\ map sentence_of_result ret
         = slice (sent_idx a) (sent_idx a') (sentences a)
      /\ timed_chain (last_end_ms a) ret (last_end_ms a')
      /\ (sent_idx a <= len (sentences a) -> sent_idx a' <= len (sentences a))
      /\ (forall stop, stop_idx a = Some stop -> sent_idx a <= stop ->
            sent_idx a' <= stop)
      /\ (0 <= cursor a <= len (words a) -> 0 <= cursor a' <= len (words a'))
      /\ halted bs aggressive a'.
Proof.
  assert (Stay : forall a, halted bs aggressive a ->
            exists ret,
              results a = results a ++ ret
              /\ sentences a = sentences a /\ stop_idx a = stop_idx a
              /\ words a = words a /\ word_texts a = word_texts a
              /\ word_srcs a = word_srcs a /\ forced_src a = forced_src a
              /\ sent_idx a = sent_idx a + len ret
              /\ map sentence_of_result ret
                 = slice (sent_idx a) (sent_idx a) (sentences a)
              /\ timed_chain (last_end_ms a) ret (last_end_ms a)
              /\ (sent_idx a <= len (sentences a) -> sent_idx a <= len (sentences a))
              /\ (forall stop, stop_idx a = Some stop -> sent_idx a <= stop ->
                    sent_idx a <= stop)
              /\ (0 <= cursor a <= len (words a) -> 0 <= cursor a <= len (words a))
              /\ halted bs aggressive a).
  { intros a H. exists []. rewrite app_nil_r, slice_empty. change (len []) with 0.
    repeat split; try reflexivity; try lia; auto. }
  induction fuel as [|fuel IH]; intros a Hi Hf; cbv zeta.
  - cbn [align_loop]. apply Stay. left. lia.
  - cbn [align_loop]. destruct (sent_idx a <? len (sentences a)) eqn:E;
      [apply Z.ltb_lt in E|apply Z.ltb_ge in E; apply Stay; left; lia].
    destruct (at_stop a) eqn:St; [apply Stay; right; left; exact St|].
    assert (Hstop : forall stop, stop_idx a = Some stop -> sent_idx a < stop).
    { intros stop Hs. unfold at_stop in St. rewrite Hs in St.
      apply Z.leb_gt in St. exact St. }
    destruct (s_placeholder (current_sentence a)) eqn:P.
    + specialize (IH (with_result a (current_sentence a, None, None, None))).
      cbv zeta in IH. cbn [sent_idx sentences with_result] in IH.
      destruct IH as (ret & R1 & R2 & R3 & R4 & R5 & R6 & R7 & R8 & R9 & R10
                      & R11 & R12 & R13 & R14); [lia|lia|].
      set (a' := align_loop bs fuel aggressive _) in *.
      cbn [results with_result stop_idx words word_texts word_srcs forced_src
             last_end_ms cursor] in *.
      set (r := ((current_sentence a, None, None, None) : Result)) in *.
      exists (r :: ret).
      pose proof (len_nonneg ret) as Hr.
      assert (Hl : len (r :: ret) = 1 + len ret)
        by (unfold len; simpl length; lia).
      rewrite Hl. rewrite <- app_assoc in R1.
      split; [exact R1|]. do 6 (split; [assumption|]).
      split; [lia|]. split.
      { rewrite R8.
        replace (sent_idx a + 1 + len ret) with (sent_idx a + 1 + len ret) in R9 by lia.
        rewrite (slice_step _ dummy_sentence) by lia.
        cbn [map]. f_equal. rewrite R8 in R9. exact R9. }
      split; [cbn [timed_chain]; split; [exact P|exact R10]|].
      split; [intros; apply R11; lia|].
      split; [intros stop Hs Hle; apply (R12 stop Hs); specialize (Hstop stop Hs); lia|].
      split; [exact R13|exact R14].
    + destruct (_try_match_sentence bs a (current_sentence a) aggressive)
        as [a1|] eqn:M; [|apply Stay; right; right; split; assumption].
      destruct (try_match_inv _ _ _ _ _ M) as (st & en & T1 & T2 & T3 & T4 & T5 & T6).
      destruct (try_match_frame _ _ _ _ _ M) as (F1 & F2 & F3 & F4 & F5 & F6 & F7).
      specialize (IH a1). cbv zeta in IH.
      destruct IH as (ret & R1 & R2 & R3 & R4 & R5 & R6 & R7 & R8 & R9 & R10
                      & R11 & R12 & R13 & R14); [lia|rewrite F1; lia|].
      set (a' := align_loop bs fuel aggressive a1) in *.
      set (r := ((current_sentence a, Some st, Some en,
                  if truthy (forced_src a) then forced_src a else None) : Result)) in *.
      exists (r :: ret).
      pose proof (len_nonneg ret) as Hr.
      assert (Hl : len (r :: ret) = 1 + len ret) by (unfold len; simpl length; lia).
      rewrite Hl. rewrite R1, T1, <- app_assoc.
      split; [reflexivity|]. split; [congruence|]. split; [congruence|].
      split; [congruence|]. split; [congruence|]. split; [congruence|].
      split; [congruence|]. split; [lia|]. split.
      { rewrite R8, T6. rewrite (slice_step _ dummy_sentence) by lia.
        cbn [map]. f_equal. rewrite R8, T6, F1 in R9. exact R9. }
      split; [cbn [timed_chain]; rewrite T5 in R10; unfold r; repeat split;
              assumption|].
      split; [intros; rewrite <- F1; apply R11; rewrite F1; lia|].
      split.
      { intros stop Hs Hle. apply (R12 stop); [congruence|].
        specialize (Hstop stop Hs). lia. }
      split; [intros Hc; apply R13, F7; lia|exact R14].
Qed.

End AlignLoopFacts.

Module WordListFacts.
Import StrFacts.

Lemma ptr_from_bounds (ws : list Word) :
  forall k t, k <= ptr_from ws k t <= k + len ws.
Proof.
  induction ws as [|w rest IH]; intros k t; cbn [ptr_from].
  - unfold len. simpl. lia.
  - unfold len in *. simpl length. destruct (t <=? ms_of (w_end w)); [lia|].
    specialize (IH (k + 1) t). lia.
Qed.

(** [_ptr_for_time] stops at the first word that ends at [t_ms] or later. *)
Lemma ptr_from_first (ws : list Word) :
  forall k t,
    (forall j, (j < Z.to_nat (ptr_from ws k t - k))%nat ->
       ms_of (w_end (nth j ws dummy_word)) < t)
    /\ (ptr_from ws k t < k + len ws ->
        t <= ms_of (w_end (nth (Z.to_nat (ptr_from ws k t - k)) ws dummy_word))).
Proof.
  induction ws as [|w rest IH]; intros k t; cbn [ptr_from].
  - rewrite Z.sub_diag. split; [intros j Hj; simpl in Hj; lia|].
    unfold len. simpl. lia.
  - destruct (t <=? ms_of (w_end w)) eqn:E.
    + rewrite Z.sub_diag. split; [intros j Hj; simpl in Hj; lia|].
      intros _. apply Z.leb_le in E. exact E.
    + apply Z.leb_gt in E. destruct (IH (k + 1) t) as [H1 H2].
      pose proof (ptr_from_bounds rest (k + 1) t) as B.
      replace (Z.to_nat (ptr_from rest (k + 1) t - k))
        with (S (Z.to_nat (ptr_from rest (k + 1) t - (k + 1)))) by lia.
      split.
      * intros [|j] Hj; [exact E|]. apply H1. lia.
      * intros Hlt. cbn [nth]. apply H2. unfold len in *. simpl length in Hlt. lia.
Qed.

Lemma filter_length_eq {A} (f : A -> bool) (l : list A) :
  length (filter f l) = length l -> filter f l = l.
Proof.
  induction l as [|x t IH]; [reflexivity|].
  simpl. destruct (f x); simpl; intros H.
  - f_equal. apply IH. lia.
  - pose proof (filter_length_le f t). lia.
Qed.

Lemma keep_other_spec (src : pystr) (ws : list Word) :
  forall (ts : list pystr) (ss : list (option pystr)),
    length ts = length ws -> length ss = length ws ->
    keep_other src ws ts ss
    = (map fst (filter (fun p => other_src src (snd p)) (combine ws ss)),
       map fst (filter (fun p => other_src src (snd p)) (combine ts ss)),
       filter (other_src src) ss).
Proof.
  induction ws as [|w ws IH]; intros [|t ts] [|s ss] Ht Hs;
    try discriminate; [reflexivity|].
  cbn [keep_other combine filter snd]. rewrite IH by (simpl in *; lia).
  destruct (other_src src s); reflexivity.
Qed.

Lemma filter_combine_length {A} (f : option pystr -> bool) (xs : list A)
  (ss : list (option pystr)) :
  length ss = length xs ->
  length (filter (fun p => f (snd p)) (combine xs ss)) = length (filter f ss).
Proof.
  revert ss. induction xs as [|x xs IH]; intros [|s ss] H; try discriminate;
    [reflexivity|].
  cbn [combine filter snd]. destruct (f s); simpl; rewrite IH by (simpl in H; lia);
    reflexivity.
Qed.

Lemma combine_self_fst {A B} (xs : list A) (ys : list B) :
  length ys = length xs -> map fst (combine xs ys) = xs.
Proof.
  revert ys. induction xs as [|x xs IH]; intros [|y ys] H; try discriminate;
    [reflexivity|].
  simpl. rewrite IH by (simpl in H; lia). reflexivity.
Qed.

(** What [replace_src] leaves of the word lists. *)
Lemma replace_src_words (src : option pystr) (a : Aligner) :
  words_aligned a ->
  let a1 := replace_src src a in
  words_aligned a1
  /\ words a1 = match src with
                | Some name => words_of_others name a
                | None => words a
                end
  /\ word_srcs a1 = match src with
                    | Some name => filter (other_src name) (word_srcs a)
                    | None => word_srcs a
                    end
  /\ (0 <= cursor a <= len (words a) -> 0 <= cursor a1 <= len (words a1))
  /\ sentences a1 = sentences a /\ sent_idx a1 = sent_idx a
  /\ results a1 = results a /\ last_end_ms a1 = last_end_ms a
  /\ stop_idx a1 = stop_idx a.
Proof.
  intros [Ht Hs]. cbv zeta. unfold replace_src.
  destruct src as [name|]; [|split; [split; assumption|repeat split; auto; lia]].
  assert (Same : filter (other_src name) (word_srcs a) = word_srcs a ->
                 words_of_others name a = words a).
  { intros E. unfold words_of_others.
    rewrite (filter_length_eq _ (combine (words a) (word_srcs a))).
    - apply combine_self_fst, Hs.
    - rewrite filter_combine_length, E, length_combine by exact Hs. lia. }
  destruct (nonempty_list (word_srcs a)) eqn:N.
  - rewrite (keep_other_spec name (words a) _ _ Ht Hs).
    fold (words_of_others name a).
    destruct (negb (len (words_of_others name a) =? len (words a))) eqn:E.
    + unfold words_aligned.
      cbn [words word_texts word_srcs cursor sentences sent_idx results
             last_end_ms stop_idx with_words].
      assert (L1 : length (words_of_others name a)
                   = length (filter (other_src name) (word_srcs a))).
      { unfold words_of_others. rewrite length_map.
        apply filter_combine_length, Hs. }
      split; [split; [|symmetry; exact L1]|].
      { rewrite length_map, L1. apply filter_combine_length. lia. }
      split; [reflexivity|]. split; [reflexivity|].
      split; [|repeat split; reflexivity].
      intros _. unfold _ptr_for_time. cbn [words with_words].
      pose proof (ptr_from_bounds (words_of_others name a) 0 (last_end_ms a + 1)).
      pose proof (len_nonneg (words_of_others name a)). lia.
    + apply negb_false_iff, Z.eqb_eq in E.
      assert (E' : filter (other_src name) (word_srcs a) = word_srcs a).
      { apply filter_length_eq.
        rewrite <- (filter_combine_length _ (words a)) by exact Hs.
        unfold words_of_others, len in E. rewrite length_map in E. lia. }
      rewrite E', (Same E'). split; [split; assumption|repeat split; auto; lia].
  - destruct (word_srcs a) eqn:W; [|discriminate].
    assert (Wn : words a = []) by (destruct (words a); [reflexivity|discriminate]).
    unfold words_of_others. rewrite W, Wn.
    split; [split; [rewrite Ht, Wn|rewrite W, Wn]; reflexivity|].
    repeat split; auto; lia.
Qed.

End WordListFacts.

Module AlignLoopClaims.
Import StrFacts AlignLoopFacts WordListFacts.

(** [_ptr_for_time] returns the position of the first word that ends at
    [t_ms] or later, the number of words if there is none. *)
Theorem ptr_for_time_first (a : Aligner) (t_ms : Z) :
  let p := _ptr_for_time a t_ms in
  0 <= p <= len (words a)
  /\ (forall k, 0 <= k < p -> ms_of (w_end (word_at a k)) < t_ms)
  /\ (p < len (words a) -> t_ms <= ms_of (w_end (word_at a p))).
Proof.
  cbv zeta. unfold _ptr_for_time, word_at.
  pose proof (ptr_from_bounds (words a) 0 t_ms) as B.
  destruct (ptr_from_first (words a) 0 t_ms) as [H1 H2].
  rewrite Z.sub_0_r in H1, H2.
  split; [lia|]. split; [|intros Hp; apply H2; lia].
  intros k Hk. apply H1. lia.
Qed.

Section Loop.

Variable _best_score : pystr -> pystr -> Z.
Variable fold_text : pystr -> pystr.

Lemma extend_spec (new_words : list Word) (src : option pystr) (aggressive : bool)
  (a : Aligner) :
  0 <= sent_idx a ->
  let a1 := append_words fold_text new_words src (replace_src src a) in
  let ret := fst (extend_words_and_align _best_score fold_text new_words src
                    aggressive a) in
  let a' := snd (extend_words_and_align _best_score fold_text new_words src
                   aggressive a) in
  results a' = results a ++ ret
  /\ sentences a' = sentences a
  /\ words a' = words a1 /\ word_texts a' = word_texts a1
  /\ word_srcs a' = word_srcs a1
  /\ sent_idx a' = sent_idx a + len ret
  /\ map sentence_of_result ret = slice (sent_idx a) (sent_idx a') (sentences a)
  /\ timed_chain (last_end_ms a) ret (last_end_ms a')
  /\ (sent_idx a <= len (sentences a) -> sent_idx a' <= len (sentences a))
  /\ (forall stop, stop_idx a = Some stop -> sent_idx a <= stop ->
        sent_idx a' <= stop)
  /\ (0 <= cursor a1 <= len (words a1) -> 0 <= cursor a' <= len (words a'))
  /\ halted _best_score aggressive a'.
Proof.
  intros Hi. cbv zeta. unfold extend_words_and_align. cbn [fst snd].
  set (a1 := append_words fold_text new_words src (replace_src src a)).
  assert (F : sentences a1 = sentences a /\ sent_idx a1 = sent_idx a
              /\ results a1 = results a /\ last_end_ms a1 = last_end_ms a
              /\ stop_idx a1 = stop_idx a).
  { unfold a1, append_words, replace_src. cbn [sentences sent_idx results
      last_end_ms stop_idx with_words].
    destruct src as [name|]; [|repeat split; reflexivity].
    destruct (nonempty_list (word_srcs a)); [|repeat split; reflexivity].
    destruct (keep_other name (words a) (word_texts a) (word_srcs a)) as [[kw kt] ks].
    destruct (negb (len kw =? len (words a))); repeat split; reflexivity. }
  destruct F as (F1 & F2 & F3 & F4 & F5).
  destruct (align_loop_spec _best_score aggressive
              (Z.to_nat (len (sentences a1) - sent_idx a1)) a1)
    as (ret & R1 & R2 & R3 & R4 & R5 & R6 & R7 & R8 & R9 & R10 & R11 & R12
        & R13 & R14); [lia|lia|].
  set (a2 := align_loop _best_score _ aggressive a1) in *.
  assert (Hret : skipn (length (results a)) (results a2) = ret).
  { rewrite R1, F3, skipn_app, skipn_all, Nat.sub_diag. reflexivity. }
  rewrite Hret. rewrite F1, F2, F3, F4, F5 in *.
  repeat split; try assumption; try lia; try (intros H; apply R11; lia);
    apply R13; lia.
Qed.

(** [extend_words_and_align] appends its entries to [results] and returns
    them; they are those of the sentences from [sent_idx] on, one after the
    other, and [sent_idx] moves past them, never beyond the stop index.
    The loop stops only when no sentence is left, the stop index is
    reached, or the sentence at hand has no match. *)
Theorem extend_words_and_align_progress (new_words : list Word)
  (src : option pystr) (aggressive : bool) (a : Aligner) :
  0 <= sent_idx a ->
  let ret := fst (extend_words_and_align _best_score fold_text new_words src
                    aggressive a) in
  let a' := snd (extend_words_and_align _best_score fold_text new_words src
                   aggressive a) in
  results a' = results a ++ ret
  /\ sentences a' = sentences a
  /\ sent_idx a' = sent_idx a + len ret
  /\ map sentence_of_result ret = slice (sent_idx a) (sent_idx a') (sentences a)
  /\ (sent_idx a <= len (sentences a) -> sent_idx a' <= len (sentences a))
  /\ (forall stop, stop_idx a = Some stop -> sent_idx a <= stop ->
        sent_idx a' <= stop)
  /\ halted _best_score aggressive a'.
Proof.
  intros Hi. cbv zeta.
  destruct (extend_spec new_words src aggressive a Hi)
    as (H1 & H2 & _ & _ & _ & H6 & H7 & _ & H9 & H10 & _ & H12).
  repeat split; assumption.
Qed.

(** The entries that [extend_words_and_align] returns are timed one after
    the other: each entry with times starts at least 1 ms after the end
    before it (the first after the previous [last_end_ms]) and lasts
    [MIN_MATCH_MS] at least; an entry without times is that of a
    placeholder; and [last_end_ms] becomes the last of these ends. *)
Theorem extend_words_and_align_times (new_words : list Word)
  (src : option pystr) (aggressive : bool) (a : Aligner) :
  0 <= sent_idx a ->
  timed_chain (last_end_ms a)
    (fst (extend_words_and_align _best_score fold_text new_words src aggressive a))
    (last_end_ms
       (snd (extend_words_and_align _best_score fold_text new_words src
               aggressive a))).
Proof.
  intros Hi. apply (extend_spec new_words src aggressive a Hi).
Qed.

(** [extend_words_and_align] keeps the three word lists aligned and the
    cursor within the words; when a source is named, the words heard from
    it before are dropped and the new words are the only ones of that
    source, at the end. *)
Theorem extend_words_and_align_words (new_words : list Word)
  (src : option pystr) (aggressive : bool) (a : Aligner) :
  0 <= sent_idx a -> words_aligned a -> 0 <= cursor a <= len (words a) ->
  let a' := snd (extend_words_and_align _best_score fold_text new_words src
                   aggressive a) in
  words_aligned a'
  /\ 0 <= cursor a' <= len (words a')
  /\ words a' = match src with
                | Some name => words_of_others name a
                | None => words a
                end ++ new_words
  /\ word_srcs a' = match src with
                    | Some name => filter (other_src name) (word_srcs a)
                    | None => word_srcs a
                    end ++ map (fun _ => src) new_words.
Proof.
  intros Hi Hal Hc. cbv zeta.
  destruct (extend_spec new_words src aggressive a Hi)
    as (_ & _ & H3 & H4 & H5 & _ & _ & _ & _ & _ & H11 & _).
  destruct (replace_src_words src a Hal) as (A1 & A2 & A3 & A4 & _).
  cbv zeta in A1, A2, A3, A4. destruct A1 as [A1 A1'].
  unfold append_words in H3, H4, H5, H11.
  cbn [words word_texts word_srcs cursor with_words] in H3, H4, H5, H11.
  rewrite A2 in H3. rewrite A3 in H5.
  split; [|split; [|split; [exact H3|exact H5]]].
  - unfold words_aligned. rewrite H3, H4, H5, <- A2, <- A3.
    rewrite !length_app, !length_map. lia.
  - apply H11. specialize (A4 Hc). unfold len in *. rewrite length_app. lia.
Qed.

End Loop.

Lemma extend_words_and_align_progress_witness :
  let run := extend_words_and_align Examples.exact_score lower [] None false
               Examples.a_s1 in
  map start_of (fst run) = [Some 0; Some 1200]
  /\ results (snd run) = results Examples.a_s1 ++ fst run
  /\ sent_idx (snd run) = 2.
Proof.
  cbv zeta.
  destruct (extend_words_and_align_progress Examples.exact_score lower [] None
              false Examples.a_s1) as (H1 & _ & H3 & _); [vm_compute; discriminate|].
  split; [vm_compute; reflexivity|]. split; [exact H1|]. vm_compute. reflexivity.
Defined.

Lemma extend_words_and_align_times_witness :
  let run := extend_words_and_align Examples.exact_score lower [] None false
               Examples.a_s1 in
  map end_of (fst run) = [Some 1000; Some 2100]
  /\ timed_chain (-1) (fst run) 2100.
Proof.
  cbv zeta. split; [vm_compute; reflexivity|].
  exact (extend_words_and_align_times Examples.exact_score lower [] None false
           Examples.a_s1 ltac:(vm_compute; discriminate)).
Defined.

Lemma extend_words_and_align_words_witness :
  let run := extend_words_and_align Examples.exact_score lower
               Examples.words_s1 (Some Examples.a_wav) false Examples.a_s1 in
  words (snd run) = Examples.words_s1
  /\ words_aligned (snd run).
Proof.
  cbv zeta.
  destruct (extend_words_and_align_words Examples.exact_score lower
              Examples.words_s1 (Some Examples.a_wav) false Examples.a_s1)
    as (H1 & _ & H3 & _).
  - vm_compute. discriminate.
  - split; reflexivity.
  - vm_compute. split; discriminate.
  - split; [vm_compute; reflexivity|exact H1].
Defined.

End AlignLoopClaims.

(** ** The last end of a file *)

Module LastEnd.

Lemma last_end_fold (fname : pystr) (rs : list Result) :
  forall last,
    let r := fold_left
               (fun last (r : Result) =>
                  match r with
                  | (_, _, Some en, src) =>
                      if src_is src fname && (last <? en) then en else last
                  | _ => last
                  end) rs last in
    last <= r
    /\ (forall e en, In e rs -> end_of e = Some en ->
          src_is (src_of e) fname = true -> en <= r)
    /\ (r = last
        \/ exists e, In e rs /\ end_of e = Some r
                     /\ src_is (src_of e) fname = true).
Proof.
  induction rs as [|[[[s st] en] src] rest IH]; intros last; cbv zeta.
  - simpl. split; [lia|]. split; [intros e en []|left; reflexivity].
  - cbn [fold_left].
    set (last' := match en with
                  | Some en0 => if src_is src fname && (last <? en0) then en0 else last
                  | None => last
                  end).
    destruct (IH last') as (H1 & H2 & H3). cbv zeta in H1, H2, H3.
    assert (Hl : last <= last'
                 /\ (forall en0, en = Some en0 -> src_is src fname = true ->
                       en0 <= last')
                 /\ (last' = last \/ (en = Some last' /\ src_is src fname = true))).
    { unfold last'. destruct en as [en0|].
      - destruct (src_is src fname) eqn:S0; cbn [andb].
        + destruct (last <? en0) eqn:L; [apply Z.ltb_lt in L|apply Z.ltb_ge in L].
          * split; [lia|]. split; [intros ? X _; injection X as <-; lia|].
            right. split; reflexivity.
          * split; [lia|]. split; [intros ? X _; injection X as <-; lia|].
            left. reflexivity.
        + split; [lia|]. split; [intros ? _ X; discriminate|left; reflexivity].
      - split; [lia|]. split; [intros ? X; discriminate|left; reflexivity]. }
    destruct Hl as (L1 & L2 & L3).
    split; [lia|]. split.
    + intros e en0 [<-|Hin] He Hs.
      * cbn in He, Hs. specialize (L2 en0 He Hs). lia.
      * exact (H2 e en0 Hin He Hs).
    + destruct H3 as [H3|(e & Hin & He & Hs)].
      * destruct L3 as [L3|[L3 L4]]; [left; lia|].
        right. exists (s, st, en, src). split; [left; reflexivity|].
        cbn. rewrite H3. split; assumption.
      * right. exists e. split; [right; exact Hin|]. split; assumption.
Qed.

(** [_last_end_ms_for_file] returns the latest end among the entries of
    the file, or the start of the file if that is later or the file has no
    entry with an end. *)
Theorem last_end_ms_for_file_max (results_list : list Result) (fname : pystr)
  (file_start_ms : Z) :
  let last := _last_end_ms_for_file results_list fname file_start_ms in
  file_start_ms <= last
  /\ (forall e en, In e results_list -> end_of e = Some en ->
        src_is (src_of e) fname = true -> en <= last)
  /\ (last = file_start_ms
      \/ exists e, In e results_list /\ end_of e = Some last
                   /\ src_is (src_of e) fname = true).
Proof. apply last_end_fold. Qed.

End LastEnd.

(** ** Saved items and the resume *)

Module ResumeFacts.
Import PlaceholderItems.

Lemma emit_committed (results : list Result) (existing : list (option Item))
  (i : nat) (sent : Sentence) (c : Carry) (r : Result) (st : Z) :
  nth_error results i = Some r -> start_of r = Some st ->
  emit results existing i sent c
  = mkOutItem (Z.of_nat i) sent (start_of r) (end_of r) (src_of r).
Proof.
  intros Hr Hst. destruct r as [[[s st'] en] src]. cbn in Hst. subst st'.
  unfold emit, own_times, times_get. rewrite Hr. reflexivity.
Qed.

Lemma items_loop_length results existing sents :
  forall i c, length (items_loop results existing i sents c) = length sents.
Proof.
  induction sents as [|s rest IH]; intros i c; [reflexivity|].
  cbn [items_loop length]. rewrite IH. reflexivity.
Qed.

Lemma items_loop_replayable (results : list Result) (existing : list (option Item))
  (rs : list Result) :
  forall sents i c,
    (forall j r, nth_error rs j = Some r ->
       nth_error results (i + j) = Some r) ->
    committed_prefix rs sents ->
    replayable rs (map stored (items_loop results existing i sents c)) sents.
Proof.
  induction rs as [|r rs IH]; intros sents i c Hn Hc; [exact I|].
  destruct sents as [|s sents]; [destruct Hc|].
  destruct Hc as (Hs & (st & en & Hst & Hen) & Hc).
  cbn [items_loop map replayable].
  rewrite (emit_committed results existing i s c r st)
    by (try exact Hst; rewrite <- (Nat.add_0_r i); apply Hn; reflexivity).
  unfold stored at 1. cbn [o_sentence o_start_ms o_end_ms o_audio_file
                             it_text it_start_ms it_end_ms it_audio_file].
  split; [reflexivity|]. split.
  - exists st, en. split; [exact Hst|]. split; [exact Hen|].
    destruct r as [[[s0 st0] en0] src0]. cbn in *. congruence.
  - apply IH; [|exact Hc]. intros j r' Hj.
    replace (S i + j)%nat with (i + S j)%nat by lia. apply Hn. exact Hj.
Qed.

Lemma prime_loop_replays (rs : list Result) :
  forall items ss k a,
    replayable rs items ss ->
    exists more,
      results (snd (prime_loop items ss k a)) = results a ++ rs ++ more
      /\ k + len rs <= fst (prime_loop items ss k a).
Proof.
  induction rs as [|r rs IH]; intros items ss k a H.
  - destruct (CommitFacts.prime_loop_spec items ss k a _ _
                (surjective_pairing _)) as (n & Hk & _ & _ & _ & Hf).
    exists (skipn (length (results a)) (results (snd (prime_loop items ss k a)))).
    split.
    + cbn [app].
      transitivity (firstn (length (results a))
                      (results (snd (prime_loop items ss k a)))
                    ++ skipn (length (results a))
                         (results (snd (prime_loop items ss k a))));
        [symmetry; apply firstn_skipn|rewrite Hf; reflexivity].
    + unfold len. simpl. lia.
  - destruct items as [|it items]; [destruct H|].
    destruct ss as [|s ss]; [destruct H|].
    destruct H as (Ht & (st & en & Hst & Hen & Hr) & H).
    cbn [prime_loop]. rewrite Ht. cbn [text_or_empty].
    rewrite DominantFacts.str_eqb_refl. cbn [negb]. rewrite Hst, Hen.
    destruct (IH items ss (k + 1)
                (set_progress a (results a ++ [(s, Some st, Some en, it_audio_file it)])
                   (sent_idx a) (cursor a) st en) H) as (more & R & K).
    exists more. split.
    + rewrite R. cbn [results set_progress]. rewrite <- app_assoc, Hr. reflexivity.
    + unfold len in *. simpl length. lia.
Qed.

End ResumeFacts.

Module ResumeClaims.
Import PlaceholderItems ResumeFacts.

(** [save_progress_json] writes one item for every sentence, in the
    order of the sentences and with the position as [idx]; the item of a
    sentence that has an entry with a start in [results] carries the
    times and the audio file of that entry. *)
Theorem save_items_complete (results : list Result)
  (existing_items : list (option Item)) (sentences_all : list Sentence) :
  let items := save_items results existing_items sentences_all in
  length items = length sentences_all
  /\ forall i sent,
       nth_error sentences_all i = Some sent ->
       exists it,
         nth_error items i = Some it
         /\ o_idx it = Z.of_nat i /\ o_sentence it = sent
         /\ forall r st,
              nth_error results i = Some r -> start_of r = Some st ->
              o_start_ms it = Some st /\ o_end_ms it = end_of r
              /\ o_audio_file it = src_of r.
Proof.
  cbv zeta. split; [apply items_loop_length|].
  intros i sent Hs. pose proof (save_items_nth results existing_items _ _ _ Hs) as N.
  cbv zeta in N. eexists. split; [exact N|].
  split; [|split].
  - unfold emit. destruct (patch_placeholder _ _ _) as [[? ?] ?]. reflexivity.
  - unfold emit. destruct (patch_placeholder _ _ _) as [[? ?] ?]. reflexivity.
  - intros r st Hr Hst. rewrite (emit_committed _ _ _ _ _ r st Hr Hst).
    cbn. repeat split; [exact Hst].
Qed.

(** A transcript saved and read back is replayed by the resume: if the
    first entries of [results] are those of the first sentences and carry
    times, [_prime_from_existing] on the saved items restores them, in
    order, at the head of [results], and resumes no earlier than after
    them. *)
Theorem save_then_prime_replays (committed others : list Result)
  (existing_items : list (option Item)) (sentences_all : list Sentence) :
  committed_prefix committed sentences_all ->
  let items :=
    map stored (save_items (committed ++ others) existing_items sentences_all) in
  let resumed := _prime_from_existing items sentences_all
                   (new_aligner sentences_all) in
  firstn (length committed) (results (snd resumed)) = committed
  /\ len committed <= fst resumed
  /\ sent_idx (snd resumed) = fst resumed.
Proof.
  intros Hc. cbv zeta.
  assert (R : replayable committed
                (map stored (save_items (committed ++ others) existing_items
                               sentences_all)) sentences_all).
  { apply items_loop_replayable; [|exact Hc]. intros j r Hj.
    rewrite Nat.add_0_l, nth_error_app1; [exact Hj|].
    apply nth_error_Some. congruence. }
  destruct (prime_loop_replays committed _ sentences_all 0
              (new_aligner sentences_all) R) as (more & Hr & Hk).
  unfold _prime_from_existing.
  destruct (prime_loop _ sentences_all 0 (new_aligner sentences_all)) as [k a1].
  cbn [fst snd] in *. cbn [results set_progress sent_idx].
  split; [|split; [lia|reflexivity]].
  rewrite Hr. cbn [results new_aligner app].
  rewrite firstn_app, Nat.sub_diag, firstn_all. apply app_nil_r.
Qed.

Lemma save_then_prime_replays_witness :
  let items := map stored (save_items Examples.results_ph [] Examples.ss_ph) in
  let resumed := _prime_from_existing items Examples.ss_ph
                   (new_aligner Examples.ss_ph) in
  firstn 1 (results (snd resumed)) = [(Examples.s_hello, Some 0, Some 1000,
                                       Some Examples.a_wav)]
  /\ fst resumed = 2.
Proof.
  cbv zeta.
  destruct (save_then_prime_replays
              [(Examples.s_hello, Some 0, Some 1000, Some Examples.a_wav)]
              [(Examples.s_merged_part, None, None, None)] []
              Examples.ss_ph) as (H & _).
  - split; [reflexivity|]. split; [exists 0, 1000; split; reflexivity|exact I].
  - split; [exact H|vm_compute; reflexivity].
Defined.

End ResumeClaims.

(** ** The normal form of sanitized text *)

Module SanitizeFacts.
Import StrFacts.

Lemma translate_char_clean (c : Z) :
  Forall (fun d => in_sanitize_map d = false) (translate_char true c).
Proof.
  unfold translate_char.
  destruct (to_apostrophe c) eqn:E1; [repeat constructor|].
  destruct (to_quote c) eqn:E2; [repeat constructor|].
  destruct (to_hyphen c) eqn:E3; [repeat constructor|].
  destruct (c =? 8230) eqn:E4; [repeat constructor|]. cbn [andb].
  destruct (to_asterisk c) eqn:E5; [repeat constructor|].
  destruct (to_space c) eqn:E6; [repeat constructor|].
  destruct (to_nothing c) eqn:E7; [constructor|].
  constructor; [|constructor]. unfold in_sanitize_map.
  rewrite E1, E2, E3, E4, E5, E6, E7. reflexivity.
Qed.

Lemma translate_clean (s : pystr) :
  Forall (fun d => in_sanitize_map d = false) (translate true s).
Proof.
  unfold translate. induction s as [|c t IH]; [constructor|].
  cbn [map concat]. apply Forall_app. split; [apply translate_char_clean|exact IH].
Qed.

Lemma translate_fixed (s : pystr) :
  Forall (fun d => in_sanitize_map d = false) s -> translate true s = s.
Proof.
  unfold translate. induction 1 as [|c t Hc _ IH]; [reflexivity|].
  cbn [map concat]. rewrite IH. unfold in_sanitize_map in Hc.
  unfold translate_char.
  destruct (to_apostrophe c); [discriminate Hc|].
  destruct (to_quote c); [discriminate Hc|].
  destruct (to_hyphen c); [discriminate Hc|].
  destruct (c =? 8230); [discriminate Hc|].
  destruct (to_asterisk c); [discriminate Hc|].
  destruct (to_space c); [discriminate Hc|].
  destruct (to_nothing c); [discriminate Hc|].
  reflexivity.
Qed.

Lemma flush_dots_keeps (P : Z -> Prop) (k : nat) : P 46 -> Forall P (flush_dots k).
Proof.
  intros H. unfold flush_dots. destruct (Nat.leb 4 k); [repeat constructor; exact H|].
  induction k; simpl; constructor; assumption.
Qed.

Lemma cap_dots_keeps (P : Z -> Prop) (s : pystr) :
  P 46 -> Forall P s -> forall k, Forall P (cap_dots_from k s).
Proof.
  intros H46. induction 1 as [|c t Hc _ IH]; intros k; cbn [cap_dots_from].
  - apply flush_dots_keeps, H46.
  - destruct (c =? 46); [apply IH|].
    apply Forall_app. split; [apply flush_dots_keeps, H46|].
    constructor; [exact Hc|apply IH].
Qed.

Lemma collapse_keeps (P : Z -> Prop) (cls : Z -> bool) (s : pystr) :
  P 32 -> Forall P s -> forall b, Forall P (collapse_from cls b s).
Proof.
  intros H32. induction 1 as [|c t Hc _ IH]; intros b; cbn [collapse_from];
    [constructor|].
  destruct (cls c); [|constructor; [exact Hc|apply IH]].
  apply Forall_app. split; [|apply IH].
  destruct b; [constructor|constructor; [exact H32|constructor]].
Qed.

(** Runs of dots. *)
Lemma short_dots_weaken (s : pystr) :
  forall j k, (j <= k)%nat -> short_dots k s -> short_dots j s.
Proof.
  induction s as [|c t IH]; intros j k Hjk; simpl; [lia|].
  destruct (c =? 46); [apply IH; lia|]. intros [H1 H2]. split; [lia|exact H2].
Qed.

Lemma short_dots_flush (k : nat) (rest : pystr) :
  short_dots (Nat.min k 3) rest -> short_dots 0 (flush_dots k ++ rest).
Proof.
  unfold flush_dots. destruct (Nat.leb 4 k) eqn:E.
  - apply Nat.leb_le in E. replace (Nat.min k 3) with 3%nat by lia.
    intros H. exact H.
  - apply Nat.leb_gt in E. replace (Nat.min k 3) with k by lia.
    assert (G : forall m j, short_dots (j + m) rest -> short_dots j (repeat 46 m ++ rest)).
    { induction m as [|m IH]; intros j H.
      - rewrite Nat.add_0_r in H. exact H.
      - simpl. apply IH. replace (S j + m)%nat with (j + S m)%nat by lia. exact H. }
    intros H. apply (G k 0%nat). exact H.
Qed.

Lemma cap_dots_short (s : pystr) :
  forall k, short_dots 0 (cap_dots_from k s).
Proof.
  induction s as [|c t IH]; intros k; cbn [cap_dots_from].
  - rewrite <- (app_nil_r (flush_dots k)). apply short_dots_flush. simpl. lia.
  - destruct (c =? 46) eqn:E; [apply IH|].
    apply short_dots_flush. simpl. rewrite E. split; [lia|apply IH].
Qed.

Lemma cap_dots_fixed (s : pystr) :
  forall k, short_dots k s -> cap_dots_from k s = repeat 46 k ++ s.
Proof.
  induction s as [|c t IH]; intros k H; cbn [cap_dots_from].
  - simpl in H. unfold flush_dots.
    replace (Nat.leb 4 k) with false by (symmetry; apply Nat.leb_gt; lia).
    symmetry. apply app_nil_r.
  - simpl in H. destruct (c =? 46) eqn:E.
    + apply Z.eqb_eq in E. subst c. rewrite (IH _ H).
      change (repeat 46 (S k)) with (46 :: repeat 46 k).
      rewrite (repeat_cons k 46), <- app_assoc. reflexivity.
    + destruct H as [H1 H2]. rewrite (IH _ H2). unfold flush_dots.
      replace (Nat.leb 4 k) with false by (symmetry; apply Nat.leb_gt; lia).
      reflexivity.
Qed.

Lemma dot_not_space : isspace 46 = false.
Proof. reflexivity. Qed.

Lemma space_not_dot (c : Z) : isspace c = true -> (c =? 46) = false.
Proof.
  intros H. destruct (c =? 46) eqn:E; [|reflexivity].
  apply Z.eqb_eq in E. subst c. discriminate.
Qed.

Lemma collapse_short (s : pystr) :
  forall k b, (b = true -> k = 0%nat) -> short_dots k s ->
    short_dots k (collapse_from isspace b s).
Proof.
  induction s as [|c t IH]; intros k b Hb H; cbn [collapse_from]; [exact H|].
  simpl in H. destruct (isspace c) eqn:W.
  - rewrite (space_not_dot _ W) in H. destruct H as [H1 H2].
    destruct b; cbn [app].
    + rewrite (Hb eq_refl). apply IH; [reflexivity|exact H2].
    + simpl. split; [exact H1|]. apply IH; [reflexivity|exact H2].
  - simpl. destruct (c =? 46).
    + apply IH; [discriminate|exact H].
    + destruct H as [H1 H2]. split; [exact H1|]. apply IH; [discriminate|exact H2].
Qed.

Lemma lstrip_short (s : pystr) : short_dots 0 s -> short_dots 0 (lstrip s).
Proof.
  induction s as [|c t IH]; intros H; [exact H|].
  cbn [lstrip]. destruct (isspace c) eqn:W; [|exact H].
  simpl in H. rewrite (space_not_dot _ W) in H. apply IH, H.
Qed.

Lemma rstrip_short (s : pystr) : forall k, short_dots k s -> short_dots k (rstrip s).
Proof.
  induction s as [|c t IH]; intros k H; [exact H|].
  rewrite rstrip_cons. simpl in H. destruct (c =? 46) eqn:E.
  - specialize (IH _ H). destruct (rstrip t) as [|d u] eqn:R.
    + apply Z.eqb_eq in E. subst c. simpl. simpl in IH. exact IH.
    + simpl. rewrite E. exact IH.
  - destruct H as [H1 H2]. specialize (IH _ H2).
    destruct (rstrip t) as [|d u] eqn:R.
    + destruct (isspace c); simpl; [exact H1|]. rewrite E. split; [exact H1|exact IH].
    + simpl. rewrite E. split; [exact H1|exact IH].
Qed.

(** Single spaces. *)
Lemma single_spaced_weaken (s : pystr) : single_spaced true s -> single_spaced false s.
Proof.
  destruct s as [|c t]; [trivial|]. cbn [single_spaced].
  destruct (isspace c); [|trivial].
  intros (_ & X & _). discriminate.
Qed.

Lemma collapse_single (s : pystr) :
  forall b, single_spaced b (collapse_from isspace b s).
Proof.
  induction s as [|c t IH]; intros b; cbn [collapse_from]; [exact I|].
  destruct (isspace c) eqn:W.
  - destruct b; cbn [app]; [apply IH|].
    cbn [single_spaced]. change (isspace 32) with true. cbv iota.
    repeat split. apply IH.
  - cbn [single_spaced]. rewrite W. apply IH.
Qed.

Lemma collapse_fixed (s : pystr) :
  forall b, single_spaced b s -> collapse_from isspace b s = s.
Proof.
  induction s as [|c t IH]; intros b H; [reflexivity|].
  cbn [collapse_from]. cbn [single_spaced] in H. destruct (isspace c).
  - destruct H as (-> & -> & H). cbn [app]. rewrite (IH _ H). reflexivity.
  - rewrite (IH _ H). reflexivity.
Qed.

Lemma lstrip_single (s : pystr) : single_spaced false s -> single_spaced false (lstrip s).
Proof.
  destruct s as [|c t]; [trivial|]. cbn [lstrip single_spaced].
  destruct (isspace c) eqn:W; [|cbn [single_spaced]; rewrite W; trivial].
  intros (_ & _ & H). destruct t as [|d u]; [exact I|].
  cbn [single_spaced] in H. cbn [lstrip]. destruct (isspace d) eqn:W'.
  - destruct H as (_ & X & _). discriminate.
  - cbn [single_spaced]. rewrite W'. exact H.
Qed.

Lemma rstrip_single (s : pystr) :
  forall b, single_spaced b s -> single_spaced b (rstrip s).
Proof.
  induction s as [|c t IH]; intros b H; [exact H|].
  rewrite rstrip_cons. cbn [single_spaced] in H. destruct (isspace c) eqn:W.
  - destruct H as (H1 & H2 & H3). specialize (IH _ H3).
    destruct (rstrip t) as [|d u]; [exact I|].
    cbn [single_spaced]. rewrite W. repeat split; assumption.
  - specialize (IH _ H). destruct (rstrip t) as [|d u]; cbn [single_spaced];
      rewrite W; [exact I|exact IH].
Qed.

End SanitizeFacts.

Module SanitizeClaims.
Import StrFacts SanitizeFacts.

(** The text that [sanitize_text] returns (without [for_split]) is in
    normal form: none of its steps changes it any more, so the function is
    idempotent.  It holds no character of [SANITIZE_MAP], no run of four
    dots, no whitespace other than single spaces, and none at its ends. *)
Theorem sanitize_text_normal (s : pystr) :
  let r := sanitize_text s false in
  Forall (fun c => in_sanitize_map c = false) r
  /\ short_dots 0 r
  /\ single_spaced false r
  /\ strip r = r
  /\ sanitize_text r false = r.
Proof.
  cbv zeta.
  destruct s as [|c0 t0]; [repeat split; try constructor; simpl; try lia; reflexivity|].
  assert (E : sanitize_text (c0 :: t0) false
              = strip (collapse isspace (cap_dots (translate true (c0 :: t0)))))
    by reflexivity.
  rewrite E. clear E.
  set (r := strip (collapse isspace (cap_dots (translate true (c0 :: t0))))).
  assert (Hclean : Forall (fun c => in_sanitize_map c = false) r).
  { apply strip_Forall, collapse_keeps; [reflexivity|].
    apply cap_dots_keeps; [reflexivity|apply translate_clean]. }
  assert (Hdots : short_dots 0 r).
  { unfold r, strip. apply rstrip_short, lstrip_short, collapse_short;
      [discriminate|apply cap_dots_short]. }
  assert (Hws : single_spaced false r).
  { unfold r, strip. apply rstrip_single, lstrip_single, collapse_single. }
  assert (Hstrip : strip r = r) by apply strip_idem.
  split; [exact Hclean|]. split; [exact Hdots|]. split; [exact Hws|].
  split; [exact Hstrip|].
  unfold sanitize_text. destruct (negb (nonempty r)); [reflexivity|].
  rewrite (translate_fixed _ Hclean). unfold cap_dots.
  rewrite (cap_dots_fixed _ _ Hdots). cbn [repeat app]. unfold collapse.
  rewrite (collapse_fixed _ _ Hws). exact Hstrip.
Qed.

End SanitizeClaims.

(** ** The ASR prompt and the words of a segment *)

Module PromptFacts.
Import StrFacts SanitizeFacts.

Lemma single_spaced_firstn (s : pystr) :
  forall n b, single_spaced b s -> single_spaced b (firstn n s).
Proof.
  induction s as [|c t IH]; intros [|n] b H; try exact I.
  cbn [firstn single_spaced]. cbn [single_spaced] in H. destruct (isspace c).
  - destruct H as (H1 & H2 & H3). repeat split; try assumption. apply IH, H3.
  - apply IH, H.
Qed.

Lemma rstrip_prefix (s : pystr) : exists suffix, s = rstrip s ++ suffix.
Proof.
  induction s as [|c t [suffix IH]]; [exists []; reflexivity|].
  rewrite rstrip_cons. destruct (rstrip t) as [|d u] eqn:R.
  - destruct (isspace c); [exists (c :: t); reflexivity|].
    exists t. reflexivity.
  - exists suffix. cbn [app]. f_equal. exact IH.
Qed.

Lemma lstrip_firstn_fixed (s : pystr) (n : nat) :
  lstrip s = s -> lstrip (firstn n s) = firstn n s.
Proof.
  destruct s as [|c t]; [rewrite firstn_nil; reflexivity|].
  intros H. apply lstrip_fixed_head in H. destruct n; [reflexivity|].
  cbn [firstn lstrip]. rewrite H. reflexivity.
Qed.

Lemma lstrip_strip (s : pystr) : lstrip (strip s) = strip s.
Proof. unfold strip. apply lstrip_rstrip_fixed, lstrip_idem. Qed.













End PromptFacts.

Module PromptClaims.
Import StrFacts SanitizeFacts PromptFacts.

(** [_clean_asr_prompt] returns a text without whitespace at its ends
    whose only whitespace is single spaces; with a positive [max_chars]
    it has at most [max_chars] characters and is the beginning of the text
    returned without a budget. *)
Theorem clean_asr_prompt_spec (text : pystr) (max_chars : Z) :
  let r := _clean_asr_prompt text max_chars in
  strip r = r
  /\ single_spaced false r
  /\ (0 < max_chars -> len r <= max_chars)
  /\ exists rest, _clean_asr_prompt text 0 = r ++ rest.
Proof.
  cbv zeta. unfold _clean_asr_prompt.
  destruct (negb (nonempty text));
    [repeat split; try exact I; try (intros; unfold len; simpl; lia);
     exists []; reflexivity|].
  cbv zeta.
  set (full := strip (collapse isspace (remove_matches match_bracket_tag 0 text))).
  assert (Hs : strip full = full) by apply strip_idem.
  assert (Hw : single_spaced false full).
  { unfold full, strip. apply rstrip_single, lstrip_single, collapse_single. }
  change (negb (0 =? 0) && (0 <? 0) && (0 <? len full)) with false. cbv iota.
  destruct (negb (max_chars =? 0) && (0 <? max_chars) && (max_chars <? len full))
    eqn:E.
  - apply andb_true_iff in E. destruct E as [E E3].
    apply andb_true_iff in E. destruct E as [_ E2].
    apply Z.ltb_lt in E2. apply Z.ltb_lt in E3.
    unfold py_prefix. replace (0 <=? max_chars) with true
      by (symmetry; apply Z.leb_le; lia).
    set (cut := firstn (Z.to_nat max_chars) full).
    split; [|split; [|split]].
    + unfold strip. rewrite lstrip_rstrip_fixed; [apply rstrip_idem|].
      apply lstrip_firstn_fixed. unfold full. apply lstrip_strip.
    + apply rstrip_single, single_spaced_firstn, Hw.
    + intros _. pose proof (rstrip_length cut).
      pose proof (firstn_le_length (Z.to_nat max_chars) full).
      unfold len, cut in *. lia.
    + destruct (rstrip_prefix cut) as [suffix Hsuf].
      exists (suffix ++ skipn (Z.to_nat max_chars) full).
      rewrite app_assoc, <- Hsuf. unfold cut. symmetry. apply firstn_skipn.
  - split; [exact Hs|]. split; [exact Hw|]. split; [|exists []; symmetry; apply app_nil_r].
    intros Hm. destruct (max_chars =? 0) eqn:E0; [apply Z.eqb_eq in E0; lia|].
    replace (0 <? max_chars) with true in E by (symmetry; apply Z.ltb_lt; lia).
    cbn [negb andb] in E. apply Z.ltb_ge in E. exact E.
Qed.


Lemma clean_asr_prompt_spec_witness :
  len (_clean_asr_prompt PromptExamples.tagged_prompt 8) <= 8
  /\ _clean_asr_prompt PromptExamples.tagged_prompt 8 = lit "hello wo".
Proof.
  destruct (clean_asr_prompt_spec PromptExamples.tagged_prompt 8)
    as (_ & _ & H & _).
  split; [apply H; lia|vm_compute; reflexivity].
Defined.


End PromptClaims.
(** * [TextPartsManager]: the groups of the initial merge *)

Module TextPartFacts.
Import TextParts.

Lemma put_length {A} (i : nat) (v : A) xs : length (put i v xs) = length xs.
Proof.
  revert i; induction xs as [|h t IH]; intros [|i]; simpl; auto.
Qed.

Lemma nth_put_same {A} (i : nat) (v d : A) xs :
  (i < length xs)%nat -> nth i (put i v xs) d = v.
Proof.
  revert i; induction xs as [|h t IH]; intros [|i] H; simpl in *; try lia; auto.
  apply IH; lia.
Qed.

Lemma nth_put_other {A} (i j : nat) (v d : A) xs :
  i <> j -> nth j (put i v xs) d = nth j xs d.
Proof.
  revert i j; induction xs as [|h t IH]; intros [|i] [|j] H; simpl; auto.
  congruence.
Qed.

Lemma get_put_same {A} (a : Z) (v d : A) xs :
  0 <= a < len xs -> get (put (Z.to_nat a) v xs) a d = v.
Proof.
  unfold get, len; intros H; apply nth_put_same; lia.
Qed.

Lemma get_put_other {A} (a b : Z) (v d : A) xs :
  0 <= a -> 0 <= b -> a <> b -> get (put (Z.to_nat a) v xs) b d = get xs b d.
Proof.
  unfold get; intros Ha Hb H; apply nth_put_other; lia.
Qed.

Lemma get_const {A B} (xs : list A) (v : B) i : get (map (fun _ => v) xs) i v = v.
Proof.
  unfold get; generalize (Z.to_nat i); induction xs as [|h t IH]; intros [|k]; simpl; auto.
Qed.

Lemma zrange_snoc lo n : zrange lo (S n) = zrange lo n ++ [lo + Z.of_nat n].
Proof.
  revert lo; induction n as [|n IH]; intros lo.
  - simpl; f_equal; lia.
  - change (zrange lo (S (S n))) with (lo :: zrange (lo + 1) (S n)).
    rewrite IH; simpl; do 3 f_equal; lia.
Qed.

Lemma zrange_length lo n : length (zrange lo n) = n.
Proof. revert lo; induction n; intros; simpl; auto. Qed.

Lemma zrange_In lo n x : In x (zrange lo n) <-> lo <= x < lo + Z.of_nat n.
Proof.
  revert lo; induction n as [|n IH]; intros lo; simpl.
  - lia.
  - rewrite IH; lia.
Qed.

Lemma zrange_nth lo n k d :
  (k < n)%nat -> nth k (zrange lo n) d = lo + Z.of_nat k.
Proof.
  revert lo k; induction n as [|n IH]; intros lo [|k] H; simpl; try lia.
  rewrite IH; lia.
Qed.

Lemma span_chars_one m i : span_chars m i (i + 1) = stripped_len m i.
Proof.
  unfold span_chars; replace (i + 1 - i) with 1 by lia; simpl; lia.
Qed.

Lemma span_chars_snoc m c i :
  c <= i -> span_chars m c (i + 1) = span_chars m c i + stripped_len m i.
Proof.
  intros H; unfold span_chars.
  replace (Z.to_nat (i + 1 - c)) with (S (Z.to_nat (i - c))) by lia.
  rewrite zrange_snoc, map_app, PyNumFacts.zsum_app; simpl.
  replace (c + Z.of_nat (Z.to_nat (i - c))) with i by lia; lia.
Qed.

Lemma carrier_of_attach m i c j :
  0 <= i -> 0 <= j -> i <> j ->
  carrier_of (_attach_suffix m i c) j = carrier_of m j.
Proof.
  intros; unfold carrier_of; simpl; rewrite get_put_other; auto.
Qed.

Lemma boundary_attach m i c j :
  0 <= i -> 0 < j -> j <= i ->
  boundary (_attach_suffix m i c) j <-> boundary m j.
Proof.
  intros Hi Hj Hji; unfold boundary.
  rewrite (carrier_of_attach m i c (j - 1)) by lia.
  reflexivity.
Qed.

Lemma attach_growing m c total idx :
  growing m c total idx -> idx < len (parts m) ->
  chunk_eqb (chunk_of m idx) (chunk_of m c) = true ->
  (total < min_chars m \/ stripped_len m idx < min_chars m) ->
  growing (_attach_suffix m idx c) c (total + stripped_len m idx) (idx + 1).
Proof.
  intros [M Hc Hlast Hfree Htot Hch Hkids] Hn Hsame Hshort.
  destruct M as [Sh Hr Hfresh Hatt Hcar Hsuf].
  destruct (Hfresh idx ltac:(lia)) as (Fa & Fs & Fm & Fg).
  assert (La : len (attached_to m) = len (parts m))
    by (unfold len; now rewrite (shaped_attached m Sh)).
  assert (Lm : len (attach_mode m) = len (parts m))
    by (unfold len; now rewrite (shaped_mode m Sh)).
  assert (Lg : len (merged_into m) = len (parts m))
    by (unfold len; now rewrite (shaped_merged m Sh)).
  assert (Ls : len (suffix_children m) = len (parts m))
    by (unfold len; now rewrite (shaped_suffix m Sh)).
  constructor.
  - constructor.
    + destruct Sh; constructor; simpl; rewrite ?put_length; auto.
    + simpl; lia.
    + intros i Hi; simpl in Hi; unfold mode_of; simpl.
      rewrite !get_put_other by lia.
      apply Hfresh; lia.
    + intros i c' Hi; unfold mode_of; simpl.
      destruct (Z.eq_dec i idx) as [->|Hne].
      * rewrite !get_put_same by lia.
        intros E; inversion E; subst c'.
        rewrite get_put_other by lia.
        rewrite carrier_of_attach by lia.
        repeat split; auto; try lia.
        -- apply SuborderFacts.chunk_eqb_eq in Hsame, Hch; apply SuborderFacts.chunk_eqb_eq.
           unfold chunk_of in *; simpl; congruence.
        -- change (span_chars (_attach_suffix m idx c) c idx)
             with (span_chars m c idx).
           change (stripped_len (_attach_suffix m idx c) idx)
             with (stripped_len m idx).
           change (min_chars (_attach_suffix m idx c)) with (min_chars m).
           lia.
      * rewrite !get_put_other by lia.
        intros E; destruct (Hatt i c' ltac:(lia) E) as (A1 & A2 & A3 & A4 & A5 & A6 & A7).
        rewrite ?get_put_other by lia.
        rewrite carrier_of_attach by lia.
        repeat split; try assumption; lia.
    + intros i Hi; unfold mode_of; simpl.
      destruct (Z.eq_dec i idx) as [->|Hne].
      * rewrite get_put_same by lia; discriminate.
      * rewrite !get_put_other by lia.
        intros E; destruct (Hcar i ltac:(lia) E) as (B1 & B2 & B3).
        repeat split; auto.
        destruct (Z.eq_dec i 0) as [->|Hi0]; [now left|].
        apply boundary_attach; auto; lia.
    + intros c' Hc'; simpl in Hc'; simpl.
      destruct (Hsuf c' Hc') as [S1 S2].
      destruct (Z.eq_dec c' c) as [->|Hne].
      * rewrite get_put_same by lia.
        split.
        -- rewrite length_app; simpl.
           replace (length (get (suffix_children m) c []) + 1)%nat
             with (S (length (get (suffix_children m) c []))) by lia.
           rewrite zrange_snoc, <- S1; do 2 f_equal.
           unfold len in Hkids; lia.
        -- intros j Hj; rewrite in_app_iff; simpl.
           destruct (Z.eq_dec j idx) as [->|Hj'].
           ++ rewrite get_put_same by lia; tauto.
           ++ rewrite get_put_other by lia.
              rewrite <- (S2 j Hj); split; [intros [H|[H|[]]]|]; auto; congruence.
      * rewrite get_put_other by lia.
        split; auto.
        intros j Hj; rewrite (S2 j Hj).
        destruct (Z.eq_dec j idx) as [->|Hj'].
        -- rewrite get_put_same by lia; rewrite Fa.
           split; intros E; inversion E; congruence.
        -- rewrite get_put_other by lia; tauto.
  - lia.
  - replace (idx + 1 - 1) with idx by lia.
    unfold carrier_of; simpl; now rewrite get_put_same by lia.
  - simpl; rewrite get_put_other by lia; auto.
  - change (span_chars (_attach_suffix m idx c) c (idx + 1))
      with (span_chars m c (idx + 1)).
    rewrite span_chars_snoc by lia; lia.
  - replace (idx + 1 - 1) with idx by lia; exact Hsame.
  - simpl; rewrite get_put_same by lia.
    unfold len in *; rewrite length_app; simpl; lia.
Qed.

Lemma merged_next m idx :
  closed m idx -> idx < len (parts m) -> merged m (idx + 1).
Proof.
  intros [[Sh Hr Hfresh Hatt Hcar Hsuf] Hb] Hn.
  destruct (Hfresh idx ltac:(lia)) as (Fa & Fs & Fm & Fg).
  constructor; auto; try lia.
  - intros i Hi; apply Hfresh; lia.
  - intros i c Hi E.
    destruct (Z.eq_dec i idx) as [->|Hne]; [congruence|].
    apply Hatt; auto; lia.
  - intros i Hi E.
    destruct (Z.eq_dec i idx) as [->|Hne]; [auto|].
    apply Hcar; auto; lia.
Qed.

Lemma growing_start m idx :
  closed m idx -> idx < len (parts m) ->
  growing m idx (stripped_len m idx) (idx + 1).
Proof.
  intros C Hn.
  pose proof (merged_next m idx C Hn) as M.
  destruct C as [[Sh Hr Hfresh Hatt Hcar Hsuf] Hb].
  destruct (Hfresh idx ltac:(lia)) as (Fa & Fs & Fm & Fg).
  constructor; auto; try lia.
  - replace (idx + 1 - 1) with idx by lia.
    unfold carrier_of; now rewrite Fa.
  - now rewrite span_chars_one.
  - replace (idx + 1 - 1) with idx by lia; now apply SuborderFacts.chunk_eqb_eq.
  - rewrite Fs; unfold len; simpl; lia.
Qed.

(** The inner loop stops at a part that starts a group, or at the end. *)
Lemma merge_inner_closed fuel :
  forall m c total idx,
  growing m c total idx ->
  (Z.to_nat (len (parts m) - idx) <= fuel)%nat ->
  closed (fst (merge_inner fuel m c total idx))
         (snd (merge_inner fuel m c total idx)) /\
  idx <= snd (merge_inner fuel m c total idx) /\
  parts (fst (merge_inner fuel m c total idx)) = parts m /\
  part_chunk (fst (merge_inner fuel m c total idx)) = part_chunk m /\
  min_chars (fst (merge_inner fuel m c total idx)) = min_chars m.
Proof.
  induction fuel as [|fuel IH]; intros m c total idx G Hf.
  - pose proof (merged_range _ _ (growing_merged _ _ _ _ G)).
    simpl; split; [split|split; [lia|auto]].
    + apply (growing_merged _ _ _ _ G).
    + intros ?; lia.
  - cbn [merge_inner].
    pose proof (merged_range _ _ (growing_merged _ _ _ _ G)) as Hr.
    assert (Step : forall (Hn : idx < len (parts m))
              (Hsame : chunk_eqb (chunk_of m idx) (chunk_of m c) = true)
              (Hshort : total < min_chars m \/ stripped_len m idx < min_chars m),
       let r := merge_inner fuel (_attach_suffix m idx c) c
                  (total + stripped_len m idx) (idx + 1) in
       closed (fst r) (snd r) /\ idx <= snd r /\ parts (fst r) = parts m /\
       part_chunk (fst r) = part_chunk m /\ min_chars (fst r) = min_chars m).
    { intros Hn Hsame Hshort r.
      destruct (IH _ _ _ _ (attach_growing m c total idx G Hn Hsame Hshort))
        as (I1 & I2 & I3 & I4 & I5).
      { simpl; lia. }
      split; [exact I1|split; [fold r in I2; lia|auto]]. }
    destruct (idx <? len (parts m)) eqn:En.
    + apply Z.ltb_lt in En.
      destruct (chunk_eqb (chunk_of m idx) (chunk_of m c)) eqn:Ec; cbn [negb].
      * destruct (total <? min_chars m) eqn:Et.
        -- apply Z.ltb_lt in Et; apply Step; auto.
        -- destruct (stripped_len m idx <? min_chars m) eqn:Es.
           ++ apply Z.ltb_lt in Es; apply Step; auto.
           ++ apply Z.ltb_ge in Et, Es.
              simpl; split; [split|split; [lia|auto]].
              ** apply (growing_merged _ _ _ _ G).
              ** intros _; right; right.
                 rewrite (growing_last _ _ _ _ G), <- (growing_total _ _ _ _ G).
                 lia.
      * simpl; split; [split|split; [lia|auto]].
        -- apply (growing_merged _ _ _ _ G).
        -- intros _; right; left.
           pose proof (growing_chunk _ _ _ _ G) as Hch.
           apply SuborderFacts.chunk_eqb_eq in Hch; rewrite Hch; exact Ec.
    + apply Z.ltb_ge in En.
      simpl; split; [split|split; [lia|auto]].
      * apply (growing_merged _ _ _ _ G).
      * intros ?; lia.
Qed.

(** The outer loop groups every part. *)
Lemma merge_outer_merged fuel :
  forall m idx,
  closed m idx ->
  (Z.to_nat (len (parts m) - idx) <= fuel)%nat ->
  merged (merge_outer fuel m idx) (len (parts m)) /\
  parts (merge_outer fuel m idx) = parts m /\
  part_chunk (merge_outer fuel m idx) = part_chunk m /\
  min_chars (merge_outer fuel m idx) = min_chars m.
Proof.
  induction fuel as [|fuel IH]; intros m idx C Hf.
  - pose proof (merged_range _ _ (proj1 C)) as Hr.
    simpl; split; auto.
    replace (len (parts m)) with idx by lia; apply C.
  - cbn [merge_outer].
    pose proof (merged_range _ _ (proj1 C)) as Hr.
    destruct (idx <? len (parts m)) eqn:En.
    + apply Z.ltb_lt in En.
      destruct (merged_fresh _ _ (proj1 C) idx ltac:(lia)) as (Fa & _).
      unfold is_attached; rewrite Fa.
      pose proof (merge_inner_closed (Z.to_nat (len (parts m) - (idx + 1)))
                    m idx (stripped_len m idx) (idx + 1)
                    (growing_start m idx C En) (Nat.le_refl _)) as I.
      destruct (merge_inner _ m idx (stripped_len m idx) (idx + 1)) as [m' idx'].
      simpl in I; destruct I as (I1 & I2 & I3 & I4 & I5).
      destruct (IH m' idx' I1) as (J1 & J2 & J3 & J4).
      { rewrite I3; lia. }
      rewrite I3 in J1.
      split; [exact J1|split; [|split]; congruence].
    + apply Z.ltb_ge in En.
      split; auto.
      replace (len (parts m)) with idx by lia; apply C.
Qed.

Lemma len_map {A B} (f : A -> B) xs : len (map f xs) = len xs.
Proof. unfold len; now rewrite length_map. Qed.

(** [__init__] leaves every part grouped. *)
Lemma new_manager_merged items mc :
  merged (new_manager items mc) (len items) /\
  parts (new_manager items mc) = map fst items /\
  part_chunk (new_manager items mc) = map snd items /\
  min_chars (new_manager items mc) = Z.max 0 mc.
Proof.
  unfold new_manager, _initial_merge.
  set (m0 := mkManager _ _ _ _ _ _ _ _).
  assert (C : closed m0 0).
  { split; [|intros _; now left].
    constructor; simpl.
    - constructor; simpl; rewrite ?length_map; auto.
      intros i; apply (get_const items (@nil Z)).
    - unfold len; lia.
    - intros i _; unfold mode_of; simpl.
      rewrite (get_const items (@None Z)), (get_const items (@nil Z)),
        (get_const items (@None Mode)); auto.
    - intros; lia.
    - intros; lia.
    - intros c _; rewrite (get_const items (@nil Z)); simpl; split; auto.
      intros j _; rewrite (get_const items (@None Z)); split; [tauto|discriminate]. }
  destruct (merge_outer_merged (length (parts m0)) m0 0 C) as (J1 & J2 & J3 & J4).
  { unfold len; lia. }
  change (parts m0) with (map fst items) in *.
  rewrite len_map in J1.
  split; auto.
Qed.

End TextPartFacts.

Module TextPartGroups.
Import TextParts TextPartFacts.

Lemma nth_map_zrange {A} (f : Z -> A) n k d :
  (k < n)%nat -> nth k (map f (zrange 0 n)) d = f (Z.of_nat k).
Proof.
  intros H.
  rewrite (nth_indep _ d (f 0)) by (rewrite length_map, zrange_length; lia).
  rewrite map_nth, zrange_nth by lia; f_equal; lia.
Qed.

(** An attached part and every part between it and its carrier are of
    the carrier's chunk and attached to the carrier. *)
Lemma attached_run m k :
  merged m k ->
  forall i c, 0 <= i < k -> get (attached_to m) i None = Some c ->
  chunk_of m i = chunk_of m c /\
  forall j, c < j <= i -> get (attached_to m) j None = Some c.
Proof.
  intros M i c Hi.
  assert (H0 : 0 <= i) by lia; revert c Hi; pattern i.
  apply Z_lt_induction; [|exact H0]; clear i H0.
  intros i IH c Hi E.
  - destruct (merged_attached m k M i c Hi E) as (A1 & A2 & A3 & A4 & _).
    apply SuborderFacts.chunk_eqb_eq in A4.
    unfold carrier_of in A3.
    destruct (get (attached_to m) (i - 1) None) as [c'|] eqn:Ep.
    + subst c'.
      destruct (IH (i - 1) ltac:(lia) c ltac:(lia) Ep) as [I1 I2].
      split; [congruence|].
      intros j Hj; destruct (Z.eq_dec j i) as [->|Hne]; auto.
      apply I2; lia.
    + subst c; split; auto.
      intros j Hj; replace j with i by lia; exact E.
Qed.

(** [_initial_merge] starts a group at the first part, at a change
    of chunk, and where a group that has reached [min_chars] meets a part
    of [min_chars] characters; every other part is attached by suffix to
    the carrier of the part before it. *)
Theorem initial_merge_groups items mc i :
  0 <= i < len items ->
  let m := new_manager items mc in
  parts m = map fst items /\ part_chunk m = map snd items /\
  min_chars m = Z.max 0 mc /\
  (is_attached m i = false <-> boundary m i) /\
  (is_attached m i = true ->
     let c := carrier_of m (i - 1) in
     0 <= c < i /\ is_attached m c = false /\
     chunk_of m i = chunk_of m c /\
     (forall j, c < j <= i -> get (attached_to m) j None = Some c) /\
     mode_of m i = Some suffix_mode /\
     get (merged_into m) i None = Some c).
Proof.
  intros Hi m.
  destruct (new_manager_merged items mc) as (M & P1 & P2 & P3).
  fold m in M, P1, P2, P3.
  split; [exact P1|split; [exact P2|split; [exact P3|]]].
  unfold is_attached.
  destruct (get (attached_to m) i None) as [c|] eqn:E.
  - destruct (merged_attached m _ M i c Hi E) as (A1 & A2 & A3 & A4 & A5 & A6 & A7).
    destruct (attached_run m _ M i c Hi E) as [R1 R2].
    split.
    + split; [discriminate|].
      intros [B|[B|[B1 B2]]]; [lia|congruence|].
      rewrite <- A3 in B1; lia.
    + intros _; cbv zeta; rewrite <- A3, A2.
      repeat split; auto; lia.
  - split; [|discriminate].
    split; auto; intros _.
    apply (merged_carrier m _ M i Hi E).
Qed.

Lemma initial_merge_groups_witness :
  let m := new_manager TextPartExamples.six_parts 5 in
  get (attached_to m) 3 None = Some 2 /\ boundary m 2.
Proof.
  cbv zeta.
  destruct (initial_merge_groups TextPartExamples.six_parts 5 3
              ltac:(vm_compute; split; [discriminate|reflexivity]))
    as (_ & _ & _ & _ & H).
  destruct (initial_merge_groups TextPartExamples.six_parts 5 2
              ltac:(vm_compute; split; [discriminate|reflexivity]))
    as (_ & _ & _ & [G _] & _).
  split.
  - destruct (H ltac:(vm_compute; reflexivity)) as (_ & _ & _ & R & _).
    apply R; vm_compute; split; [reflexivity|discriminate].
  - apply G; vm_compute; reflexivity.
Defined.

(** [build_sentences] gives one sentence per part; an attached part
    gives an empty placeholder, and a carrier gives the sentence that
    [make_sentence] makes of the texts of its group in the order of the
    parts, the empty ones left out, joined by single spaces and
    stripped: its text is that text with the bracketed tags removed, the
    whitespace collapsed and stripped, and sanitized.  The group of a
    carrier is the run of parts that follows it. *)
Theorem build_sentences_groups (norm_text : pystr -> pystr)
  (tokenize_words : pystr -> list pystr) items mc c :
  0 <= c < len items ->
  let m := new_manager items mc in
  let built := build_sentences norm_text tokenize_words m in
  let placeholder := mkSentence [] [] [] true in
  length built = length items /\
  (is_attached m c = true -> nth (Z.to_nat c) built placeholder = placeholder) /\
  (is_attached m c = false ->
     exists g : nat,
       (forall j, 0 <= j < len items ->
          (get (attached_to m) j None = Some c <-> c < j <= c + Z.of_nat g)) /\
       get (suffix_children m) c [] = zrange (c + 1) g /\
       get (prefix_children m) c [] = [] /\
       let text :=
         strip (join_space (filter nonempty
           (map (fun j => get (map fst items) j []) (zrange c (S g))))) in
       let sent := nth (Z.to_nat c) built placeholder in
       sent = (if nonempty text then make_sentence norm_text tokenize_words text
               else mkSentence [] [] [] false) /\
       s_placeholder sent = false /\
       s_text sent =
         sanitize_text
           (strip (collapse isspace (remove_matches match_bracket_tag 0 text)))
           false /\
       s_norm sent = (if nonempty text then norm_text (s_text sent) else []) /\
       s_tokens sent =
         (if nonempty text then tokenize_words (s_norm sent) else [])).
Proof.
  intros Hc m built placeholder.
  destruct (new_manager_merged items mc) as (M & P1 & P2 & P3).
  fold m in M, P1, P2, P3.
  assert (Hn : length (parts m) = length items)
    by (rewrite P1; apply length_map).
  assert (Hnth : nth (Z.to_nat c) built placeholder =
                 if is_attached m c then placeholder
                 else _make_real_sentence norm_text tokenize_words m c).
  { unfold built, build_sentences.
    rewrite nth_map_zrange by (rewrite Hn; unfold len in Hc; lia).
    now replace (Z.of_nat (Z.to_nat c)) with c by lia. }
  split; [|split].
  - unfold built, build_sentences; rewrite length_map, zrange_length; exact Hn.
  - intros E; now rewrite Hnth, E.
  - intros E; rewrite Hnth, E.
    assert (Hc' : 0 <= c < len (parts m)) by (unfold len in *; lia).
    destruct (merged_children m _ M c Hc') as [S1 S2].
    set (l := get (suffix_children m) c []) in *.
    exists (length l); split; [|split; [exact S1|split]].
    + intros j Hj; rewrite <- S2 by (unfold len in *; lia).
      rewrite S1, zrange_In, zrange_length; lia.
    + apply (shaped_no_prefix m (merged_shape m _ M)).
    + assert (Ht : _compose_text m c =
                   strip (join_space (filter nonempty
                     (map (fun j => get (map fst items) j [])
                        (zrange c (S (length l))))))).
      { unfold _compose_text.
        rewrite (shaped_no_prefix m (merged_shape m _ M)); fold l.
        rewrite S1 at 1; rewrite P1; reflexivity. }
      cbv zeta. unfold _make_real_sentence. cbv zeta. rewrite Ht.
      set (text := strip _).
      destruct text as [|x text'] eqn:Etext.
      * cbn [nonempty nonempty_list s_text s_norm s_tokens s_placeholder].
        repeat split.
      * change (nonempty (x :: text')) with true. cbv iota.
        unfold make_sentence. cbn [s_text s_norm s_tokens s_placeholder].
        repeat split.
Qed.

Lemma build_sentences_groups_witness :
  map (fun s => (s_placeholder s, s_text s))
    (build_sentences TextPartExamples.lower_text TextPartExamples.whole_text
       (new_manager TextPartExamples.six_parts 5)) =
    [(false, lit "aaaa bb"); (true, []); (false, lit "cccccc d"); (true, []);
     (false, lit "e ffffff"); (true, [])]
  /\ build_sentences TextPartExamples.lower_text TextPartExamples.whole_text
       (new_manager TextPartExamples.tagged_part 0) =
     [mkSentence (lit "a b") (lit "a b") [lit "a b"] false]
  /\ length (build_sentences TextPartExamples.lower_text
               TextPartExamples.whole_text
               (new_manager TextPartExamples.six_parts 5)) = 6%nat.
Proof.
  split; [vm_compute; reflexivity|].
  split; [vm_compute; reflexivity|].
  exact (proj1 (build_sentences_groups TextPartExamples.lower_text
                  TextPartExamples.whole_text TextPartExamples.six_parts 5 0
                  ltac:(vm_compute; split; [discriminate|reflexivity]))).
Defined.

End TextPartGroups.
(** * Resuming: the processed audio of a stored transcript *)

Module ProcessedFacts.
Import Processed.

Lemma names_app (l1 l2 : list AudioEntry) :
  _processed_audio_names (l1 ++ l2)
  = _processed_audio_names l1 ++ _processed_audio_names l2.
Proof.
  induction l1 as [|e l1 IH]; simpl; auto.
  destruct (_processed_audio_name e) as [n|]; auto.
  destruct (nonempty n); simpl; congruence.
Qed.

Lemma named_name (e : AudioEntry) :
  named e -> exists n, _processed_audio_name e = Some n /\ nonempty n = true.
Proof.
  unfold named, truthy; destruct (_processed_audio_name e) as [n|];
    [eauto|discriminate].
Qed.

Lemma names_named (l : list AudioEntry) :
  Forall named l ->
  map Some (_processed_audio_names l) = map _processed_audio_name l.
Proof.
  induction 1 as [|e l He _ IH]; simpl; auto.
  destruct (named_name e He) as (n & -> & ->); simpl; congruence.
Qed.

Lemma names_length (l : list AudioEntry) :
  Forall named l -> length (_processed_audio_names l) = length l.
Proof.
  intros H; apply names_named in H.
  apply (f_equal (@length _)) in H; now rewrite !length_map in H.
Qed.

Lemma named_firstn (k : nat) : forall l : list AudioEntry,
  Forall named l -> Forall named (firstn k l).
Proof.
  induction k as [|k IH]; intros [|e l] H; simpl; auto.
  inversion H; subst; constructor; auto.
Qed.

Lemma names_firstn (k : nat) : forall l : list AudioEntry,
  Forall named l ->
  _processed_audio_names (firstn k l) = firstn k (_processed_audio_names l).
Proof.
  induction k as [|k IH]; intros [|e l] H; simpl; auto.
  inversion H as [|? ? He Hl]; subst.
  destruct (named_name e He) as (n & -> & ->); simpl; now rewrite IH.
Qed.

Lemma names_one (e : AudioEntry) :
  named e ->
  exists n, _processed_audio_name e = Some n /\ nonempty n = true /\
            _processed_audio_names [e] = [n].
Proof.
  intros He; destruct (named_name e He) as (n & E1 & E2).
  exists n; simpl; rewrite E1, E2; auto.
Qed.

Lemma names_removelast (l : list AudioEntry) :
  Forall named l ->
  _processed_audio_names (removelast l) = removelast (_processed_audio_names l).
Proof.
  destruct l as [|e0 l0] using rev_ind; [reflexivity|]; intros H.
  apply Forall_app in H; destruct H as [_ H]; inversion H as [|? ? He _]; subst.
  destruct (names_one e0 He) as (n & _ & _ & E).
  now rewrite names_app, E, !removelast_last.
Qed.

Lemma names_last (l : list AudioEntry) :
  Forall named l -> l <> [] ->
  _processed_audio_name (last l entry_other)
  = Some (last (_processed_audio_names l) []).
Proof.
  destruct l as [|e0 l0] using rev_ind; [congruence|]; intros H _.
  apply Forall_app in H; destruct H as [_ H]; inversion H as [|? ? He _]; subst.
  destruct (names_one e0 He) as (n & E1 & _ & E).
  now rewrite names_app, E, !last_last.
Qed.

Lemma names_nil (l : list AudioEntry) :
  Forall named l -> _processed_audio_names l = [] -> l = [].
Proof.
  intros H E; apply names_length in H; rewrite E in H.
  destruct l; [reflexivity|discriminate].
Qed.

Lemma normalize_entry_named totals name e :
  nonempty name = true ->
  named (snd (normalize_entry totals name e)) /\
  _processed_audio_name (snd (normalize_entry totals name e)) = Some name.
Proof.
  intros H; unfold normalize_entry.
  destruct (match e with entry_list _ _ => _ | _ => _ end) as [l t].
  simpl; unfold named; simpl; auto.
Qed.

Lemma normalize_loop_spec (l : list AudioEntry) : forall totals,
  Forall named (snd (normalize_loop totals l)) /\
  _processed_audio_names (snd (normalize_loop totals l))
  = _processed_audio_names l.
Proof.
  induction l as [|e l IH]; intros totals; simpl; [split; constructor|].
  destruct (_processed_audio_name e) as [n|]; [|apply IH].
  destruct (nonempty n) eqn:En; [|apply IH].
  destruct (normalize_entry_named totals n e En) as [N1 N2].
  destruct (normalize_entry totals n e) as [totals1 e1].
  destruct (IH totals1) as [I1 I2].
  destruct (normalize_loop totals1 l) as [totals2 out].
  simpl in *; split; [constructor; auto|].
  rewrite N2, En, I2; reflexivity.
Qed.

Lemma normalize_spec meta l :
  Forall named (snd (_normalize_processed_audio_list meta l)) /\
  _processed_audio_names (snd (_normalize_processed_audio_list meta l))
  = _processed_audio_names l /\
  m_processed_audio (fst (_normalize_processed_audio_list meta l))
  = m_processed_audio meta /\
  m_progress (fst (_normalize_processed_audio_list meta l)) = m_progress meta.
Proof.
  unfold _normalize_processed_audio_list.
  destruct (normalize_loop_spec l (_load_processed_audio_totals meta)) as [H1 H2].
  destruct (normalize_loop _ l) as [totals out]; simpl in *; auto.
Qed.

Lemma seen_mem_In name seen : seen_mem name seen = true <-> In name seen.
Proof.
  unfold seen_mem; rewrite existsb_exists; split.
  - intros (x & Hx & E); apply DominantFacts.str_eqb_eq in E; now subst.
  - intros H; exists name; split; auto; apply DominantFacts.str_eqb_refl.
Qed.

(** The rebuilt list names, once each, audio files of the items. *)
Lemma rebuild_from_items_spec need totals items : forall seen,
  Forall named (rebuild_from_items need totals items seen) /\
  NoDup (_processed_audio_names (rebuild_from_items need totals items seen)) /\
  forall n, In n (_processed_audio_names (rebuild_from_items need totals items seen)) ->
    ~ In n seen /\
    exists it, In it items /\ it_audio_file it = Some n /\ nonempty n = true /\
               (need = true -> item_has_end it = true).
Proof.
  induction items as [|it items IH]; intros seen; simpl.
  - split; [constructor|split; [constructor|intros n []]].
  - assert (Skip : forall seen',
      (forall n, In n seen -> In n seen') ->
      let out := rebuild_from_items need totals items seen' in
      Forall named out /\ NoDup (_processed_audio_names out) /\
      forall n, In n (_processed_audio_names out) ->
        ~ In n seen /\
        exists it0, (it = it0 \/ In it0 items) /\ it_audio_file it0 = Some n /\
                    nonempty n = true /\ (need = true -> item_has_end it0 = true)).
    { intros seen' Hs out; destruct (IH seen') as (I1 & I2 & I3).
      split; [exact I1|split; [exact I2|]].
      intros n Hn; destruct (I3 n Hn) as (J1 & it0 & J2 & J3).
      split; [intros X; apply J1, Hs, X|exists it0; tauto]. }
    destruct (it_audio_file it) as [name|] eqn:Ea; [|apply Skip; auto].
    destruct (nonempty name && (negb need || item_has_end it)
              && negb (seen_mem name seen)) eqn:Ec; [|apply Skip; auto].
    apply andb_true_iff in Ec; destruct Ec as [Ec Es].
    apply andb_true_iff in Ec; destruct Ec as [En Ee].
    apply negb_true_iff in Es.
    destruct (Skip (name :: seen) ltac:(intros; now right)) as (S1 & S2 & S3).
    destruct (IH (name :: seen)) as (_ & _ & I3).
    cbn [_processed_audio_names _processed_audio_name]; rewrite En.
    split; [constructor; [unfold named; simpl; exact En|exact S1]|].
    split.
    + constructor; [|exact S2].
      intros X; destruct (I3 name X) as [J _]; apply J; now left.
    + intros n [<-|Hn].
      * split.
        -- intros X; apply seen_mem_In in X; congruence.
        -- exists it; repeat split; auto.
           intros ->; simpl in Ee; exact Ee.
      * apply S3, Hn.
Qed.

Lemma last_committed_audio_spec items : forall acc,
  match last_committed_audio items acc with
  | Some la =>
      acc = Some la \/
      exists it, In it items /\ it_audio_file it = Some la /\
                 nonempty la = true /\ item_has_end it = true
  | None =>
      acc = None /\
      forall it, In it items ->
        truthy (it_audio_file it) && item_has_end it = false
  end.
Proof.
  induction items as [|it items IH]; intros acc; simpl.
  - destruct acc; [now left|split; [reflexivity|intros ? []]].
  - specialize (IH (if truthy (it_audio_file it) && item_has_end it
                    then it_audio_file it else acc)).
    destruct (last_committed_audio items _) as [la|].
    + destruct IH as [E|(it0 & H1 & H2)]; [|right; exists it0; tauto].
      destruct (truthy (it_audio_file it) && item_has_end it) eqn:Ec;
        [|now left].
      right; exists it; apply andb_true_iff in Ec; destruct Ec as [Et Ee].
      rewrite E in Et; simpl in Et; auto.
    + destruct IH as [E H].
      destruct (truthy (it_audio_file it) && item_has_end it) eqn:Ec.
      * apply andb_true_iff in Ec; destruct Ec as [Et _].
        rewrite E in Et; discriminate.
      * split; [exact E|intros it0 [<-|Hi]; auto].
Qed.

Lemma firstn_index_of la : forall names,
  In la names ->
  exists before,
    firstn (index_of la names + 1) names = before ++ [la] /\ ~ In la before.
Proof.
  induction names as [|n names IH]; intros H; [destruct H|].
  simpl; destruct (str_eqb n la) eqn:E.
  - apply DominantFacts.str_eqb_eq in E; subst n.
    exists []; simpl; split; [reflexivity|tauto].
  - apply DominantFacts.str_eqb_neq in E.
    destruct H as [H|H]; [congruence|].
    destruct (IH H) as (before & B1 & B2).
    exists (n :: before); simpl; rewrite B1; split; [reflexivity|].
    intros [X|X]; auto.
Qed.

Lemma NoDup_ends_fresh (names : list pystr) : NoDup names -> ends_fresh names.
Proof.
  destruct names as [|name before] using rev_ind; intros H; [now left|right].
  exists before, name; split; [reflexivity|].
  apply NoDup_remove_2 in H; rewrite app_nil_r in H; exact H.
Qed.

Lemma listed_with_progress meta X ln k its :
  listed (mkExisting (Some (with_progress (with_processed meta X) ln k)) its)
  = _processed_audio_names X.
Proof.
  unfold listed, with_progress; simpl; destruct (m_progress meta); reflexivity.
Qed.

Lemma progress_written meta X meta' p :
  Forall named X -> X <> [] ->
  with_progress (with_processed meta X) (last_name X) (len X) = meta' ->
  m_progress meta' = Some p ->
  p_last_audio p = Some (last (_processed_audio_names X) []) /\
  p_audios_done p = len (_processed_audio_names X).
Proof.
  intros HX Hne <- Hp; destruct meta as [pa t [p0|]];
    unfold with_progress, with_processed in Hp; simpl in Hp; [|discriminate].
  injection Hp as <-; cbn [p_last_audio p_audios_done]; split.
  - unfold last_name; destruct X; [congruence|]; now apply names_last.
  - unfold len; now rewrite names_length.
Qed.

(** What [_sanitize_processed_audio] leaves, given the list [X] it
    writes to [processed_audio] and syncs the progress with. *)
Lemma sanitized_with (meta : Meta) (X : list AudioEntry) (items : list Item) :
  Forall named X ->
  ends_fresh (_processed_audio_names X) ->
  (forall before name, _processed_audio_names X = before ++ [name] ->
     exists it, In it items /\ it_audio_file it = Some name) ->
  let e' := mkExisting
              (Some (with_progress (with_processed meta X) (last_name X) (len X)))
              (Some items) in
  e_items e' = Some items /\
  ends_fresh (listed e') /\
  (forall before name, listed e' = before ++ [name] ->
     exists it, In it items /\ it_audio_file it = Some name) /\
  (listed e' <> [] -> forall meta' p,
     e_meta e' = Some meta' -> m_progress meta' = Some p ->
     p_last_audio p = Some (last (listed e') []) /\
     p_audios_done p = len (listed e')).
Proof.
  intros HX Hf Hin e'; unfold e'; rewrite listed_with_progress.
  split; [reflexivity|split; [exact Hf|split]].
  - exact Hin.
  - intros Hne meta' p Em Ep; simpl in Em; injection Em as Em.
    apply (progress_written meta X meta' p); auto.
    intros ->; apply Hne; reflexivity.
Qed.

Lemma names_nonempty (l : list AudioEntry) :
  Forall (fun n => nonempty n = true) (_processed_audio_names l).
Proof.
  induction l as [|e l IH]; simpl; [constructor|].
  destruct (_processed_audio_name e) as [n|]; auto.
  destruct (nonempty n) eqn:E; auto.
Qed.

Lemma of_audio_false name it :
  of_audio name it = false -> it_audio_file it <> Some name.
Proof.
  unfold of_audio; destruct (it_audio_file it) as [n|]; [|discriminate].
  intros E; apply DominantFacts.str_eqb_neq in E; congruence.
Qed.

Lemma map_rewound name (items : list Item) :
  Forall2 (rewound name) items
    (map (fun it => if of_audio name it then cleared it else it) items) /\
  Forall (fun it' => it_audio_file it' <> Some name)
    (map (fun it => if of_audio name it then cleared it else it) items).
Proof.
  induction items as [|it items [IH1 IH2]]; simpl; [split; constructor|].
  split; constructor; auto.
  - unfold rewound; destruct (of_audio name it); simpl; auto.
  - destruct (of_audio name it) eqn:E; [simpl; discriminate|].
    now apply of_audio_false.
Qed.

(** The resume loop run on rewound items replays no item of the
    rewound audio. *)
Lemma prime_loop_rewound name (items : list Item) : forall ss k a,
  let run := prime_loop
               (map (fun it => if of_audio name it then cleared it else it) items)
               ss k a in
  exists (n : nat) more,
    fst run = k + Z.of_nat n /\
    Forall (fun it => it_audio_file it <> Some name) (firstn n items) /\
    results (snd run) = results a ++ more /\
    Forall (fun r => src_of r <> Some name) more.
Proof.
  induction items as [|it items IH]; intros ss k a; simpl.
  - exists 0%nat, []; simpl; rewrite app_nil_r; repeat split; auto; lia.
  - assert (Stop : exists (n : nat) more,
              fst (k, a) = k + Z.of_nat n /\
              Forall (fun it0 => it_audio_file it0 <> Some name)
                (firstn n (it :: items)) /\
              results (snd (k, a)) = results a ++ more /\
              Forall (fun r => src_of r <> Some name) more).
    { exists 0%nat, []; simpl; rewrite app_nil_r; repeat split; auto; lia. }
    destruct ss as [|s ss]; [exact Stop|].
    set (it' := if of_audio name it then cleared it else it).
    destruct (negb (str_eqb (strip (text_or_empty (it_text it')))
                      (strip (s_text s)))); [exact Stop|].
    destruct (it_start_ms it') as [st|] eqn:Est; [|exact Stop].
    assert (Hit : of_audio name it = false).
    { unfold it' in Est; destruct (of_audio name it); [discriminate|reflexivity]. }
    assert (Eit : it' = it) by (unfold it'; now rewrite Hit).
    destruct (IH ss (k + 1)
                (set_progress a
                   (results a ++
                    [(s, Some st,
                      Some (match it_end_ms it' with Some en => en | None => st end),
                      it_audio_file it')])
                   (sent_idx a) (cursor a) st
                   (match it_end_ms it' with Some en => en | None => st end)))
      as (n & more & I1 & I2 & I3 & I4).
    exists (S n), ((s, Some st,
                    Some (match it_end_ms it' with Some en => en | None => st end),
                    it_audio_file it') :: more).
    split; [rewrite I1; lia|].
    split; [simpl; constructor; [now apply of_audio_false|exact I2]|].
    split.
    + rewrite I3; simpl; now rewrite <- app_assoc.
    + constructor; [|exact I4].
      rewrite Eit; cbn; now apply of_audio_false.
Qed.

End ProcessedFacts.

Module ProcessedAudio.
Import Processed ProcessedFacts.

(** [_sanitize_processed_audio] keeps the items and leaves a list
    of processed audio whose last name stands nowhere else in it and is
    the audio file of an item.  The list is empty when no item with an
    audio file has an end; when the list names the audio file of the last
    such item, it is cut right after the first entry of that file.  When
    the list is left non-empty, [progress] records its last name and its
    length. *)
Theorem sanitize_processed_audio_spec (meta0 : Meta) (items : list Item) :
  let e := mkExisting (Some meta0) (Some items) in
  let e' := _sanitize_processed_audio e in
  e_items e' = Some items /\
  ends_fresh (listed e') /\
  (forall before name, listed e' = before ++ [name] ->
     exists it, In it items /\ it_audio_file it = Some name) /\
  (listed e' <> [] -> forall meta' p,
     e_meta e' = Some meta' -> m_progress meta' = Some p ->
     p_last_audio p = Some (last (listed e') []) /\
     p_audios_done p = len (listed e')) /\
  (last_committed_audio items None = None -> listed e' = []) /\
  (forall la, last_committed_audio items None = Some la ->
     In la (listed e) ->
     listed e' = firstn (index_of la (listed e) + 1) (listed e)).
Proof.
  intros e e'; unfold e', e, _sanitize_processed_audio; cbn [e_meta e_items].
  destruct (normalize_spec meta0 (processed_or_empty meta0)) as (N1 & N2 & N3 & N4).
  destruct (_normalize_processed_audio_list meta0 (processed_or_empty meta0))
    as [meta1 processed]; cbn [fst snd] in N1, N2, N3, N4.
  change (listed (mkExisting (Some meta0) (Some items)))
    with (_processed_audio_names (processed_or_empty meta0)).
  rewrite <- N2.
  set (meta := with_processed meta1 processed).
  assert (Pack : forall (A B C D E F : Prop), (A /\ B /\ C /\ D) -> E -> F ->
                 A /\ B /\ C /\ D /\ E /\ F) by tauto.
  pose proof (last_committed_audio_spec items None) as L.
  destruct processed as [|p0 pr]; cbn [nonempty_list negb].
  - destruct (rebuild_from_items_spec true (_load_processed_audio_totals meta)
                items []) as (R1 & R2 & R3).
    destruct (rebuild_from_items true (_load_processed_audio_totals meta) items [])
      as [|o os] eqn:Eo; cbn [nonempty_list].
    + cbn [listed e_meta e_items processed_or_empty m_processed_audio meta
           with_processed _processed_audio_names].
      repeat split; auto; try (now left); try congruence;
        try (intros before name E; destruct before; discriminate);
        try (intros la _ []).
    + apply Pack.
      * apply sanitized_with; auto.
        -- now apply NoDup_ends_fresh.
        -- intros before name Hn.
           destruct (R3 name) as (_ & it & H1 & H2 & _); eauto.
           rewrite Hn, in_app_iff; right; now left.
      * intros El; rewrite El in L; destruct L as [_ L].
        rewrite listed_with_progress.
        destruct (_processed_audio_names (o :: os)) as [|n ns] eqn:En;
          [reflexivity|exfalso].
        destruct (R3 n ltac:(now left)) as (_ & it & H1 & H2 & H3 & H4).
        specialize (L it H1); rewrite H2 in L; simpl in L.
        rewrite H3, (H4 eq_refl) in L; discriminate.
      * intros la _ [].
  - destruct (last_committed_audio items None) as [la|] eqn:El.
    + destruct L as [L|(itl & L1 & L2 & L3 & L4)]; [discriminate|].
      destruct (seen_mem la (_processed_audio_names (p0 :: pr))) eqn:Es.
      * apply seen_mem_In in Es.
        destruct (firstn_index_of la _ Es) as (before & B1 & B2).
        cbn [processed_or_empty m_processed_audio with_processed meta].
        assert (Nf : _processed_audio_names
                       (firstn (index_of la (_processed_audio_names (p0 :: pr)) + 1)
                          (p0 :: pr))
                     = before ++ [la])
          by (now rewrite names_firstn, B1).
        apply Pack.
        -- apply sanitized_with; auto.
           ++ now apply named_firstn.
           ++ rewrite Nf; right; eauto.
           ++ rewrite Nf; intros before' name E.
              apply app_inj_tail in E; destruct E as [_ <-]; eauto.
        -- discriminate.
        -- intros la' E _; injection E as <-.
           rewrite listed_with_progress.
           now apply names_firstn.
      * destruct (rebuild_from_items_spec false (_load_processed_audio_totals meta)
                    items []) as (R1 & R2 & R3).
        cbn [processed_or_empty m_processed_audio with_processed meta].
        apply Pack.
        -- apply sanitized_with; auto.
           ++ now apply NoDup_ends_fresh.
           ++ intros before name Hn.
              destruct (R3 name) as (_ & it & H1 & H2 & _); eauto.
              rewrite Hn, in_app_iff; right; now left.
        -- discriminate.
        -- intros la' E Hin; injection E as <-.
           apply seen_mem_In in Hin; congruence.
    + cbn [processed_or_empty m_processed_audio with_processed meta].
      apply Pack.
      * apply sanitized_with; auto; [now left|].
        intros before name E; destruct before; discriminate.
      * intros _; apply listed_with_progress.
      * discriminate.
Qed.

Lemma sanitize_processed_audio_spec_witness :
  listed (_sanitize_processed_audio ResumeExamples.stored_transcript)
  = [lit "a.wav"; lit "b.wav"].
Proof.
  destruct (sanitize_processed_audio_spec ResumeExamples.three_listed
              ResumeExamples.two_committed) as (_ & _ & _ & _ & _ & H).
  change (mkExisting (Some ResumeExamples.three_listed)
            (Some ResumeExamples.two_committed))
    with ResumeExamples.stored_transcript in H.
  rewrite (H (lit "b.wav")).
  - vm_compute; reflexivity.
  - vm_compute; reflexivity.
  - vm_compute; right; left; reflexivity.
Defined.

(** [_rewind_last_audio] returns the last name of the list of
    processed audio and takes its entry off the list; the items of that
    audio file lose their times and their audio file, every other item is
    left as it is, and no text changes.  With no name in the list it
    returns [None] and leaves the items alone. *)
Theorem rewind_last_audio_spec (meta0 : Meta) (its : option (list Item)) :
  let e := mkExisting (Some meta0) its in
  let e' := fst (_rewind_last_audio e) in
  let r := snd (_rewind_last_audio e) in
  (listed e = [] -> r = None /\ e_items e' = its /\ listed e' = []) /\
  (forall before name, listed e = before ++ [name] ->
     r = Some name /\ nonempty name = true /\ listed e' = before /\
     Forall2 (rewound name) (items_or_empty e) (items_or_empty e') /\
     Forall (fun it' => it_audio_file it' <> Some name) (items_or_empty e')).
Proof.
  intros e e' r; unfold e', r, e, _rewind_last_audio; cbn [e_meta e_items].
  destruct (normalize_spec meta0 (processed_or_empty meta0)) as (N1 & N2 & N3 & N4).
  destruct (_normalize_processed_audio_list meta0 (processed_or_empty meta0))
    as [meta1 processed]; cbn [fst snd] in N1, N2, N3, N4.
  change (listed (mkExisting (Some meta0) its))
    with (_processed_audio_names (processed_or_empty meta0)).
  rewrite <- N2.
  destruct processed as [|p0 pr]; cbn [nonempty_list negb fst snd].
  - split.
    + intros _; repeat split.
      unfold listed, processed_or_empty; cbn [e_meta].
      rewrite N3; fold (processed_or_empty meta0); now rewrite <- N2.
    + intros before name E; destruct before; discriminate.
  - split.
    + intros E; apply names_nil in E; [discriminate|exact N1].
    + intros before name E.
      pose proof (names_last (p0 :: pr) N1 ltac:(discriminate)) as El.
      rewrite E, last_last in El.
      pose proof (names_nonempty (p0 :: pr)) as Hne.
      rewrite E in Hne; apply Forall_app in Hne; destruct Hne as [_ Hne].
      inversion Hne as [|? ? Hn _]; subst.
      pose proof (names_removelast (p0 :: pr) N1) as Er.
      rewrite E, removelast_last in Er.
      rewrite El.
      destruct its as [items|]; [rewrite Hn|]; cbn [fst snd].
      * destruct (map_rewound name items) as [M1 M2].
        repeat split; auto.
      * repeat split; auto; constructor.
Qed.

Lemma rewind_last_audio_spec_witness :
  snd (_rewind_last_audio ResumeExamples.stored_transcript) = Some (lit "c.wav")
  /\ listed (fst (_rewind_last_audio ResumeExamples.stored_transcript))
     = [lit "a.wav"; lit "b.wav"].
Proof.
  destruct (rewind_last_audio_spec ResumeExamples.three_listed
              (Some ResumeExamples.two_committed)) as [_ H].
  destruct (H [lit "a.wav"; lit "b.wav"] (lit "c.wav")
              ltac:(vm_compute; reflexivity)) as (H1 & _ & H3 & _).
  split; [exact H1|exact H3].
Defined.

(** Resuming does the last audio again.  When
    [_rewind_last_audio], run after [_sanitize_processed_audio], returns
    the name of an audio file, that name is not among the names of the
    processed audio that [_prime_from_existing] returns, no item refers
    to it any more, and [_prime_from_existing] replays only items that
    stand before the first item of that audio file: no entry it appends
    to the results comes from it. *)
Theorem resume_redoes_last_audio (meta0 : Meta) (items : list Item)
  (ss : list Sentence) (a : Aligner) (name : pystr) :
  let e1 := _sanitize_processed_audio (mkExisting (Some meta0) (Some items)) in
  snd (_rewind_last_audio e1) = Some name ->
  let e2 := fst (_rewind_last_audio e1) in
  let run := _prime_from_existing (items_or_empty e2) ss a in
  ~ In name (_processed_audio_names (primed_processed_audio e2)) /\
  Forall (fun it => it_audio_file it <> Some name) (items_or_empty e2) /\
  Forall (fun it => it_audio_file it <> Some name)
    (firstn (Z.to_nat (fst run)) items) /\
  exists more,
    results (snd run) = results a ++ more /\
    Forall (fun r => src_of r <> Some name) more.
Proof.
  intros e1 Hr e2 run.
  destruct (sanitize_processed_audio_spec meta0 items)
    as (S1 & S2 & _); fold e1 in S1, S2.
  destruct (e_meta e1) as [meta1|] eqn:Em;
    [|unfold _rewind_last_audio in Hr; rewrite Em in Hr; discriminate].
  assert (E1 : e1 = mkExisting (Some meta1) (Some items))
    by (destruct e1; simpl in *; congruence).
  destruct (rewind_last_audio_spec meta1 (Some items)) as [R0 R1].
  rewrite <- E1 in R0, R1; fold e2 in R0, R1.
  destruct S2 as [Z|(before & name' & Eb & Hfresh)].
  { destruct (R0 Z) as (X & _); congruence. }
  destruct (R1 before name' Eb) as (X1 & X2 & X3 & X4 & X5).
  assert (name' = name) by congruence; subst name'.
  assert (Ei : items_or_empty e2
               = map (fun it => if of_audio name it then cleared it else it) items).
  { unfold e2, _rewind_last_audio; rewrite E1; cbn [e_meta e_items].
    unfold _rewind_last_audio in X1; rewrite E1 in X1; cbn [e_meta e_items] in X1.
    destruct (_normalize_processed_audio_list meta1 (processed_or_empty meta1))
      as [m2 processed].
    destruct (negb (nonempty_list processed)); [discriminate|].
    cbn [snd] in X1.
    destruct (_processed_audio_name (last processed entry_other)) as [n|];
      [|cbn [snd] in X1; discriminate].
    destruct (nonempty n) eqn:En.
    - cbn [snd] in X1; injection X1 as ->; reflexivity.
    - cbn [snd] in X1; injection X1 as ->; congruence. }
  split; [|split; [exact X5|]].
  - unfold primed_processed_audio.
    destruct (e_meta e2) as [m2|] eqn:Em2; [|intros []].
    destruct (normalize_spec m2 (processed_or_empty m2)) as (_ & N2 & _).
    rewrite N2.
    replace (_processed_audio_names (processed_or_empty m2)) with (listed e2)
      by (unfold listed; now rewrite Em2).
    now rewrite X3.
  - unfold run, _prime_from_existing; rewrite Ei.
    destruct (prime_loop_rewound name items ss 0 a) as (n & more & P1 & P2 & P3 & P4).
    destruct (prime_loop _ ss 0 a) as [k a1]; cbn [fst snd] in *.
    split.
    + rewrite P1; replace (Z.to_nat (0 + Z.of_nat n)) with n by lia; exact P2.
    + exists more; split; [exact P3|exact P4].
Qed.

Lemma resume_redoes_last_audio_witness :
  let e2 := fst (_rewind_last_audio
                   (_sanitize_processed_audio ResumeExamples.stored_transcript)) in
  ~ In (lit "b.wav") (_processed_audio_names (primed_processed_audio e2))
  /\ fst (_prime_from_existing (items_or_empty e2)
            ResumeExamples.three_sentences
            (new_aligner ResumeExamples.three_sentences)) = 1.
Proof.
  cbv zeta; split; [|vm_compute; reflexivity].
  exact (proj1 (resume_redoes_last_audio ResumeExamples.three_listed
                  ResumeExamples.two_committed ResumeExamples.three_sentences
                  (new_aligner ResumeExamples.three_sentences) (lit "b.wav")
                  ltac:(vm_compute; reflexivity))).
Defined.

End ProcessedAudio.
(** * The orders of the sentences *)

Module OrderMapFacts.
Import SeekFacts OrderMap.

(** A position that [_find_token_subsequence] returns holds the
    sequence and is not before the start. *)
Lemma find_token_subsequence_hit (stream seq : list pystr) (start : Z)
  (max_seek : option Z) (pos : Z) :
  seq <> [] ->
  _find_token_subsequence stream seq start max_seek = Some pos ->
  Z.max 0 start <= pos /\ occurs_at stream seq pos.
Proof.
  intros Hseq; destruct seq as [|first rest]; [contradiction|].
  unfold _find_token_subsequence.
  replace (if start <? 0 then 0 else start) with (Z.max 0 start)
    by (destruct (start <? 0) eqn:E; [apply Z.ltb_lt in E|apply Z.ltb_ge in E]; lia).
  set (lo := Z.max 0 start).
  destruct (len stream - len (first :: rest) <? lo); [discriminate|].
  set (max_i := match max_seek with Some m => _ | None => _ end).
  pose proof (seek_spec stream first rest max_i (Z.to_nat (max_i - lo + 1)) lo) as S.
  intros E; rewrite E in S.
  destruct S as (S1 & S2 & _); [unfold lo; lia|lia|].
  split; [lia|exact S2].
Qed.

Section Assign.
Variable tokens_of : pystr -> list pystr.

Lemma flatten_spec (parts : list Part) :
  flatten tokens_of parts = (part_tokens tokens_of parts, token_orders tokens_of parts).
Proof.
  induction parts as [|[[text order]|] parts IH]; simpl; auto.
  now rewrite IH.
Qed.

Lemma token_orders_length (parts : list Part) :
  length (token_orders tokens_of parts) = length (part_tokens tokens_of parts).
Proof.
  induction parts as [|[[text order]|] parts IH]; simpl; auto.
  now rewrite !length_app, length_map, IH.
Qed.

Lemma assign_loop_placed (ft : list pystr) (fo : list (option Z))
  (sentences : list (list pystr)) :
  forall cursor, 0 <= cursor ->
  placed ft fo cursor sentences (assign_loop ft fo sentences cursor).
Proof.
  induction sentences as [|tokens ss IH]; intros cursor Hc; simpl; auto.
  destruct tokens as [|t ts]; cbn [nonempty_list negb]; [left; auto|].
  destruct (_find_token_subsequence ft (t :: ts) cursor default_max_seek)
    as [pos|] eqn:E; [|left; auto].
  destruct (find_token_subsequence_hit ft (t :: ts) cursor _ pos
              ltac:(discriminate) E) as [H1 H2].
  pose proof (occurs_at_fits ft (t :: ts) pos ltac:(discriminate) H2) as H3.
  right; exists pos; repeat split; try lia; try discriminate.
  - apply H2.
  - apply IH; unfold len; lia.
Qed.

Lemma assign_loop_length (ft : list pystr) (fo : list (option Z))
  (sentences : list (list pystr)) :
  forall cursor, length (assign_loop ft fo sentences cursor) = length sentences.
Proof.
  induction sentences as [|tokens ss IH]; intros cursor; cbn [assign_loop]; auto.
  destruct (negb (nonempty_list tokens)); [simpl; now rewrite IH|].
  destruct (_find_token_subsequence ft tokens cursor default_max_seek);
    simpl; now rewrite IH.
Qed.

End Assign.

End OrderMapFacts.

Module OrderMapClaims.
Import OrderMap OrderMapFacts.

(** [_assign_orders_to_sentences] gives every sentence an order.
    With no token in the parts the orders stay as they are.  Otherwise the
    sentences are placed in the token stream of the parts from left to
    right: a sentence either gets [None], or its tokens stand in the stream
    at a place that starts where the place of the sentence before it ends or
    later, and it gets the dominant order of the parts that the tokens of
    that place come from. *)
Theorem assign_orders_placed (tokens_of : pystr -> list pystr)
  (sentences : list (list pystr * option Z)) (parts : list Part) :
  let orders := _assign_orders_to_sentences tokens_of sentences parts in
  length orders = length sentences /\
  length (token_orders tokens_of parts) = length (part_tokens tokens_of parts) /\
  (part_tokens tokens_of parts = [] -> orders = map snd sentences) /\
  (part_tokens tokens_of parts <> [] ->
     placed (part_tokens tokens_of parts) (token_orders tokens_of parts) 0
       (map fst sentences) orders).
Proof.
  cbv zeta; unfold _assign_orders_to_sentences; rewrite flatten_spec.
  pose proof (assign_loop_placed (part_tokens tokens_of parts)
                (token_orders tokens_of parts) (map fst sentences) 0
                ltac:(lia)) as P.
  split; [|split; [apply token_orders_length|split]].
  - destruct (part_tokens tokens_of parts); cbn [nonempty_list negb].
    + apply length_map.
    + now rewrite assign_loop_length, length_map.
  - intros ->; reflexivity.
  - intros H; destruct (part_tokens tokens_of parts); [congruence|exact P].
Qed.

Lemma assign_orders_placed_witness :
  _assign_orders_to_sentences OrderMapExamples.one_word OrderMapExamples.a_bc
    OrderMapExamples.abc_parts = [Some 1; Some 2]
  /\ placed (part_tokens OrderMapExamples.one_word OrderMapExamples.abc_parts)
       (token_orders OrderMapExamples.one_word OrderMapExamples.abc_parts) 0
       (map fst OrderMapExamples.a_bc)
       (_assign_orders_to_sentences OrderMapExamples.one_word
          OrderMapExamples.a_bc OrderMapExamples.abc_parts).
Proof.
  split; [vm_compute; reflexivity|].
  destruct (assign_orders_placed OrderMapExamples.one_word OrderMapExamples.a_bc
              OrderMapExamples.abc_parts) as (_ & _ & _ & H).
  apply H; vm_compute; discriminate.
Defined.

End OrderMapClaims.
(** * Coalescing short sentences within their buckets *)

Module CoalesceFacts.
Import Coalesce.

Lemma bucket_eqb_eq (a b : Bucket) : bucket_eqb a b = true <-> a = b.
Proof.
  destruct a as [a1 a2], b as [b1 b2]; unfold bucket_eqb; simpl.
  rewrite andb_true_iff, !SuborderFacts.chunk_eqb_eq.
  split; [intros [-> ->]; reflexivity|intros E; inversion E; auto].
Qed.

Lemma runs_twice (xs : list Bucket) (a : Bucket) (ys : list Bucket) :
  runs (xs ++ a :: a :: ys) = runs (xs ++ a :: ys).
Proof.
  assert (Haa : bucket_eqb a a = true) by now apply bucket_eqb_eq.
  induction xs as [|x xs IH].
  - change (runs ([] ++ a :: a :: ys))
      with (if bucket_eqb a a then runs (a :: ys) else a :: runs (a :: ys)).
    now rewrite Haa.
  - destruct xs as [|x' xs'].
    + change (runs ([x] ++ a :: a :: ys))
        with (if bucket_eqb x a then runs (a :: a :: ys)
              else x :: runs (a :: a :: ys)).
      change (runs ([x] ++ a :: ys))
        with (if bucket_eqb x a then runs (a :: ys) else x :: runs (a :: ys)).
      change (runs (a :: a :: ys))
        with (if bucket_eqb a a then runs (a :: ys) else a :: runs (a :: ys)).
      now rewrite Haa.
    + change (runs ((x :: x' :: xs') ++ a :: a :: ys))
        with (if bucket_eqb x x' then runs ((x' :: xs') ++ a :: a :: ys)
              else x :: runs ((x' :: xs') ++ a :: a :: ys)).
      change (runs ((x :: x' :: xs') ++ a :: ys))
        with (if bucket_eqb x x' then runs ((x' :: xs') ++ a :: ys)
              else x :: runs ((x' :: xs') ++ a :: ys)).
      now rewrite IH.
Qed.

Lemma nth_error_pair {A} (items : list A) (j : nat) (p s : A) :
  nth_error items j = Some p -> nth_error items (S j) = Some s ->
  exists xs ys, items = xs ++ p :: s :: ys /\ length xs = j.
Proof.
  revert items; induction j as [|j IH]; intros [|h t] Hp Hs; try discriminate.
  - destruct t as [|h' t']; [discriminate|].
    simpl in Hp, Hs; injection Hp as ->; injection Hs as ->.
    exists [], t'; auto.
  - simpl in Hp; change (nth_error (h :: t) (S (S j))) with (nth_error t (S j)) in Hs.
    destruct (IH t Hp Hs) as (xs & ys & -> & L).
    exists (h :: xs), ys; simpl; auto.
Qed.

Lemma merge_into_first {A} (xs : list A) (p s m : A) (ys : list A) :
  del_item (S (length xs)) (set_item (length xs) m (xs ++ p :: s :: ys))
  = xs ++ m :: ys.
Proof.
  induction xs as [|x xs IH]; [reflexivity|].
  cbn [length app set_item del_item]; f_equal; exact IH.
Qed.

Lemma merge_into_second {A} (xs : list A) (s nx m : A) (ys : list A) :
  del_item (length xs) (set_item (S (length xs)) m (xs ++ s :: nx :: ys))
  = xs ++ m :: ys.
Proof.
  induction xs as [|x xs IH]; [reflexivity|].
  cbn [length app set_item del_item]; f_equal; exact IH.
Qed.

Section Merge.
Variable make_sentence : pystr -> Sentence.
Variables min_chars min_tokens : Z.

Local Notation "'loop'" := (coalesce_loop make_sentence min_chars min_tokens).
Local Notation "'short'" := (_too_short min_chars min_tokens).

(** One merge: the list loses one sentence, and the buckets lose one
    of two equal neighbours. *)
Lemma merged_pair (items : list MetaSentence) (j : nat) (a b : MetaSentence)
  (keep : Bucket) (items' : list MetaSentence) :
  nth_error items j = Some a -> nth_error items (S j) = Some b ->
  _same_bucket a b = true ->
  (keep = snd a \/ keep = snd b) ->
  (items' = del_item (S j)
              (set_item j (_merge_sentences_with_meta make_sentence a b keep) items)
   \/ items' = del_item j
                 (set_item (S j) (_merge_sentences_with_meta make_sentence a b keep)
                    items)) ->
  runs (map snd items') = runs (map snd items) /\
  S (length items') = length items.
Proof.
  intros Ha Hb Hs Hk Hi.
  destruct (nth_error_pair items j a b Ha Hb) as (xs & ys & -> & <-).
  assert (Eab : snd a = snd b) by (apply bucket_eqb_eq; exact Hs).
  assert (E : items' = xs ++ _merge_sentences_with_meta make_sentence a b keep :: ys).
  { destruct Hi as [->| ->];
      [apply merge_into_first|apply merge_into_second]. }
  rewrite E, !map_app; cbn [map snd _merge_sentences_with_meta].
  split.
  - rewrite <- Eab, runs_twice.
    destruct Hk as [->| ->]; [reflexivity|now rewrite Eab].
  - rewrite !length_app; simpl; lia.
Qed.

(** The loop keeps the runs of buckets and never lengthens the list. *)
Lemma coalesce_loop_runs (fuel : nat) : forall items i,
  runs (map snd (loop fuel items i)) = runs (map snd items) /\
  (length (loop fuel items i) <= length items)%nat.
Proof.
  induction fuel as [|fuel IH]; intros items i; cbn [coalesce_loop]; auto.
  destruct (nth_error items i) as [s|] eqn:Es; auto.
  destruct (negb (short s)); [apply IH|].
  assert (Next :
    let r := match nth_error items (S i) with
             | Some next =>
                 if _same_bucket s next then
                   loop fuel
                     (del_item i
                        (set_item (S i)
                           (_merge_sentences_with_meta make_sentence s next (snd next))
                           items)) i
                 else loop fuel items (S i)
             | None => loop fuel items (S i)
             end in
    runs (map snd r) = runs (map snd items) /\ (length r <= length items)%nat).
  { destruct (nth_error items (S i)) as [next|] eqn:En; [|apply IH].
    destruct (_same_bucket s next) eqn:Eb; [|apply IH].
    cbv zeta.
    destruct (merged_pair items i s next (snd next) _ Es En Eb
                ltac:(now right) ltac:(right; reflexivity)) as [M1 M2].
    destruct (IH (del_item i
                    (set_item (S i)
                       (_merge_sentences_with_meta make_sentence s next (snd next))
                       items)) i) as [I1 I2].
    split; [congruence|lia]. }
  destruct i as [|j]; cbn [prev_item]; [exact Next|].
  destruct (nth_error items j) as [prev|] eqn:Ep; [|exact Next].
  destruct (_same_bucket prev s) eqn:Eb; [|exact Next].
  replace (S j - 1)%nat with j by lia.
  destruct (merged_pair items j prev s (snd prev) _ Ep Es Eb
              ltac:(now left) ltac:(left; reflexivity)) as [M1 M2].
  destruct (IH (del_item (S j)
                  (set_item j
                     (_merge_sentences_with_meta make_sentence prev s (snd prev))
                     items)) (S j)) as [I1 I2].
  split; [congruence|lia].
Qed.

(** The fuel is enough: more of it changes nothing. *)
Lemma coalesce_loop_enough (fuel : nat) : forall items i extra,
  (i <= length items)%nat -> (2 * length items - i <= fuel)%nat ->
  loop (fuel + extra) items i = loop fuel items i.
Proof.
  induction fuel as [|fuel IH]; intros items i extra Hi Hf.
  - assert (length items = 0)%nat by lia.
    destruct items; [|discriminate].
    destruct extra; cbn [coalesce_loop Nat.add]; [reflexivity|].
    now destruct i.
  - cbn [Nat.add coalesce_loop].
    destruct (nth_error items i) as [s|] eqn:Es; auto.
    assert (Hlt : (i < length items)%nat)
      by (apply nth_error_Some; congruence).
    assert (Up : loop (fuel + extra) items (S i) = loop fuel items (S i))
      by (apply IH; lia).
    destruct (negb (short s)); [exact Up|].
    assert (Next :
      match nth_error items (S i) with
      | Some next =>
          if _same_bucket s next then
            loop (fuel + extra)
              (del_item i
                 (set_item (S i)
                    (_merge_sentences_with_meta make_sentence s next (snd next))
                    items)) i
          else loop (fuel + extra) items (S i)
      | None => loop (fuel + extra) items (S i)
      end =
      match nth_error items (S i) with
      | Some next =>
          if _same_bucket s next then
            loop fuel
              (del_item i
                 (set_item (S i)
                    (_merge_sentences_with_meta make_sentence s next (snd next))
                    items)) i
          else loop fuel items (S i)
      | None => loop fuel items (S i)
      end).
    { destruct (nth_error items (S i)) as [next|] eqn:En; [|exact Up].
      destruct (_same_bucket s next) eqn:Eb; [|exact Up].
      destruct (merged_pair items i s next (snd next) _ Es En Eb
                  ltac:(now right) ltac:(right; reflexivity)) as [_ M2].
      apply IH; lia. }
    destruct i as [|j]; cbn [prev_item]; [exact Next|].
    destruct (nth_error items j) as [prev|] eqn:Ep; [|exact Next].
    destruct (_same_bucket prev s) eqn:Eb; [|exact Next].
    replace (S j - 1)%nat with j by lia.
    destruct (merged_pair items j prev s (snd prev) _ Ep Es Eb
                ltac:(now left) ltac:(left; reflexivity)) as [_ M2].
    apply IH; lia.
Qed.

(** A list without short sentences is left as it is. *)
Lemma coalesce_loop_none_short (fuel : nat) : forall items i,
  Forall (fun s => short s = false) items -> loop fuel items i = items.
Proof.
  induction fuel as [|fuel IH]; intros items i H; cbn [coalesce_loop]; auto.
  destruct (nth_error items i) as [s|] eqn:Es; auto.
  apply nth_error_In in Es.
  rewrite Forall_forall in H; rewrite (H s Es); cbn [negb].
  apply IH; now apply Forall_forall.
Qed.

End Merge.

End CoalesceFacts.

Module CoalesceClaims.
Import Coalesce CoalesceFacts.

(** [_coalesce_short_sentences_with_meta] never lengthens the list
    and merges neighbours of one bucket only, keeping the [meta] of one of
    them: the runs of equal (chunk, order) buckets are the same before and
    after, so no bucket is lost and none is joined with another.  A list
    without too short a sentence is left as it is.  The loop comes to its
    end within twice as many rounds as the list has sentences. *)
Theorem coalesce_keeps_buckets (make_sentence : pystr -> Sentence)
  (min_chars min_tokens : Z) (items : list MetaSentence) :
  let out := _coalesce_short_sentences_with_meta make_sentence min_chars
               min_tokens items in
  runs (map snd out) = runs (map snd items) /\
  (length out <= length items)%nat /\
  (items <> [] -> out <> []) /\
  (Forall (fun s => _too_short min_chars min_tokens s = false) items ->
   out = items) /\
  (~ (min_chars <= 0 /\ min_tokens <= 0) ->
   forall extra,
     coalesce_loop make_sentence min_chars min_tokens
       (2 * length items + extra) items 0 = out).
Proof.
  cbv zeta; unfold _coalesce_short_sentences_with_meta.
  destruct ((min_chars <=? 0) && (min_tokens <=? 0)) eqn:E.
  - apply andb_true_iff in E; destruct E as [E1 E2].
    apply Z.leb_le in E1, E2.
    repeat split; auto; intros; lia.
  - destruct (coalesce_loop_runs make_sentence min_chars min_tokens
                (2 * length items) items 0) as [R1 R2].
    split; [exact R1|split; [exact R2|split; [|split]]].
    + intros Hne Ho; rewrite Ho in R1; simpl in R1.
      destruct items as [|[s b] items]; [congruence|].
      simpl in R1; destruct (map snd items) as [|b' bs]; [discriminate|].
      destruct (bucket_eqb b b'); [|discriminate].
      clear -R1; revert b' R1; induction bs as [|b'' bs IH]; intros b' R1;
        [discriminate|].
      simpl in R1; destruct (bucket_eqb b' b''); [|discriminate].
      eapply IH; exact R1.
    + apply coalesce_loop_none_short.
    + intros _ extra; apply coalesce_loop_enough; lia.
Qed.

Lemma coalesce_keeps_buckets_witness :
  let out := _coalesce_short_sentences_with_meta CoalesceExamples.plain_sentence
               4 0 CoalesceExamples.five_sentences in
  map (fun s => s_text (fst s)) out
  = [lit "aaaaa bb"; lit "cc dddddd"; lit "e"]
  /\ out <> [].
Proof.
  cbv zeta; split; [vm_compute; reflexivity|].
  destruct (coalesce_keeps_buckets CoalesceExamples.plain_sentence 4 0
              CoalesceExamples.five_sentences) as (_ & _ & H & _).
  apply H; discriminate.
Defined.

End CoalesceClaims.
